(** * PyCNP: a shallow embedding of the optimisation engine

    The development follows the C++ sources of the solver:
    - [CNP_Graph.cpp]  : incremental connected components under add/remove;
    - [DCNP_Graph.cpp] : incremental K-hop reachability tables;
    - [Graph.cpp]      : the tagged wrapper over the two engines;
    - [CBNSStrategy.cpp], [CHNSStrategy.cpp], [DLASStrategy.cpp] : local searches;
    - [SearchUtils.h], [Search.cpp], [Population.cpp] : seeding of the
      local-search streams.

    Conventions.  A [Node] is a natural number (vertex ids are [0 .. n-1]);
    [std::unordered_set<Node>] is a [gset Node] and is iterated through
    [elements]; [std::vector<T>] is a [list T] read with [!!!] and written with
    [<[i:=x]>]; C++ [int] quantities that may hold the sentinel [-1] are in [Z].
    Objective values are far below [2^31] for the graph sizes the solver
    handles, so [int] arithmetic on them is written in [Z] without wrap-around.
    Exceptions and loop fuel are made explicit by the [result] monad. *)

From stdpp Require Import gmap list relations sorting strings.
From Stdlib Require Import ZArith QArith.
Open Scope Z_scope.
Open Scope nat_scope.

(** [using Node = int; using Age = int; using ComponentIndex = int;] (Types.h) *)
Abbreviation Node := nat (only parsing).
Abbreviation Age := Z (only parsing).
Abbreviation ComponentIndex := Z (only parsing).

(** [constexpr Node INVALID_NODE = -1;] (Types.h) *)
Definition INVALID_NODE : Z := (-1)%Z.

#[global] Instance Q_inhabited : Inhabited Q := populate 0%Q.

(** ** Exceptions *)

Inductive exn :=
| runtime_error        (* std::runtime_error *)
| invalid_argument     (* std::invalid_argument *)
| undefined_behaviour  (* a vector indexed with a negative value *)
| out_of_fuel.         (* a loop of the model ran out of fuel *)

Inductive result (A : Type) :=
| Ok (a : A)
| Throw (e : exn).
Arguments Ok {A} a.
Arguments Throw {A} e.

#[global] Instance result_ret : MRet result := λ A a, Ok a.
#[global] Instance result_bind : MBind result := λ A B k m,
  match m with
  | Ok a => k a
  | Throw e => Throw e
  end.

#[global] Instance result_fmap : FMap result := λ A B f m,
  match m with
  | Ok a => Ok (f a)
  | Throw e => Throw e
  end.

Definition is_Ok {A} (m : result A) : Prop := ∃ a, m = Ok a.

(** Monadic left fold: the body of a [for] loop that may throw. *)
Fixpoint foldlM {A B} (f : A → B → result A) (l : list B) (a : A) : result A :=
  match l with
  | [] => Ok a
  | x :: l' => a' ← f a x; foldlM f l' a'
  end.

(** ** RandomNumberGenerator.h

    The Mersenne-Twister engine is abstracted to the sequence of raw values it
    will produce: [raw k] is the [k]-th output and [drawn] counts the outputs
    consumed so far.  A distribution object reduces one raw value into the
    requested range.  Every theorem below quantifies over the whole sequence,
    so it covers whatever the real engine delivers. *)
Module Rng.

Record RandomNumberGenerator := mk {
  raw : nat → nat;
  drawn : nat
}.

(** Resolution of [generateProbability]: the value is [r mod 2^32 / 2^32]. *)
Definition resolution : Z := (2 ^ 32)%Z.

Definition next (r : RandomNumberGenerator) : nat * RandomNumberGenerator :=
  (raw r (drawn r), mk (raw r) (S (drawn r))).

(** [double generateProbability() const], a value in [[0,1)]. *)
Definition generateProbability (r : RandomNumberGenerator) : Q * RandomNumberGenerator :=
  let '(x, r') := next r in
  (Qmake (Z.of_nat x `mod` resolution) (Z.to_pos resolution), r').

(** [int generateInt(int min, int max) const] *)
Definition generateInt (min max : Z) (r : RandomNumberGenerator) : result (Z * RandomNumberGenerator) :=
  if decide (min > max)%Z then Throw invalid_argument
  else
    let '(x, r') := next r in
    Ok ((min + Z.of_nat x `mod` (max - min + 1))%Z, r').

(** [int generateIndex(int max) const] *)
Definition generateIndex (max : Z) (r : RandomNumberGenerator) : result (Z * RandomNumberGenerator) :=
  if decide (max ≤ 0)%Z then Throw invalid_argument
  else generateInt 0 (max - 1) r.

(** [bool generateBool(double p) const] *)
Definition generateBool (p : Q) (r : RandomNumberGenerator) : bool * RandomNumberGenerator :=
  let '(x, r') := generateProbability r in
  (negb (Qle_bool p x), r').

End Rng.

(** ** CNP_Graph.h / CNP_Graph.cpp *)
Module CNP.

(** [struct Component] (Types.h) *)
Record Component := mkComponent {
  size : nat;
  nodes : list Node
}.

#[global] Instance Component_inhabited : Inhabited Component :=
  populate (mkComponent 0 []).

(** The members of [class CNP_Graph] that the operations below read or write.
    [connectedPairs_] has no initialiser in the class. *)
Record CNP_Graph := mkGraph {
  numNodes_ : nat;
  originalNodesSet_ : gset Node;
  nodeAge_ : list Age;
  currentAdjList_ : list (gset Node);
  originalAdjList_ : list (gset Node);
  numToRemove_ : Z;
  nodeToComponentIndex_ : list ComponentIndex;
  connectedComponents_ : list Component;
  connectedPairs_ : Z;
  rng_ : Rng.RandomNumberGenerator;
  dfsVisitEpoch_ : list Z;
  dfsCurrentEpoch_ : Z;
  removedNodes : gset Node
}.

Definition set_nodeAge_ (x : list Age) (g : CNP_Graph) : CNP_Graph :=
  mkGraph (numNodes_ g) (originalNodesSet_ g) x (currentAdjList_ g)
    (originalAdjList_ g) (numToRemove_ g) (nodeToComponentIndex_ g)
    (connectedComponents_ g) (connectedPairs_ g) (rng_ g) (dfsVisitEpoch_ g)
    (dfsCurrentEpoch_ g) (removedNodes g).

Definition set_currentAdjList_ (x : list (gset Node)) (g : CNP_Graph) : CNP_Graph :=
  mkGraph (numNodes_ g) (originalNodesSet_ g) (nodeAge_ g) x
    (originalAdjList_ g) (numToRemove_ g) (nodeToComponentIndex_ g)
    (connectedComponents_ g) (connectedPairs_ g) (rng_ g) (dfsVisitEpoch_ g)
    (dfsCurrentEpoch_ g) (removedNodes g).

Definition set_nodeToComponentIndex_ (x : list ComponentIndex) (g : CNP_Graph) : CNP_Graph :=
  mkGraph (numNodes_ g) (originalNodesSet_ g) (nodeAge_ g) (currentAdjList_ g)
    (originalAdjList_ g) (numToRemove_ g) x
    (connectedComponents_ g) (connectedPairs_ g) (rng_ g) (dfsVisitEpoch_ g)
    (dfsCurrentEpoch_ g) (removedNodes g).

Definition set_connectedComponents_ (x : list Component) (g : CNP_Graph) : CNP_Graph :=
  mkGraph (numNodes_ g) (originalNodesSet_ g) (nodeAge_ g) (currentAdjList_ g)
    (originalAdjList_ g) (numToRemove_ g) (nodeToComponentIndex_ g)
    x (connectedPairs_ g) (rng_ g) (dfsVisitEpoch_ g)
    (dfsCurrentEpoch_ g) (removedNodes g).

Definition set_connectedPairs_ (x : Z) (g : CNP_Graph) : CNP_Graph :=
  mkGraph (numNodes_ g) (originalNodesSet_ g) (nodeAge_ g) (currentAdjList_ g)
    (originalAdjList_ g) (numToRemove_ g) (nodeToComponentIndex_ g)
    (connectedComponents_ g) x (rng_ g) (dfsVisitEpoch_ g)
    (dfsCurrentEpoch_ g) (removedNodes g).

Definition set_rng_ (x : Rng.RandomNumberGenerator) (g : CNP_Graph) : CNP_Graph :=
  mkGraph (numNodes_ g) (originalNodesSet_ g) (nodeAge_ g) (currentAdjList_ g)
    (originalAdjList_ g) (numToRemove_ g) (nodeToComponentIndex_ g)
    (connectedComponents_ g) (connectedPairs_ g) x (dfsVisitEpoch_ g)
    (dfsCurrentEpoch_ g) (removedNodes g).

Definition set_dfs (epochs : list Z) (epoch : Z) (g : CNP_Graph) : CNP_Graph :=
  mkGraph (numNodes_ g) (originalNodesSet_ g) (nodeAge_ g) (currentAdjList_ g)
    (originalAdjList_ g) (numToRemove_ g) (nodeToComponentIndex_ g)
    (connectedComponents_ g) (connectedPairs_ g) (rng_ g) epochs
    epoch (removedNodes g).

Definition set_removedNodes (x : gset Node) (g : CNP_Graph) : CNP_Graph :=
  mkGraph (numNodes_ g) (originalNodesSet_ g) (nodeAge_ g) (currentAdjList_ g)
    (originalAdjList_ g) (numToRemove_ g) (nodeToComponentIndex_ g)
    (connectedComponents_ g) (connectedPairs_ g) (rng_ g) (dfsVisitEpoch_ g)
    (dfsCurrentEpoch_ g) x.

Definition set_original (ns : gset Node) (adj : list (gset Node)) (k : Z) (g : CNP_Graph) : CNP_Graph :=
  mkGraph (numNodes_ g) ns (nodeAge_ g) (currentAdjList_ g)
    adj k (nodeToComponentIndex_ g)
    (connectedComponents_ g) (connectedPairs_ g) (rng_ g) (dfsVisitEpoch_ g)
    (dfsCurrentEpoch_ g) (removedNodes g).

(** [(size * (size - 1)) / 2], computed in [size_t] and added to an [int]. *)
Definition pairs (sz : nat) : Z := Z.of_nat (sz * (sz - 1) / 2).

(** [CNP_Graph::CNP_Graph(nodes, adjList, budget, seed)].  The constructor does
    not compute components; [cp0] stands for the indeterminate initial content
    of [connectedPairs_], and [seeded] for the engine state after
    [rng_.setSeed(seed)]. *)
Definition build (nodes : gset Node) (adjList : list (gset Node)) (budget : Z)
    (seeded : Rng.RandomNumberGenerator) (cp0 : Z) : CNP_Graph :=
  let n := base.size nodes in
  mkGraph n nodes (replicate n 0%Z) adjList adjList budget
    (replicate n (-1)%Z) [] cp0 seeded (replicate n 0%Z) 0%Z ∅.

(** [bool CNP_Graph::isNodeRemoved(Node node) const] *)
Definition isNodeRemoved (g : CNP_Graph) (node : Node) : bool :=
  bool_decide (node ∈ removedNodes g).

(** The inner [for] of [dfsFindComponent]: push the neighbours that are neither
    stamped with the current epoch nor removed.  The head of the list is the
    back of [dfsStack_]. *)
Definition dfs_push (removed : gset Node) (epochs : list Z) (epoch : Z)
    (stack : list Node) (neighbor : Node) : list Node :=
  if bool_decide (epochs !!! neighbor ≠ epoch) && negb (bool_decide (neighbor ∈ removed))
  then neighbor :: stack
  else stack.

(** The [while (!dfsStack_.empty())] loop of [dfsFindComponent]. *)
Fixpoint dfs_loop (fuel : nat) (adj : list (gset Node)) (removed : gset Node)
    (epoch : Z) (epochs : list Z) (stack : list Node) (acc : list Node)
    : result (list Z * list Node) :=
  match stack with
  | [] => Ok (epochs, acc)
  | node :: stack' =>
    match fuel with
    | 0 => Throw out_of_fuel
    | S fuel' =>
      if bool_decide (epochs !!! node = epoch) || bool_decide (node ∈ removed)
      then dfs_loop fuel' adj removed epoch epochs stack' acc
      else
        let epochs' := <[node := epoch]> epochs in
        dfs_loop fuel' adj removed epoch epochs'
          (foldl (dfs_push removed epochs' epoch) stack' (elements (adj !!! node)))
          (acc ++ [node])
    end
  end.

(** Every iteration pops one entry, and a vertex pushes its neighbours at most
    once, so the loop runs at most [1 + n + Σ |adj u|] times. *)
Definition dfs_fuel (g : CNP_Graph) : nat :=
  S (numNodes_ g + sum_list (base.size <$> currentAdjList_ g)).

(** [Component CNP_Graph::dfsFindComponent(Node startNode) const]; the
    [mutable] scratch members it updates are returned in the graph. *)
Definition dfsFindComponent (g : CNP_Graph) (startNode : Node) : result (Component * CNP_Graph) :=
  let n := numNodes_ g in
  let '(epochs0, epoch0) :=
    if decide (length (dfsVisitEpoch_ g) < n)
    then (resize n 0%Z (dfsVisitEpoch_ g), 0%Z)
    else (dfsVisitEpoch_ g, dfsCurrentEpoch_ g) in
  let '(epochs1, epoch1) :=
    if decide (epoch0 + 1 = 0)%Z
    then (replicate n 0%Z ++ drop n epochs0, 1%Z)
    else (epochs0, (epoch0 + 1)%Z) in
  '(epochs2, acc) ← dfs_loop (dfs_fuel g) (currentAdjList_ g) (removedNodes g)
                      epoch1 epochs1 [startNode] [];
  Ok (mkComponent (length acc) acc, set_dfs epochs2 epoch1 g).

(** Writes [x] at every index listed in [l]. *)
Definition assign_all {A} (x : A) (l : list Node) (v : list A) : list A :=
  foldl (λ v i, <[i := x]> v) v l.

(** Body of the [for (Node node : originalNodesSet_)] loop of
    [initializeComponentsAndMapping]; the accumulator carries the graph,
    [componentVisited_] and [componentIndex]. *)
Definition init_step (acc : CNP_Graph * list bool * Z) (node : Node)
    : result (CNP_Graph * list bool * Z) :=
  let '(g, visited, componentIndex) := acc in
  if negb (visited !!! node) && negb (isNodeRemoved g node) then
    '(component, g1) ← dfsFindComponent g node;
    if bool_decide (nodes component ≠ []) then
      let g2 := set_connectedComponents_ (connectedComponents_ g1 ++ [component]) g1 in
      let visited' := assign_all true (nodes component) visited in
      let g3 := set_nodeToComponentIndex_
                  (assign_all componentIndex (nodes component) (nodeToComponentIndex_ g2)) g2 in
      let g4 := set_connectedPairs_ (connectedPairs_ g3 + pairs (size component))%Z g3 in
      Ok (g4, visited', (componentIndex + 1)%Z)
    else Ok (g1, visited, componentIndex)
  else Ok acc.

(** [void CNP_Graph::initializeComponentsAndMapping()] *)
Definition initializeComponentsAndMapping (g : CNP_Graph) : result CNP_Graph :=
  let n := numNodes_ g in
  let g1 := set_nodeToComponentIndex_
              (replicate (length (nodeToComponentIndex_ g)) (-1)%Z) g in
  let g2 := set_connectedPairs_ 0%Z (set_connectedComponents_ [] g1) in
  '(g3, _, _) ← foldlM init_step (elements (originalNodesSet_ g2))
                  (g2, replicate n false, 0%Z);
  Ok g3.

(** [currentAdjList_[neighbor].erase(node)] for every original neighbour of
    [node], then [currentAdjList_[node].clear()]. *)
Definition elide_node (orig : list (gset Node)) (cur : list (gset Node)) (node : Node)
    : list (gset Node) :=
  <[node := ∅]>
    (foldl (λ cur neighbor, <[neighbor := (cur !!! neighbor) ∖ {[node]}]> cur)
       cur (elements (orig !!! node))).

(** [void CNP_Graph::updateGraphByRemovedNodes(const NodeSet &nodesToRemove)] *)
Definition updateGraphByRemovedNodes (nodesToRemove : gset Node) (g : CNP_Graph)
    : result CNP_Graph :=
  let g1 := set_removedNodes nodesToRemove (set_currentAdjList_ (originalAdjList_ g) g) in
  let cur := foldl (elide_node (originalAdjList_ g1)) (currentAdjList_ g1)
               (elements nodesToRemove) in
  initializeComponentsAndMapping (set_currentAdjList_ cur g1).

(** [void CNP_Graph::getReducedGraphByRemovedNodes(const NodeSet &removeSet)] *)
Definition getReducedGraphByRemovedNodes (removeSet : gset Node) (g : CNP_Graph)
    : result CNP_Graph :=
  let k := (numToRemove_ g - Z.of_nat (base.size removeSet))%Z in
  let '(ns, orig) :=
    foldl (λ '(ns, orig) node, (ns ∖ {[node]}, elide_node orig orig node))
      (originalNodesSet_ g, originalAdjList_ g) (elements removeSet) in
  let g1 := set_original ns orig k (set_removedNodes ∅ g) in
  initializeComponentsAndMapping (set_currentAdjList_ orig g1).

(** [std::set<ComponentIndex>::insert]: an ordered set kept as a strictly
    increasing list. *)
Fixpoint set_insert (x : Z) (s : list Z) : list Z :=
  match s with
  | [] => [x]
  | y :: s' =>
    if decide (x < y)%Z then x :: y :: s'
    else if decide (x = y) then y :: s'
    else y :: set_insert x s'
  end.

(** The first loop of [addNode]: restore the edges to surviving neighbours and
    remember the component of the first one met. *)
Definition restore_edges (nodeToAdd : Node) (n2c : list ComponentIndex)
    (acc : list (gset Node) * ComponentIndex) (neighbor : Node)
    : list (gset Node) * ComponentIndex :=
  let '(cur, componentIndex) := acc in
  if bool_decide (n2c !!! neighbor ≠ (-1)%Z) then
    let cur1 := <[nodeToAdd := (cur !!! nodeToAdd) ∪ {[neighbor]}]> cur in
    let cur2 := <[neighbor := (cur1 !!! neighbor) ∪ {[nodeToAdd]}]> cur1 in
    (cur2, if decide (componentIndex = (-1)%Z) then n2c !!! neighbor else componentIndex)
  else acc.

(** [for (size_t i = idx + 1; i < indexMapping.size(); ++i) indexMapping[i]--;] *)
Definition shift_down (indexMapping : list Z) (idx : Z) : list Z :=
  imap (λ i x, if decide (idx + 1 ≤ Z.of_nat i)%Z then (x - 1)%Z else x) indexMapping.

(** [nodeToComponentIndex_[node] = indexMapping[nodeToComponentIndex_[node]]]
    for the nodes whose entry is not [-1]. *)
Definition remap (indexMapping : list Z) (n2c : list ComponentIndex) (node : Node)
    : list ComponentIndex :=
  if bool_decide (n2c !!! node ≠ (-1)%Z)
  then <[node := indexMapping !!! Z.to_nat (n2c !!! node)]> n2c
  else n2c.

(** The reverse loop over [componentsIndexesToMerge]. *)
Definition drop_merged (acc : Z * list Component) (it : Z) : Z * list Component :=
  let '(cp, comps) := acc in
  ((cp - pairs (size (comps !!! Z.to_nat it)))%Z, delete (Z.to_nat it) comps).

(** The branch of [addNode] taken when the component found around the added
    node is larger than the one it was appended to: the components it covers
    are merged into it. *)
Definition merge_components (ci : nat) (newComponent : Component) (g3 : CNP_Graph)
    : CNP_Graph :=
  let n2c1 := nodeToComponentIndex_ g3 in
  let comps2 := alter (λ c, mkComponent (size c - 1) (nodes c)) ci
                  (connectedComponents_ g3) in
  let componentsIndexesToMerge :=
    foldl (λ s node, if bool_decide (n2c1 !!! node ≠ (-1)%Z)
                     then set_insert (n2c1 !!! node) s else s)
      [] (nodes newComponent) in
  let indexMapping :=
    foldl shift_down (Z.of_nat <$> seq 0 (length comps2)) componentsIndexesToMerge in
  let n2c2 := foldl (remap indexMapping) n2c1 (elements (originalNodesSet_ g3)) in
  let '(cp, comps3) :=
    foldl drop_merged (connectedPairs_ g3, comps2) (reverse componentsIndexesToMerge) in
  let comps4 := comps3 ++ [newComponent] in
  let cp' := (cp + pairs (size newComponent))%Z in
  let n2c3 := assign_all (Z.of_nat (length comps4) - 1)%Z (nodes newComponent) n2c2 in
  set_connectedPairs_ cp'
    (set_nodeToComponentIndex_ n2c3 (set_connectedComponents_ comps4 g3)).

(** [void CNP_Graph::addNode(Node nodeToAdd)] *)
Definition addNode (nodeToAdd : Node) (g : CNP_Graph) : result CNP_Graph :=
  let g0 := set_removedNodes (removedNodes g ∖ {[nodeToAdd]}) g in
  let n2c := nodeToComponentIndex_ g0 in
  let '(cur, componentIndex) :=
    foldl (restore_edges nodeToAdd n2c) (currentAdjList_ g0, (-1)%Z)
      (elements (originalAdjList_ g0 !!! nodeToAdd)) in
  let g1 := set_currentAdjList_ cur g0 in
  if decide (componentIndex ≠ (-1)%Z) then
    let ci := Z.to_nat componentIndex in
    let comps1 := alter (λ c, mkComponent (S (size c)) (nodes c ++ [nodeToAdd])) ci
                    (connectedComponents_ g1) in
    let n2c1 := <[nodeToAdd := componentIndex]> n2c in
    let g2 := set_nodeToComponentIndex_ n2c1 (set_connectedComponents_ comps1 g1) in
    '(newComponent, g3) ← dfsFindComponent g2 nodeToAdd;
    if decide (size (connectedComponents_ g3 !!! ci) < size newComponent) then
      Ok (merge_components ci newComponent g3)
    else if decide (size newComponent = size (connectedComponents_ g3 !!! ci)) then
      Ok (set_connectedPairs_
            (connectedPairs_ g3 + (Z.of_nat (size (connectedComponents_ g3 !!! ci)) - 1))%Z g3)
    else Ok g3
  else
    let comps := connectedComponents_ g1 ++ [mkComponent 1 [nodeToAdd]] in
    Ok (set_nodeToComponentIndex_
          (<[nodeToAdd := (Z.of_nat (length comps) - 1)%Z]> n2c)
          (set_connectedComponents_ comps g1)).

(** The [nodeToComponentIndex_[node]--] loops of the singleton case. *)
Definition decrement_after (componentIndex : nat) (comps : list Component)
    (n2c : list ComponentIndex) : list ComponentIndex :=
  foldl (λ n2c c, foldl (λ n2c node, <[node := (n2c !!! node - 1)%Z]> n2c) n2c (nodes c))
    n2c (drop (S componentIndex) comps).

(** First member of the old component other than the removed node
    ([startNode] stays [-1] when there is none). *)
Definition find_start (nodeToRemove : Node) (l : list Node) : Z :=
  match filter (λ node, node ≠ nodeToRemove) l with
  | [] => (-1)%Z
  | node :: _ => Z.of_nat node
  end.

(** Body of the loop that discovers the split components. *)
Definition split_step (nodeToRemove : Node) (acc : CNP_Graph * list bool) (node : Node)
    : result (CNP_Graph * list bool) :=
  let '(g, isVisited) := acc in
  if (isVisited !!! node) || bool_decide (node = nodeToRemove) then Ok acc
  else
    '(splitComponent, g1) ← dfsFindComponent g node;
    let newIndex := Z.of_nat (length (connectedComponents_ g1)) in
    let g2 := set_connectedComponents_ (connectedComponents_ g1 ++ [splitComponent]) g1 in
    let g3 := set_connectedPairs_ (connectedPairs_ g2 + pairs (size splitComponent))%Z g2 in
    let g4 := set_nodeToComponentIndex_
                (assign_all newIndex (nodes splitComponent) (nodeToComponentIndex_ g3)) g3 in
    Ok (g4, assign_all true (nodes splitComponent) isVisited).

(** [void CNP_Graph::removeNode(Node nodeToRemove)].  The source indexes
    [connectedComponents_] with [nodeToComponentIndex_[nodeToRemove]] without a
    check; a negative index is undefined behaviour there. *)
Definition removeNode (nodeToRemove : Node) (g : CNP_Graph) : result CNP_Graph :=
  let componentIndex := nodeToComponentIndex_ g !!! nodeToRemove in
  if decide (componentIndex < 0)%Z then Throw undefined_behaviour else
  let ci := Z.to_nat componentIndex in
  let originalComponent := connectedComponents_ g !!! ci in
  let g0 := set_removedNodes (removedNodes g ∪ {[nodeToRemove]}) g in
  let g1 := set_nodeToComponentIndex_ (<[nodeToRemove := (-1)%Z]> (nodeToComponentIndex_ g0)) g0 in
  let cur := <[nodeToRemove := ∅]>
               (foldl (λ cur neighbor, <[neighbor := (cur !!! neighbor) ∖ {[nodeToRemove]}]> cur)
                  (currentAdjList_ g1) (elements (currentAdjList_ g1 !!! nodeToRemove))) in
  let g2 := set_currentAdjList_ cur g1 in
  if decide (size originalComponent = 1) then
    let n2c := decrement_after ci (connectedComponents_ g2) (nodeToComponentIndex_ g2) in
    Ok (set_connectedComponents_ (delete ci (connectedComponents_ g2))
          (set_nodeToComponentIndex_ n2c g2))
  else if decide (1 < size originalComponent) then
    let comps1 := alter (λ c, mkComponent (size c - 1)
                                (filter (λ node, node ≠ nodeToRemove) (nodes c)))
                    ci (connectedComponents_ g2) in
    let g3 := set_connectedComponents_ comps1 g2 in
    let isVisited := replicate (numNodes_ g3) false in
    let startNode := find_start nodeToRemove (nodes originalComponent) in
    if decide (startNode < 0)%Z then Throw undefined_behaviour else
    '(newComponent, g4) ← dfsFindComponent g3 (Z.to_nat startNode);
    let sz := size (comps1 !!! ci) in
    if decide (size newComponent < sz) then
      let cp1 := (connectedPairs_ g4 - Z.of_nat (sz * (sz + 1) / 2))%Z in
      let comps2 := <[ci := newComponent]> (connectedComponents_ g4) in
      let cp2 := (cp1 + pairs (size newComponent))%Z in
      let isVisited1 := assign_all true (nodes newComponent) isVisited in
      let n2c1 := assign_all componentIndex (nodes newComponent) (nodeToComponentIndex_ g4) in
      let g5 := set_nodeToComponentIndex_ n2c1
                  (set_connectedPairs_ cp2 (set_connectedComponents_ comps2 g4)) in
      '(g6, _) ← foldlM (split_step nodeToRemove) (nodes originalComponent) (g5, isVisited1);
      Ok g6
    else
      Ok (set_connectedPairs_ (connectedPairs_ g4 - Z.of_nat (size newComponent))%Z g4)
  else Ok g2.

(** [int CNP_Graph::getObjectiveValue() const] *)
Definition getObjectiveValue (g : CNP_Graph) : Z := connectedPairs_ g.

(** [void CNP_Graph::setNodeAge(Node node, Age age)] *)
Definition setNodeAge (node : Node) (age : Age) (g : CNP_Graph) : CNP_Graph :=
  set_nodeAge_ (<[node := age]> (nodeAge_ g)) g.

End CNP.

(** ** DCNP_Graph.h / DCNP_Graph.cpp *)
Module DCNP.

(** The members of [class DCNP_Graph] that the operations below read or write.
    [intree_] is the flattened [uint8_t] table, [treeSize_] the [int] sizes.
    The BFS scratch vectors are overwritten before they are read in every call
    of [bfsKTree] and are therefore locals of the model. *)
Record DCNP_Graph := mkGraph {
  numNodes_ : nat;
  kHops_ : Z;
  numToRemove_ : Z;
  originalNodesSet_ : gset Node;
  nodeAge_ : list Age;
  currentAdjList_ : list (gset Node);
  originalAdjList_ : list (gset Node);
  intree_ : list Z;
  treeSize_ : list Z;
  removedNodes_ : gset Node;
  rng_ : Rng.RandomNumberGenerator
}.

Definition set_tables (intree : list Z) (treeSize : list Z) (g : DCNP_Graph) : DCNP_Graph :=
  mkGraph (numNodes_ g) (kHops_ g) (numToRemove_ g) (originalNodesSet_ g)
    (nodeAge_ g) (currentAdjList_ g) (originalAdjList_ g) intree treeSize
    (removedNodes_ g) (rng_ g).

Definition set_removedNodes_ (x : gset Node) (g : DCNP_Graph) : DCNP_Graph :=
  mkGraph (numNodes_ g) (kHops_ g) (numToRemove_ g) (originalNodesSet_ g)
    (nodeAge_ g) (currentAdjList_ g) (originalAdjList_ g) (intree_ g) (treeSize_ g)
    x (rng_ g).

Definition set_currentAdjList_ (x : list (gset Node)) (g : DCNP_Graph) : DCNP_Graph :=
  mkGraph (numNodes_ g) (kHops_ g) (numToRemove_ g) (originalNodesSet_ g)
    (nodeAge_ g) x (originalAdjList_ g) (intree_ g) (treeSize_ g)
    (removedNodes_ g) (rng_ g).

Definition set_original (ns : gset Node) (adj : list (gset Node)) (k : Z) (g : DCNP_Graph) : DCNP_Graph :=
  mkGraph (numNodes_ g) (kHops_ g) k ns
    (nodeAge_ g) (currentAdjList_ g) adj (intree_ g) (treeSize_ g)
    (removedNodes_ g) (rng_ g).

Definition set_rng_ (x : Rng.RandomNumberGenerator) (g : DCNP_Graph) : DCNP_Graph :=
  mkGraph (numNodes_ g) (kHops_ g) (numToRemove_ g) (originalNodesSet_ g)
    (nodeAge_ g) (currentAdjList_ g) (originalAdjList_ g) (intree_ g) (treeSize_ g)
    (removedNodes_ g) x.

Definition set_nodeAge_ (x : list Age) (g : DCNP_Graph) : DCNP_Graph :=
  mkGraph (numNodes_ g) (kHops_ g) (numToRemove_ g) (originalNodesSet_ g)
    x (currentAdjList_ g) (originalAdjList_ g) (intree_ g) (treeSize_ g)
    (removedNodes_ g) (rng_ g).

(** [inline size_t treeIndex(int numNodes, Node row, Node col)] *)
Definition treeIndex (numNodes : nat) (row col : Node) : nat :=
  row * numNodes + col.

(** [bool DCNP_Graph::isNodeRemoved(Node node) const] *)
Definition isNodeRemoved (g : DCNP_Graph) (node : Node) : bool :=
  bool_decide (node ∈ removedNodes_ g).

(** The [for (Node neighbor : currentAdjList_[currentNode])] loop of
    [bfsKTree]; [queue] is [bfsQueue_[0 .. tail)]. *)
Definition bfs_visit (removed : gset Node) (lvl : Z)
    (acc : list Node * list bool * list Z) (neighbor : Node)
    : list Node * list bool * list Z :=
  let '(queue, visited, level) := acc in
  if bool_decide (neighbor ∈ removed) || (visited !!! neighbor) then acc
  else (queue ++ [neighbor], <[neighbor := true]> visited, <[neighbor := (lvl + 1)%Z]> level).

(** The [while (head < tail)] loop of [bfsKTree]. *)
Fixpoint bfs_loop (fuel : nat) (adj : list (gset Node)) (removed : gset Node)
    (K : Z) (n : nat) (v : Node) (head : nat) (queue : list Node)
    (visited : list bool) (level : list Z) (intree : list Z) (visitedCount : nat)
    : result (list Z * nat) :=
  if decide (head < length queue) then
    match fuel with
    | 0 => Throw out_of_fuel
    | S fuel' =>
      let currentNode := queue !!! head in
      let '(queue', visited', level') :=
        if decide (level !!! currentNode < K)%Z
        then foldl (bfs_visit removed (level !!! currentNode)) (queue, visited, level)
               (elements (adj !!! currentNode))
        else (queue, visited, level) in
      bfs_loop fuel' adj removed K n v (S head) queue' visited' level'
        (<[treeIndex n v currentNode := 1%Z]> intree) (S visitedCount)
    end
  else Ok (intree, visitedCount).

(** [void DCNP_Graph::bfsKTree(Node v)].  A vertex enters the queue at most
    once, so [numNodes_ + 1] iterations are enough. *)
Definition bfsKTree (v : Node) (g : DCNP_Graph) : result DCNP_Graph :=
  let n := numNodes_ g in
  let intree0 := list_inserts (treeIndex n v 0) (replicate n 0%Z) (intree_ g) in
  if isNodeRemoved g v then
    Ok (set_tables intree0 (<[v := 0%Z]> (treeSize_ g)) g)
  else
    '(intree1, visitedCount) ←
      bfs_loop (S n) (currentAdjList_ g) (removedNodes_ g) (kHops_ g) n v
        0 [v] (<[v := true]> (replicate n false)) (<[v := 0%Z]> (replicate n 0%Z))
        intree0 0;
    let sz := if decide (0 < visitedCount) then (Z.of_nat visitedCount - 1)%Z else 0%Z in
    Ok (set_tables intree1 (<[v := sz]> (treeSize_ g)) g).

(** [void DCNP_Graph::buildTree()] *)
Definition buildTree (g : DCNP_Graph) : result DCNP_Graph :=
  foldlM (λ g i, bfsKTree i g) (seq 0 (numNodes_ g)) g.

(** [DCNP_Graph::DCNP_Graph(nodes, K, adjList, numToRemove, seed)]; [seeded]
    is the engine state after [rng_.setSeed(seed)]. *)
Definition build (nodes : gset Node) (K : Z) (adjList : list (gset Node))
    (numToRemove : Z) (seeded : Rng.RandomNumberGenerator) : result DCNP_Graph :=
  let n := size nodes in
  buildTree (mkGraph n K numToRemove nodes (replicate n 0%Z) adjList adjList
               (replicate (n * n) 0%Z) (replicate n 0%Z) ∅ seeded).

(** [void DCNP_Graph::updateGraphByRemovedNodes(const NodeSet &nodesToRemove)] *)
Definition updateGraphByRemovedNodes (nodesToRemove : gset Node) (g : DCNP_Graph)
    : result DCNP_Graph :=
  buildTree (set_removedNodes_ nodesToRemove
               (set_currentAdjList_ (originalAdjList_ g) g)).

(** Body of the loop of [getReducedGraphByRemovedNodes]: the neighbours are
    read from [currentAdjList_], the erasures go to [originalAdjList_]. *)
Definition reduce_step (cur : list (gset Node))
    (acc : gset Node * list (gset Node)) (node : Node)
    : gset Node * list (gset Node) :=
  let '(ns, orig) := acc in
  (ns ∖ {[node]},
   <[node := ∅]>
     (foldl (λ orig neighbor, <[neighbor := (orig !!! neighbor) ∖ {[node]}]> orig)
        orig (elements (cur !!! node)))).

(** [void DCNP_Graph::getReducedGraphByRemovedNodes(const NodeSet &removeSet)] *)
Definition getReducedGraphByRemovedNodes (removeSet : gset Node) (g : DCNP_Graph)
    : result DCNP_Graph :=
  let k := (numToRemove_ g - Z.of_nat (size removeSet))%Z in
  let '(ns, orig) :=
    foldl (reduce_step (currentAdjList_ g)) (originalNodesSet_ g, originalAdjList_ g)
      (elements removeSet) in
  buildTree (set_currentAdjList_ orig (set_original ns orig k (set_removedNodes_ ∅ g))).

(** [void DCNP_Graph::addNode(Node nodeToAdd)] *)
Definition addNode (nodeToAdd : Node) (g : DCNP_Graph) : result DCNP_Graph :=
  let g0 := set_removedNodes_ (removedNodes_ g ∖ {[nodeToAdd]}) g in
  g1 ← bfsKTree nodeToAdd g0;
  foldlM (λ g i,
            if bool_decide (intree_ g !!! treeIndex (numNodes_ g) nodeToAdd i ≠ 0%Z)
            then bfsKTree i g else Ok g)
    (seq 0 (numNodes_ g1)) g1.

(** [void DCNP_Graph::removeNode(Node nodeToRemove)] *)
Definition removeNode (nodeToRemove : Node) (g : DCNP_Graph) : result DCNP_Graph :=
  let g0 := set_removedNodes_ (removedNodes_ g ∪ {[nodeToRemove]}) g in
  foldlM (λ g i,
            if bool_decide (intree_ g !!! treeIndex (numNodes_ g) i nodeToRemove ≠ 0%Z)
            then bfsKTree i g else Ok g)
    (seq 0 (numNodes_ g0)) g0.

(** [int DCNP_Graph::calculateKhopTreeSize() const]; [sum / 2] is the
    truncating division of [int]. *)
Definition calculateKhopTreeSize (g : DCNP_Graph) : Z :=
  let sum := foldl (λ sum i, if negb (isNodeRemoved g i)
                             then (sum + treeSize_ g !!! i)%Z else sum)
               0%Z (seq 0 (numNodes_ g)) in
  (sum ÷ 2)%Z.

(** [int DCNP_Graph::getObjectiveValue() const] *)
Definition getObjectiveValue (g : DCNP_Graph) : Z := calculateKhopTreeSize g.


(** The tie-break shared by [findBestNodeToRemove] and [findBestNodeToAdd]:
    [if (bestList.size() > 1) bestNode = bestList[rng_.generateIndex(...)]]. *)
Definition pick_best (g : DCNP_Graph) (bestNode : Z) (bestList : list Node)
    : result (Z * DCNP_Graph) :=
  if decide (1 < length bestList) then
    '(idx, r) ← Rng.generateIndex (Z.of_nat (length bestList)) (rng_ g);
    Ok (Z.of_nat (bestList !!! Z.to_nat idx), set_rng_ r g)
  else Ok (bestNode, g).


(** [std::numeric_limits<int>::max()] *)
Definition INT_MAX : Z := (2 ^ 31 - 1)%Z.

(** Body of the [for (Node node : solution)] loop of [findBestNodeToAdd]. *)
Definition best_add_step (currentObjective : Z)
    (acc : DCNP_Graph * Z * Z * list Node) (node : Node)
    : result (DCNP_Graph * Z * Z * list Node) :=
  let '(g, minDeterioration, bestNode, bestList) := acc in
  g1 ← addNode node g;
  let newObjective := calculateKhopTreeSize g1 in
  let deterioration := (newObjective - currentObjective)%Z in
  let '(minDeterioration', bestNode', bestList') :=
    if decide (deterioration < minDeterioration)%Z
    then (deterioration, Z.of_nat node, [node])
    else if decide (deterioration = minDeterioration)
         then (minDeterioration, bestNode, bestList ++ [node])
         else (minDeterioration, bestNode, bestList) in
  g2 ← removeNode node g1;
  Ok (g2, minDeterioration', bestNode', bestList').

(** [Node DCNP_Graph::findBestNodeToAdd()]; [solution] is a copy of the
    removed set taken before the loop. *)
Definition findBestNodeToAdd (g : DCNP_Graph) : result (Z * DCNP_Graph) :=
  let solution := removedNodes_ g in
  let currentObjective := calculateKhopTreeSize g in
  '(g1, _, bestNode, bestList) ←
    foldlM (best_add_step currentObjective) (elements solution)
      (g, INT_MAX, INVALID_NODE, []);
  pick_best g1 bestNode bestList.

(** [void DCNP_Graph::setNodeAge(Node node, Age age)] *)
Definition setNodeAge (node : Node) (age : Age) (g : DCNP_Graph) : DCNP_Graph :=
  set_nodeAge_ (<[node := age]> (nodeAge_ g)) g.

End DCNP.

(** ** CNP_Graph.cpp: the move primitives *)
Module CNPSelect.
Import CNP.

(** State of the first loop of [selectRemovedLargerComponent]. *)
Record Larger := mkLarger {
  largeComponents : list ComponentIndex;
  componentSizes : list nat;
  totalNodesInBigComponents : nat;
  maxSize : nat;
  maxIndex : nat;
  secondMaxSize : nat;
  secondMaxIndex : nat
}.

Definition larger_step (avgComponentSize : nat) (comps : list Component)
    (st : Larger) (i : nat) : Larger :=
  let currentSize := size (comps !!! i) in
  if decide (avgComponentSize < currentSize) then
    let large := largeComponents st ++ [Z.of_nat i] in
    let sizes := componentSizes st ++ [currentSize] in
    let total := totalNodesInBigComponents st + currentSize in
    if decide (maxSize st < currentSize)
    then mkLarger large sizes total currentSize i (maxSize st) (maxIndex st)
    else if decide (secondMaxSize st < currentSize)
         then mkLarger large sizes total (maxSize st) (maxIndex st) currentSize i
         else mkLarger large sizes total (maxSize st) (maxIndex st)
                (secondMaxSize st) (secondMaxIndex st)
  else st.

(** The fallback of both selection routines: the first component of maximum
    size, as [(fallbackIdx, fallbackSize)]. *)
Definition fallback_largest (comps : list Component) : nat * nat :=
  foldl (λ '(idx, sz) i,
           if decide (sz < size (comps !!! i)) then (i, size (comps !!! i)) else (idx, sz))
    (0, 0) (seq 0 (length comps)).

(** The roulette loop: the first position whose running sum exceeds [index],
    or [largeComponents.back()]. *)
Fixpoint roulette (index : Z) (sum : Z) (large : list ComponentIndex) (sizes : list nat)
    (last : ComponentIndex) : ComponentIndex :=
  match large, sizes with
  | c :: large', s :: sizes' =>
    let sum' := (sum + Z.of_nat s)%Z in
    if decide (index < sum')%Z then c else roulette index sum' large' sizes' last
  | _, _ => last
  end.

(** [std::round(static_cast<float>(a) / static_cast<float>(b))], exact for the
    sizes at hand: halves are rounded away from zero. *)
Definition round_div (a b : nat) : nat := (2 * a + b) / (2 * b).

(** [ComponentIndex CNP_Graph::selectRemovedLargerComponent() const] *)
Definition selectRemovedLargerComponent (g : CNP_Graph) : result (ComponentIndex * CNP_Graph) :=
  let comps := connectedComponents_ g in
  let totalSize := numNodes_ g - base.size (removedNodes g) in
  let numComponents := length comps in
  let avgComponentSize := Nat.max 2 (round_div totalSize numComponents) in
  let st := foldl (larger_step avgComponentSize comps) (mkLarger [] [] 0 0 0 0 0)
              (seq 0 numComponents) in
  match largeComponents st with
  | [] =>
    let '(fallbackIdx, fallbackSize) := fallback_largest comps in
    if decide (fallbackSize = 0) then Throw runtime_error
    else Ok (Z.of_nat fallbackIdx, g)
  | [only] =>
    let '(b, r) := Rng.generateBool (1 # 2) (rng_ g) in
    Ok (if b then Z.of_nat (secondMaxIndex st) else only, set_rng_ r g)
  | large =>
    '(index, r) ← Rng.generateIndex (Z.of_nat (totalNodesInBigComponents st)) (rng_ g);
    Ok (roulette index 0 large (componentSizes st) (List.last large 0%Z), set_rng_ r g)
  end.

(** [minSize] and [maxSize] over the components of size above 2. *)
Definition size_range (n : nat) (comps : list Component) : Z * Z :=
  foldl (λ '(minSize, maxSize) c,
           if decide (2 < size c)
           then (Z.min minSize (Z.of_nat (size c)), Z.max maxSize (Z.of_nat (size c)))
           else (minSize, maxSize))
    (Z.of_nat n, 0%Z) comps.

(** [ComponentIndex CNP_Graph::selectRemovedComponent() const] (the writes to
    the debug log are not modelled). *)
Definition selectRemovedComponent (g : CNP_Graph) : result (ComponentIndex * CNP_Graph) :=
  let comps := connectedComponents_ g in
  let numComponents := length comps in
  if decide (50 < numComponents) then selectRemovedLargerComponent g
  else
    let '(minSize, maxSize) := size_range (numNodes_ g) comps in
    '(r3, r) ← Rng.generateIndex 3 (rng_ g);
    let g1 := set_rng_ r g in
    let sizeThreshold : Q :=
      (inject_Z maxSize - inject_Z (maxSize - minSize) * (1 # 2) - inject_Z r3)%Q in
    let largeComponents :=
      filter (λ i, Qle_bool sizeThreshold (inject_Z (Z.of_nat (size (comps !!! i)))) = true)
        (seq 0 numComponents) in
    match largeComponents with
    | [] =>
      let '(fallbackIndex, fallbackSize) := fallback_largest comps in
      if decide (fallbackSize = 0) then Throw runtime_error
      else Ok (Z.of_nat fallbackIndex, g1)
    | _ =>
      '(idx, r') ← Rng.generateIndex (Z.of_nat (length largeComponents)) (rng_ g1);
      Ok (Z.of_nat (largeComponents !!! Z.to_nat idx), set_rng_ r' g1)
    end.

(** [Node CNP_Graph::randomSelectNodeFromComponent(ComponentIndex) const] *)
Definition randomSelectNodeFromComponent (componentIndex : ComponentIndex) (g : CNP_Graph)
    : result (Node * CNP_Graph) :=
  if decide (componentIndex < 0)%Z then Throw undefined_behaviour else
  let component := connectedComponents_ g !!! Z.to_nat componentIndex in
  if bool_decide (nodes component = []) then Throw runtime_error
  else
    '(idx, r) ← Rng.generateIndex (Z.of_nat (size component)) (rng_ g);
    Ok (nodes component !!! Z.to_nat idx, set_rng_ r g).

(** The candidate loops of the selection routines share one shape: keep the
    minimisers of [key] in their order of appearance. *)
Definition min_step {A} (key : A → Z) (acc : Z * list A) (x : A) : Z * list A :=
  let '(best, candidates) := acc in
  if decide (key x < best)%Z then (key x, [x])
  else if decide (key x = best) then (best, candidates ++ [x])
       else acc.

(** [candidateNodes.size() == 1 ? candidateNodes[0] : candidateNodes[rng...]] *)
Definition pick_candidate (candidateNodes : list Node) (g : CNP_Graph)
    : result (Node * CNP_Graph) :=
  if decide (length candidateNodes = 1) then Ok (candidateNodes !!! 0, g)
  else
    '(idx, r) ← Rng.generateIndex (Z.of_nat (length candidateNodes)) (rng_ g);
    Ok (candidateNodes !!! Z.to_nat idx, set_rng_ r g).

(** [Node CNP_Graph::ageSelectNodeFromComponent(ComponentIndex) const] *)
Definition ageSelectNodeFromComponent (componentIndex : ComponentIndex) (g : CNP_Graph)
    : result (Node * CNP_Graph) :=
  if decide (componentIndex < 0)%Z then Throw undefined_behaviour else
  let component := connectedComponents_ g !!! Z.to_nat componentIndex in
  if decide (size component = 0) then Throw runtime_error
  else
    let firstNode := nodes component !!! 0 in
    let '(_, candidateNodes) :=
      foldl (min_step (λ node, nodeAge_ g !!! node)) (nodeAge_ g !!! firstNode, [firstNode])
        ((λ i, nodes component !!! i) <$> seq 1 (size component - 1)) in
    pick_candidate candidateNodes g.

(** The [mutable] Tarjan scratch members of the class. *)
Record Tarjan := mkTarjan {
  dfn_ : list Z;
  lowVec_ : list Z;
  stSizeVec_ : list Z;
  cutSizeVec_ : list Z;
  impactVec_ : list Z;
  flagVec_ : list Z;
  isCutVec_ : list bool;
  timeStamp_ : Z
}.

(** [nodeRoot_ = 1] throughout [impactSelectNodeFromComponent]. *)
Definition nodeRoot_ : nat := 1.

(** What [tarjanInComponent] does after the recursive call on [neighborIdx]
    has returned. *)
Definition tarjan_after_child (nodeIdx neighborIdx : nat) (t : Tarjan) : Tarjan :=
  let low := <[nodeIdx := Z.min (lowVec_ t !!! nodeIdx) (lowVec_ t !!! neighborIdx)]> (lowVec_ t) in
  let st := if decide (dfn_ t !!! nodeIdx < dfn_ t !!! neighborIdx)%Z
            then <[nodeIdx := (stSizeVec_ t !!! nodeIdx + stSizeVec_ t !!! neighborIdx)%Z]> (stSizeVec_ t)
            else stSizeVec_ t in
  if decide (dfn_ t !!! nodeIdx ≤ low !!! neighborIdx)%Z then
    let flag := <[nodeIdx := (flagVec_ t !!! nodeIdx + 1)%Z]> (flagVec_ t) in
    if decide (nodeIdx ≠ nodeRoot_) then
      mkTarjan (dfn_ t) low st
        (<[nodeIdx := (cutSizeVec_ t !!! nodeIdx + st !!! neighborIdx)%Z]> (cutSizeVec_ t))
        (<[nodeIdx := (impactVec_ t !!! nodeIdx
                       + (st !!! neighborIdx * (st !!! neighborIdx - 1)) ÷ 2)%Z]> (impactVec_ t))
        flag (<[nodeIdx := true]> (isCutVec_ t)) (timeStamp_ t)
    else if decide (1 < flag !!! nodeIdx)%Z then
      mkTarjan (dfn_ t) low st (cutSizeVec_ t) (impactVec_ t) flag
        (<[nodeIdx := true]> (isCutVec_ t)) (timeStamp_ t)
    else mkTarjan (dfn_ t) low st (cutSizeVec_ t) (impactVec_ t) flag (isCutVec_ t) (timeStamp_ t)
  else mkTarjan (dfn_ t) low st (cutSizeVec_ t) (impactVec_ t) (flagVec_ t) (isCutVec_ t) (timeStamp_ t).

(** [void CNP_Graph::tarjanInComponent(compIndex, nodeIdx, nodeToIdx) const];
    the recursion depth is bounded by the size of the component. *)
Fixpoint tarjanInComponent (fuel : nat) (g : CNP_Graph) (compIndex : ComponentIndex)
    (nodeToIdx : list Z) (nodeIdx : nat) (t : Tarjan) : result Tarjan :=
  match fuel with
  | 0 => Throw out_of_fuel
  | S fuel' =>
    let ts := (timeStamp_ t + 1)%Z in
    let t0 := mkTarjan (<[nodeIdx := ts]> (dfn_ t)) (<[nodeIdx := ts]> (lowVec_ t))
                (stSizeVec_ t) (cutSizeVec_ t) (impactVec_ t) (flagVec_ t) (isCutVec_ t) ts in
    let nodeId := nodes (connectedComponents_ g !!! Z.to_nat compIndex) !!! (nodeIdx - 1) in
    foldlM (λ t neighbor,
              if negb (isNodeRemoved g neighbor)
                 && bool_decide (nodeToComponentIndex_ g !!! neighbor = compIndex)
              then
                let neighborIdx := Z.to_nat (nodeToIdx !!! neighbor + 1) in
                if decide (dfn_ t !!! neighborIdx = 0%Z) then
                  t1 ← tarjanInComponent fuel' g compIndex nodeToIdx neighborIdx t;
                  Ok (tarjan_after_child nodeIdx neighborIdx t1)
                else
                  Ok (mkTarjan (dfn_ t)
                        (<[nodeIdx := Z.min (lowVec_ t !!! nodeIdx) (dfn_ t !!! neighborIdx)]> (lowVec_ t))
                        (stSizeVec_ t) (cutSizeVec_ t) (impactVec_ t) (flagVec_ t)
                        (isCutVec_ t) (timeStamp_ t))
              else Ok t)
      (elements (currentAdjList_ g !!! nodeId)) t0
  end.

(** The impact of index [i] once Tarjan has run. *)
Definition currentImpact (t : Tarjan) (i : nat) : Z :=
  if (isCutVec_ t !!! i : bool)
  then (impactVec_ t !!! i
        + ((timeStamp_ t - cutSizeVec_ t !!! i) * (timeStamp_ t - cutSizeVec_ t !!! i - 1)) ÷ 2)%Z
  else (impactVec_ t !!! i + ((timeStamp_ t - 1) * (timeStamp_ t - 2)) ÷ 2)%Z.

(** [Node CNP_Graph::impactSelectNodeFromComponent(ComponentIndex) const] *)
Definition impactSelectNodeFromComponent (componentIndex : ComponentIndex) (g : CNP_Graph)
    : result (Node * CNP_Graph) :=
  if decide (componentIndex < 0)%Z then Throw undefined_behaviour else
  let component := connectedComponents_ g !!! Z.to_nat componentIndex in
  if decide (size component = 0) then Throw runtime_error
  else
    let nodeToIdx :=
      foldl (λ m i, <[nodes component !!! i := Z.of_nat i]> m)
        (replicate (numNodes_ g) (-1)%Z) (seq 0 (size component)) in
    let sz := size component in
    let t0 := mkTarjan (replicate (sz + 1) 0%Z) (replicate (sz + 1) 0%Z)
                (replicate (sz + 1) 1%Z) (replicate (sz + 1) 1%Z)
                (replicate (sz + 1) 0%Z) (replicate (sz + 1) 0%Z)
                (replicate (sz + 1) false) 0%Z in
    t ← tarjanInComponent (S sz) g componentIndex nodeToIdx nodeRoot_ t0;
    let '(_, candidates) :=
      foldl (min_step (currentImpact t)) (DCNP.INT_MAX, []) (seq 1 sz) in
    pick_candidate ((λ i, nodes component !!! (i - 1)) <$> candidates) g.

(** [int CNP_Graph::calculateConnectionGain(Node node) const] *)
Definition calculateConnectionGain (g : CNP_Graph) (node : Node) : Z :=
  let comps := connectedComponents_ g in
  let n2c := nodeToComponentIndex_ g in
  let '(componentSizes, totalSize) :=
    foldl (λ '(sizes, total) neighbor,
             if bool_decide (n2c !!! neighbor ≠ (-1)%Z) then
               let compIndex := Z.to_nat (n2c !!! neighbor) in
               if decide (sizes !!! compIndex = 0)
               then (<[compIndex := size (comps !!! compIndex)]> sizes,
                     (total + Z.of_nat (size (comps !!! compIndex)))%Z)
               else (sizes, total)
             else (sizes, total))
      (replicate (length comps) 0, 1%Z) (elements (originalAdjList_ g !!! node)) in
  let oldConnectionsSum :=
    foldl (λ sum sz, if decide (0 < sz)
                     then (sum + (Z.of_nat sz * (Z.of_nat sz - 1)) ÷ 2)%Z else sum)
      0%Z componentSizes in
  let newConnections := ((totalSize * (totalSize - 1)) ÷ 2)%Z in
  (newConnections - oldConnectionsSum)%Z.

(** [Node CNP_Graph::greedySelectNodeToAdd() const] *)
Definition greedySelectNodeToAdd (g : CNP_Graph) : result (Node * CNP_Graph) :=
  match elements (removedNodes g) with
  | [] => Throw runtime_error
  | firstNode :: rest =>
    let '(_, candidateNodes) :=
      foldl (min_step (calculateConnectionGain g))
        (calculateConnectionGain g firstNode, [firstNode]) rest in
    pick_candidate candidateNodes g
  end.

(** [Node CNP_Graph::randomSelectNodeToRemove() const] *)
Definition randomSelectNodeToRemove (g : CNP_Graph) : result (Node * CNP_Graph) :=
  '(compIndex, r) ← Rng.generateIndex (Z.of_nat (length (connectedComponents_ g))) (rng_ g);
  let selectedComponent := connectedComponents_ g !!! Z.to_nat compIndex in
  if bool_decide (size selectedComponent = 0) || bool_decide (nodes selectedComponent = [])
  then Throw runtime_error
  else
    '(idx, r') ← Rng.generateIndex (Z.of_nat (size selectedComponent)) r;
    Ok (nodes selectedComponent !!! Z.to_nat idx, set_rng_ r' g).

End CNPSelect.

(** ** DCNP_Graph.cpp: betweenness centrality

    [calculateBetweennessCentrality] keeps its result in a function-local
    [static std::vector<double>]: one buffer for the whole process, which is
    therefore an explicit argument and result here.  The [double] values are
    rationals; on the small graphs evaluated below every intermediate value
    is a small integer, which [double] represents exactly. *)
Module Betweenness.
Import DCNP.

(** State of the first [while (!Q.empty())] loop for one source [s]. *)
Record Brandes := mkBrandes {
  Q_ : list Node;          (* std::queue, front first *)
  S_ : list Node;          (* std::stack, top first *)
  P_ : list (list Node);
  d_ : list Z;
  sigma_ : list Z
}.

(** Body of [for (Node w : currentAdjList_[v])]. *)
Definition relax (removed : gset Node) (v : Node) (b : Brandes) (w : Node) : Brandes :=
  if bool_decide (w ∈ removed) then b
  else
    let b1 := if decide (d_ b !!! w < 0)%Z
              then mkBrandes (Q_ b ++ [w]) (S_ b) (P_ b)
                     (<[w := (d_ b !!! v + 1)%Z]> (d_ b)) (sigma_ b)
              else b in
    if decide (d_ b1 !!! w = d_ b1 !!! v + 1)%Z
    then mkBrandes (Q_ b1) (S_ b1) (<[w := (P_ b1 !!! w) ++ [v]]> (P_ b1)) (d_ b1)
           (<[w := (sigma_ b1 !!! w + sigma_ b1 !!! v)%Z]> (sigma_ b1))
    else b1.

Fixpoint shortest_paths (fuel : nat) (adj : list (gset Node)) (removed : gset Node)
    (b : Brandes) : result Brandes :=
  match Q_ b with
  | [] => Ok b
  | v :: rest =>
    match fuel with
    | 0 => Throw out_of_fuel
    | S fuel' =>
      let b1 := mkBrandes rest (v :: S_ b) (P_ b) (d_ b) (sigma_ b) in
      shortest_paths fuel' adj removed (foldl (relax removed v) b1 (elements (adj !!! v)))
    end
  end.

(** Body of the second loop, [while (!S.empty())], for the popped vertex [w]. *)
Definition accumulate (s : Node) (b : Brandes) (acc : list Q * list Q) (w : Node)
    : list Q * list Q :=
  let '(delta, betweenness) := acc in
  let delta' :=
    foldl (λ delta v,
             <[v := (delta !!! v
                     + (inject_Z (sigma_ b !!! v) / inject_Z (sigma_ b !!! w))
                       * (1 + delta !!! w))%Q]> delta)
      delta (P_ b !!! w) in
  (delta', if decide (w ≠ s)
           then <[w := (betweenness !!! w + delta' !!! w)%Q]> betweenness
           else betweenness).

(** Body of [for (int s = 0; s < numNodes_; s++)]. *)
Definition from_source (g : DCNP_Graph) (betweenness : list Q) (s : Node)
    : result (list Q) :=
  let n := numNodes_ g in
  if isNodeRemoved g s then Ok betweenness
  else
    let b0 := mkBrandes [s] [] (replicate n []) (<[s := 0%Z]> (replicate n (-1)%Z))
                (<[s := 1%Z]> (replicate n 0%Z)) in
    b ← shortest_paths (S n) (currentAdjList_ g) (removedNodes_ g) b0;
    Ok (foldl (accumulate s b) (replicate n 0%Q, betweenness) (S_ b)).2.

(** [const std::vector<double> &DCNP_Graph::calculateBetweennessCentrality() const];
    [static_betweenness] is the content of the [static] vector on entry, and
    the result is its content on exit, of which the caller gets a reference.
    [betweenness.resize(numNodes_, 0.0)] keeps the elements already there. *)
Definition calculateBetweennessCentrality (g : DCNP_Graph) (static_betweenness : list Q)
    : result (list Q) :=
  foldlM (from_source g) (seq 0 (numNodes_ g)) (resize (numNodes_ g) 0%Q static_betweenness).

End Betweenness.

(** ** Graph.h / Graph.cpp: the wrapper over the two engines *)
Module GraphWrapper.

Inductive Graph :=
| Cnp (g : CNP.CNP_Graph)
| Dcnp (g : DCNP.DCNP_Graph).

Definition isDCNP (h : Graph) : bool :=
  match h with Cnp _ => false | Dcnp _ => true end.

Definition lift_cnp {A} (m : result (A * CNP.CNP_Graph)) : result (A * Graph) :=
  '(a, g) ← m; Ok (a, Cnp g).

Definition lift_dcnp {A} (m : result (A * DCNP.DCNP_Graph)) : result (A * Graph) :=
  '(a, g) ← m; Ok (a, Dcnp g).

Definition updateGraphByRemovedNodes (nodesToRemove : gset Node) (h : Graph) : result Graph :=
  match h with
  | Cnp g => Cnp <$> CNP.updateGraphByRemovedNodes nodesToRemove g
  | Dcnp g => Dcnp <$> DCNP.updateGraphByRemovedNodes nodesToRemove g
  end.

Definition removeNode (node : Node) (h : Graph) : result Graph :=
  match h with
  | Cnp g => Cnp <$> CNP.removeNode node g
  | Dcnp g => Dcnp <$> DCNP.removeNode node g
  end.

Definition addNode (node : Node) (h : Graph) : result Graph :=
  match h with
  | Cnp g => Cnp <$> CNP.addNode node g
  | Dcnp g => Dcnp <$> DCNP.addNode node g
  end.

Definition setNodeAge (node : Node) (age : Age) (h : Graph) : Graph :=
  match h with
  | Cnp g => Cnp (CNP.setNodeAge node age g)
  | Dcnp g => Dcnp (DCNP.setNodeAge node age g)
  end.

Definition getObjectiveValue (h : Graph) : Z :=
  match h with
  | Cnp g => CNP.getObjectiveValue g
  | Dcnp g => DCNP.getObjectiveValue g
  end.

Definition getRemovedNodes (h : Graph) : gset Node :=
  match h with
  | Cnp g => CNP.removedNodes g
  | Dcnp g => DCNP.removedNodes_ g
  end.

Definition isNodeRemoved (h : Graph) (node : Node) : bool :=
  bool_decide (node ∈ getRemovedNodes h).

Definition selectRemovedComponent (h : Graph) : result (ComponentIndex * Graph) :=
  match h with
  | Cnp g => lift_cnp (CNPSelect.selectRemovedComponent g)
  | Dcnp _ => Throw runtime_error
  end.

Definition randomSelectNodeFromComponent (componentIndex : ComponentIndex) (h : Graph)
    : result (Node * Graph) :=
  match h with
  | Cnp g => lift_cnp (CNPSelect.randomSelectNodeFromComponent componentIndex g)
  | Dcnp _ => Throw runtime_error
  end.

Definition impactSelectNodeFromComponent (componentIndex : ComponentIndex) (h : Graph)
    : result (Node * Graph) :=
  match h with
  | Cnp g => lift_cnp (CNPSelect.impactSelectNodeFromComponent componentIndex g)
  | Dcnp _ => Throw runtime_error
  end.

Definition ageSelectNodeFromComponent (componentIndex : ComponentIndex) (h : Graph)
    : result (Node * Graph) :=
  match h with
  | Cnp g => lift_cnp (CNPSelect.ageSelectNodeFromComponent componentIndex g)
  | Dcnp _ => Throw runtime_error
  end.

(** [Node Graph::greedySelectNodeToAdd() const]: on a DCNP graph it falls back
    to [findBestNodeToAdd], which may return [INVALID_NODE]. *)
Definition greedySelectNodeToAdd (h : Graph) : result (Z * Graph) :=
  match h with
  | Cnp g => '(node, g') ← CNPSelect.greedySelectNodeToAdd g; Ok (Z.of_nat node, Cnp g')
  | Dcnp g => lift_dcnp (DCNP.findBestNodeToAdd g)
  end.

Definition findBestNodeToAdd (h : Graph) : result (Z * Graph) :=
  greedySelectNodeToAdd h.

End GraphWrapper.

(** ** SearchResult.h *)
Record SearchResult := mkSearchResult {
  solution : gset Node;
  objValue : Z
}.

(** ** CBNSStrategy.cpp *)
Module CBNS.
Import GraphWrapper.

(** [void CBNSStrategy::performMove(Graph &, int &currentObjValue, int numSteps)];
    the result is the graph and the new [currentObjValue]. *)
Definition performMove (currentGraph : Graph) (numSteps : Z) : result (Graph * Z) :=
  '(componentToRemove, h1) ← selectRemovedComponent currentGraph;
  '(nodeToRemove, h2) ← ageSelectNodeFromComponent componentToRemove h1;
  h3 ← removeNode nodeToRemove h2;
  let h4 := setNodeAge nodeToRemove numSteps h3 in
  '(nodeToAdd, h5) ← greedySelectNodeToAdd h4;
  h6 ← (if decide (nodeToAdd ≠ INVALID_NODE)
        then h ← addNode (Z.to_nat nodeToAdd) h5;
             Ok (setNodeAge (Z.to_nat nodeToAdd) numSteps h)
        else Ok h5);
  Ok (h6, getObjectiveValue h6).

(** The [while (numIdleSteps < maxIdleSteps_)] loop of [execute]. *)
Fixpoint search_loop (fuel : nat) (maxIdleSteps : Z) (currentGraph : Graph)
    (bestSolution : gset Node) (bestObjValue : Z) (numIdleSteps numSteps : Z)
    : result (Graph * SearchResult) :=
  if decide (numIdleSteps < maxIdleSteps)%Z then
    match fuel with
    | 0 => Throw out_of_fuel
    | S fuel' =>
      let numSteps' := (numSteps + 1)%Z in
      '(h, currentObjValue) ← performMove currentGraph numSteps';
      if decide (currentObjValue < bestObjValue)%Z
      then search_loop fuel' maxIdleSteps h (getRemovedNodes h) currentObjValue 0 numSteps'
      else search_loop fuel' maxIdleSteps h bestSolution bestObjValue
             (numIdleSteps + 1)%Z numSteps'
    end
  else Ok (currentGraph, mkSearchResult bestSolution bestObjValue).

(** [SearchResult CBNSStrategy::execute()] *)
Definition execute (fuel : nat) (maxIdleSteps : Z) (graph : Graph)
    : result (Graph * SearchResult) :=
  search_loop fuel maxIdleSteps graph (getRemovedNodes graph) (getObjectiveValue graph) 0 0.

End CBNS.

(** ** CHNSStrategy.cpp *)
Module CHNS.
Import GraphWrapper.

(** [void CHNSStrategy::performMove(Graph &, int &currentObjValue, int numSteps)];
    [rng] is the strategy's own generator and [theta] is [theta_]. *)
Definition performMove (theta : Q) (rng : Rng.RandomNumberGenerator)
    (currentGraph : Graph) (numSteps : Z)
    : result (Graph * Z * Rng.RandomNumberGenerator) :=
  '(componentToRemove, h1) ← selectRemovedComponent currentGraph;
  let '(p, rng') := Rng.generateProbability rng in
  '(nodeToRemove, h2) ←
    (if negb (Qle_bool theta p)
     then impactSelectNodeFromComponent componentToRemove h1
     else ageSelectNodeFromComponent componentToRemove h1);
  h3 ← removeNode nodeToRemove h2;
  let h4 := setNodeAge nodeToRemove numSteps h3 in
  '(nodeToAdd, h5) ← greedySelectNodeToAdd h4;
  h6 ← (if decide (nodeToAdd ≠ INVALID_NODE)
        then h ← addNode (Z.to_nat nodeToAdd) h5;
             Ok (setNodeAge (Z.to_nat nodeToAdd) numSteps h)
        else Ok h5);
  Ok (h6, getObjectiveValue h6, rng').

(** The [while (numIdleSteps < maxIdleSteps_)] loop of [execute]. *)
Fixpoint search_loop (fuel : nat) (maxIdleSteps : Z) (theta : Q)
    (rng : Rng.RandomNumberGenerator) (currentGraph : Graph)
    (bestSolution : gset Node) (bestObjValue : Z) (numIdleSteps numSteps : Z)
    : result (Graph * SearchResult) :=
  if decide (numIdleSteps < maxIdleSteps)%Z then
    match fuel with
    | 0 => Throw out_of_fuel
    | S fuel' =>
      let numSteps' := (numSteps + 1)%Z in
      '(h, currentObjValue, rng') ← performMove theta rng currentGraph numSteps';
      if decide (currentObjValue < bestObjValue)%Z
      then search_loop fuel' maxIdleSteps theta rng' h (getRemovedNodes h)
             currentObjValue 0 numSteps'
      else search_loop fuel' maxIdleSteps theta rng' h bestSolution bestObjValue
             (numIdleSteps + 1)%Z numSteps'
    end
  else Ok (currentGraph, mkSearchResult bestSolution bestObjValue).

(** [SearchResult CHNSStrategy::execute()] *)
Definition execute (fuel : nat) (maxIdleSteps : Z) (theta : Q)
    (rng : Rng.RandomNumberGenerator) (graph : Graph) : result (Graph * SearchResult) :=
  search_loop fuel maxIdleSteps theta rng graph (getRemovedNodes graph)
    (getObjectiveValue graph) 0 0.

End CHNS.

(** ** DLASStrategy.cpp *)
Module DLAS.
Import GraphWrapper.

(** The history bookkeeping at the end of [performMove]: the statements after
    the acceptance test, on [historyCost], [maxCost] and [numMaxCost]. *)
Definition update_history (currentObjValue previousObjValue : Z) (historyIndex : nat)
    (historyCost : list Z) (maxCost numMaxCost : Z) : list Z * Z * Z :=
  if decide (historyCost !!! historyIndex < currentObjValue)%Z then
    (<[historyIndex := currentObjValue]> historyCost, maxCost, numMaxCost)
  else if decide (currentObjValue < historyCost !!! historyIndex
                  ∧ currentObjValue < previousObjValue)%Z then
    let historyCost' := <[historyIndex := currentObjValue]> historyCost in
    let numMaxCost' :=
      if decide (historyCost' !!! historyIndex = maxCost)
      then (numMaxCost - 1)%Z else numMaxCost in
    if decide (numMaxCost' = 0%Z) then
      let maxCost' := foldl Z.max (historyCost' !!! 0) historyCost' in
      (historyCost', maxCost', Z.of_nat (length (filter (λ c, c = maxCost') historyCost')))
    else (historyCost', maxCost, numMaxCost')
  else (historyCost, maxCost, numMaxCost).

(** [void DLASStrategy::performMove(Graph &, int &currentObjValue,
    std::vector<int> &historyCost, int &maxCost, int &numMaxCost, long numSteps)];
    the result lists the new values of the reference parameters. *)
Definition performMove (currentGraph : Graph) (currentObjValue : Z)
    (historyCost : list Z) (maxCost numMaxCost : Z) (numSteps : Z)
    : result (Graph * Z * list Z * Z * Z) :=
  let previousRemovedNodes := getRemovedNodes currentGraph in
  let previousObjValue := currentObjValue in
  '(componentToRemove, h1) ← selectRemovedComponent currentGraph;
  '(nodeToRemove, h2) ← randomSelectNodeFromComponent componentToRemove h1;
  h3 ← removeNode nodeToRemove h2;
  '(nodeToAdd, h4) ← greedySelectNodeToAdd h3;
  h5 ← (if decide (nodeToAdd ≠ INVALID_NODE)
        then h ← addNode (Z.to_nat nodeToAdd) h4;
             Ok (setNodeAge (Z.to_nat nodeToAdd) numSteps h)
        else Ok h4);
  let currentObjValue1 := getObjectiveValue h5 in
  let historyLength := Z.of_nat (length historyCost) in
  let historyIndex := Z.to_nat (Z.rem numSteps historyLength) in
  '(h6, currentObjValue2) ←
    (if decide (currentObjValue1 = previousObjValue ∨ currentObjValue1 < maxCost)%Z
     then Ok (h5, currentObjValue1)
     else h ← updateGraphByRemovedNodes previousRemovedNodes h5;
          Ok (h, previousObjValue));
  let '(historyCost', maxCost', numMaxCost') :=
    update_history currentObjValue2 previousObjValue historyIndex historyCost
      maxCost numMaxCost in
  Ok (h6, currentObjValue2, historyCost', maxCost', numMaxCost').

End DLAS.

(** ** SearchUtils.h, Search.cpp, Population.cpp: where the streams come from *)
Module Seeding.
Import GraphWrapper.

(** [getRandomFeasibleGraph]: the loop that draws the random solution.
    [availableNodes[randomIndex] = availableNodes.back(); pop_back()]. *)
Fixpoint random_solution (count : nat) (availableNodes : list Node) (sol : gset Node)
    (rng : Rng.RandomNumberGenerator) : result (gset Node * Rng.RandomNumberGenerator) :=
  match count, availableNodes with
  | S count', _ :: _ =>
    '(randomIndex, rng') ← Rng.generateIndex (Z.of_nat (length availableNodes)) rng;
    let i := Z.to_nat randomIndex in
    let node := availableNodes !!! i in
    let moved := <[i := List.last availableNodes 0]> availableNodes in
    random_solution count' (take (length moved - 1) moved) (sol ∪ {[node]}) rng'
  | _, _ => Ok (sol, rng)
  end.

(** [std::unique_ptr<Graph> Graph::getRandomFeasibleGraph() const]: the copy is
    taken before the draws, which advance the [mutable] generator of the
    graph it is called on.  The result is the new graph and the old one. *)
Definition getRandomFeasibleGraph (h : Graph) : result (Graph * Graph) :=
  match h with
  | Cnp g =>
    '(sol, rng') ← random_solution (Z.to_nat (CNP.numToRemove_ g))
                     (elements (CNP.originalNodesSet_ g)) ∅ (CNP.rng_ g);
    g' ← CNP.updateGraphByRemovedNodes sol g;
    Ok (Cnp g', Cnp (CNP.set_rng_ rng' g))
  | Dcnp g =>
    '(sol, rng') ← random_solution (Z.to_nat (DCNP.numToRemove_ g))
                     (elements (DCNP.originalNodesSet_ g)) ∅ (DCNP.rng_ g);
    g' ← DCNP.updateGraphByRemovedNodes sol g;
    Ok (Dcnp g', Dcnp (DCNP.set_rng_ rng' g))
  end.

(** [Node DCNP_Graph::randomSelectNodeToRemove() const]: the loop redraws until
    it meets a vertex that is not removed. *)
Fixpoint dcnp_randomSelectNodeToRemove (fuel : nat) (g : DCNP.DCNP_Graph)
    : result (Node * DCNP.DCNP_Graph) :=
  '(randomIndex, r) ← Rng.generateIndex (Z.of_nat (DCNP.numNodes_ g)) (DCNP.rng_ g);
  let g' := DCNP.set_rng_ r g in
  if DCNP.isNodeRemoved g (Z.to_nat randomIndex) then
    match fuel with
    | 0 => Throw out_of_fuel
    | S fuel' => dcnp_randomSelectNodeToRemove fuel' g'
    end
  else Ok (Z.to_nat randomIndex, g').

(** [Node Graph::randomSelectNodeToRemove() const] *)
Definition randomSelectNodeToRemove (fuel : nat) (h : Graph) : result (Node * Graph) :=
  match h with
  | Cnp g => lift_cnp (CNPSelect.randomSelectNodeToRemove g)
  | Dcnp g => lift_dcnp (dcnp_randomSelectNodeToRemove fuel g)
  end.

Section Streams.

(** The outputs of [std::mt19937] as a function of the 32-bit value it was
    seeded with. *)
Variable mt19937 : Z → nat → nat.





(** [strategy_->execute()] for the strategy named [search_], run on a graph
    with the strategy's generator. *)
Variable execute : string → Graph → Rng.RandomNumberGenerator → result (Graph * SearchResult).



(** [bool Population::isDuplicate(const Solution &) const] over the stored
    solutions. *)
Definition isDuplicate (population : list (gset Node)) (sol : gset Node) : bool :=
  bool_decide (sol ∈ population).

(** The [while (isDuplicate(...) && attempts < MAX_ATTEMPTS)] loop. *)
Fixpoint retry (left : nat) (fuel : nat) (population : list (gset Node)) (newGraph : Graph)
    : result Graph :=
  match left with
  | 0 => Ok newGraph
  | S left' =>
    if isDuplicate population (getRemovedNodes newGraph) then
      '(addedNode, h1) ← (if isDCNP newGraph then findBestNodeToAdd newGraph
                          else greedySelectNodeToAdd newGraph);
      if decide (addedNode < 0)%Z then Throw undefined_behaviour else
      h2 ← addNode (Z.to_nat addedNode) h1;
      '(removedNode, h3) ← randomSelectNodeToRemove fuel h2;
      h4 ← removeNode removedNode h3;
      retry left' fuel population h4
    else Ok newGraph
  end.


End Streams.

End Seeding.

(** * Specification vocabulary *)

(** ** Graphs *)

(** An adjacency list over the vertices [0 .. n-1] of an undirected graph. *)
Definition adj_sym (n : nat) (adj : list (gset Node)) : Prop :=
  length adj = n ∧
  ∀ u w, u < n → w ∈ adj !!! u → w < n ∧ u ∈ adj !!! w.

(** No vertex is its own neighbour. *)
Definition adj_irrefl (adj : list (gset Node)) : Prop :=
  ∀ u, u ∉ adj !!! u.

(** [walk adj removed d v u]: a walk of [d] edges from [v] to [u] through
    vertices that are not removed. *)
Inductive walk (adj : list (gset Node)) (removed : gset Node) : nat → Node → Node → Prop :=
| walk_0 v : v ∉ removed → walk adj removed 0 v v
| walk_S d v u w :
    walk adj removed d v u → w ∈ adj !!! u → w ∉ removed → walk adj removed (S d) v w.

(** [u] is within [K] hops of [v]; a vertex that is not removed always reaches
    itself, also when [K] is not positive. *)
Definition within (adj : list (gset Node)) (removed : gset Node) (K : Z) (v u : Node) : Prop :=
  ∃ d, (Z.of_nat d ≤ Z.max 0 K)%Z ∧ walk adj removed d v u.

(** [A] is the graph, [B] the adjacency being edited, [T] the vertices elided
    so far. *)
Definition elided (A B : list (gset nat)) (T : gset nat) : Prop :=
  length B = length A ∧
  ∀ u, u < length A → B !!! u = if decide (u ∈ T) then ∅ else (A !!! u) ∖ T.

(** ** The DCNP engine *)
Module DSpec.
Import DCNP.

(** [intree[v][u]] *)
Definition cell (g : DCNP_Graph) (v u : Node) : Z :=
  intree_ g !!! treeIndex (numNodes_ g) v u.

(** The number of [u ≠ v] with [intree[v][u] = 1]. *)
Definition row_count (g : DCNP_Graph) (v : Node) : nat :=
  length (filter (λ u, u ≠ v ∧ cell g v u = 1%Z) (seq 0 (numNodes_ g))).

(** Shape of the state: what every operation needs to stay within bounds. *)
Record wf (g : DCNP_Graph) : Prop := mk_wf {
  wf_adj : adj_sym (numNodes_ g) (currentAdjList_ g);
  wf_orig : originalAdjList_ g = currentAdjList_ g;
  wf_intree : length (intree_ g) = numNodes_ g * numNodes_ g;
  wf_treeSize : length (treeSize_ g) = numNodes_ g
}.

(** Row [v] of the table describes the [K]-hop ball of [v] in the graph
    [(adj, removed)]. *)
Record row_ok (adj : list (gset Node)) (removed : gset Node) (g : DCNP_Graph) (v : Node)
    : Prop := mk_row_ok {
  row_bit : ∀ u, u < numNodes_ g → cell g v u = 0%Z ∨ cell g v u = 1%Z;
  row_ball : ∀ u, u < numNodes_ g → cell g v u = 1%Z ↔ within adj removed (kHops_ g) v u;
  row_size : treeSize_ g !!! v = Z.of_nat (row_count g v)
}.

(** The engine invariant. *)
Record inv (g : DCNP_Graph) : Prop := mk_inv {
  inv_wf : wf g;
  inv_rows : ∀ v, v < numNodes_ g → row_ok (currentAdjList_ g) (removedNodes_ g) g v
}.

(** The K-hop table properties of the specification. *)
Record table_properties (g : DCNP_Graph) : Prop := mk_table_properties {
  removed_row_zero :
    ∀ v u, v < numNodes_ g → u < numNodes_ g → v ∈ removedNodes_ g → cell g v u = 0%Z;
  intree_symmetric :
    ∀ v u, v < numNodes_ g → u < numNodes_ g → cell g v u = cell g u v;
  tree_size_counts :
    ∀ v, v < numNodes_ g → treeSize_ g !!! v = Z.of_nat (row_count g v)
}.


(** The vertices it tries, in the order of the loop. *)
Definition candidates (g : DCNP_Graph) : list Node :=
  filter (λ i, i ∉ removedNodes_ g) (seq 0 (numNodes_ g)).




(** States reachable through the public operations, each on valid vertices. *)
Inductive reachable : DCNP_Graph → Prop :=
| reach_build n K adjList numToRemove seeded g :
    adj_sym n adjList →
    build (set_seq 0 n) K adjList numToRemove seeded = Ok g →
    reachable g
| reach_set_removed_all S g g' :
    reachable g →
    updateGraphByRemovedNodes S g = Ok g' →
    reachable g'
| reach_get_reduced_by S g g' :
    reachable g →
    (∀ v, v ∈ S → v < numNodes_ g) →
    getReducedGraphByRemovedNodes S g = Ok g' →
    reachable g'
| reach_add v g g' :
    reachable g →
    v < numNodes_ g →
    addNode v g = Ok g' →
    reachable g'
| reach_remove v g g' :
    reachable g →
    v < numNodes_ g →
    removeNode v g = Ok g' →
    reachable g'.

End DSpec.

(** ** The CNP engine *)
Module CSpec.
Import CNP.

(** An edge of an adjacency list, and connectedness through such edges. *)
Definition edge (adj : list (gset Node)) (a b : Node) : Prop := b ∈ adj !!! a.

Definition reach (adj : list (gset Node)) : Node → Node → Prop := rtc (edge adj).

(** The edges the depth-first search follows: it skips removed vertices. *)
Definition live_edge (adj : list (gset Node)) (removed : gset Node) (a b : Node) : Prop :=
  b ∈ adj !!! a ∧ b ∉ removed.

(** Σ size·(size−1)/2 and Σ size over the stored components. *)
Definition comp_pairs (comps : list Component) : Z :=
  foldr (λ c s, (pairs (size c) + s)%Z) 0%Z comps.

Definition comp_sizes (comps : list Component) : nat :=
  foldr (λ c s, size c + s) 0 comps.

(** The part of the state that [add] and [remove] never change, and the DFS
    scratch stamps, none of which exceeds the current epoch. *)
Record static_ok (g : CNP_Graph) : Prop := mk_static_ok {
  s_nodes : originalNodesSet_ g = set_seq 0 (numNodes_ g);
  s_orig : adj_sym (numNodes_ g) (originalAdjList_ g);
  s_irrefl : adj_irrefl (originalAdjList_ g);
  s_n2c_len : length (nodeToComponentIndex_ g) = numNodes_ g;
  s_epochs : length (dfsVisitEpoch_ g) = numNodes_ g;
  s_epoch_le : ∀ v, v < numNodes_ g → (dfsVisitEpoch_ g !!! v ≤ dfsCurrentEpoch_ g)%Z;
  s_epoch_pos : (0 ≤ dfsCurrentEpoch_ g)%Z
}.

(** The current adjacency is the original one with the removed vertices
    elided. *)
Record graph_ok (g : CNP_Graph) : Prop := mk_graph_ok {
  g_static : static_ok g;
  g_cur : elided (originalAdjList_ g) (currentAdjList_ g) (removedNodes g);
  g_removed : ∀ v, v ∈ removedNodes g → v < numNodes_ g
}.

(** The component structure, up to a set [P] of pending vertices: surviving
    vertices that are in no stored component yet (the loops that discover
    components work through them).  Every stored component is exactly the
    set of vertices connected to any of its members. *)
Record pinv (g : CNP_Graph) (P : gset Node) : Prop := mk_pinv {
  p_graph : graph_ok g;
  p_pending : ∀ v, v ∈ P → v < numNodes_ g ∧ v ∉ removedNodes g;
  p_removed : ∀ v, v < numNodes_ g → v ∈ removedNodes g →
    nodeToComponentIndex_ g !!! v = (-1)%Z;
  p_live : ∀ v, v < numNodes_ g → v ∉ removedNodes g → v ∉ P →
    ∃ c comp, nodeToComponentIndex_ g !!! v = Z.of_nat c ∧
              connectedComponents_ g !! c = Some comp ∧ v ∈ nodes comp;
  p_comp : ∀ c comp, connectedComponents_ g !! c = Some comp →
    size comp = length (nodes comp) ∧ NoDup (nodes comp) ∧ nodes comp ≠ [] ∧
    ∀ v, v ∈ nodes comp →
      v < numNodes_ g ∧ (v ∉ removedNodes g) ∧ (v ∉ P) ∧
      nodeToComponentIndex_ g !!! v = Z.of_nat c;
  p_class : ∀ c comp u w, connectedComponents_ g !! c = Some comp → u ∈ nodes comp →
    (w ∈ nodes comp ↔ reach (currentAdjList_ g) u w);
  p_pairs : connectedPairs_ g = comp_pairs (connectedComponents_ g)
}.

(** The engine invariant: nothing is pending. *)
Definition inv (g : CNP_Graph) : Prop := pinv g ∅.

(** Removing [v] does not split its component: the other members stay
    connected to one another once [v] is elided. *)
Definition no_split (g : CNP_Graph) (v : Node) : Prop :=
  ∀ x y, x ≠ v → y ≠ v →
    reach (currentAdjList_ g) v x → reach (currentAdjList_ g) v y →
    reach (elide_node (currentAdjList_ g) (currentAdjList_ g) v) x y.


(** A valid input graph on the vertices [0 .. n-1]. *)
Definition valid_graph (n : nat) (adjList : list (gset Node)) : Prop :=
  adj_sym n adjList ∧ adj_irrefl adjList.

(** States reachable from a constructed engine through [set_removed_all]
    followed by any sequence of [set_removed_all], [add] and [remove] on valid
    vertices. *)
Inductive reachable : CNP_Graph → Prop :=
| reach_first n adjList budget seeded cp0 S g :
    valid_graph n adjList →
    (∀ v, v ∈ S → v < n) →
    updateGraphByRemovedNodes S (build (set_seq 0 n) adjList budget seeded cp0) = Ok g →
    reachable g
| reach_set_removed_all S g g' :
    reachable g →
    (∀ v, v ∈ S → v < numNodes_ g) →
    updateGraphByRemovedNodes S g = Ok g' →
    reachable g'
| reach_add v g g' :
    reachable g →
    v ∈ removedNodes g →
    addNode v g = Ok g' →
    reachable g'
| reach_remove v g g' :
    reachable g →
    v < numNodes_ g → v ∉ removedNodes g →
    removeNode v g = Ok g' →
    reachable g'.

End CSpec.

(** * Small instances

    Concrete graphs and engine states on which the definitions above are
    evaluated. *)
Module Examples.

(** A generator whose every draw is [0]. *)
Definition rng0 : Rng.RandomNumberGenerator := Rng.mk (λ _, 0) 0.

(** The path 0 - 1 - 2. *)
Definition path3 : list (gset Node) := [{[1]}; {[0; 2]}; {[1]}].

(** One edge 0 - 1. *)
Definition edge2 : list (gset Node) := [{[1]}; {[0]}].

(** The star with centre 0 and leaves 1 .. 5. *)
Definition star6 : list (gset Node) :=
  [{[1; 2; 3; 4; 5]}; {[0]}; {[0]}; {[0]}; {[0]}; {[0]}].

(** A generator whose third draw is [1] and whose other draws are [0]. *)
Definition rng_third : Rng.RandomNumberGenerator :=
  Rng.mk (λ k, if decide (k = 2) then 1 else 0) 0.


(** The CNP engine built on [adj] (the garbage in [connectedPairs_] taken to be
    [0]). *)
Definition cnp_built (n : nat) (adj : list (gset Node)) : CNP.CNP_Graph :=
  CNP.build (set_seq 0 n) adj 1 rng0 0.

(** The same engine after [updateGraphByRemovedNodes S]. *)
Definition cnp_state (n : nat) (adj : list (gset Node)) (S : gset Node) : CNP.CNP_Graph :=
  match CNP.updateGraphByRemovedNodes S (cnp_built n adj) with
  | Ok g => g
  | Throw _ => cnp_built n adj
  end.

(** The CNP engine on the star, budget 1, leaf 1 removed, with the generator
    [rng_third]. *)
Definition star_state : CNP.CNP_Graph :=
  match CNP.updateGraphByRemovedNodes {[1]}
          (CNP.build (set_seq 0 6) star6 1 rng_third 0) with
  | Ok g => g
  | Throw _ => CNP.build (set_seq 0 6) star6 1 rng_third 0
  end.



(** The DCNP engine built on [adj] with hop limit [K], and the same engine
    after [updateGraphByRemovedNodes S]. *)
Definition dcnp_empty : DCNP.DCNP_Graph :=
  DCNP.mkGraph 0 0 0 ∅ [] [] [] [] [] ∅ rng0.

Definition dcnp_built (n : nat) (K : Z) (adj : list (gset Node)) : DCNP.DCNP_Graph :=
  match DCNP.build (set_seq 0 n) K adj 1 rng0 with
  | Ok g => g
  | Throw _ => dcnp_empty
  end.

Definition dcnp_state (n : nat) (K : Z) (adj : list (gset Node)) (S : gset Node)
    : DCNP.DCNP_Graph :=
  match DCNP.updateGraphByRemovedNodes S (dcnp_built n K adj) with
  | Ok g => g
  | Throw _ => dcnp_empty
  end.

End Examples.

(** * Notions used in the proofs *)

(** What [initializeComponentsAndMapping] and the split loop of [removeNode]
    do with a component found by the search. *)
Definition with_component (idx : Z) (comp : CNP.Component) (g : CNP.CNP_Graph)
    : CNP.CNP_Graph :=
  CNP.set_connectedPairs_ (CNP.connectedPairs_ g + CNP.pairs (CNP.size comp))%Z
    (CNP.set_nodeToComponentIndex_
       (CNP.assign_all idx (CNP.nodes comp) (CNP.nodeToComponentIndex_ g))
       (CNP.set_connectedComponents_ (CNP.connectedComponents_ g ++ [comp]) g)).
Arguments with_component _ _ _ /.

(** The state [removeNode] hands to the search: [v] removed and elided. *)
Definition cut (v : nat) (g : CNP.CNP_Graph) (comps : list CNP.Component) : CNP.CNP_Graph :=
  CNP.set_connectedComponents_ comps
    (CNP.set_currentAdjList_ (CNP.elide_node (CNP.currentAdjList_ g) (CNP.currentAdjList_ g) v)
       (CNP.set_nodeToComponentIndex_ (<[v := (-1)%Z]> (CNP.nodeToComponentIndex_ g))
          (CNP.set_removedNodes (CNP.removedNodes g ∪ {[v]}) g))).
Arguments cut _ _ _ /.

(** The graph [addNode] searches: [v] is back, with its edges to the
    surviving neighbours. *)
Definition rejoin (v : nat) (cur' : list (gset nat)) (g : CNP.CNP_Graph) : CNP.CNP_Graph :=
  CNP.set_currentAdjList_ cur' (CNP.set_removedNodes (CNP.removedNodes g ∖ {[v]}) g).
Arguments rejoin _ _ _ /.

(** A strictly increasing list whose elements are all above [lo]. *)
Fixpoint increasing (lo : Z) (s : list Z) : Prop :=
  match s with
  | [] => True
  | y :: s' => (lo < y)%Z ∧ increasing y s'
  end.

(** Number of entries of [ms] below the index [i]. *)
Definition cnt (ms : list Z) (i : nat) : nat :=
  length (filter (λ m, (m < Z.of_nat i)%Z) ms).

(** Sum of [f] over a list of vertices. *)
Definition zsum (f : nat → Z) (l : list nat) : Z := foldr (λ x s, (f x + s)%Z) 0%Z l.

(** Size of the stored component of [x]. *)
Definition class_size (g : CNP.CNP_Graph) (x : nat) : Z :=
  Z.of_nat (CNP.size (CNP.connectedComponents_ g
                        !!! Z.to_nat (CNP.nodeToComponentIndex_ g !!! x))).




(** Two CNP states that differ at most in the generator and the ages. *)
Definition same_structure (g g' : CNP.CNP_Graph) : Prop :=
  CNP.numNodes_ g' = CNP.numNodes_ g ∧
  CNP.originalNodesSet_ g' = CNP.originalNodesSet_ g ∧
  CNP.currentAdjList_ g' = CNP.currentAdjList_ g ∧
  CNP.originalAdjList_ g' = CNP.originalAdjList_ g ∧
  CNP.nodeToComponentIndex_ g' = CNP.nodeToComponentIndex_ g ∧
  CNP.connectedComponents_ g' = CNP.connectedComponents_ g ∧
  CNP.connectedPairs_ g' = CNP.connectedPairs_ g ∧
  CNP.dfsVisitEpoch_ g' = CNP.dfsVisitEpoch_ g ∧
  CNP.dfsCurrentEpoch_ g' = CNP.dfsCurrentEpoch_ g ∧
  CNP.removedNodes g' = CNP.removedNodes g.

(** Number of zero entries of a [dfn_] vector. *)
Definition zeros (d : list Z) : nat := length (filter (λ x, x = 0%Z) d).

(** * Further notions: counting pairs of vertices *)

(** The unordered pairs of vertices below [n], each written [(u, v)] with
    [u < v]. *)
Fixpoint upairs (n : nat) : list (nat * nat) :=
  match n with
  | 0 => []
  | S m => upairs m ++ ((λ u, (u, m)) <$> seq 0 m)
  end.

(** The pairs of surviving vertices that the CNP engine stores in one
    component. *)
Definition cnp_joined (g : CNP.CNP_Graph) (p : nat * nat) : Prop :=
  p.1 ∉ CNP.removedNodes g ∧ p.2 ∉ CNP.removedNodes g ∧
  CNP.nodeToComponentIndex_ g !!! p.1 = CNP.nodeToComponentIndex_ g !!! p.2.

#[global] Instance cnp_joined_dec g p : Decision (cnp_joined g p).
Proof. unfold cnp_joined. apply _. Defined.

(** The pairs of vertices that the DCNP engine marks in its table. *)
Definition dcnp_marked (g : DCNP.DCNP_Graph) (p : nat * nat) : Prop :=
  DSpec.cell g p.1 p.2 = 1%Z.

#[global] Instance dcnp_marked_dec g p : Decision (dcnp_marked g p).
Proof. unfold dcnp_marked. apply _. Defined.

(** * DLASStrategy.cpp: the search loop *)
Module DLASSearch.
Import GraphWrapper.

(** The [while (numIdleSteps < maxIdleSteps_)] loop of
    [DLASStrategy::execute]. *)
Fixpoint search_loop (fuel : nat) (maxIdleSteps : Z) (currentGraph : Graph)
    (currentObjValue : Z) (historyCost : list Z) (maxCost numMaxCost : Z)
    (bestSolution : gset Node) (bestObjValue : Z) (numIdleSteps numSteps : Z)
    : result (Graph * SearchResult) :=
  if decide (numIdleSteps < maxIdleSteps)%Z then
    match fuel with
    | 0 => Throw out_of_fuel
    | S fuel' =>
      let numSteps' := (numSteps + 1)%Z in
      '(h, currentObjValue', historyCost', maxCost', numMaxCost') ←
        DLAS.performMove currentGraph currentObjValue historyCost maxCost numMaxCost
          numSteps';
      if decide (currentObjValue' < bestObjValue)%Z
      then search_loop fuel' maxIdleSteps h currentObjValue' historyCost' maxCost'
             numMaxCost' (getRemovedNodes h) currentObjValue' 0 numSteps'
      else search_loop fuel' maxIdleSteps h currentObjValue' historyCost' maxCost'
             numMaxCost' bestSolution bestObjValue (numIdleSteps + 1)%Z numSteps'
    end
  else Ok (currentGraph, mkSearchResult bestSolution bestObjValue).

(** [SearchResult DLASStrategy::execute()]; [historyLength] is
    [historyLength_], the size of the vector [historyCost]. *)
Definition execute (fuel : nat) (maxIdleSteps : Z) (historyLength : nat) (graph : Graph)
    : result (Graph * SearchResult) :=
  let currentObjValue := getObjectiveValue graph in
  search_loop fuel maxIdleSteps graph currentObjValue
    (replicate historyLength currentObjValue) currentObjValue (Z.of_nat historyLength)
    (getRemovedNodes graph) currentObjValue 0 0.

End DLASSearch.

(** * Solutions and their value *)

(** [scored g0 S v]: removing exactly the vertices [S] from the graph of the
    engine [g0] leaves [v] connected pairs, as witnessed by an engine state on
    that graph that satisfies the invariant. *)
Definition scored (g0 : CNP.CNP_Graph) (S : gset Node) (v : Z) : Prop :=
  ∃ gb, CSpec.inv gb ∧ CNP.numNodes_ gb = CNP.numNodes_ g0 ∧
        CNP.originalAdjList_ gb = CNP.originalAdjList_ g0 ∧
        CNP.removedNodes gb = S ∧ CNP.getObjectiveValue gb = v.

(** * ProblemData.cpp *)
Module ProblemData.

(** [class ProblemData]: [numNodes_], [nodesSet_] and [adjList_]. *)
Record ProblemData := mk {
  numNodes_ : nat;
  nodesSet_ : gset Node;
  adjList_ : list (gset Node)
}.

(** [ProblemData::ProblemData(int num)] *)
Definition make (num : nat) : ProblemData := mk num ∅ (replicate num ∅).

(** [void ProblemData::addNode(Node node)] *)
Definition addNode (node : Node) (pd : ProblemData) : ProblemData :=
  mk (numNodes_ pd) (nodesSet_ pd ∪ {[node]}) (adjList_ pd).

(** [void ProblemData::addEdge(Node u, Node v)]; [adjList_[u]] with [u] beyond
    the vector is undefined behaviour. *)
Definition addEdge (u v : Node) (pd : ProblemData) : result ProblemData :=
  if decide (u < length (adjList_ pd) ∧ v < length (adjList_ pd)) then
    let adj1 := <[u := (adjList_ pd !!! u) ∪ {[v]}]> (adjList_ pd) in
    let adj2 := <[v := (adj1 !!! v) ∪ {[u]}]> adj1 in
    Ok (mk (numNodes_ pd) (nodesSet_ pd) adj2)
  else Throw undefined_behaviour.

(** [std::unique_ptr<Graph> ProblemData::createOriginalGraph(problemType,
    numToRemove, seed, hop_distance) const]; [seeded] is the generator after
    [setSeed(seed)] and [cp0] the indeterminate initial content of
    [connectedPairs_] of a CNP engine. *)
Definition createOriginalGraph (problemType : string) (numToRemove : Z)
    (seeded : Rng.RandomNumberGenerator) (cp0 : Z) (hop_distance : Z) (pd : ProblemData)
    : result GraphWrapper.Graph :=
  if decide (problemType = "CNP") then
    if decide (Z.of_nat (size (nodesSet_ pd)) < numToRemove)%Z then Throw runtime_error
    else Ok (GraphWrapper.Cnp
               (CNP.build (nodesSet_ pd) (adjList_ pd) numToRemove seeded cp0))
  else if decide (problemType = "DCNP") then
    if decide (Z.of_nat (size (nodesSet_ pd)) < numToRemove)%Z then Throw runtime_error
    else GraphWrapper.Dcnp
           <$> DCNP.build (nodesSet_ pd) hop_distance (adjList_ pd) numToRemove seeded
  else Throw runtime_error.

(** The data of a graph on the vertices [0 .. n-1] given by a list of edges:
    [ProblemData(n)], then [addNode] for every vertex and [addEdge] for every
    edge. *)
Definition of_edges (n : nat) (edges : list (Node * Node)) : result ProblemData :=
  foldlM (λ pd e, addEdge e.1 e.2 pd) edges (foldl (λ pd v, addNode v pd) (make n) (seq 0 n)).

End ProblemData.

(** * What [findBestNodeToAdd] measures *)

(** The increase of the DCNP objective when [w] alone is added back. *)
Definition deterioration (g : DCNP.DCNP_Graph) (w : Node) : Z :=
  match DCNP.addNode w g with
  | Ok g1 => (DCNP.getObjectiveValue g1 - DCNP.getObjectiveValue g)%Z
  | Throw _ => 0%Z
  end.

(** The bookkeeping of one tentative addition. *)
Definition tally_add (g : DCNP.DCNP_Graph) (acc : Z * Z * list nat) (node : nat)
    : Z * Z * list nat :=
  let '(m, b, L) := acc in
  if decide (deterioration g node < m)%Z then (deterioration g node, Z.of_nat node, [node])
  else if decide (deterioration g node = m) then (m, b, L ++ [node])
  else (m, b, L).

(** The stored components of the CNP engine that hold one of the vertices of
    [l] (the neighbours of a vertex that [calculateConnectionGain] looks at). *)
Definition beside (g : CNP.CNP_Graph) (l : list nat) (c : nat) : Prop :=
  Exists (λ nb, CNP.nodeToComponentIndex_ g !!! nb = Z.of_nat c) l.

#[global] Instance beside_dec g l c : Decision (beside g l c).
Proof. unfold beside. apply _. Defined.

(** * doubleBackboneBasedCrossover.cpp *)
Module DBX.
Import GraphWrapper.

(** [constexpr double THETA = 0.85;] *)
Definition THETA : Q := 85 # 100.

(** The body of [for (Node node : MSolution)]: a vertex of both parents is
    kept, a vertex of the first parent alone is kept when
    [rng.generateProbability() < THETA]. *)
Definition keep_first (FSolution : gset Node)
    (acc : gset Node * Rng.RandomNumberGenerator) (node : Node)
    : gset Node * Rng.RandomNumberGenerator :=
  let '(nodesToRemove, rng) := acc in
  if bool_decide (node ∈ FSolution) then (nodesToRemove ∪ {[node]}, rng)
  else
    let '(p, rng') := Rng.generateProbability rng in
    if negb (Qle_bool THETA p) then (nodesToRemove ∪ {[node]}, rng')
    else (nodesToRemove, rng').

(** The body of [for (Node node : FSolution)]. *)
Definition keep_second (acc : gset Node * Rng.RandomNumberGenerator) (node : Node)
    : gset Node * Rng.RandomNumberGenerator :=
  let '(nodesToRemove, rng) := acc in
  if bool_decide (node ∈ nodesToRemove) then acc
  else
    let '(p, rng') := Rng.generateProbability rng in
    if negb (Qle_bool THETA p) then (nodesToRemove ∪ {[node]}, rng')
    else (nodesToRemove, rng').

(** The repair loop taken when too few vertices were kept. *)
Fixpoint remove_more (count : nat) (offspring : Graph) : result Graph :=
  match count with
  | 0 => Ok offspring
  | S count' =>
    '(componentIndex, h1) ← selectRemovedComponent offspring;
    '(nodeToRemove, h2) ← randomSelectNodeFromComponent componentIndex h1;
    h3 ← removeNode nodeToRemove h2;
    remove_more count' h3
  end.

(** The repair loop taken when too many vertices were kept; a negative
    [nodeToAdd] indexes outside the vectors of [addNode]. *)
Fixpoint add_back (count : nat) (offspring : Graph) : result Graph :=
  match count with
  | 0 => Ok offspring
  | S count' =>
    '(nodeToAdd, h1) ← greedySelectNodeToAdd offspring;
    if decide (nodeToAdd < 0)%Z then Throw undefined_behaviour else
    h2 ← addNode (Z.to_nat nodeToAdd) h1;
    add_back count' h2
  end.

(** [std::unique_ptr<Graph> doubleBackboneBasedCrossover(originalGraph,
    parents, seed)]; [seeded] is the local generator after [setSeed(seed)]. *)
Definition doubleBackboneBasedCrossover (originalGraph : Graph)
    (MSolution FSolution : gset Node) (seeded : Rng.RandomNumberGenerator) : result Graph :=
  let '(kept, rng1) := foldl (keep_first FSolution) (∅, seeded) (elements MSolution) in
  let '(nodesToRemove, _) := foldl keep_second (kept, rng1) (elements FSolution) in
  offspring ← updateGraphByRemovedNodes nodesToRemove originalGraph;
  let currentCount := Z.of_nat (size nodesToRemove) in
  let targetCount := Z.of_nat (size MSolution) in
  if decide (currentCount < targetCount)%Z
  then remove_more (Z.to_nat (targetCount - currentCount)) offspring
  else if decide (currentCount > targetCount)%Z
  then add_back (Z.to_nat (currentCount - targetCount)) offspring
  else Ok offspring.

End DBX.

(** * Proofs *)

(** ** Generic facts on lists used as arrays *)

Lemma result_bind_Ok {A B} (m : result A) (k : A → result B) (b : B) :
  m ≫= k = Ok b ↔ ∃ a, m = Ok a ∧ k a = Ok b.
Proof.
  destruct m as [a|e]; simpl.
  - split; [eauto | by intros (? & [= ->] & ?)].
  - split; [done | by intros (? & ? & ?)].
Qed.

Lemma foldlM_app {A B} (f : A → B → result A) (l k : list B) (a : A) :
  foldlM f (l ++ k) a = foldlM f l a ≫= foldlM f k.
Proof.
  revert a. induction l as [|x l IH]; intros a; simpl; [done|].
  destruct (f a x) as [a'|e]; simpl; [apply IH | done].
Qed.

Lemma bounded_nodup_length (n : nat) (l : list nat) :
  NoDup l → (∀ x, x ∈ l → x < n) → length l ≤ n.
Proof.
  intros Hnd Hlt.
  transitivity (length (seq 0 n)); [|by rewrite length_seq].
  apply submseteq_length, NoDup_submseteq; [done|].
  intros x Hx. apply elem_of_seq. specialize (Hlt x Hx). lia.
Qed.

Lemma lookup_total_insert_same {A} `{!Inhabited A} (l : list A) (i : nat) (x : A) :
  i < length l → <[i:=x]> l !!! i = x.
Proof. apply list_lookup_total_insert_eq. Qed.

Lemma lookup_total_lookup {A} `{!Inhabited A} (l : list A) (i : nat) (x : A) :
  l !! i = Some x → l !!! i = x.
Proof. apply list_lookup_total_correct. Qed.

Lemma lookup_lookup_total {A} `{!Inhabited A} (l : list A) (i : nat) :
  i < length l → l !! i = Some (l !!! i).
Proof.
  intros Hi. destruct (lookup_lt_is_Some_2 l i Hi) as [x Hx].
  by rewrite (list_lookup_total_correct _ _ _ Hx).
Qed.

(** ** Walks *)

Lemma walk_endpoints adj removed d v u :
  walk adj removed d v u → v ∉ removed ∧ u ∉ removed.
Proof. induction 1; naive_solver. Qed.

Lemma walk_in_range n adj removed d v u :
  adj_sym n adj → v < n → walk adj removed d v u → u < n.
Proof.
  intros [Hlen Hsym] Hv. induction 1 as [v ?|d v u w ? IH Hw ?]; [done|].
  by apply (Hsym u w); [apply IH|].
Qed.

Lemma walk_app adj removed d1 d2 v u w :
  walk adj removed d1 v u → walk adj removed d2 u w → walk adj removed (d1 + d2) v w.
Proof.
  intros H1 H2. induction H2 as [|d2 u x w H2 IH Hw Hr].
  - by rewrite Nat.add_0_r.
  - rewrite Nat.add_succ_r. by eapply walk_S; [apply IH|..].
Qed.

Lemma walk_sym n adj removed d v u :
  adj_sym n adj → v < n → walk adj removed d v u → walk adj removed d u v.
Proof.
  intros Hadj Hvn H. induction H as [v ?|d v u w H IH Hw Hr].
  - by constructor.
  - destruct (walk_endpoints _ _ _ _ _ H) as (Hv & Hu).
    pose proof (walk_in_range _ _ _ _ _ _ Hadj Hvn H) as Hun.
    destruct Hadj as [Hlen Hsym].
    destruct (Hsym u w Hun Hw) as [Hwn Huw].
    change (S d) with (1 + d).
    eapply walk_app; [|by apply IH].
    eapply walk_S; [by constructor | done | done].
Qed.

Lemma within_sym n adj removed K v u :
  adj_sym n adj → v < n → within adj removed K v u → within adj removed K u v.
Proof. intros Hadj Hv (d & Hd & Hw). exists d. eauto using walk_sym. Qed.

Lemma within_refl adj removed K v :
  v ∉ removed → within adj removed K v v.
Proof. intros. exists 0. split; [lia | by constructor]. Qed.

Lemma within_not_removed adj removed K v u :
  within adj removed K v u → v ∉ removed ∧ u ∉ removed.
Proof. intros (d & _ & Hw). by apply walk_endpoints in Hw. Qed.

(** A walk either passes [x], and then splits there, or survives the removal
    of [x]. *)
Lemma walk_through adj removed d v u x :
  walk adj removed d v u →
  (∃ d1 d2, d1 + d2 = d ∧ walk adj removed d1 v x ∧ walk adj removed d2 x u) ∨
  walk adj (removed ∪ {[x]}) d v u.
Proof.
  induction 1 as [v Hv|d v u w H IH Hw Hr].
  - destruct (decide (v = x)) as [->|Hne].
    + left. exists 0, 0. repeat split; by constructor.
    + right. constructor. set_solver.
  - destruct IH as [(d1 & d2 & Hd & H1 & H2)|Hav].
    + left. exists d1, (S d2). split; [lia|]. split; [done|]. by eapply walk_S.
    + destruct (decide (w = x)) as [->|Hne].
      * left. exists (S d), 0. split; [lia|]. split; [by eapply walk_S|].
        by constructor.
      * right. eapply walk_S; [done | done | set_solver].
Qed.

Lemma walk_mono adj removed removed' d v u :
  removed ⊆ removed' → walk adj removed' d v u → walk adj removed d v u.
Proof.
  intros Hsub. induction 1; [constructor | eapply walk_S]; eauto; set_solver.
Qed.

(** ** The breadth-first search of [bfsKTree] *)
Section BFS.
Context (adj : list (gset Node)) (removed : gset Node) (K : Z) (n : nat) (v : Node).
Hypothesis Hadj : adj_sym n adj.
Hypothesis Hvn : v < n.
Hypothesis Hvr : v ∉ removed.

(** Invariant of the [while (head < tail)] loop. *)
Record binv (head : nat) (queue : list Node) (visited : list bool) (level : list Z)
    : Prop := mk_binv {
  b_len_vis : length visited = n;
  b_len_lev : length level = n;
  b_nodup : NoDup queue;
  b_queue : ∀ x, x ∈ queue → x < n ∧ x ∉ removed ∧ visited !!! x = true;
  b_vis : ∀ x, x < n → visited !!! x = true → x ∈ queue;
  b_head : head ≤ length queue;
  b_first : queue !! 0 = Some v ∧ level !!! v = 0%Z;
  b_walk : ∀ x, x ∈ queue →
    ∃ d, level !!! x = Z.of_nat d ∧ walk adj removed d v x ∧ (Z.of_nat d ≤ Z.max 0 K)%Z;
  b_sorted : ∀ i j x y, i ≤ j → queue !! i = Some x → queue !! j = Some y →
    (level !!! x ≤ level !!! y)%Z;
  b_span : ∀ x y, queue !! head = Some x → y ∈ queue →
    (level !!! y ≤ level !!! x + 1)%Z;
  b_done : ∀ i x, i < head → queue !! i = Some x → (level !!! x < K)%Z →
    ∀ w, w ∈ adj !!! x → w ∉ removed →
    w ∈ queue ∧ (level !!! w ≤ level !!! x + 1)%Z
}.

Lemma binv_init :
  binv 0 [v] (<[v := true]> (replicate n false)) (<[v := 0%Z]> (replicate n 0%Z)).
Proof.
  assert (Hv1 : <[v := true]> (replicate n false) !!! v = true)
    by (apply list_lookup_total_insert_eq; by rewrite length_replicate).
  assert (Hv2 : <[v := 0%Z]> (replicate n 0%Z) !!! v = 0%Z)
    by (apply list_lookup_total_insert_eq; by rewrite length_replicate).
  split.
  - by rewrite length_insert, length_replicate.
  - by rewrite length_insert, length_replicate.
  - apply NoDup_singleton.
  - intros x ->%list_elem_of_singleton. done.
  - intros x Hx Hvis. apply list_elem_of_singleton.
    destruct (decide (v = x)) as [|Hne]; [done|].
    rewrite list_lookup_total_insert_ne in Hvis by done.
    rewrite lookup_total_replicate_2 in Hvis by done. done.
  - simpl. lia.
  - done.
  - intros x ->%list_elem_of_singleton. exists 0.
    split; [done|]. split; [by constructor | lia].
  - intros i j x y Hij Hi Hj.
    apply list_lookup_singleton_Some in Hi as [-> <-].
    apply list_lookup_singleton_Some in Hj as [-> <-]. lia.
  - intros x y Hx ->%list_elem_of_singleton.
    apply list_lookup_singleton_Some in Hx as [_ <-]. lia.
  - intros i x Hi. lia.
Qed.

(** One neighbour of the vertex [x] at the head of the queue. *)
Lemma bfs_visit_step head queue visited level x w :
  binv head queue visited level →
  queue !! head = Some x →
  (level !!! x < K)%Z →
  w ∈ adj !!! x →
  ∃ queue' visited' level',
    DCNP.bfs_visit removed (level !!! x) (queue, visited, level) w = (queue', visited', level') ∧
    binv head queue' visited' level' ∧
    queue `prefix_of` queue' ∧
    (∀ y, y ∈ queue → level' !!! y = level !!! y) ∧
    (w ∉ removed → w ∈ queue' ∧ (level' !!! w ≤ level !!! x + 1)%Z).
Proof.
  intros Hb Hx HK Hw.
  assert (Hxq : x ∈ queue) by (by eapply list_elem_of_lookup_2).
  destruct (b_queue _ _ _ _ Hb x Hxq) as (Hxn & Hxr & Hxv).
  assert (Hwn : w < n) by (by apply (proj2 Hadj x w)).
  unfold DCNP.bfs_visit.
  destruct (bool_decide (w ∈ removed)) eqn:Hrem; simpl.
  { apply bool_decide_eq_true in Hrem.
    exists queue, visited, level. split_and!; try done. }
  apply bool_decide_eq_false in Hrem.
  destruct (visited !!! w) eqn:Hvis.
  { exists queue, visited, level. split_and!; try done. intros _. split.
    - by apply (b_vis _ _ _ _ Hb).
    - apply (b_span _ _ _ _ Hb x w); [done|]. by apply (b_vis _ _ _ _ Hb). }
  assert (Hwq : w ∉ queue).
  { intros Hin. destruct (b_queue _ _ _ _ Hb w Hin) as (_ & _ & Ht). congruence. }
  assert (Hxw : x ≠ w) by (intros ->; done).
  assert (Hlev : ∀ y, y ∈ queue → <[w := (level !!! x + 1)%Z]> level !!! y = level !!! y).
  { intros y Hy. apply list_lookup_total_insert_ne. intros ->. done. }
  assert (Hlevw : <[w := (level !!! x + 1)%Z]> level !!! w = (level !!! x + 1)%Z).
  { apply list_lookup_total_insert_eq. by rewrite (b_len_lev _ _ _ _ Hb). }
  assert (Hhead : head < length queue) by (by eapply lookup_lt_Some).
  eexists _, _, _. split; [done|]. split; [|split; [|split; [|intros _; split]]].
  - split.
    + rewrite length_insert. apply Hb.
    + rewrite length_insert. apply Hb.
    + apply NoDup_app. split; [apply Hb|]. split; [|apply NoDup_singleton].
      intros y Hy ->%list_elem_of_singleton. done.
    + intros y [Hy| ->%list_elem_of_singleton]%elem_of_app.
      * destruct (b_queue _ _ _ _ Hb y Hy) as (? & ? & ?). split; [done|]. split; [done|].
        rewrite list_lookup_total_insert_ne; [done|]. intros ->. done.
      * split; [done|]. split; [done|].
        apply list_lookup_total_insert_eq. by rewrite (b_len_vis _ _ _ _ Hb).
    + intros y Hy Hyv. apply elem_of_app.
      destruct (decide (w = y)) as [->|Hne]; [right; by apply list_elem_of_singleton|].
      left. rewrite list_lookup_total_insert_ne in Hyv by done.
      by apply (b_vis _ _ _ _ Hb).
    + rewrite length_app. pose proof (b_head _ _ _ _ Hb). lia.
    + destruct (b_first _ _ _ _ Hb) as [H0 Hl0]. split.
      * by apply lookup_app_l_Some.
      * rewrite Hlev; [done|]. by eapply list_elem_of_lookup_2.
    + intros y [Hy| ->%list_elem_of_singleton]%elem_of_app.
      * rewrite Hlev by done. by apply (b_walk _ _ _ _ Hb).
      * destruct (b_walk _ _ _ _ Hb x Hxq) as (d & Hd & Hwalk & Hle).
        exists (S d). rewrite Hlevw. split; [lia|]. split; [by eapply walk_S|]. lia.
    + intros i j y z Hij Hi Hj.
      apply lookup_app_Some in Hj as [Hj|[Hjl Hj]].
      * assert (j < length queue) by (by eapply lookup_lt_Some).
        rewrite lookup_app_l in Hi by lia.
        rewrite !Hlev by (by eapply list_elem_of_lookup_2).
        by apply (b_sorted _ _ _ _ Hb i j).
      * apply list_lookup_singleton_Some in Hj as [_ <-]. rewrite Hlevw.
        apply lookup_app_Some in Hi as [Hi|[Hil Hi]].
        -- assert (Hyq : y ∈ queue) by (by eapply list_elem_of_lookup_2).
           rewrite Hlev by done. by apply (b_span _ _ _ _ Hb x y).
        -- apply list_lookup_singleton_Some in Hi as [_ <-]. rewrite Hlevw. lia.
    + intros y z Hy Hz. rewrite lookup_app_l in Hy by done.
      assert (y = x) as -> by congruence.
      rewrite (Hlev x) by done.
      apply elem_of_app in Hz as [Hz| ->%list_elem_of_singleton].
      * rewrite Hlev by done. by apply (b_span _ _ _ _ Hb x z).
      * rewrite Hlevw. lia.
    + intros i y Hi Hy HyK z Hz Hzr.
      rewrite lookup_app_l in Hy by lia.
      assert (Hyq : y ∈ queue) by (by eapply list_elem_of_lookup_2).
      rewrite Hlev in HyK by done.
      destruct (b_done _ _ _ _ Hb i y Hi Hy HyK z Hz Hzr) as [Hzq Hzl].
      split; [apply elem_of_app; by left|]. by rewrite !Hlev.
  - by apply prefix_app_r.
  - done.
  - apply elem_of_app. right. by apply list_elem_of_singleton.
  - rewrite Hlevw. lia.
Qed.

Lemma prefix_elem_of (l k : list Node) x : l `prefix_of` k → x ∈ l → x ∈ k.
Proof. intros [k' ->] Hx. apply elem_of_app. by left. Qed.

(** All neighbours of the vertex at the head of the queue. *)
Lemma bfs_visit_fold head x lvl ws :
  ∀ queue visited level,
  binv head queue visited level →
  queue !! head = Some x →
  level !!! x = lvl →
  (lvl < K)%Z →
  (∀ w, w ∈ ws → w ∈ adj !!! x) →
  ∃ queue' visited' level',
    foldl (DCNP.bfs_visit removed lvl) (queue, visited, level) ws = (queue', visited', level') ∧
    binv head queue' visited' level' ∧
    queue `prefix_of` queue' ∧
    (∀ y, y ∈ queue → level' !!! y = level !!! y) ∧
    (∀ w, w ∈ ws → w ∉ removed → w ∈ queue' ∧ (level' !!! w ≤ lvl + 1)%Z).
Proof.
  induction ws as [|w ws IH]; intros queue visited level Hb Hx Hlvl HK Hws.
  - exists queue, visited, level. split_and!; try done.
    intros w Hw; by apply elem_of_nil in Hw.
  - assert (Hxq : x ∈ queue) by (by eapply list_elem_of_lookup_2).
    subst lvl.
    destruct (bfs_visit_step head queue visited level x w Hb Hx HK)
      as (q1 & v1 & l1 & Hstep & Hb1 & Hpre1 & Hold1 & Hw1).
    { apply Hws. by left. }
    pose proof (Hold1 x Hxq) as Hlx.
    assert (Hx1 : q1 !! head = Some x) by (by eapply prefix_lookup_Some).
    destruct (IH q1 v1 l1 Hb1 Hx1 Hlx HK) as (q2 & v2 & l2 & Hfold & Hb2 & Hpre2 & Hold2 & Hw2).
    { intros w' Hw'. apply Hws. by right. }
    exists q2, v2, l2. cbn [foldl]. rewrite Hstep. split; [done|]. split; [done|].
    split; [by etransitivity|]. split.
    + intros y Hy. rewrite Hold2; [by apply Hold1|]. by eapply prefix_elem_of.
    + intros w' [->|Hw']%elem_of_cons Hr.
      * destruct (Hw1 Hr) as [Hq1 Hle1].
        split; [by eapply prefix_elem_of|]. by rewrite Hold2.
      * by apply Hw2.
Qed.

(** Marking the row of [v] along a list of vertices. *)
Definition mark (l : list Node) (intree : list Z) : list Z :=
  foldl (λ t x, <[DCNP.treeIndex n v x := 1%Z]> t) intree l.

(** The loop terminates within its fuel and marks exactly the queue; the
    final queue satisfies the invariant with [head] at its end. *)
Lemma bfs_loop_spec fuel :
  ∀ head queue visited level intree count,
  binv head queue visited level →
  n + 1 ≤ fuel + head →
  ∃ queue' visited' level',
    DCNP.bfs_loop fuel adj removed K n v head queue visited level intree count
      = Ok (mark (drop head queue') intree, count + (length queue' - head)) ∧
    queue `prefix_of` queue' ∧
    binv (length queue') queue' visited' level'.
Proof.
  induction fuel as [|fuel IH]; intros head queue visited level intree count Hb Hfuel.
  - assert (length queue ≤ n).
    { apply bounded_nodup_length; [apply Hb|]. intros x Hx. by apply (b_queue _ _ _ _ Hb). }
    pose proof (b_head _ _ _ _ Hb).
    assert (head = length queue) as -> by lia.
    exists queue, visited, level. simpl.
    rewrite decide_False by lia.
    rewrite drop_all, Nat.sub_diag, Nat.add_0_r. done.
  - simpl. destruct (decide (head < length queue)) as [Hlt|Hge].
    + destruct (lookup_lt_is_Some_2 queue head Hlt) as [x Hx].
      rewrite (list_lookup_total_correct _ _ _ Hx).
      assert (Hnext : ∃ q1 v1 l1,
        (if decide (level !!! x < K)%Z
         then foldl (DCNP.bfs_visit removed (level !!! x)) (queue, visited, level)
                (elements (adj !!! x))
         else (queue, visited, level)) = (q1, v1, l1) ∧
        binv (S head) q1 v1 l1 ∧ queue `prefix_of` q1).
      { destruct (decide (level !!! x < K)%Z) as [HK|HK].
        - destruct (bfs_visit_fold head x (level !!! x) (elements (adj !!! x))
                      queue visited level Hb Hx eq_refl HK)
            as (q1 & v1 & l1 & Hfold & Hb1 & Hpre & Hold & Hnew).
          { intros w Hw. by apply elem_of_elements in Hw. }
          exists q1, v1, l1. split; [done|]. split; [|done].
          assert (Hxq : x ∈ queue) by (by eapply list_elem_of_lookup_2).
          pose proof (Hold x Hxq) as Hlx.
          assert (Hx1 : q1 !! head = Some x) by (by eapply prefix_lookup_Some).
          assert (Hh1 : head < length q1) by (by eapply lookup_lt_Some).
          destruct Hb1. split; try done.
          + intros y z Hy Hz.
            transitivity (l1 !!! x + 1)%Z; [by apply (b_span0 x z)|].
            assert (l1 !!! x ≤ l1 !!! y)%Z; [|lia].
            apply (b_sorted0 head (S head)); [lia | done | done].
          + intros i y Hi Hy HyK w Hw Hwr.
            destruct (decide (i = head)) as [->|Hne].
            * assert (y = x) as -> by congruence.
              destruct (Hnew w) as [Hwq Hwl]; [by apply elem_of_elements | done |].
              split; [done|]. lia.
            * apply (b_done0 i y); [lia | done..].
        - exists queue, visited, level. split; [done|]. split; [|done].
          destruct Hb. split; try done.
          + intros y z Hy Hz.
            transitivity (level !!! x + 1)%Z; [by apply (b_span0 x z)|].
            assert (level !!! x ≤ level !!! y)%Z; [|lia].
            apply (b_sorted0 head (S head)); [lia | done | done].
          + intros i y Hi Hy HyK w Hw Hwr.
            destruct (decide (i = head)) as [->|Hne].
            * assert (y = x) as -> by congruence. done.
            * apply (b_done0 i y); [lia | done..]. }
      destruct Hnext as (q1 & v1 & l1 & -> & Hb1 & Hpre1).
      destruct (IH (S head) q1 v1 l1 (<[DCNP.treeIndex n v x := 1%Z]> intree)
                  (S count) Hb1) as (q2 & v2 & l2 & Hloop & Hpre2 & Hb2); [lia|].
      exists q2, v2, l2. rewrite Hloop.
      assert (Hpre : queue `prefix_of` q2) by (by etransitivity).
      assert (Hx2 : q2 !! head = Some x) by (by eapply prefix_lookup_Some).
      assert (Hh2 : head < length q2) by (by eapply lookup_lt_Some).
      split; [|done].
      rewrite (drop_S q2 x head Hx2). simpl.
      do 2 f_equal. lia.
    + exists queue, visited, level.
      pose proof (b_head _ _ _ _ Hb).
      assert (head = length queue) as -> by lia.
      rewrite drop_all, Nat.sub_diag, Nat.add_0_r. done.
Qed.

(** At the end of the loop the queue is the [K]-hop ball of [v]. *)
Lemma binv_complete queue visited level :
  binv (length queue) queue visited level →
  ∀ d u, walk adj removed d v u → (Z.of_nat d ≤ Z.max 0 K)%Z →
  u ∈ queue ∧ (level !!! u ≤ Z.of_nat d)%Z.
Proof.
  intros Hb.
  assert (Hgen : ∀ d s u, walk adj removed d s u → s = v →
            (Z.of_nat d ≤ Z.max 0 K)%Z → u ∈ queue ∧ (level !!! u ≤ Z.of_nat d)%Z).
  { intros d s u Hw. induction Hw as [s _|d s u w Hw IH Hedge Hr]; intros -> Hd.
    - destruct (b_first _ _ _ _ Hb) as [H0 Hl].
      split; [by eapply list_elem_of_lookup_2 | lia].
    - destruct IH as [Hu Hlu]; [done | lia |].
      apply list_elem_of_lookup_1 in Hu as [i Hi].
      assert (i < length queue) by (by eapply lookup_lt_Some).
      assert (HuK : (level !!! u < K)%Z) by lia.
      destruct (b_done _ _ _ _ Hb i u H Hi HuK w Hedge Hr) as [Hwq Hwl].
      split; [done | lia]. }
  intros d u Hw. by apply (Hgen d v u).
Qed.

Lemma binv_ball queue visited level u :
  binv (length queue) queue visited level →
  u ∈ queue ↔ within adj removed K v u.
Proof.
  intros Hb. split.
  - intros Hu. destruct (b_walk _ _ _ _ Hb u Hu) as (d & _ & Hw & Hd). by exists d.
  - intros (d & Hd & Hw). by apply (binv_complete queue visited level Hb d u).
Qed.

End BFS.

(** ** Eliding vertices from an adjacency list *)

Lemma erase_fold (node : nat) (l : list nat) :
  ∀ B : list (gset nat),
  (∀ x, x ∈ l → x < length B) →
  length (foldl (λ B nb, <[nb := (B !!! nb) ∖ {[node]}]> B) B l) = length B ∧
  ∀ u, u < length B →
    foldl (λ B nb, <[nb := (B !!! nb) ∖ {[node]}]> B) B l !!! u
    = if decide (u ∈ l) then (B !!! u) ∖ {[node]} else B !!! u.
Proof.
  induction l as [|x l IH]; intros B Hl.
  - split; [done|]. intros u Hu. rewrite decide_False; [done|]. apply not_elem_of_nil.
  - simpl.
    destruct (IH (<[x := (B !!! x) ∖ {[node]}]> B)) as [Hlen Hlook].
    { intros y Hy. rewrite length_insert. apply Hl. by right. }
    rewrite length_insert in Hlen, Hlook. split; [done|].
    intros u Hu. rewrite Hlook by done.
    assert (Hx : x < length B) by (apply Hl; by left).
    destruct (decide (x = u)) as [->|Hne].
    + rewrite list_lookup_total_insert_eq by done.
      rewrite (decide_True (P := u ∈ u :: l)) by (by left).
      destruct (decide (u ∈ l)); [set_solver | done].
    + rewrite list_lookup_total_insert_ne by done.
      destruct (decide (u ∈ l)) as [Hin|Hnin].
      * rewrite decide_True by (by right). done.
      * rewrite decide_False; [done|]. intros [?|?]%elem_of_cons; done.
Qed.

Lemma elided_init (A : list (gset nat)) : elided A A ∅.
Proof.
  split; [done|]. intros u Hu. rewrite decide_False by set_solver. set_solver.
Qed.

Lemma elide_node_spec n (A B : list (gset nat)) (T : gset nat) node :
  adj_sym n A → node < n → elided A B T →
  elided A (CNP.elide_node A B node) (T ∪ {[node]}).
Proof.
  intros [Hlen Hsym] Hnode [HlenB HB]. unfold CNP.elide_node.
  destruct (erase_fold node (elements (A !!! node)) B) as [Hl1 Hk1].
  { intros x Hx%elem_of_elements. rewrite HlenB, Hlen. by apply (Hsym node x). }
  split; [by rewrite length_insert, Hl1|].
  intros u Hu. destruct (decide (node = u)) as [->|Hne].
  - rewrite list_lookup_total_insert_eq by (rewrite Hl1, HlenB; done).
    rewrite decide_True by set_solver. done.
  - rewrite list_lookup_total_insert_ne by done.
    rewrite Hk1 by (by rewrite HlenB). rewrite HB by done.
    destruct (decide (u ∈ T)) as [HuT|HuT].
    + rewrite (decide_True (P := u ∈ T ∪ {[node]})) by set_solver.
      destruct (decide (u ∈ elements (A !!! node))); set_solver.
    + rewrite (decide_False (P := u ∈ T ∪ {[node]})) by set_solver.
      destruct (decide (u ∈ elements (A !!! node))) as [Hin|Hnin]; [set_solver|].
      assert (node ∉ A !!! u).
      { intros Hin. apply Hnin, elem_of_elements. apply (Hsym u node); [lia | done]. }
      set_solver.
Qed.

Lemma elide_fold_spec n (A : list (gset nat)) (l : list nat) :
  adj_sym n A → (∀ x, x ∈ l → x < n) →
  ∀ B T, elided A B T → elided A (foldl (CNP.elide_node A) B l) (T ∪ list_to_set l).
Proof.
  intros Hadj. induction l as [|x l IH]; intros Hl B T HB.
  - simpl. by rewrite (right_id_L ∅ (∪)).
  - simpl. replace (T ∪ ({[x]} ∪ list_to_set l)) with ((T ∪ {[x]}) ∪ list_to_set l)
      by set_solver.
    apply IH; [intros y Hy; apply Hl; by right|].
    eapply elide_node_spec; [done | apply Hl; by left | done].
Qed.

(** The graph left when the vertices of [T] are elided is undirected again. *)
Lemma elided_sym n (A B : list (gset nat)) (T : gset nat) :
  adj_sym n A → elided A B T → adj_sym n B.
Proof.
  intros [Hlen Hsym] [HlenB HB]. split; [lia|].
  intros u w Hu Hw. rewrite HB in Hw by lia.
  destruct (decide (u ∈ T)) as [|HuT]; [set_solver|].
  apply elem_of_difference in Hw as [Hw HwT].
  destruct (Hsym u w Hu Hw) as [Hwn Huw]. split; [done|].
  rewrite HB by lia. rewrite decide_False by done. set_solver.
Qed.

Lemma elided_irrefl (A B : list (gset nat)) (T : gset nat) :
  adj_irrefl A → elided A B T → adj_irrefl B.
Proof.
  intros Hirr [HlenB HB] u Hu.
  destruct (decide (u < length A)) as [Hlt|Hge].
  - rewrite HB in Hu by done. destruct (decide (u ∈ T)); [set_solver|].
    apply (Hirr u). set_solver.
  - rewrite list_lookup_total_alt, lookup_ge_None_2 in Hu by lia. set_solver.
Qed.

(** ** The K-hop table of the DCNP engine *)

Lemma treeIndex_inj n v u v' u' :
  u < n → u' < n → DCNP.treeIndex n v u = DCNP.treeIndex n v' u' → v = v' ∧ u = u'.
Proof.
  unfold DCNP.treeIndex. intros Hu Hu' Heq.
  destruct (Nat.lt_trichotomy v v') as [Hlt|[->|Hlt]].
  - assert (S v * n ≤ v' * n) by (apply Nat.mul_le_mono_r; lia). lia.
  - lia.
  - assert (S v' * n ≤ v * n) by (apply Nat.mul_le_mono_r; lia). lia.
Qed.

Lemma treeIndex_lt n v u : v < n → u < n → DCNP.treeIndex n v u < n * n.
Proof.
  unfold DCNP.treeIndex. intros Hv Hu.
  assert (S v * n ≤ n * n) by (apply Nat.mul_le_mono_r; lia). lia.
Qed.

Lemma mark_length n v l intree : length (mark n v l intree) = length intree.
Proof.
  revert intree. induction l as [|x l IH]; intros intree; [done|].
  unfold mark in *. simpl. by rewrite IH, length_insert.
Qed.

Lemma mark_lookup_other n v l intree idx :
  (∀ x, x ∈ l → idx ≠ DCNP.treeIndex n v x) →
  mark n v l intree !!! idx = intree !!! idx.
Proof.
  revert intree. induction l as [|x l IH]; intros intree Hne; [done|].
  unfold mark in *. simpl. rewrite IH.
  - apply list_lookup_total_insert_ne. intros Heq. apply (Hne x); [by left | done].
  - intros y Hy. apply Hne. by right.
Qed.

Lemma mark_lookup_in n v l intree x :
  x ∈ l → DCNP.treeIndex n v x < length intree →
  mark n v l intree !!! DCNP.treeIndex n v x = 1%Z.
Proof.
  revert intree. induction l as [|y l IH]; intros intree Hx Hlt.
  { by apply elem_of_nil in Hx. }
  unfold mark in *. simpl.
  destruct (decide (x ∈ l)) as [Hin|Hnin].
  - apply IH; [done|]. by rewrite length_insert.
  - apply elem_of_cons in Hx as [->|Hx]; [|done].
    fold (mark n v l (<[DCNP.treeIndex n v y:=1%Z]> intree)).
    rewrite mark_lookup_other.
    + by apply list_lookup_total_insert_eq.
    + intros z Hz Heq. unfold DCNP.treeIndex in Heq.
      assert (y = z) as -> by lia. done.
Qed.

(** The members of a duplicate-free list of vertices, counted off [0 .. n-1]. *)
Lemma count_members n (q : list nat) v :
  NoDup q → (∀ x, x ∈ q → x < n) → v ∈ q →
  S (length (filter (λ u, u ≠ v ∧ u ∈ q) (seq 0 n))) = length q.
Proof.
  intros Hnd Hlt Hv.
  change (S (length (filter (λ u, u ≠ v ∧ u ∈ q) (seq 0 n))))
    with (length (v :: filter (λ u, u ≠ v ∧ u ∈ q) (seq 0 n))).
  apply Permutation_length, NoDup_Permutation; [|done|].
  - apply NoDup_cons. split.
    + intros [[Hne _] _]%list_elem_of_filter. done.
    + apply NoDup_filter, NoDup_seq.
  - intros x. rewrite elem_of_cons, list_elem_of_filter, elem_of_seq. split.
    + intros [->|[[_ Hx] _]]; done.
    + intros Hx. destruct (decide (x = v)) as [->|Hne]; [by left|].
      right. specialize (Hlt x Hx). split; [done | lia].
Qed.

Lemma filter_ext_in {A} (P Q : A → Prop) `{∀ x, Decision (P x)} `{∀ x, Decision (Q x)}
    (l : list A) :
  (∀ x, x ∈ l → P x ↔ Q x) → filter P l = filter Q l.
Proof.
  induction l as [|x l IH]; intros Hext; [done|].
  rewrite !filter_cons.
  assert (HPQ : P x ↔ Q x) by (apply Hext; by left).
  rewrite IH by (intros y Hy; apply Hext; by right).
  destruct (decide (P x)), (decide (Q x)); naive_solver.
Qed.

Lemma filter_none {A} (P : A → Prop) `{∀ x, Decision (P x)} (l : list A) :
  (∀ x, x ∈ l → ¬ P x) → filter P l = [].
Proof.
  induction l as [|x l IH]; intros Hno; [done|].
  rewrite filter_cons_False by (apply Hno; by left).
  apply IH. intros y Hy. apply Hno. by right.
Qed.

(** Rows other than the rebuilt one keep their description. *)
Lemma row_ok_frame adj removed (g g' : DCNP.DCNP_Graph) v :
  DCNP.numNodes_ g' = DCNP.numNodes_ g →
  DCNP.kHops_ g' = DCNP.kHops_ g →
  (∀ u, u < DCNP.numNodes_ g → DSpec.cell g' v u = DSpec.cell g v u) →
  DCNP.treeSize_ g' !!! v = DCNP.treeSize_ g !!! v →
  DSpec.row_ok adj removed g v → DSpec.row_ok adj removed g' v.
Proof.
  intros Hn HK Hcell Hsz [Hbit Hball Hsize].
  assert (Hcount : DSpec.row_count g' v = DSpec.row_count g v).
  { unfold DSpec.row_count. rewrite Hn. f_equal. apply filter_ext_in.
    intros u Hu%elem_of_seq. rewrite Hcell by lia. done. }
  split.
  - intros u Hu. rewrite Hn in Hu. rewrite Hcell by done. by apply Hbit.
  - intros u Hu. rewrite Hn in Hu. rewrite Hcell, HK by done. by apply Hball.
  - by rewrite Hsz, Hcount.
Qed.

Lemma row_ok_graph_ext adj removed removed' (g : DCNP.DCNP_Graph) v :
  (∀ u, u < DCNP.numNodes_ g →
        within adj removed (DCNP.kHops_ g) v u ↔ within adj removed' (DCNP.kHops_ g) v u) →
  DSpec.row_ok adj removed g v → DSpec.row_ok adj removed' g v.
Proof.
  intros Hext [Hbit Hball Hsize]. split; [done| |done].
  intros u Hu. rewrite Hball by done. by apply Hext.
Qed.

(** [bfsKTree v] terminates, rewrites row [v] into the description of the
    [K]-hop ball of [v], and leaves every other row alone. *)
Lemma bfsKTree_spec (g : DCNP.DCNP_Graph) v :
  DSpec.wf g → v < DCNP.numNodes_ g →
  ∃ intree treeSize,
    DCNP.bfsKTree v g = Ok (DCNP.set_tables intree treeSize g) ∧
    DSpec.wf (DCNP.set_tables intree treeSize g) ∧
    DSpec.row_ok (DCNP.currentAdjList_ g) (DCNP.removedNodes_ g)
      (DCNP.set_tables intree treeSize g) v ∧
    (∀ v' u, v' ≠ v → v' < DCNP.numNodes_ g → u < DCNP.numNodes_ g →
       DSpec.cell (DCNP.set_tables intree treeSize g) v' u = DSpec.cell g v' u) ∧
    (∀ v', v' ≠ v → treeSize !!! v' = DCNP.treeSize_ g !!! v').
Proof.
  intros [Hadj Horig Hlen Hts] Hv.
  set (n := DCNP.numNodes_ g) in *.
  set (intree0 := list_inserts (DCNP.treeIndex n v 0) (replicate n 0%Z) (DCNP.intree_ g)).
  assert (Hlen0 : length intree0 = n * n) by (unfold intree0; by rewrite length_inserts).
  assert (Hrow0 : ∀ u, u < n → intree0 !!! DCNP.treeIndex n v u = 0%Z).
  { intros u Hu. unfold intree0. rewrite list_lookup_total_inserts.
    - apply lookup_total_replicate_2. unfold DCNP.treeIndex. lia.
    - rewrite length_replicate. unfold DCNP.treeIndex. lia.
    - rewrite Hlen. by apply treeIndex_lt. }
  assert (Hother0 : ∀ v' u, v' ≠ v → u < n →
            intree0 !!! DCNP.treeIndex n v' u = DCNP.intree_ g !!! DCNP.treeIndex n v' u).
  { intros v' u Hne Hu. unfold intree0.
    destruct (decide (v' < v)).
    - apply list_lookup_total_inserts_lt. unfold DCNP.treeIndex. nia.
    - apply list_lookup_total_inserts_ge. rewrite length_replicate.
      unfold DCNP.treeIndex. nia. }
  unfold DCNP.bfsKTree, DCNP.isNodeRemoved. fold n. fold intree0.
  destruct (bool_decide (v ∈ DCNP.removedNodes_ g)) eqn:Hrem.
  - apply bool_decide_eq_true in Hrem.
    exists intree0, (<[v := 0%Z]> (DCNP.treeSize_ g)).
    split; [done|]. split; [|split; [|split]].
    + split; simpl; [done | done | done | by rewrite length_insert].
    + split.
      * intros u Hu. left. unfold DSpec.cell. simpl. by apply Hrow0.
      * intros u Hu. unfold DSpec.cell. simpl. rewrite Hrow0 by done. split; [done|].
        intros [Hvr _]%within_not_removed. done.
      * simpl. rewrite list_lookup_total_insert_eq by (rewrite Hts; done).
        unfold DSpec.row_count. rewrite filter_none; [done|].
        intros u Hu%elem_of_seq [_ Hc]. unfold DSpec.cell in Hc. simpl in Hc, Hu.
        fold n in Hc, Hu. rewrite Hrow0 in Hc by lia. done.
    + intros v' u Hne Hv' Hu. unfold DSpec.cell. simpl. by apply Hother0.
    + intros v' Hne. by apply list_lookup_total_insert_ne.
  - apply bool_decide_eq_false in Hrem.
    assert (Hinit := binv_init (DCNP.currentAdjList_ g) (DCNP.removedNodes_ g)
                       (DCNP.kHops_ g) n v Hv Hrem).
    edestruct (bfs_loop_spec (DCNP.currentAdjList_ g) (DCNP.removedNodes_ g)
                 (DCNP.kHops_ g) n v) with (fuel := S n) (intree := intree0) (count := 0)
      as (q & vis & lev & Hloop & Hpre & Hb);
      [first [exact Hadj | exact Hinit | exact Hv | exact Hrem | lia] .. |].
    rewrite Hloop. simpl. rewrite drop_0, Nat.sub_0_r.
    assert (Hvq : v ∈ q) by (eapply prefix_elem_of; [done | by left]).
    assert (Hqn : ∀ x, x ∈ q → x < n) by (intros x Hx; by apply (b_queue _ _ _ _ _ _ _ _ _ Hb)).
    assert (Hpos : 0 < length q) by (destruct q; [by apply elem_of_nil in Hvq | simpl; lia]).
    rewrite decide_True by done.
    set (intree1 := mark n v q intree0).
    assert (Hcell : ∀ u, u < n →
              intree1 !!! DCNP.treeIndex n v u = if decide (u ∈ q) then 1%Z else 0%Z).
    { intros u Hu. unfold intree1. destruct (decide (u ∈ q)) as [Hin|Hnin].
      - apply mark_lookup_in; [done|]. rewrite Hlen0. by apply treeIndex_lt.
      - rewrite mark_lookup_other; [by apply Hrow0|].
        intros x Hx Heq. apply treeIndex_inj in Heq as [_ ->]; [done | done | by apply Hqn]. }
    exists intree1, (<[v := (Z.of_nat (length q) - 1)%Z]> (DCNP.treeSize_ g)).
    split; [done|]. split; [|split; [|split]].
    + split; simpl; [done | done | | by rewrite length_insert].
      unfold intree1. by rewrite mark_length.
    + split.
      * intros u Hu. unfold DSpec.cell. simpl. fold n. rewrite Hcell by done.
        destruct (decide (u ∈ q)); auto.
      * intros u Hu. unfold DSpec.cell. simpl. fold n. rewrite Hcell by done.
        assert (Hball : u ∈ q ↔ within (DCNP.currentAdjList_ g) (DCNP.removedNodes_ g)
                                    (DCNP.kHops_ g) v u)
          by (eapply binv_ball; eauto).
        rewrite <- Hball. destruct (decide (u ∈ q)); naive_solver.
      * simpl. rewrite list_lookup_total_insert_eq by (rewrite Hts; done).
        unfold DSpec.row_count. simpl. fold n.
        rewrite (filter_ext_in _ (λ u, u ≠ v ∧ u ∈ q)).
        -- pose proof (count_members n q v (b_nodup _ _ _ _ _ _ _ _ _ Hb) Hqn Hvq). lia.
        -- intros u Hu%elem_of_seq. unfold DSpec.cell. simpl. simpl in Hu. fold n in Hu |- *.
           rewrite Hcell by lia. destruct (decide (u ∈ q)); naive_solver.
    + intros v' u Hne Hv' Hu. unfold DSpec.cell. simpl. fold n. unfold intree1.
      rewrite mark_lookup_other; [by apply Hother0|].
      intros x Hx Heq. apply treeIndex_inj in Heq as [-> _]; [done | done | by apply Hqn].
    + intros v' Hne. by apply list_lookup_total_insert_ne.
Qed.

(** *** Rebuilding every row *)

Lemma set_tables_idem intree treeSize intree' treeSize' (g : DCNP.DCNP_Graph) :
  DCNP.set_tables intree' treeSize' (DCNP.set_tables intree treeSize g)
  = DCNP.set_tables intree' treeSize' g.
Proof. done. Qed.

(** The rows [0 .. j-1] after the first [j] iterations of [buildTree]. *)
Lemma buildTree_prefix (g : DCNP.DCNP_Graph) j :
  DSpec.wf g → j ≤ DCNP.numNodes_ g →
  ∃ intree treeSize,
    foldlM (λ g i, DCNP.bfsKTree i g) (seq 0 j) g = Ok (DCNP.set_tables intree treeSize g) ∧
    DSpec.wf (DCNP.set_tables intree treeSize g) ∧
    ∀ v, v < j → DSpec.row_ok (DCNP.currentAdjList_ g) (DCNP.removedNodes_ g)
                   (DCNP.set_tables intree treeSize g) v.
Proof.
  intros Hwf. induction j as [|j IH]; intros Hj.
  - exists (DCNP.intree_ g), (DCNP.treeSize_ g). destruct g. simpl.
    split; [done|]. split; [done|]. intros v Hv. lia.
  - destruct IH as (intree & treeSize & Hfold & Hwf1 & Hrows); [lia|].
    rewrite seq_S, foldlM_app, Hfold. simpl.
    destruct (bfsKTree_spec (DCNP.set_tables intree treeSize g) j Hwf1)
      as (intree' & treeSize' & Hbfs & Hwf2 & Hrow & Hcells & Hsizes); [simpl; lia|].
    rewrite Hbfs, set_tables_idem in *. exists intree', treeSize'.
    split; [done|]. split; [done|]. intros v Hv.
    destruct (decide (v = j)) as [->|Hne]; [done|].
    eapply row_ok_frame; [| | | |apply (Hrows v); lia]; simpl; try done.
    + intros u Hu. apply (Hcells v u); simpl; [done | lia | done].
    + by apply Hsizes.
Qed.

Lemma buildTree_spec (g : DCNP.DCNP_Graph) :
  DSpec.wf g →
  ∃ intree treeSize,
    DCNP.buildTree g = Ok (DCNP.set_tables intree treeSize g) ∧
    DSpec.inv (DCNP.set_tables intree treeSize g).
Proof.
  intros Hwf.
  destruct (buildTree_prefix g (DCNP.numNodes_ g) Hwf) as (intree & treeSize & H1 & H2 & H3);
    [done|].
  exists intree, treeSize. split; [done|]. split; [done|]. done.
Qed.

(** *** remove *)

(** Removing [x] does not change the ball of a vertex that did not reach [x]. *)
Lemma within_remove adj removed K j x u :
  ¬ within adj removed K j x →
  within adj (removed ∪ {[x]}) K j u ↔ within adj removed K j u.
Proof.
  intros Hnot. split.
  - intros (d & Hd & Hw). exists d. split; [done|].
    eapply walk_mono; [|done]. set_solver.
  - intros (d & Hd & Hw).
    destruct (walk_through adj removed d j u x Hw) as [(d1 & d2 & Hsum & H1 & H2)|Hav].
    + exfalso. apply Hnot. exists d1. split; [lia | done].
    + by exists d.
Qed.

(** Adding [x] back does not change the ball of a vertex that [x] does not
    reach. *)
Lemma within_add n adj removed K j x u :
  adj_sym n adj → j < n →
  ¬ within adj (removed ∖ {[x]}) K x j →
  within adj (removed ∖ {[x]}) K j u ↔ within adj removed K j u.
Proof.
  intros Hadj Hj Hnot. split.
  - intros (d & Hd & Hw).
    destruct (walk_through adj (removed ∖ {[x]}) d j u x Hw)
      as [(d1 & d2 & Hsum & H1 & H2)|Hav].
    + exfalso. apply Hnot. eapply within_sym; [done | done |].
      exists d1. split; [lia | done].
    + exists d. split; [done|]. eapply walk_mono; [|done].
      intros y Hy. destruct (decide (y = x)); set_solver.
  - intros (d & Hd & Hw). exists d. split; [done|].
    eapply walk_mono; [|done]. set_solver.
Qed.

Lemma cell_test (g : DCNP.DCNP_Graph) adj removed v u :
  DSpec.row_ok adj removed g v → u < DCNP.numNodes_ g →
  bool_decide (DCNP.intree_ g !!! DCNP.treeIndex (DCNP.numNodes_ g) v u ≠ 0%Z) = true
  ↔ within adj removed (DCNP.kHops_ g) v u.
Proof.
  intros [Hbit Hball _] Hu. rewrite bool_decide_eq_true, <- Hball by done.
  unfold DSpec.cell in *. destruct (Hbit u Hu) as [H0|H1]; rewrite ?H0, ?H1; split; done.
Qed.

(** The loop of [removeNode] after [j] iterations: rows below [j] describe the
    graph without [x], the others still describe the graph before. *)
Lemma removeNode_prefix (g : DCNP.DCNP_Graph) x j :
  DSpec.inv g → j ≤ DCNP.numNodes_ g →
  let g0 := DCNP.set_removedNodes_ (DCNP.removedNodes_ g ∪ {[x]}) g in
  ∃ intree treeSize,
    foldlM (λ g i,
              if bool_decide (DCNP.intree_ g !!! DCNP.treeIndex (DCNP.numNodes_ g) i x ≠ 0%Z)
              then DCNP.bfsKTree i g else Ok g) (seq 0 j) g0
      = Ok (DCNP.set_tables intree treeSize g0) ∧
    DSpec.wf (DCNP.set_tables intree treeSize g0) ∧
    (∀ v, v < j → DSpec.row_ok (DCNP.currentAdjList_ g) (DCNP.removedNodes_ g ∪ {[x]})
                    (DCNP.set_tables intree treeSize g0) v) ∧
    (∀ v, j ≤ v → v < DCNP.numNodes_ g →
          DSpec.row_ok (DCNP.currentAdjList_ g) (DCNP.removedNodes_ g)
            (DCNP.set_tables intree treeSize g0) v).
Proof.
  intros [Hwf Hrows] Hj g0. revert Hj. induction j as [|j IH]; intros Hj.
  - exists (DCNP.intree_ g), (DCNP.treeSize_ g). simpl.
    split; [by destruct g|]. split; [by destruct Hwf|]. split; [intros v Hv; lia|].
    intros v _ Hv. specialize (Hrows v Hv). by destruct Hrows.
  - destruct IH as (intree & treeSize & Hfold & Hwf1 & Hnew & Hold); [lia|].
    rewrite seq_S, foldlM_app, Hfold. simpl.
    set (g1 := DCNP.set_tables intree treeSize g0) in *.
    assert (Hjn : j < DCNP.numNodes_ g) by lia.
    pose proof (Hold j (le_n j) Hjn) as Hrowj.
    destruct (bool_decide (intree !!! DCNP.treeIndex (DCNP.numNodes_ g) j x ≠ 0%Z)) eqn:Htest.
    + destruct (bfsKTree_spec g1 j Hwf1)
        as (intree' & treeSize' & Hbfs & Hwf2 & Hrow & Hcells & Hsizes); [done|].
      rewrite Hbfs. unfold g1 in *. rewrite set_tables_idem in *.
      exists intree', treeSize'. split; [done|]. split; [done|]. split.
      * intros v Hv. destruct (decide (v = j)) as [->|Hne]; [done|].
        eapply row_ok_frame; [| | | |apply (Hnew v); lia]; simpl; try done.
        -- intros u Hu. apply (Hcells v u); simpl; [done | lia | done].
        -- by apply Hsizes.
      * intros v Hv Hvn.
        eapply row_ok_frame; [| | | |apply (Hold v); lia]; simpl; try done.
        -- intros u Hu. apply (Hcells v u); simpl; [lia | lia | done].
        -- apply Hsizes. lia.
    + exists intree, treeSize. split; [done|]. split; [done|]. split.
      * intros v Hv. destruct (decide (v = j)) as [->|Hne]; [|apply Hnew; lia].
        destruct (decide (x < DCNP.numNodes_ g)) as [Hx|Hx].
        -- eapply row_ok_graph_ext; [|exact Hrowj].
           intros u Hu. symmetry. apply within_remove.
           pose proof (cell_test g1 _ _ j x Hrowj Hx) as Ht. simpl in Ht |- *.
           rewrite <- Ht, Htest. done.
        -- eapply row_ok_graph_ext; [|exact Hrowj].
           intros u Hu. symmetry. apply within_remove.
           intros (d & _ & Hw). apply Hx.
           eapply walk_in_range; [apply Hwf | exact Hjn | exact Hw].
      * intros v Hv Hvn. apply Hold; lia.
Qed.

Lemma removeNode_spec (g : DCNP.DCNP_Graph) x :
  DSpec.inv g →
  ∃ intree treeSize,
    DCNP.removeNode x g
      = Ok (DCNP.set_tables intree treeSize
              (DCNP.set_removedNodes_ (DCNP.removedNodes_ g ∪ {[x]}) g)) ∧
    DSpec.inv (DCNP.set_tables intree treeSize
                 (DCNP.set_removedNodes_ (DCNP.removedNodes_ g ∪ {[x]}) g)).
Proof.
  intros Hinv.
  destruct (removeNode_prefix g x (DCNP.numNodes_ g) Hinv (le_n _))
    as (intree & treeSize & Hfold & Hwf & Hnew & _).
  exists intree, treeSize. split; [done|]. split; [done|]. done.
Qed.

(** *** add *)

(** The loop of [addNode] after [j] iterations. *)
Lemma addNode_prefix (g g1 : DCNP.DCNP_Graph) x j :
  let removed' := DCNP.removedNodes_ g ∖ {[x]} in
  x < DCNP.numNodes_ g → j ≤ DCNP.numNodes_ g →
  DCNP.removedNodes_ g1 = removed' →
  DCNP.currentAdjList_ g1 = DCNP.currentAdjList_ g →
  DCNP.numNodes_ g1 = DCNP.numNodes_ g →
  DCNP.kHops_ g1 = DCNP.kHops_ g →
  DSpec.wf g1 →
  DSpec.row_ok (DCNP.currentAdjList_ g) removed' g1 x →
  (∀ v, v ≠ x → v < DCNP.numNodes_ g →
        DSpec.row_ok (DCNP.currentAdjList_ g) (DCNP.removedNodes_ g) g1 v) →
  ∃ intree treeSize,
    foldlM (λ g i,
              if bool_decide (DCNP.intree_ g !!! DCNP.treeIndex (DCNP.numNodes_ g) x i ≠ 0%Z)
              then DCNP.bfsKTree i g else Ok g) (seq 0 j) g1
      = Ok (DCNP.set_tables intree treeSize g1) ∧
    DSpec.wf (DCNP.set_tables intree treeSize g1) ∧
    DSpec.row_ok (DCNP.currentAdjList_ g) removed' (DCNP.set_tables intree treeSize g1) x ∧
    (∀ v, v < j → DSpec.row_ok (DCNP.currentAdjList_ g) removed'
                    (DCNP.set_tables intree treeSize g1) v) ∧
    (∀ v, j ≤ v → v ≠ x → v < DCNP.numNodes_ g →
          DSpec.row_ok (DCNP.currentAdjList_ g) (DCNP.removedNodes_ g)
            (DCNP.set_tables intree treeSize g1) v).
Proof.
  intros removed' Hx Hj Hrem Hadj Hn HK Hwf Hrowx Hrows. revert Hj.
  induction j as [|j IH]; intros Hj.
  - exists (DCNP.intree_ g1), (DCNP.treeSize_ g1).
    assert (DCNP.set_tables (DCNP.intree_ g1) (DCNP.treeSize_ g1) g1 = g1) as ->
      by (by destruct g1).
    split; [done|]. split; [done|]. split; [done|]. split; [intros v Hv; lia|].
    intros v _ Hne Hv. by apply Hrows.
  - destruct IH as (intree & treeSize & Hfold & Hwf1 & Hx1 & Hnew & Hold); [lia|].
    rewrite seq_S, foldlM_app, Hfold. simpl.
    set (g2 := DCNP.set_tables intree treeSize g1) in *.
    assert (Hjn : j < DCNP.numNodes_ g) by lia.
    rewrite Hn.
    pose proof (cell_test g2 _ _ x j Hx1) as Ht. simpl in Ht. rewrite Hn, HK in Ht.
    specialize (Ht Hjn).
    destruct (bool_decide (intree !!! DCNP.treeIndex (DCNP.numNodes_ g) x j ≠ 0%Z)) eqn:Htest.
    + destruct (bfsKTree_spec g2 j Hwf1)
        as (intree' & treeSize' & Hbfs & Hwf2 & Hrow & Hcells & Hsizes); [simpl; lia|].
      rewrite Hbfs. unfold g2 in *. rewrite set_tables_idem in *. simpl in Hrow.
      rewrite Hrem, Hadj in Hrow.
      exists intree', treeSize'. split; [done|]. split; [done|].
      assert (Hframe : ∀ v adj removed, v ≠ j → v < DCNP.numNodes_ g →
                DSpec.row_ok adj removed (DCNP.set_tables intree treeSize g1) v →
                DSpec.row_ok adj removed (DCNP.set_tables intree' treeSize' g1) v).
      { intros v adj removed Hne Hv Hok.
        eapply row_ok_frame; [| | | |exact Hok]; simpl; try done.
        - intros u Hu. apply (Hcells v u); simpl; [done | lia | lia].
        - by apply Hsizes. }
      split; [|split].
      * destruct (decide (x = j)) as [->|Hne]; [done | by apply Hframe].
      * intros v Hv. destruct (decide (v = j)) as [->|Hne]; [done|].
        apply Hframe; [done | lia | apply Hnew; lia].
      * intros v Hv Hne Hvn. apply Hframe; [lia | done | apply Hold; [lia | done..]].
    + exists intree, treeSize. split; [done|]. split; [done|]. split; [done|]. split.
      * intros v Hv. destruct (decide (v = j)) as [->|Hne]; [|apply Hnew; lia].
        assert (Hnot : ¬ within (DCNP.currentAdjList_ g) removed' (DCNP.kHops_ g) x j).
        { rewrite <- Ht. done. }
        assert (Hjx : j ≠ x).
        { intros ->. apply Hnot. apply within_refl. unfold removed'. set_solver. }
        eapply row_ok_graph_ext; [|apply (Hold j); [lia | done..]].
        intros u Hu. symmetry. simpl. rewrite HK.
        eapply within_add; [|exact Hjn|exact Hnot].
        rewrite <- Hadj, <- Hn. apply Hwf.
      * intros v Hv Hne Hvn. apply Hold; [lia | done..].
Qed.

Lemma addNode_spec (g : DCNP.DCNP_Graph) x :
  DSpec.inv g → x < DCNP.numNodes_ g →
  ∃ intree treeSize,
    DCNP.addNode x g
      = Ok (DCNP.set_tables intree treeSize
              (DCNP.set_removedNodes_ (DCNP.removedNodes_ g ∖ {[x]}) g)) ∧
    DSpec.inv (DCNP.set_tables intree treeSize
                 (DCNP.set_removedNodes_ (DCNP.removedNodes_ g ∖ {[x]}) g)).
Proof.
  intros [Hwf Hrows] Hx. unfold DCNP.addNode.
  set (g0 := DCNP.set_removedNodes_ (DCNP.removedNodes_ g ∖ {[x]}) g).
  assert (Hwf0 : DSpec.wf g0) by (by destruct Hwf).
  destruct (bfsKTree_spec g0 x Hwf0)
    as (intree1 & treeSize1 & Hbfs & Hwf1 & Hrow & Hcells & Hsizes); [done|].
  rewrite Hbfs. simpl.
  set (g1 := DCNP.set_tables intree1 treeSize1 g0) in *.
  destruct (addNode_prefix g g1 x (DCNP.numNodes_ g)) as (intree & treeSize & Hfold & Hwf2 & Hx2 & Hnew & _);
    try done.
  { intros v Hne Hv. eapply row_ok_frame; [| | | |apply (Hrows v Hv)]; simpl; try done.
    - intros u Hu. apply (Hcells v u); simpl; done.
    - by apply Hsizes. }
  exists intree, treeSize. split; [done|]. split; [done|]. done.
Qed.

(** *** set_removed_all and get_reduced_by *)

Lemma updateGraphByRemovedNodes_spec (g : DCNP.DCNP_Graph) S :
  DSpec.wf g →
  ∃ g', DCNP.updateGraphByRemovedNodes S g = Ok g' ∧ DSpec.inv g' ∧
        DCNP.removedNodes_ g' = S ∧ DCNP.numNodes_ g' = DCNP.numNodes_ g.
Proof.
  intros [Hadj Horig Hlen Hts]. unfold DCNP.updateGraphByRemovedNodes.
  edestruct buildTree_spec as (intree & treeSize & Hbuild & Hinv); [|rewrite Hbuild].
  - split; simpl; [by rewrite Horig | done | done | done].
  - eexists. split; [done|]. split; [done|]. done.
Qed.

Lemma reduce_step_fold cur (l : list nat) :
  ∀ ns B, (foldl (DCNP.reduce_step cur) (ns, B) l).2 = foldl (CNP.elide_node cur) B l.
Proof.
  induction l as [|x l IH]; intros ns B; [done|].
  simpl. apply IH.
Qed.

Lemma getReducedGraphByRemovedNodes_spec (g : DCNP.DCNP_Graph) S :
  DSpec.wf g → (∀ v, v ∈ S → v < DCNP.numNodes_ g) →
  ∃ g', DCNP.getReducedGraphByRemovedNodes S g = Ok g' ∧ DSpec.inv g' ∧
        DCNP.removedNodes_ g' = ∅ ∧ DCNP.numNodes_ g' = DCNP.numNodes_ g.
Proof.
  intros [Hadj Horig Hlen Hts] HS. unfold DCNP.getReducedGraphByRemovedNodes.
  pose proof (reduce_step_fold (DCNP.currentAdjList_ g) (elements S)
                (DCNP.originalNodesSet_ g) (DCNP.originalAdjList_ g)) as Hsnd.
  destruct (foldl _ _ (elements S)) as [ns orig] eqn:Hfold. simpl in Hsnd.
  assert (Hel : elided (DCNP.currentAdjList_ g) orig (∅ ∪ list_to_set (elements S))).
  { rewrite Hsnd, Horig. eapply elide_fold_spec; [done| |apply elided_init].
    intros x Hx%elem_of_elements. by apply HS. }
  edestruct buildTree_spec as (intree & treeSize & Hbuild & Hinv); [|rewrite Hbuild].
  - split; simpl; [|done..]. by eapply elided_sym.
  - eexists. split; [done|]. split; [done|]. done.
Qed.

(** *** The invariant on reachable states *)

Lemma reachable_inv g : DSpec.reachable g → DSpec.inv g.
Proof.
  induction 1 as [n K adj k seeded g Hadj Hbuild|S g g' _ IH Hop|S g g' _ IH HS Hop
                  |v g g' _ IH Hv Hop|v g g' _ IH Hv Hop].
  - unfold DCNP.build in Hbuild. rewrite size_set_seq in Hbuild.
    edestruct buildTree_spec as (intree & treeSize & Hb & Hinv); [|rewrite Hb in Hbuild].
    + split; simpl; [done | done | by rewrite length_replicate | by rewrite length_replicate].
    + by injection Hbuild as <-.
  - destruct (updateGraphByRemovedNodes_spec g S) as (g2 & Hop2 & Hinv & _); [apply IH|].
    rewrite Hop in Hop2. by injection Hop2 as <-.
  - destruct (getReducedGraphByRemovedNodes_spec g S) as (g2 & Hop2 & Hinv & _);
      [apply IH | done |].
    rewrite Hop in Hop2. by injection Hop2 as <-.
  - destruct (addNode_spec g v IH Hv) as (intree & treeSize & Hop2 & Hinv).
    rewrite Hop in Hop2. by injection Hop2 as ->.
  - destruct (removeNode_spec g v IH) as (intree & treeSize & Hop2 & Hinv).
    rewrite Hop in Hop2. by injection Hop2 as ->.
Qed.

Lemma inv_table_properties g : DSpec.inv g → DSpec.table_properties g.
Proof.
  intros [Hwf Hrows]. split.
  - intros v u Hv Hu Hrem. destruct (Hrows v Hv) as [Hbit Hball _].
    destruct (Hbit u Hu) as [H0|H1]; [done|].
    apply Hball in H1; [|done]. apply within_not_removed in H1 as [? _]. done.
  - intros v u Hv Hu.
    destruct (Hrows v Hv) as [Hbitv Hballv _]. destruct (Hrows u Hu) as [Hbitu Hballu _].
    assert (Hiff : DSpec.cell g v u = 1%Z ↔ DSpec.cell g u v = 1%Z).
    { rewrite Hballv, Hballu by done. destruct Hwf as [Hadj _ _ _].
      split; apply (within_sym _ _ _ _ _ _ Hadj); done. }
    destruct (Hbitv u Hu) as [Hc|Hc], (Hbitu v Hv) as [Hc'|Hc']; rewrite Hc, Hc'; try done.
    + rewrite Hc, Hc' in Hiff. by apply Hiff.
    + rewrite Hc, Hc' in Hiff. symmetry. by apply Hiff.
  - intros v Hv. by destruct (Hrows v Hv).
Qed.

(** ** The depth-first search of the CNP engine *)

Lemma sum_list_cons' (x : nat) (l : list nat) : sum_list (x :: l) = x + sum_list l.
Proof. done. Qed.

Lemma sum_map_zero_at (f f' : nat → nat) (l : list nat) (x : nat) :
  NoDup l → x ∈ l → (∀ y, y ∈ l → y ≠ x → f' y = f y) → f' x = 0 →
  sum_list (f <$> l) = sum_list (f' <$> l) + f x.
Proof.
  induction l as [|y l IH]; intros Hnd Hx Hsame Hzero.
  { by apply elem_of_nil in Hx. }
  apply NoDup_cons in Hnd as [Hy Hnd]. rewrite !fmap_cons. rewrite !sum_list_cons'.
  destruct (decide (y = x)) as [->|Hne].
  - rewrite Hzero.
    assert (Heq : f' <$> l = f <$> l); [|rewrite Heq; lia].
    apply list_fmap_ext. intros i z Hz. apply Hsame.
    + right. by eapply list_elem_of_lookup_2.
    + intros ->. apply Hy. by eapply list_elem_of_lookup_2.
  - apply elem_of_cons in Hx as [->|Hx]; [done|].
    rewrite IH; [|done|done| |done].
    + rewrite (Hsame y); [lia | by left | done].
    + intros z Hz. apply Hsame. by right.
Qed.

Lemma sum_map_le (f f' : nat → nat) (l : list nat) :
  (∀ y, y ∈ l → f y ≤ f' y) → sum_list (f <$> l) ≤ sum_list (f' <$> l).
Proof.
  induction l as [|y l IH]; intros Hle; [done|].
  rewrite !fmap_cons. rewrite !sum_list_cons'.
  pose proof (Hle y ltac:(by left)).
  assert (sum_list (f <$> l) ≤ sum_list (f' <$> l)); [|lia].
  apply IH. intros z Hz. apply Hle. by right.
Qed.

Lemma sum_map_plus (f f' : nat → nat) (l : list nat) :
  sum_list ((λ x, f x + f' x) <$> l) = sum_list (f <$> l) + sum_list (f' <$> l).
Proof.
  induction l as [|y l IH]; [done|].
  rewrite !fmap_cons. rewrite !sum_list_cons'. rewrite IH. lia.
Qed.

Lemma sum_map_const (c : nat) (l : list nat) :
  sum_list ((λ _, c) <$> l) = c * length l.
Proof.
  induction l as [|y l IH]; [simpl; lia|].
  rewrite !fmap_cons. rewrite !sum_list_cons'; cbn [length]. rewrite IH. lia.
Qed.

Lemma fmap_lookup_total_seq {A} `{!Inhabited A} (l : list A) :
  (λ i, l !!! i) <$> seq 0 (length l) = l.
Proof.
  apply list_eq. intros i. rewrite list_lookup_fmap.
  destruct (decide (i < length l)) as [Hlt|Hge].
  - rewrite lookup_seq_lt by done. simpl. symmetry. by apply lookup_lookup_total.
  - rewrite lookup_seq_ge by lia. simpl. symmetry. apply lookup_ge_None_2. lia.
Qed.

Section DFS.
Context (adj : list (gset nat)) (removed : gset nat) (epoch : Z) (n : nat) (start : nat).
Hypothesis Hlen : length adj = n.
Hypothesis Hrange : ∀ u w, u < n → w ∈ adj !!! u → w < n.
Hypothesis Hstart : start < n.
Hypothesis Hstart_live : start ∉ removed.

Definition lreach : nat → nat → Prop := rtc (CSpec.live_edge adj removed).

(** Invariant of the [while (!dfsStack_.empty())] loop; [epochs0] are the
    stamps on entry. *)
Record dinv (epochs0 epochs : list Z) (stack acc : list nat) : Prop := mk_dinv {
  d_len : length epochs = n;
  d_nodup : NoDup acc;
  d_marks : ∀ x, x < n → (epochs !!! x = epoch ↔ x ∈ acc);
  d_frame : ∀ x, x < n → x ∉ acc → epochs !!! x = epochs0 !!! x;
  d_acc : ∀ x, x ∈ acc → x < n ∧ (x ∉ removed) ∧ lreach start x;
  d_stack : ∀ x, x ∈ stack → x < n ∧ lreach start x;
  d_closed : ∀ x w, x ∈ acc → w ∈ adj !!! x → w ∉ removed → w ∈ acc ∨ w ∈ stack;
  d_start : start ∈ acc ∨ start ∈ stack
}.

Definition weight (x : nat) : nat := size (adj !!! x) + 1.

Definition pot (epochs : list Z) : nat :=
  sum_list ((λ x, if decide (epochs !!! x = epoch) then 0 else weight x) <$> seq 0 n).

Lemma pot_bound epochs : pot epochs ≤ n + sum_list (size <$> adj).
Proof.
  unfold pot. etransitivity.
  - apply (sum_map_le _ weight). intros y _. destruct (decide _); lia.
  - unfold weight. rewrite (sum_map_plus (λ x, size (adj !!! x)) (λ _, 1)).
    rewrite sum_map_const, length_seq.
    assert (Heq : (λ x, size (adj !!! x)) <$> seq 0 n = size <$> adj).
    { transitivity (size <$> ((λ i, adj !!! i) <$> seq 0 (length adj))).
      - by rewrite <- list_fmap_compose, Hlen.
      - by rewrite fmap_lookup_total_seq. }
    rewrite Heq. lia.
Qed.

Lemma pot_mark epochs x :
  length epochs = n → x < n → epochs !!! x ≠ epoch →
  pot epochs = pot (<[x := epoch]> epochs) + weight x.
Proof.
  intros Hl Hx Hne. unfold pot.
  rewrite (sum_map_zero_at _ (λ y, if decide (<[x:=epoch]> epochs !!! y = epoch)
                                    then 0 else weight y) _ x).
  - by rewrite decide_False.
  - apply NoDup_seq.
  - apply elem_of_seq. lia.
  - intros y _ Hy. by rewrite list_lookup_total_insert_ne.
  - rewrite list_lookup_total_insert_eq by lia. by rewrite decide_True.
Qed.

Lemma dfs_push_fold epochs l :
  ∀ stack,
  foldl (CNP.dfs_push removed epochs epoch) stack l
  = reverse (filter (λ nb, epochs !!! nb ≠ epoch ∧ nb ∉ removed) l) ++ stack.
Proof.
  induction l as [|x l IH]; intros stack; [done|].
  simpl. rewrite IH. unfold CNP.dfs_push. rewrite filter_cons.
  destruct (decide (epochs !!! x ≠ epoch ∧ x ∉ removed)) as [[H1 H2]|Hno].
  - rewrite bool_decide_eq_true_2 by done. rewrite bool_decide_eq_false_2 by done. simpl.
    rewrite reverse_cons, <- app_assoc. done.
  - destruct (bool_decide (epochs !!! x ≠ epoch)) eqn:E1; simpl; [|done].
    destruct (bool_decide (x ∈ removed)) eqn:E2; simpl; [done|].
    apply bool_decide_eq_true in E1. apply bool_decide_eq_false in E2. naive_solver.
Qed.

Lemma dfs_loop_spec epochs0 fuel :
  ∀ epochs stack acc,
  dinv epochs0 epochs stack acc →
  length stack + pot epochs ≤ fuel →
  ∃ epochs' acc',
    CNP.dfs_loop fuel adj removed epoch epochs stack acc = Ok (epochs', acc') ∧
    dinv epochs0 epochs' [] acc'.
Proof.
  induction fuel as [|fuel IH]; intros epochs stack acc Hd Hfuel.
  { destruct stack; [|simpl in Hfuel; lia]. by exists epochs, acc. }
  destruct stack as [|node stack]; [by exists epochs, acc|].
  simpl. simpl in Hfuel.
  destruct (d_stack _ _ _ _ Hd node) as [Hnode Hnreach]; [by left|].
  destruct (bool_decide (epochs !!! node = epoch) || bool_decide (node ∈ removed)) eqn:Hskip.
  - apply IH; [|lia]. destruct Hd. split; try done.
    + intros x Hx. apply d_stack0. by right.
    + intros x w Hx Hw Hwr. destruct (d_closed0 x w Hx Hw Hwr) as [?|[->|?]%elem_of_cons];
        [by left | | by right].
      apply orb_true_iff in Hskip as [Hm|Hr].
      * left. apply d_marks0; [done|]. by apply bool_decide_eq_true in Hm.
      * apply bool_decide_eq_true in Hr. done.
    + destruct d_start0 as [?|[->|?]%elem_of_cons]; [by left | | by right].
      apply orb_true_iff in Hskip as [Hm|Hr].
      * left. apply d_marks0; [done|]. by apply bool_decide_eq_true in Hm.
      * apply bool_decide_eq_true in Hr. done.
  - apply orb_false_iff in Hskip as [Hm Hr].
    apply bool_decide_eq_false in Hm. apply bool_decide_eq_false in Hr.
    rewrite dfs_push_fold.
    set (epochs' := <[node := epoch]> epochs).
    set (new := filter (λ nb, epochs' !!! nb ≠ epoch ∧ nb ∉ removed) (elements (adj !!! node))).
    assert (Hnacc : node ∉ acc).
    { intros Hin. apply Hm. by apply (d_marks _ _ _ _ Hd). }
    assert (Hl : length epochs = n) by apply Hd.
    apply IH.
    + destruct Hd. split.
      * unfold epochs'. by rewrite length_insert.
      * apply NoDup_app. split; [done|]. split; [|apply NoDup_singleton].
        intros x Hx ->%list_elem_of_singleton. done.
      * intros x Hx. unfold epochs'. rewrite elem_of_app, list_elem_of_singleton.
        destruct (decide (node = x)) as [->|Hne].
        -- rewrite list_lookup_total_insert_eq by lia. naive_solver.
        -- rewrite list_lookup_total_insert_ne by done. rewrite d_marks0 by done. naive_solver.
      * intros x Hx Hxa. unfold epochs'. rewrite list_lookup_total_insert_ne.
        -- apply d_frame0; [done|]. intros Hin. apply Hxa, elem_of_app. by left.
        -- intros ->. apply Hxa, elem_of_app. right. by apply list_elem_of_singleton.
      * intros x [Hx| ->%list_elem_of_singleton]%elem_of_app; [by apply d_acc0 | done].
      * intros x [Hx|Hx]%elem_of_app.
        -- rewrite elem_of_reverse in Hx.
           apply list_elem_of_filter in Hx as [[_ Hxr] Hx%elem_of_elements].
           split; [by eapply Hrange|]. eapply rtc_r; [exact Hnreach|]. by split.
        -- apply d_stack0. by right.
      * intros x w [Hx| ->%list_elem_of_singleton]%elem_of_app Hw Hwr.
        -- destruct (d_closed0 x w Hx Hw Hwr) as [?|[->|?]%elem_of_cons].
           ++ left. apply elem_of_app. by left.
           ++ left. apply elem_of_app. right. by apply list_elem_of_singleton.
           ++ right. apply elem_of_app. by right.
        -- destruct (decide (epochs' !!! w = epoch)) as [Hwm|Hwm].
           ++ left. assert (Hwn : w < n) by (by eapply Hrange).
              unfold epochs' in Hwm. rewrite elem_of_app, list_elem_of_singleton.
              destruct (decide (node = w)) as [->|Hne]; [by right|].
              rewrite list_lookup_total_insert_ne in Hwm by done.
              left. by apply d_marks0.
           ++ right. apply elem_of_app. left. rewrite elem_of_reverse.
              apply list_elem_of_filter. split; [done|]. by apply elem_of_elements.
      * destruct d_start0 as [?|[->|?]%elem_of_cons].
        -- left. apply elem_of_app. by left.
        -- left. apply elem_of_app. right. by apply list_elem_of_singleton.
        -- right. apply elem_of_app. by right.
    + rewrite length_app, length_reverse.
      pose proof (length_filter (λ nb, epochs' !!! nb ≠ epoch ∧ nb ∉ removed)
                    (elements (adj !!! node))) as Hf.
      fold new in Hf |- *.
      pose proof (pot_mark epochs node Hl Hnode Hm) as Hp. fold epochs' in Hp.
      unfold weight in Hp.
      assert (length (elements (adj !!! node)) = size (adj !!! node)) by done.
      lia.
Qed.

Lemma lreach_in_range x : lreach start x → x < n.
Proof.
  revert x. apply rtc_ind_r; [done|].
  intros y z _ [Hedge _] IH. by eapply Hrange.
Qed.

(** With the stack empty, the vertices collected are those connected to
    [start]. *)
Lemma dinv_final epochs0 epochs acc x :
  dinv epochs0 epochs [] acc → (x ∈ acc ↔ lreach start x).
Proof.
  intros Hd. split.
  - intros Hx. by apply (d_acc _ _ _ _ Hd).
  - revert x. apply rtc_ind_r.
    + destruct (d_start _ _ _ _ Hd) as [?|Hnil]; [done|]. by apply elem_of_nil in Hnil.
    + intros y z _ [Hedge Hlive] IH.
      destruct (d_closed _ _ _ _ Hd y z IH Hedge Hlive) as [?|Hnil]; [done|].
      by apply elem_of_nil in Hnil.
Qed.

Lemma dinv_init epochs0 :
  length epochs0 = n → (∀ x, x < n → epochs0 !!! x ≠ epoch) →
  dinv epochs0 epochs0 [start] [].
Proof.
  intros Hl Hfresh. split; try done.
  - apply NoDup_nil_2.
  - intros x Hx. split; [intros He; by apply Hfresh in He | intros []%elem_of_nil].
  - intros x []%elem_of_nil.
  - intros x ->%list_elem_of_singleton. split; [done | apply rtc_refl].
  - intros x w []%elem_of_nil.
  - right. by apply list_elem_of_singleton.
Qed.

End DFS.

(** ** The component structure of the CNP engine *)

(** *** The current graph *)

Lemma graph_cur_sym g :
  CSpec.graph_ok g → adj_sym (CNP.numNodes_ g) (CNP.currentAdjList_ g).
Proof. intros [[] ? ?]. by eapply elided_sym. Qed.

Lemma graph_cur_live g u w :
  CSpec.graph_ok g → u < CNP.numNodes_ g → w ∈ CNP.currentAdjList_ g !!! u →
  (u ∉ CNP.removedNodes g) ∧ (w ∉ CNP.removedNodes g) ∧ w < CNP.numNodes_ g ∧
  u ∈ CNP.currentAdjList_ g !!! w.
Proof.
  intros Hg Hu Hw. pose proof (graph_cur_sym g Hg) as [Hlen Hsym].
  destruct Hg as [[? [Hlo ?] ? ? ? ? ?] [HlenB HB] ?].
  destruct (Hsym u w Hu Hw) as [Hwn Huw]. rewrite HB in Hw by lia.
  destruct (decide (u ∈ CNP.removedNodes g)); [set_solver|]. set_solver.
Qed.

Lemma reach_range g u w :
  CSpec.graph_ok g → u < CNP.numNodes_ g →
  CSpec.reach (CNP.currentAdjList_ g) u w → w < CNP.numNodes_ g.
Proof.
  intros Hg Hu. revert w. apply rtc_ind_r; [done|].
  intros y z _ Hedge IH. by destruct (graph_cur_live g y z Hg IH Hedge) as (_ & _ & ? & _).
Qed.

Lemma reach_sym g u w :
  CSpec.graph_ok g → u < CNP.numNodes_ g →
  CSpec.reach (CNP.currentAdjList_ g) u w → CSpec.reach (CNP.currentAdjList_ g) w u.
Proof.
  intros Hg Hu. revert w. apply rtc_ind_r; [apply rtc_refl|].
  intros y z Hy Hedge IH.
  pose proof (reach_range g u y Hg Hu Hy) as Hyn.
  destruct (graph_cur_live g y z Hg Hyn Hedge) as (_ & _ & _ & Hback).
  eapply rtc_l; [exact Hback | exact IH].
Qed.

Lemma reach_live g u w :
  CSpec.graph_ok g → u < CNP.numNodes_ g → u ∉ CNP.removedNodes g →
  CSpec.reach (CNP.currentAdjList_ g) u w → w ∉ CNP.removedNodes g.
Proof.
  intros Hg Hu Hlive Hr. destruct (rtc_inv_r _ _ Hr) as [<-|(y & Hy & Hedge)]; [done|].
  pose proof (reach_range g u y Hg Hu Hy) as Hyn.
  by destruct (graph_cur_live g y w Hg Hyn Hedge) as (_ & ? & _).
Qed.

Lemma lreach_reach g u w :
  CSpec.graph_ok g → u < CNP.numNodes_ g →
  lreach (CNP.currentAdjList_ g) (CNP.removedNodes g) u w
  ↔ CSpec.reach (CNP.currentAdjList_ g) u w.
Proof.
  intros Hg Hu. split.
  - apply rtc_subrel. by intros x y [? _].
  - revert w. apply rtc_ind_r; [apply rtc_refl|].
    intros y z Hy Hedge IH. eapply rtc_r; [exact IH|].
    pose proof (reach_range g u y Hg Hu Hy) as Hyn.
    destruct (graph_cur_live g y z Hg Hyn Hedge) as (_ & ? & _). by split.
Qed.

(** *** dfsFindComponent *)

Lemma dfsFindComponent_spec g start :
  CSpec.graph_ok g → start < CNP.numNodes_ g → start ∉ CNP.removedNodes g →
  ∃ acc epochs,
    CNP.dfsFindComponent g start
      = Ok (CNP.mkComponent (length acc) acc,
            CNP.set_dfs epochs (CNP.dfsCurrentEpoch_ g + 1)%Z g) ∧
    NoDup acc ∧
    (∀ x, x ∈ acc ↔ CSpec.reach (CNP.currentAdjList_ g) start x) ∧
    CSpec.static_ok (CNP.set_dfs epochs (CNP.dfsCurrentEpoch_ g + 1)%Z g).
Proof.
  intros Hg Hstart Hlive.
  pose proof (graph_cur_sym g Hg) as [Hlen Hsym].
  pose proof Hg as [[Hnodes Horig Hirr Hn2c Hep Hle Hpos] Hcur Hrem].
  unfold CNP.dfsFindComponent.
  rewrite decide_False by lia. rewrite decide_False by lia.
  set (epoch := (CNP.dfsCurrentEpoch_ g + 1)%Z).
  assert (Hrange : ∀ u w, u < CNP.numNodes_ g → w ∈ CNP.currentAdjList_ g !!! u →
                          w < CNP.numNodes_ g) by (intros u w Hu Hw; by apply (Hsym u w)).
  assert (Hinit : dinv (CNP.currentAdjList_ g) (CNP.removedNodes g) epoch
                    (CNP.numNodes_ g) start (CNP.dfsVisitEpoch_ g) (CNP.dfsVisitEpoch_ g)
                    [start] []).
  { apply dinv_init; first [done | intros x Hx; specialize (Hle x Hx); unfold epoch; lia]. }
  edestruct (dfs_loop_spec (CNP.currentAdjList_ g) (CNP.removedNodes g) epoch
               (CNP.numNodes_ g) start) with (fuel := CNP.dfs_fuel g)
    as (epochs & acc & Hloop & Hd);
    [first [exact Hlen | exact Hrange | exact Hstart | exact Hlive | exact Hinit] .. | |].
  - unfold CNP.dfs_fuel. simpl.
    assert (pot (CNP.currentAdjList_ g) epoch (CNP.numNodes_ g) (CNP.dfsVisitEpoch_ g)
            ≤ CNP.numNodes_ g + sum_list (size <$> CNP.currentAdjList_ g))
      by (eapply pot_bound; eauto).
    lia.
  - rewrite Hloop. simpl. exists acc, epochs. split; [done|].
    split; [apply Hd|]. split.
    + intros x. rewrite <- lreach_reach by done.
      eapply dinv_final; eauto.
    + split; simpl; try done.
      * apply Hd.
      * intros v Hv. destruct (decide (v ∈ acc)) as [Hin|Hnin].
        -- apply (d_marks _ _ _ _ _ _ _ _ _ Hd) in Hin; [|done]. fold epoch. lia.
        -- rewrite (d_frame _ _ _ _ _ _ _ _ _ Hd) by done.
           specialize (Hle v Hv). lia.
      * lia.
Qed.

(** *** Writing one value at many indices *)

Lemma assign_all_length {A} (x : A) (l : list nat) (v : list A) :
  length (CNP.assign_all x l v) = length v.
Proof.
  revert v. induction l as [|i l IH]; intros v; [done|].
  unfold CNP.assign_all in *. simpl. by rewrite IH, length_insert.
Qed.

Lemma assign_all_lookup {A} `{!Inhabited A} (x : A) (l : list nat) (v : list A) (i : nat) :
  i < length v →
  CNP.assign_all x l v !!! i = if decide (i ∈ l) then x else v !!! i.
Proof.
  revert v. induction l as [|j l IH]; intros v Hi.
  { rewrite decide_False; [done | apply not_elem_of_nil]. }
  unfold CNP.assign_all in *. simpl. rewrite IH by (by rewrite length_insert).
  destruct (decide (i ∈ l)) as [Hin|Hnin].
  - rewrite decide_True; [done | by right].
  - destruct (decide (j = i)) as [->|Hne].
    + rewrite list_lookup_total_insert_eq by done. rewrite decide_True; [done | by left].
    + rewrite list_lookup_total_insert_ne by done.
      rewrite decide_False; [done|]. intros [?|?]%elem_of_cons; done.
Qed.

(** *** Sums over the components *)

Lemma comp_pairs_app l k :
  CSpec.comp_pairs (l ++ k) = (CSpec.comp_pairs l + CSpec.comp_pairs k)%Z.
Proof. induction l as [|c l IH]; simpl; [lia|]. rewrite IH. lia. Qed.

Lemma comp_sizes_app l k :
  CSpec.comp_sizes (l ++ k) = CSpec.comp_sizes l + CSpec.comp_sizes k.
Proof. induction l as [|c l IH]; simpl; [lia|]. rewrite IH. lia. Qed.

(** *** Facts that follow from the invariant *)

Lemma pinv_set_dfs g P epochs epoch :
  CSpec.static_ok (CNP.set_dfs epochs epoch g) →
  CSpec.pinv g P → CSpec.pinv (CNP.set_dfs epochs epoch g) P.
Proof.
  intros Hs [[_ ? ?] ? ? ? ? ? ?]. split; [by split | done ..].
Qed.

(** A vertex connected to a member of a stored component is a member. *)
Lemma pinv_member_comp g P c comp v :
  CSpec.pinv g P → CNP.connectedComponents_ g !! c = Some comp → v ∈ CNP.nodes comp →
  v < CNP.numNodes_ g ∧ (v ∉ CNP.removedNodes g) ∧ (v ∉ P) ∧
  CNP.nodeToComponentIndex_ g !!! v = Z.of_nat c.
Proof. intros Hp Hc Hv. by apply (CSpec.p_comp g P Hp c comp Hc). Qed.

(** The pending vertices are closed under connectedness. *)
Lemma pinv_pending_closed g P v w :
  CSpec.pinv g P → v ∈ P → CSpec.reach (CNP.currentAdjList_ g) v w → w ∈ P.
Proof.
  intros Hp Hv Hr.
  destruct (CSpec.p_pending g P Hp v Hv) as [Hvn Hvl].
  pose proof (CSpec.p_graph g P Hp) as Hg.
  pose proof (reach_range g v w Hg Hvn Hr) as Hwn.
  pose proof (reach_live g v w Hg Hvn Hvl Hr) as Hwl.
  destruct (decide (w ∈ P)) as [|Hnp]; [done|]. exfalso.
  destruct (CSpec.p_live g P Hp w Hwn Hwl Hnp) as (c & comp & Hn2c & Hc & Hw).
  assert (Hvc : v ∈ CNP.nodes comp).
  { apply (CSpec.p_class g P Hp c comp w v Hc Hw). by apply reach_sym. }
  destruct (pinv_member_comp g P c comp v Hp Hc Hvc) as (_ & _ & ? & _). done.
Qed.

(** Two stored components that share a vertex are the same one. *)
Lemma pinv_comp_unique g P c c' comp comp' v :
  CSpec.pinv g P →
  CNP.connectedComponents_ g !! c = Some comp → v ∈ CNP.nodes comp →
  CNP.connectedComponents_ g !! c' = Some comp' → v ∈ CNP.nodes comp' →
  c = c' ∧ comp = comp'.
Proof.
  intros Hp Hc Hv Hc' Hv'.
  destruct (pinv_member_comp g P c comp v Hp Hc Hv) as (_ & _ & _ & H1).
  destruct (pinv_member_comp g P c' comp' v Hp Hc' Hv') as (_ & _ & _ & H2).
  assert (c = c') as -> by lia. split; [done | congruence].
Qed.

(** *** Storing a newly discovered component *)

Lemma discover_spec g P v :
  CSpec.pinv g P → v ∈ P →
  ∃ acc g1,
    CNP.dfsFindComponent g v = Ok (CNP.mkComponent (length acc) acc, g1) ∧
    acc ≠ [] ∧ (∀ x, x ∈ acc → x ∈ P) ∧ v ∈ acc ∧
    CNP.connectedComponents_ g1 = CNP.connectedComponents_ g ∧
    CNP.numNodes_ g1 = CNP.numNodes_ g ∧
    CNP.removedNodes g1 = CNP.removedNodes g ∧
    CNP.currentAdjList_ g1 = CNP.currentAdjList_ g ∧
    CNP.originalAdjList_ g1 = CNP.originalAdjList_ g ∧
    CSpec.pinv g1 P ∧
    CSpec.pinv (with_component (Z.of_nat (length (CNP.connectedComponents_ g)))
                  (CNP.mkComponent (length acc) acc) g1)
      (P ∖ list_to_set acc).
Proof.
  intros Hp Hv.
  destruct (CSpec.p_pending g P Hp v Hv) as [Hvn Hvl].
  pose proof (CSpec.p_graph g P Hp) as Hg.
  destruct (dfsFindComponent_spec g v Hg Hvn Hvl) as (acc & epochs & Hdfs & Hnd & Hacc & Hs).
  set (g1 := CNP.set_dfs epochs (CNP.dfsCurrentEpoch_ g + 1)%Z g) in *.
  assert (Hp1 : CSpec.pinv g1 P) by (by apply pinv_set_dfs).
  assert (Hvacc : v ∈ acc) by (apply Hacc; apply rtc_refl).
  assert (HaccP : ∀ x, x ∈ acc → x ∈ P).
  { intros x Hx. eapply pinv_pending_closed; [done | done | by apply Hacc]. }
  exists acc, g1. split; [done|]. split; [by intros ->; apply elem_of_nil in Hvacc|].
  split; [done|]. split; [done|]. do 5 (split; [done|]). split; [done|].
  pose proof Hp1 as [Hg1 Hpend Hrem Hlive Hcomp Hclass Hpairs].
  assert (Hn2c : length (CNP.nodeToComponentIndex_ g1) = CNP.numNodes_ g) by apply Hg.
  split.
  - destruct Hg1 as [[] ? ?]. split; [|done|done]. split; simpl; try done.
    by rewrite assign_all_length.
  - intros x Hx. apply Hpend. set_solver.
  - intros x Hx Hxr. simpl in *. rewrite assign_all_lookup by lia.
    rewrite decide_False; [by apply Hrem|].
    intros Hin. destruct (Hpend x (HaccP x Hin)) as [_ ?]. done.
  - intros x Hx Hxl HxP. simpl in *.
    rewrite assign_all_lookup by lia.
    destruct (decide (x ∈ acc)) as [Hin|Hnin].
    + exists (length (CNP.connectedComponents_ g)), (CNP.mkComponent (length acc) acc).
      split; [done|]. split; [|done].
      rewrite lookup_app_r by done. by rewrite Nat.sub_diag.
    + destruct (Hlive x Hx Hxl) as (c & comp & H1 & H2 & H3); [set_solver|].
      exists c, comp. split; [done|]. split; [|done]. by apply lookup_app_l_Some.
  - intros c comp Hc. simpl in *. apply lookup_app_Some in Hc as [Hc|[Hlen Hc]].
    + destruct (Hcomp c comp Hc) as (H1 & H2 & H3 & H4). do 3 (split; [done|]).
      intros x Hx. destruct (H4 x Hx) as (Hxn & Hxl & HxP & Hxc).
      split; [done|]. split; [done|]. split; [set_solver|].
      rewrite assign_all_lookup by lia.
      rewrite decide_False; [done|]. intros Hin. apply HxP. by apply HaccP.
    + apply list_lookup_singleton_Some in Hc as [Hc0 <-]. simpl.
      split; [done|]. split; [done|]. split; [by intros ->; apply elem_of_nil in Hvacc|].
      intros x Hx. destruct (Hpend x (HaccP x Hx)) as [Hxn Hxl].
      split; [done|]. split; [done|]. split; [set_solver|].
      rewrite assign_all_lookup by lia. rewrite decide_True by done. lia.
  - intros c comp u w Hc Hu. simpl in *.
    apply lookup_app_Some in Hc as [Hc|[Hlen Hc]]; [by apply (Hclass c)|].
    apply list_lookup_singleton_Some in Hc as [_ <-]. simpl in *.
    rewrite !Hacc. apply Hacc in Hu. split.
    + intros Hw. etransitivity; [|exact Hw]. by apply (reach_sym g).
    + intros Hw. by etransitivity.
  - simpl in *. rewrite comp_pairs_app. simpl. rewrite Hpairs. lia.
Qed.

(** *** initializeComponentsAndMapping *)

Lemma init_step_discover g visited ci x acc g1 :
  visited !!! x = false → x ∉ CNP.removedNodes g → acc ≠ [] →
  CNP.dfsFindComponent g x = Ok (CNP.mkComponent (length acc) acc, g1) →
  CNP.init_step (g, visited, ci) x
  = Ok (with_component ci (CNP.mkComponent (length acc) acc) g1,
        CNP.assign_all true acc visited, (ci + 1)%Z).
Proof.
  intros Hvis Hlive Hne Hdfs. unfold CNP.init_step, CNP.isNodeRemoved.
  rewrite Hvis, bool_decide_eq_false_2 by done. simpl. rewrite Hdfs. simpl.
  rewrite bool_decide_eq_true_2 by done. done.
Qed.

Lemma init_loop l :
  ∀ g P visited ci,
  CSpec.pinv g P →
  ci = Z.of_nat (length (CNP.connectedComponents_ g)) →
  length visited = CNP.numNodes_ g →
  (∀ x, x < CNP.numNodes_ g →
        visited !!! x = true ↔ (x ∉ CNP.removedNodes g) ∧ (x ∉ P)) →
  (∀ x, x ∈ l → x < CNP.numNodes_ g) →
  ∃ g' P' visited' ci',
    foldlM CNP.init_step l (g, visited, ci) = Ok (g', visited', ci') ∧
    CSpec.pinv g' P' ∧ P' ⊆ P ∧ (∀ x, x ∈ l → x ∉ P') ∧
    CNP.numNodes_ g' = CNP.numNodes_ g ∧
    CNP.removedNodes g' = CNP.removedNodes g ∧
    CNP.currentAdjList_ g' = CNP.currentAdjList_ g ∧
    CNP.originalAdjList_ g' = CNP.originalAdjList_ g.
Proof.
  induction l as [|x l IH]; intros g P visited ci Hp Hci Hlen Hvis Hl.
  { exists g, P, visited, ci. split; [done|]. split; [done|]. split; [done|].
    split; [intros x []%elem_of_nil | done]. }
  assert (Hx : x < CNP.numNodes_ g) by (apply Hl; by left).
  assert (Hl' : ∀ y, y ∈ l → y < CNP.numNodes_ g) by (intros y Hy; apply Hl; by right).
  cbn [foldlM].
  destruct (decide (x ∈ P)) as [HxP|HxP].
  - destruct (CSpec.p_pending g P Hp x HxP) as [_ Hxl].
    destruct (discover_spec g P x Hp HxP)
      as (acc & g1 & Hdfs & Hne & HaccP & Hxacc & Hc1 & Hn1 & Hr1 & Hcur1 & Ho1 & Hp1 & Hp2).
    assert (Hvx : visited !!! x = false).
    { destruct (visited !!! x) eqn:E; [|done]. apply Hvis in E as [_ ?]; done. }
    rewrite (init_step_discover g visited ci x acc g1) by done. simpl.
    subst ci. rewrite <- Hc1 in Hp2.
    destruct (IH _ _ (CNP.assign_all true acc visited)
                (Z.of_nat (length (CNP.connectedComponents_ g1)) + 1)%Z Hp2)
      as (g' & P' & visited' & ci' & Hfold & Hp' & Hsub & Hdone & Hn' & Hr' & Hcur' & Ho').
    + simpl. rewrite length_app. simpl. lia.
    + rewrite assign_all_length. simpl. by rewrite Hn1.
    + intros y Hy. simpl in *. rewrite assign_all_lookup by lia.
      destruct (decide (y ∈ acc)) as [Hin|Hnin].
      * destruct (CSpec.p_pending g P Hp y (HaccP y Hin)) as [_ Hyl].
        rewrite Hr1. split; [intros _; split; [done | set_solver] | done].
      * rewrite Hvis by lia. rewrite Hr1. set_solver.
    + simpl. by rewrite Hn1.
    + rewrite Hc1 in Hfold. exists g', P', visited', ci'. split; [done|]. split; [done|].
      split; [set_solver|]. split.
      * intros y [->|Hy]%elem_of_cons; [set_solver | by apply Hdone].
      * simpl in *. by rewrite Hn', Hr', Hcur', Ho'.
  - assert (Hstep : CNP.init_step (g, visited, ci) x = Ok (g, visited, ci)).
    { unfold CNP.init_step, CNP.isNodeRemoved.
      destruct (visited !!! x) eqn:E; [done|]. simpl.
      destruct (bool_decide (x ∈ CNP.removedNodes g)) eqn:E2; [done|]. exfalso.
      apply bool_decide_eq_false in E2.
      assert (visited !!! x = true) by (by apply Hvis). congruence. }
    rewrite Hstep. simpl.
    destruct (IH g P visited ci Hp Hci Hlen Hvis Hl')
      as (g' & P' & visited' & ci' & Hfold & Hp' & Hsub & Hdone & Hrest).
    exists g', P', visited', ci'. split; [done|]. split; [done|]. split; [done|].
    split; [|done]. intros y [->|Hy]%elem_of_cons; [set_solver | by apply Hdone].
Qed.

Lemma initializeComponentsAndMapping_spec g :
  CSpec.graph_ok g →
  ∃ g', CNP.initializeComponentsAndMapping g = Ok g' ∧ CSpec.inv g' ∧
        CNP.numNodes_ g' = CNP.numNodes_ g ∧
        CNP.removedNodes g' = CNP.removedNodes g ∧
        CNP.currentAdjList_ g' = CNP.currentAdjList_ g ∧
        CNP.originalAdjList_ g' = CNP.originalAdjList_ g.
Proof.
  intros Hg. pose proof Hg as [[Hnodes Horig Hirr Hn2c Hep Hle Hpos] Hcur Hrem].
  unfold CNP.initializeComponentsAndMapping.
  set (g2 := CNP.set_connectedPairs_ 0%Z (CNP.set_connectedComponents_ []
               (CNP.set_nodeToComponentIndex_
                  (replicate (length (CNP.nodeToComponentIndex_ g)) (-1)%Z) g))).
  set (P0 := set_seq 0 (CNP.numNodes_ g) ∖ CNP.removedNodes g : gset nat).
  assert (Hp0 : CSpec.pinv g2 P0).
  { split.
    - split; [|done|done]. split; simpl; try done. by rewrite length_replicate.
    - intros v [Hv Hvr]%elem_of_difference. apply elem_of_set_seq in Hv. simpl. split; [lia|done].
    - intros v Hv Hvr. simpl in *. apply lookup_total_replicate_2. lia.
    - intros v Hv Hvl HvP. exfalso. apply HvP. apply elem_of_difference. split; [|done].
      apply elem_of_set_seq. simpl in Hv. lia.
    - intros c comp Hc. simpl in Hc. by rewrite lookup_nil in Hc.
    - intros c comp u w Hc. simpl in Hc. by rewrite lookup_nil in Hc.
    - done. }
  destruct (init_loop (elements (CNP.originalNodesSet_ g2)) g2 P0
              (replicate (CNP.numNodes_ g) false) 0%Z Hp0)
    as (g' & P' & visited' & ci' & Hfold & Hp' & Hsub & Hdone & Hn' & Hr' & Hcur' & Ho').
  - done.
  - by rewrite length_replicate.
  - intros x Hx. simpl in Hx. rewrite lookup_total_replicate_2 by done.
    split; [done|]. intros [Hxl HxP]. exfalso. apply HxP.
    apply elem_of_difference. split; [|done]. apply elem_of_set_seq. lia.
  - intros x Hx%elem_of_elements. simpl in *. rewrite Hnodes in Hx.
    apply elem_of_set_seq in Hx. lia.
  - rewrite Hfold. simpl. exists g'. split; [done|]. split; [|done].
    assert (P' = ∅) as ->; [|done].
    apply elem_of_equiv_empty_L. intros x HxP'.
    destruct (CSpec.p_pending g' P' Hp' x HxP') as [Hxn _].
    apply (Hdone x); [|done]. apply elem_of_elements. simpl. rewrite Hnodes.
    apply elem_of_set_seq. rewrite Hn' in Hxn. simpl in Hxn. lia.
Qed.

(** *** set_removed_all *)

Lemma updateGraphByRemovedNodes_static g S :
  CSpec.static_ok g → (∀ v, v ∈ S → v < CNP.numNodes_ g) →
  ∃ g', CNP.updateGraphByRemovedNodes S g = Ok g' ∧ CSpec.inv g' ∧
        CNP.numNodes_ g' = CNP.numNodes_ g ∧
        CNP.removedNodes g' = S ∧
        CNP.originalAdjList_ g' = CNP.originalAdjList_ g.
Proof.
  intros Hs HS. pose proof Hs as [Hnodes Horig Hirr Hn2c Hep Hle Hpos].
  unfold CNP.updateGraphByRemovedNodes.
  edestruct initializeComponentsAndMapping_spec as (g' & Hinit & Hinv & Hn' & Hr' & _ & Ho');
    [|rewrite Hinit].
  - split; [by split| |done]. simpl.
    replace S with (∅ ∪ list_to_set (elements S) : gset nat) at 2
      by (rewrite list_to_set_elements_L; set_solver).
    eapply elide_fold_spec; [done| |apply elided_init].
    intros x Hx%elem_of_elements. by apply HS.
  - exists g'. split; [done|]. split; [done|]. done.
Qed.

(** ** CNP: remove *)

Lemma pairs_succ k : CNP.pairs (S k) = (CNP.pairs k + Z.of_nat k)%Z.
Proof.
  unfold CNP.pairs. rewrite <- Nat2Z.inj_add. f_equal.
  destruct k as [|k]; [done|].
  replace (S (S k) * (S (S k) - 1)) with (S k * (S k - 1) + S k * 2) by (simpl; lia).
  by rewrite Nat.div_add.
Qed.

Lemma pairs_triangle k : Z.of_nat (k * (k + 1) / 2) = CNP.pairs (S k).
Proof. unfold CNP.pairs. do 2 f_equal. simpl. lia. Qed.

Lemma comp_pairs_insert comps c comp comp' :
  comps !! c = Some comp →
  CSpec.comp_pairs (<[c := comp']> comps)
  = (CSpec.comp_pairs comps - CNP.pairs (CNP.size comp) + CNP.pairs (CNP.size comp'))%Z.
Proof.
  revert c. induction comps as [|x comps IH]; intros [|c] Hc; simpl in *; try done.
  - injection Hc as ->. lia.
  - rewrite (IH c Hc). lia.
Qed.

Lemma comp_pairs_delete comps c comp :
  comps !! c = Some comp →
  CSpec.comp_pairs (delete c comps)
  = (CSpec.comp_pairs comps - CNP.pairs (CNP.size comp))%Z.
Proof.
  revert c. induction comps as [|x comps IH]; intros [|c] Hc; simpl in *; try done.
  - injection Hc as ->. lia.
  - rewrite (IH c Hc). lia.
Qed.

(** Eliding [v] from the current adjacency keeps it the elision of the
    original one. *)
Lemma elided_remove n (A B : list (gset nat)) (T : gset nat) v :
  adj_sym n A → v < n → elided A B T →
  elided A (CNP.elide_node B B v) (T ∪ {[v]}).
Proof.
  intros HA Hv HB.
  pose proof (elided_sym n A B T HA HB) as HBsym.
  pose proof (elide_node_spec n B B ∅ v HBsym Hv (elided_init B)) as [Hl Hk].
  destruct HA as [HlenA _]. destruct HB as [HlenB HB].
  split; [lia|]. intros u Hu. rewrite Hk by lia. rewrite HB by done.
  destruct (decide (u ∈ ∅ ∪ {[v]})), (decide (u ∈ T)), (decide (u ∈ T ∪ {[v]}));
    set_solver.
Qed.

Lemma cut_graph_ok v g comps :
  CSpec.graph_ok g → v < CNP.numNodes_ g → CSpec.graph_ok (cut v g comps).
Proof.
  intros [[Hnodes Horig Hirr Hn2c Hep Hle Hpos] Hcur Hrem] Hv. split.
  - split; simpl; try done. by rewrite length_insert.
  - simpl. by eapply elided_remove.
  - simpl. intros x [Hx| ->%elem_of_singleton]%elem_of_union; [by apply Hrem | done].
Qed.

Lemma cut_edge v g comps u w :
  CSpec.graph_ok g → v < CNP.numNodes_ g → u < CNP.numNodes_ g →
  CSpec.edge (CNP.currentAdjList_ (cut v g comps)) u w
  ↔ CSpec.edge (CNP.currentAdjList_ g) u w ∧ u ≠ v ∧ w ≠ v.
Proof.
  intros Hg Hv Hu. unfold CSpec.edge. simpl.
  pose proof (graph_cur_sym g Hg) as Hsym.
  destruct (elide_node_spec _ _ _ ∅ v Hsym Hv (elided_init (CNP.currentAdjList_ g)))
    as [Hl Hk].
  destruct Hsym as [Hlen _]. rewrite Hk by lia.
  destruct (decide (u ∈ ∅ ∪ {[v]})); set_solver.
Qed.

Lemma cut_reach_old v g comps u w :
  CSpec.graph_ok g → v < CNP.numNodes_ g → u < CNP.numNodes_ g →
  CSpec.reach (CNP.currentAdjList_ (cut v g comps)) u w →
  CSpec.reach (CNP.currentAdjList_ g) u w.
Proof.
  intros Hg Hv Hu. revert w. apply rtc_ind_r; [apply rtc_refl|].
  intros y z Hy Hedge IH. eapply rtc_r; [exact IH|].
  pose proof (reach_range g u y Hg Hu IH) as Hyn.
  by apply (cut_edge v g comps y z Hg Hv Hyn) in Hedge as [? _].
Qed.

(** A vertex that was not connected to [v] keeps its connections. *)
Lemma cut_reach_other v g comps u w :
  CSpec.graph_ok g → v < CNP.numNodes_ g → u < CNP.numNodes_ g →
  ¬ CSpec.reach (CNP.currentAdjList_ g) u v →
  CSpec.reach (CNP.currentAdjList_ (cut v g comps)) u w
  ↔ CSpec.reach (CNP.currentAdjList_ g) u w.
Proof.
  intros Hg Hv Hu Hnot. split; [by apply cut_reach_old|].
  revert w. apply rtc_ind_r; [apply rtc_refl|].
  intros y z Hy Hedge IH. eapply rtc_r; [exact IH|].
  pose proof (reach_range g u y Hg Hu Hy) as Hyn.
  apply (cut_edge v g comps y z Hg Hv Hyn). split; [done|]. split.
  - intros ->. done.
  - intros ->. apply Hnot. by eapply rtc_r.
Qed.

(** The component of a surviving vertex. *)
Lemma inv_component g v :
  CSpec.inv g → v < CNP.numNodes_ g → v ∉ CNP.removedNodes g →
  ∃ c comp,
    CNP.nodeToComponentIndex_ g !!! v = Z.of_nat c ∧
    CNP.connectedComponents_ g !! c = Some comp ∧
    CNP.connectedComponents_ g !!! c = comp ∧
    v ∈ CNP.nodes comp ∧
    CNP.size comp = length (CNP.nodes comp) ∧ NoDup (CNP.nodes comp) ∧
    (∀ w, w ∈ CNP.nodes comp ↔ CSpec.reach (CNP.currentAdjList_ g) v w).
Proof.
  intros Hp Hv Hlive.
  destruct (CSpec.p_live g ∅ Hp v Hv Hlive) as (c & comp & Hn2c & Hc & Hin); [set_solver|].
  exists c, comp. destruct (CSpec.p_comp g ∅ Hp c comp Hc) as (Hsz & Hnd & _ & _).
  split; [done|]. split; [done|]. split; [by apply list_lookup_total_correct|].
  split; [done|]. split; [done|]. split; [done|].
  intros w. by apply (CSpec.p_class g ∅ Hp c comp v w Hc Hin).
Qed.

Lemma filter_ne_length (l : list nat) v :
  NoDup l → v ∈ l → S (length (filter (λ x, x ≠ v) l)) = length l.
Proof.
  intros Hnd Hv.
  change (S (length (filter (λ x, x ≠ v) l))) with (length (v :: filter (λ x, x ≠ v) l)).
  apply Permutation_length, NoDup_Permutation; [|done|].
  - apply NoDup_cons. split; [|by apply NoDup_filter].
    intros [? _]%list_elem_of_filter. done.
  - intros x. rewrite elem_of_cons, list_elem_of_filter.
    destruct (decide (x = v)) as [->|]; naive_solver.
Qed.

(** A duplicate-free list inside another of the same length has the same
    elements. *)
Lemma nodup_full (l k : list nat) :
  NoDup l → NoDup k → (∀ x, x ∈ l → x ∈ k) → length k ≤ length l → ∀ x, x ∈ k → x ∈ l.
Proof.
  intros Hl Hk Hsub Hlen x Hx.
  assert (Hperm : l ≡ₚ k).
  { apply submseteq_length_Permutation; [by apply NoDup_submseteq | done]. }
  by rewrite Hperm.
Qed.

(** *** The members of all stored components *)

Lemma elem_of_concat_lookup (ls : list (list nat)) x :
  x ∈ concat ls ↔ ∃ i l, ls !! i = Some l ∧ x ∈ l.
Proof.
  induction ls as [|l ls IH]; simpl.
  - split; [by intros ?%elem_of_nil | by intros (i & l & ? & _)].
  - rewrite elem_of_app, IH. split.
    + intros [Hx | (i & k & Hk & Hx)]; [by exists 0, l | by exists (S i), k].
    + intros ([|i] & k & Hk & Hx); simpl in Hk; [left; congruence | right; eauto].
Qed.

Lemma NoDup_concat_lookup (ls : list (list nat)) :
  (∀ i l, ls !! i = Some l → NoDup l) →
  (∀ i j l k x, ls !! i = Some l → ls !! j = Some k → x ∈ l → x ∈ k → i = j) →
  NoDup (concat ls).
Proof.
  induction ls as [|l ls IH]; intros Hnd Hdisj; simpl; [constructor|].
  apply NoDup_app. split; [by apply (Hnd 0)|]. split.
  - intros x Hx (i & k & Hk & Hxk)%elem_of_concat_lookup.
    by specialize (Hdisj 0 (S i) l k x eq_refl Hk Hx Hxk).
  - apply IH; [intros i k Hk; by apply (Hnd (S i))|].
    intros i j k k' x Hk Hk' Hx Hx'.
    by specialize (Hdisj (S i) (S j) k k' x Hk Hk' Hx Hx') as [= ->].
Qed.

Lemma foldl_concat {A B} (f : A → B → A) (ls : list (list B)) :
  ∀ a, foldl (λ a l, foldl f a l) a ls = foldl f a (concat ls).
Proof.
  induction ls as [|l ls IH]; intros a; simpl; [done|]. by rewrite foldl_app, IH.
Qed.

Lemma decrement_fold (l : list nat) :
  ∀ m : list Z, NoDup l → (∀ x, x ∈ l → x < length m) →
  length (foldl (λ m node, <[node := (m !!! node - 1)%Z]> m) m l) = length m ∧
  ∀ x, x < length m →
    foldl (λ m node, <[node := (m !!! node - 1)%Z]> m) m l !!! x
    = if decide (x ∈ l) then (m !!! x - 1)%Z else m !!! x.
Proof.
  induction l as [|y l IH]; intros m Hnd Hl.
  - split; [done|]. intros x Hx. rewrite decide_False; [done | apply not_elem_of_nil].
  - apply NoDup_cons in Hnd as [Hy Hnd]. simpl.
    destruct (IH (<[y := (m !!! y - 1)%Z]> m) Hnd) as [Hlen Hk].
    { intros x Hx. rewrite length_insert. apply Hl. by right. }
    rewrite length_insert in Hlen, Hk. split; [done|].
    intros x Hx. rewrite Hk by done.
    assert (Hyl : y < length m) by (apply Hl; by left).
    destruct (decide (x = y)) as [->|Hne].
    + rewrite (decide_False (P := y ∈ l)) by done.
      rewrite (decide_True (P := y ∈ y :: l)) by (by left).
      by rewrite list_lookup_total_insert_eq.
    + rewrite list_lookup_total_insert_ne by done.
      destruct (decide (x ∈ l)) as [Hin|Hnin].
      * by rewrite decide_True by (by right).
      * rewrite decide_False; [done|]. intros [?|?]%elem_of_cons; done.
Qed.

Lemma pinv_members_nodup g P :
  CSpec.pinv g P → NoDup (concat (CNP.nodes <$> CNP.connectedComponents_ g)).
Proof.
  intros Hp. apply NoDup_concat_lookup.
  - intros i l Hl. apply list_lookup_fmap_Some in Hl as (comp & -> & Hc).
    by destruct (CSpec.p_comp g P Hp i comp Hc) as (_ & ? & _).
  - intros i j l k x Hl Hk Hx Hx'.
    apply list_lookup_fmap_Some in Hl as (comp & -> & Hc).
    apply list_lookup_fmap_Some in Hk as (comp' & -> & Hc').
    by destruct (pinv_comp_unique g P i j comp comp' x Hp Hc Hx Hc' Hx').
Qed.

Lemma decrement_after_spec g P ci (n2c : list Z) :
  CSpec.pinv g P → length n2c = CNP.numNodes_ g →
  length (CNP.decrement_after ci (CNP.connectedComponents_ g) n2c) = length n2c ∧
  ∀ x, x < CNP.numNodes_ g →
    ((∃ c comp, CNP.connectedComponents_ g !! c = Some comp ∧ x ∈ CNP.nodes comp ∧ ci < c) →
       CNP.decrement_after ci (CNP.connectedComponents_ g) n2c !!! x = (n2c !!! x - 1)%Z) ∧
    (¬ (∃ c comp, CNP.connectedComponents_ g !! c = Some comp ∧ x ∈ CNP.nodes comp ∧ ci < c) →
       CNP.decrement_after ci (CNP.connectedComponents_ g) n2c !!! x = n2c !!! x).
Proof.
  intros Hp Hlen. unfold CNP.decrement_after.
  set (comps := CNP.connectedComponents_ g).
  assert (Heq : foldl (λ n2c c, foldl (λ n2c node, <[node := (n2c !!! node - 1)%Z]> n2c)
                                  n2c (CNP.nodes c)) n2c (drop (S ci) comps)
              = foldl (λ n2c node, <[node := (n2c !!! node - 1)%Z]> n2c) n2c
                  (concat (CNP.nodes <$> drop (S ci) comps))).
  { rewrite <- foldl_concat. generalize (drop (S ci) comps). intros l. clear Hlen.
    revert n2c. induction l as [|a l IH]; intros n2c; simpl; [done|]. apply IH. }
  rewrite Heq. clear Heq.
  assert (Hin : ∀ x, x ∈ concat (CNP.nodes <$> drop (S ci) comps)
                ↔ ∃ c comp, comps !! c = Some comp ∧ x ∈ CNP.nodes comp ∧ ci < c).
  { intros x. rewrite elem_of_concat_lookup. split.
    - intros (i & l & Hl & Hx). apply list_lookup_fmap_Some in Hl as (comp & -> & Hc).
      rewrite lookup_drop in Hc. exists (S ci + i), comp. split; [done|]. split; [done | lia].
    - intros (c & comp & Hc & Hx & Hlt). exists (c - S ci), (CNP.nodes comp).
      split; [|done]. apply list_lookup_fmap_Some. exists comp. split; [done|].
      rewrite lookup_drop. by replace (S ci + (c - S ci)) with c by lia. }
  destruct (decrement_fold (concat (CNP.nodes <$> drop (S ci) comps)) n2c) as [Hl Hk].
  - apply NoDup_concat_lookup.
    + intros i l Hi. apply list_lookup_fmap_Some in Hi as (comp & -> & Hc).
      rewrite lookup_drop in Hc.
      by destruct (CSpec.p_comp g P Hp _ comp Hc) as (_ & ? & _).
    + intros i j l k x Hi Hj Hx Hx'.
      apply list_lookup_fmap_Some in Hi as (comp & -> & Hc).
      apply list_lookup_fmap_Some in Hj as (comp' & -> & Hc').
      rewrite lookup_drop in Hc, Hc'.
      destruct (pinv_comp_unique g P _ _ comp comp' x Hp Hc Hx Hc' Hx'). lia.
  - intros x (c & comp & Hc & Hx & _)%Hin. rewrite Hlen.
    by destruct (pinv_member_comp g P c comp x Hp Hc Hx) as (? & _).
  - split; [done|]. intros x Hxn. rewrite Hk by lia. split; intros Hc.
    + rewrite decide_True; [done|]. by apply Hin.
    + rewrite decide_False; [done|]. by rewrite Hin.
Qed.

Lemma graph_ok_set_n2c g (n2c : list Z) :
  CSpec.graph_ok g → length n2c = CNP.numNodes_ g →
  CSpec.graph_ok (CNP.set_nodeToComponentIndex_ n2c g).
Proof. intros [[] ? ?] Hlen. split; [|done|done]. by split. Qed.

Lemma delete_lookup_Some {A} (l : list A) (c i : nat) (x : A) :
  delete c l !! i = Some x →
  ∃ j, l !! j = Some x ∧ j ≠ c ∧ ((j < c ∧ i = j) ∨ (c < j ∧ i = j - 1)).
Proof.
  intros Hi. destruct (decide (i < c)) as [Hlt|Hge].
  - rewrite list_lookup_delete_lt in Hi by done. exists i. split; [done|]. lia.
  - rewrite list_lookup_delete_ge in Hi by lia. exists (S i). split; [done|]. lia.
Qed.

(** A component other than the one of [v] has no vertex connected to [v]. *)
Lemma other_comp_apart g v c comp co comp' u :
  CSpec.inv g →
  CNP.connectedComponents_ g !! c = Some comp → v ∈ CNP.nodes comp →
  CNP.connectedComponents_ g !! co = Some comp' → co ≠ c → u ∈ CNP.nodes comp' →
  ¬ CSpec.reach (CNP.currentAdjList_ g) u v.
Proof.
  intros Hp Hc Hv Hco Hne Hu Hreach.
  apply (CSpec.p_class g ∅ Hp co comp' u v Hco Hu) in Hreach.
  by destruct (pinv_comp_unique g ∅ _ _ comp comp' v Hp Hc Hv Hco Hreach).
Qed.

(** Removing a vertex that is a component of its own. *)
Lemma removeNode_single g v c comp :
  CSpec.inv g → v < CNP.numNodes_ g →
  CNP.connectedComponents_ g !! c = Some comp → v ∈ CNP.nodes comp →
  CNP.size comp = 1 →
  CSpec.inv
    (CNP.set_connectedComponents_ (delete c (CNP.connectedComponents_ g))
       (CNP.set_nodeToComponentIndex_
          (CNP.decrement_after c (CNP.connectedComponents_ g)
             (<[v := (-1)%Z]> (CNP.nodeToComponentIndex_ g)))
          (cut v g (CNP.connectedComponents_ g)))).
Proof.
  intros Hp Hv Hc Hvc Hsz.
  pose proof (CSpec.p_graph g ∅ Hp) as Hg.
  pose proof (CSpec.s_n2c_len g (CSpec.g_static g Hg)) as Hn2c.
  destruct (pinv_member_comp g ∅ c comp v Hp Hc Hvc) as (_ & Hvlive & _ & Hvidx).
  destruct (CSpec.p_comp g ∅ Hp c comp Hc) as (Hlen & Hnd & _ & _).
  assert (Hnodes : CNP.nodes comp = [v]).
  { destruct (CNP.nodes comp) as [|a [|b l]] eqn:E; simpl in Hlen; try lia.
    by apply list_elem_of_singleton in Hvc as ->. }
  destruct (decrement_after_spec g ∅ c (<[v := (-1)%Z]> (CNP.nodeToComponentIndex_ g)) Hp)
    as [Hdl Hdk]; [by rewrite length_insert|].
  rewrite length_insert in Hdl.
  set (n2c' := CNP.decrement_after c (CNP.connectedComponents_ g)
                 (<[v := (-1)%Z]> (CNP.nodeToComponentIndex_ g))) in *.
  assert (Hold : ∀ x co comp', CNP.connectedComponents_ g !! co = Some comp' →
            x ∈ CNP.nodes comp' → co ≠ c →
            x ≠ v ∧ n2c' !!! x = if decide (c < co) then (Z.of_nat co - 1)%Z else Z.of_nat co).
  { intros x co comp' Hco Hx Hne.
    destruct (pinv_member_comp g ∅ co comp' x Hp Hco Hx) as (Hxn & _ & _ & Hxi).
    assert (x ≠ v).
    { intros ->. by destruct (pinv_comp_unique g ∅ _ _ comp comp' v Hp Hc Hvc Hco Hx). }
    split; [done|]. destruct (Hdk x Hxn) as [Hyes Hno].
    destruct (decide (c < co)) as [Hlt|Hge].
    - rewrite Hyes by eauto. rewrite list_lookup_total_insert_ne by done. lia.
    - rewrite Hno; [by rewrite list_lookup_total_insert_ne|].
      intros (c' & comp'' & Hc' & Hx' & Hlt).
      destruct (pinv_comp_unique g ∅ _ _ comp' comp'' x Hp Hco Hx Hc' Hx'). lia. }
  split.
  - apply (graph_ok_set_n2c (cut v g (delete c (CNP.connectedComponents_ g))) n2c');
      [by apply cut_graph_ok | by rewrite Hdl].
  - intros x Hx. set_solver.
  - simpl. intros x Hxn Hx. destruct (Hdk x Hxn) as [_ Hno]. rewrite Hno.
    + destruct (decide (x = v)) as [->|Hne];
        [by rewrite list_lookup_total_insert_eq by lia|].
      rewrite list_lookup_total_insert_ne by done.
      apply (CSpec.p_removed g ∅ Hp x Hxn). set_solver.
    + intros (c' & comp' & Hc' & Hx' & Hlt).
      destruct (pinv_member_comp g ∅ c' comp' x Hp Hc' Hx') as (_ & Hxl & _).
      apply elem_of_union in Hx as [Hx | ->%elem_of_singleton]; [done|].
      destruct (pinv_comp_unique g ∅ _ _ comp comp' v Hp Hc Hvc Hc' Hx'). lia.
  - simpl. intros x Hxn Hx _.
    destruct (CSpec.p_live g ∅ Hp x Hxn) as (co & comp' & Hxi & Hco & Hxc);
      [set_solver | set_solver |].
    assert (Hne : co ≠ c).
    { intros ->. assert (comp' = comp) as -> by congruence.
      rewrite Hnodes in Hxc. apply list_elem_of_singleton in Hxc. set_solver. }
    destruct (Hold x co comp' Hco Hxc Hne) as [_ Hidx].
    destruct (decide (c < co)) as [Hlt|Hge].
    + exists (co - 1), comp'. split; [rewrite Hidx; lia|]. split; [|done].
      rewrite list_lookup_delete_ge by lia. by replace (S (co - 1)) with co by lia.
    + exists co, comp'. split; [done|]. split; [|done]. rewrite list_lookup_delete_lt; [done | lia].
  - simpl. intros i comp' Hi.
    apply delete_lookup_Some in Hi as (co & Hco & Hne & Hcase).
    destruct (CSpec.p_comp g ∅ Hp co comp' Hco) as (? & ? & ? & Hmem).
    do 3 (split; [done|]). intros x Hx.
    destruct (Hmem x Hx) as (Hxn & Hxl & _ & _).
    destruct (Hold x co comp' Hco Hx Hne) as [Hxv Hidx].
    split; [done|]. split; [set_solver|]. split; [set_solver|].
    rewrite Hidx. destruct (decide (c < co)); lia.
  - intros i comp' u w Hi Hu. simpl in Hi.
    apply delete_lookup_Some in Hi as (co & Hco & Hne & _).
    destruct (pinv_member_comp g ∅ co comp' u Hp Hco Hu) as (Hun & _).
    rewrite (CSpec.p_class g ∅ Hp co comp' u w Hco Hu).
    symmetry. apply (cut_reach_other v g (CNP.connectedComponents_ g) u w Hg Hv Hun).
    exact (other_comp_apart g v c comp co comp' u Hp Hc Hvc Hco Hne Hu).
  - simpl. rewrite (comp_pairs_delete _ c comp Hc), Hsz.
    rewrite (CSpec.p_pairs g ∅ Hp). unfold CNP.pairs. simpl. lia.
Qed.

(** *** Replacing the component of the removed vertex *)

Lemma remove_replace g v c comp nc (P : gset nat) cp' epochs epoch comps0 :
  CSpec.inv g → v < CNP.numNodes_ g →
  CNP.connectedComponents_ g !! c = Some comp → v ∈ CNP.nodes comp →
  CNP.size nc = length (CNP.nodes nc) → NoDup (CNP.nodes nc) → CNP.nodes nc ≠ [] →
  (∀ x, x ∈ CNP.nodes nc → x ∈ CNP.nodes comp ∧ x ≠ v) →
  (∀ x y, x ∈ CNP.nodes nc →
     (y ∈ CNP.nodes nc
      ↔ CSpec.reach (CNP.elide_node (CNP.currentAdjList_ g) (CNP.currentAdjList_ g) v) x y)) →
  (∀ x, x ∈ P ↔ x ∈ CNP.nodes comp ∧ x ≠ v ∧ x ∉ CNP.nodes nc) →
  cp' = (CNP.connectedPairs_ g - CNP.pairs (CNP.size comp) + CNP.pairs (CNP.size nc))%Z →
  CSpec.static_ok (CNP.set_dfs epochs epoch (cut v g comps0)) →
  CSpec.pinv
    (CNP.set_connectedPairs_ cp'
       (CNP.set_dfs epochs epoch (cut v g (<[c := nc]> (CNP.connectedComponents_ g))))) P.
Proof.
  intros Hp Hv Hc Hvc Hsz Hnd Hne Hsub Hcls HP -> Hs.
  pose proof (CSpec.p_graph g ∅ Hp) as Hg.
  destruct (pinv_member_comp g ∅ c comp v Hp Hc Hvc) as (_ & Hvlive & _ & Hvidx).
  assert (Hclt : c < length (CNP.connectedComponents_ g)) by (by eapply lookup_lt_Some).
  assert (Hother : ∀ x co comp', CNP.connectedComponents_ g !! co = Some comp' →
            x ∈ CNP.nodes comp' → co ≠ c → x ≠ v ∧ x ∉ P).
  { intros x co comp' Hco Hx Hneq. split.
    - intros ->. by destruct (pinv_comp_unique g ∅ _ _ comp comp' v Hp Hc Hvc Hco Hx).
    - intros (Hxc & _)%HP.
      by destruct (pinv_comp_unique g ∅ _ _ comp comp' x Hp Hc Hxc Hco Hx). }
  split.
  - pose proof (cut_graph_ok v g (CNP.connectedComponents_ g) Hg Hv) as [_ Hcur Hrem].
    destruct Hs. split; [by split | done | done].
  - intros x (Hxc & Hxv & _)%HP. simpl.
    destruct (pinv_member_comp g ∅ c comp x Hp Hc Hxc) as (? & ? & _).
    split; [done | set_solver].
  - simpl. intros x Hxn Hx. destruct (decide (x = v)) as [->|Hxv].
    + rewrite list_lookup_total_insert_eq; [done|].
      by rewrite (CSpec.s_n2c_len g (CSpec.g_static g Hg)).
    + rewrite list_lookup_total_insert_ne by done.
      apply (CSpec.p_removed g ∅ Hp x Hxn). set_solver.
  - simpl. intros x Hxn Hx HxP.
    destruct (CSpec.p_live g ∅ Hp x Hxn) as (co & comp' & Hxi & Hco & Hxc);
      [set_solver | set_solver |].
    assert (Hxv : x ≠ v) by set_solver.
    rewrite list_lookup_total_insert_ne by done.
    destruct (decide (co = c)) as [->|Hneq].
    + assert (comp' = comp) as -> by congruence.
      exists c, nc. split; [done|]. split; [by rewrite list_lookup_insert_eq|].
      destruct (decide (x ∈ CNP.nodes nc)); [done|]. exfalso. apply HxP, HP. done.
    + exists co, comp'. split; [done|]. split; [|done].
      by rewrite list_lookup_insert_ne.
  - simpl. intros i comp' Hi.
    apply list_lookup_insert_Some in Hi as [(<- & <- & _) | (Hneq & Hi)].
    + do 3 (split; [done|]). intros x Hx. destruct (Hsub x Hx) as [Hxc Hxv].
      destruct (pinv_member_comp g ∅ c comp x Hp Hc Hxc) as (? & ? & _ & ?).
      split; [done|]. split; [set_solver|]. split.
      * intros (_ & _ & ?)%HP. done.
      * by rewrite list_lookup_total_insert_ne.
    + destruct (CSpec.p_comp g ∅ Hp i comp' Hi) as (? & ? & ? & Hmem).
      do 3 (split; [done|]). intros x Hx.
      destruct (Hmem x Hx) as (? & ? & _ & ?).
      destruct (Hother x i comp' Hi Hx) as [Hxv HxP]; [done|].
      split; [done|]. split; [set_solver|]. split; [done|].
      by rewrite list_lookup_total_insert_ne.
  - simpl. intros i comp' u w Hi Hu.
    apply list_lookup_insert_Some in Hi as [(<- & <- & _) | (Hneq & Hi)].
    + by apply Hcls.
    + destruct (pinv_member_comp g ∅ i comp' u Hp Hi Hu) as (Hun & _).
      rewrite (CSpec.p_class g ∅ Hp i comp' u w Hi Hu).
      symmetry. apply (cut_reach_other v g (CNP.connectedComponents_ g) u w Hg Hv Hun).
      assert (Hic : i ≠ c) by done.
      exact (other_comp_apart g v c comp i comp' u Hp Hc Hvc Hi Hic Hu).
  - simpl. rewrite (comp_pairs_insert _ c comp nc Hc). by rewrite (CSpec.p_pairs g ∅ Hp).
Qed.

(** *** The loop that discovers the other pieces of a split component *)

Lemma split_step_discover v g vis x acc g1 :
  vis !!! x = false → x ≠ v →
  CNP.dfsFindComponent g x = Ok (CNP.mkComponent (length acc) acc, g1) →
  CNP.split_step v (g, vis) x
  = Ok (with_component (Z.of_nat (length (CNP.connectedComponents_ g1)))
          (CNP.mkComponent (length acc) acc) g1,
        CNP.assign_all true acc vis).
Proof.
  intros Hvis Hx Hdfs. unfold CNP.split_step.
  rewrite Hvis, bool_decide_eq_false_2 by done. simpl. by rewrite Hdfs.
Qed.

Lemma split_loop v l :
  ∀ g P vis,
  CSpec.pinv g P → length vis = CNP.numNodes_ g →
  (∀ x, x ∈ l → x ≠ v → x < CNP.numNodes_ g ∧ (vis !!! x = true ↔ x ∉ P)) →
  ∃ g' P' vis',
    foldlM (CNP.split_step v) l (g, vis) = Ok (g', vis') ∧
    CSpec.pinv g' P' ∧ P' ⊆ P ∧ (∀ x, x ∈ l → x ≠ v → x ∉ P') ∧
    CNP.numNodes_ g' = CNP.numNodes_ g ∧
    CNP.removedNodes g' = CNP.removedNodes g ∧
    CNP.currentAdjList_ g' = CNP.currentAdjList_ g ∧
    CNP.originalAdjList_ g' = CNP.originalAdjList_ g.
Proof.
  induction l as [|x l IH]; intros g P vis Hp Hlen Hvis.
  { exists g, P, vis. split; [done|]. split; [done|]. split; [done|].
    split; [intros x []%elem_of_nil | done]. }
  assert (Hvis' : ∀ y, y ∈ l → y ≠ v →
            y < CNP.numNodes_ g ∧ (vis !!! y = true ↔ y ∉ P))
    by (intros y Hy; apply Hvis; by right).
  cbn [foldlM].
  destruct (decide (x ≠ v ∧ x ∈ P)) as [[Hxv HxP]|Hskip].
  - destruct (discover_spec g P x Hp HxP)
      as (acc & g1 & Hdfs & Hne & HaccP & Hxacc & Hc1 & Hn1 & Hr1 & Hcur1 & Ho1 & Hp1 & Hp2).
    assert (Hvx : vis !!! x = false).
    { destruct (vis !!! x) eqn:E; [|done].
      destruct (Hvis x) as [_ Hiff]; [by left | done |]. by apply Hiff in E. }
    rewrite (split_step_discover v g vis x acc g1) by done. simpl.
    rewrite <- Hc1 in Hp2.
    destruct (IH _ _ (CNP.assign_all true acc vis) Hp2)
      as (g' & P' & vis' & Hfold & Hp' & Hsub & Hdone & Hn' & Hr' & Hcur' & Ho').
    + rewrite assign_all_length. simpl. by rewrite Hn1.
    + intros y Hy Hyv. destruct (Hvis' y Hy Hyv) as [Hyn Hiff]. simpl. rewrite Hn1.
      split; [done|]. rewrite assign_all_lookup by lia.
      destruct (decide (y ∈ acc)) as [Hin|Hnin]; [set_solver|].
      rewrite Hiff. set_solver.
    + exists g', P', vis'. split; [done|]. split; [done|].
      split; [set_solver|]. split.
      * intros y [->|Hy]%elem_of_cons Hyv; [set_solver | by apply Hdone].
      * simpl in *. by rewrite Hn', Hr', Hcur', Ho'.
  - assert (Hstep : CNP.split_step v (g, vis) x = Ok (g, vis)).
    { unfold CNP.split_step.
      destruct (vis !!! x) eqn:E; [done|]. simpl.
      destruct (decide (x = v)) as [->|Hxv]; [by rewrite bool_decide_eq_true_2|].
      exfalso. apply Hskip. split; [done|].
      destruct (Hvis x) as [_ Hiff]; [by left | done |].
      destruct (decide (x ∈ P)); [done|]. assert (vis !!! x = true) by (by apply Hiff).
      congruence. }
    rewrite Hstep. simpl.
    destruct (IH g P vis Hp Hlen Hvis')
      as (g' & P' & vis' & Hfold & Hp' & Hsub & Hdone & Hrest).
    exists g', P', vis'. split; [done|]. split; [done|]. split; [done|].
    split; [|done]. intros y [->|Hy]%elem_of_cons Hyv; [|by apply Hdone].
    intros HyP'. apply Hskip. split; [done | set_solver].
Qed.

(** *** removeNode *)

Lemma alter_as_insert {A} (f : A → A) (l : list A) (i : nat) (x : A) :
  l !! i = Some x → alter f i l = <[i := f x]> l.
Proof.
  revert i. induction l as [|a l IH]; intros [|i] Hi; try done.
  - by injection Hi as ->.
  - cbn. f_equal. by apply IH.
Qed.

Lemma removeNode_single_eq g v c comp :
  CNP.nodeToComponentIndex_ g !!! v = Z.of_nat c →
  CNP.connectedComponents_ g !!! c = comp → CNP.size comp = 1 →
  CNP.removeNode v g
  = Ok (CNP.set_connectedComponents_ (delete c (CNP.connectedComponents_ g))
          (CNP.set_nodeToComponentIndex_
             (CNP.decrement_after c (CNP.connectedComponents_ g)
                (<[v := (-1)%Z]> (CNP.nodeToComponentIndex_ g)))
             (cut v g (CNP.connectedComponents_ g)))).
Proof.
  intros Hidx Hc Hsz. unfold CNP.removeNode. rewrite Hidx.
  rewrite decide_False by lia. rewrite Nat2Z.id, Hc. by rewrite decide_True by done.
Qed.

Lemma removeNode_multi_eq g v c comp start rest :
  CNP.nodeToComponentIndex_ g !!! v = Z.of_nat c →
  CNP.connectedComponents_ g !! c = Some comp → 1 < CNP.size comp →
  filter (λ node, node ≠ v) (CNP.nodes comp) = start :: rest →
  CNP.removeNode v g
  = '(newComponent, g4) ←
      CNP.dfsFindComponent
        (cut v g (<[c := CNP.mkComponent (CNP.size comp - 1)
                           (filter (λ node, node ≠ v) (CNP.nodes comp))]>
                    (CNP.connectedComponents_ g))) start;
    if decide (CNP.size newComponent < CNP.size comp - 1) then
      '(g6, _) ← foldlM (CNP.split_step v) (CNP.nodes comp)
        (CNP.set_nodeToComponentIndex_
           (CNP.assign_all (Z.of_nat c) (CNP.nodes newComponent) (CNP.nodeToComponentIndex_ g4))
           (CNP.set_connectedPairs_
              (CNP.connectedPairs_ g4
               - Z.of_nat ((CNP.size comp - 1) * (CNP.size comp - 1 + 1) / 2)
               + CNP.pairs (CNP.size newComponent))%Z
              (CNP.set_connectedComponents_
                 (<[c := newComponent]> (CNP.connectedComponents_ g4)) g4)),
         CNP.assign_all true (CNP.nodes newComponent)
           (replicate (CNP.numNodes_ g) false));
      Ok g6
    else
      Ok (CNP.set_connectedPairs_
            (CNP.connectedPairs_ g4 - Z.of_nat (CNP.size newComponent))%Z g4).
Proof.
  intros Hidx Hc Hsz Hf. unfold CNP.removeNode. rewrite Hidx.
  rewrite decide_False by lia. rewrite Nat2Z.id.
  rewrite (list_lookup_total_correct _ _ _ Hc).
  rewrite decide_False by lia. rewrite decide_True by done.
  assert (Hfs : CNP.find_start v (CNP.nodes comp) = Z.of_nat start)
    by (unfold CNP.find_start; by rewrite Hf).
  rewrite Hfs. rewrite decide_False by lia. rewrite Nat2Z.id.
  cbv zeta. simpl.
  assert (Halt : alter (λ c0, CNP.mkComponent (CNP.size c0 - 1)
                          (filter (λ node, node ≠ v) (CNP.nodes c0))) c
                   (CNP.connectedComponents_ g)
                 = <[c := CNP.mkComponent (CNP.size comp - 1)
                            (filter (λ node, node ≠ v) (CNP.nodes comp))]>
                     (CNP.connectedComponents_ g)).
  { exact (alter_as_insert (λ c0, CNP.mkComponent (CNP.size c0 - 1)
                                   (filter (λ node, node ≠ v) (CNP.nodes c0)))
             _ c comp Hc). }
  rewrite Halt. rewrite list_lookup_total_insert_eq by (by eapply lookup_lt_Some).
  done.
Qed.

Lemma assign_all_id {A} `{!Inhabited A} (a : A) (l : list nat) (m : list A) :
  (∀ x, x ∈ l → x < length m ∧ m !!! x = a) → CNP.assign_all a l m = m.
Proof.
  unfold CNP.assign_all. induction l as [|x l IH]; intros Hl; simpl; [done|].
  destruct (Hl x) as [Hx Hm]; [by left|].
  rewrite list_insert_id; [apply IH; intros y Hy; apply Hl; by right|].
  rewrite <- Hm. by apply list_lookup_lookup_total_lt.
Qed.

Lemma cnp_removeNode_spec g v :
  CSpec.inv g → v < CNP.numNodes_ g → v ∉ CNP.removedNodes g →
  ∃ g' c comp,
    CNP.nodeToComponentIndex_ g !!! v = Z.of_nat c ∧
    CNP.connectedComponents_ g !! c = Some comp ∧
    CNP.removeNode v g = Ok g' ∧ CSpec.inv g' ∧
    CNP.numNodes_ g' = CNP.numNodes_ g ∧
    CNP.removedNodes g' = CNP.removedNodes g ∪ {[v]} ∧
    CNP.currentAdjList_ g'
    = CNP.elide_node (CNP.currentAdjList_ g) (CNP.currentAdjList_ g) v ∧
    CNP.originalAdjList_ g' = CNP.originalAdjList_ g ∧
    (CSpec.no_split g v →
     CNP.connectedPairs_ g' = (CNP.connectedPairs_ g - (Z.of_nat (CNP.size comp) - 1))%Z).
Proof.
  intros Hp Hv Hlive.
  destruct (inv_component g v Hp Hv Hlive)
    as (c & comp & Hidx & Hc & Hct & Hvc & Hsz & Hnd & Hcls).
  pose proof (CSpec.p_graph g ∅ Hp) as Hg.
  destruct (decide (CNP.size comp = 1)) as [H1|H1].
  { eexists _, c, comp. split; [done|]. split; [done|].
    split; [by apply (removeNode_single_eq g v c comp)|].
    split; [by apply (removeNode_single g v c comp)|].
    simpl. do 4 (split; [done|]). intros _. rewrite H1. lia. }
  assert (Hgt : 1 < CNP.size comp).
  { rewrite Hsz in *. destruct (CNP.nodes comp) as [|a [|b l]]; simpl in *; try lia.
    by apply elem_of_nil in Hvc. }
  pose proof (filter_ne_length (CNP.nodes comp) v Hnd Hvc) as Hfl.
  assert (HFin : ∀ x, x ∈ filter (λ node, node ≠ v) (CNP.nodes comp)
                      ↔ x ∈ CNP.nodes comp ∧ x ≠ v).
  { intros x. rewrite list_elem_of_filter. naive_solver. }
  assert (HFnd : NoDup (filter (λ node, node ≠ v) (CNP.nodes comp)))
    by (by apply NoDup_filter).
  destruct (filter (λ node, node ≠ v) (CNP.nodes comp)) as [|start rest] eqn:HF;
    [simpl in Hfl; lia|].
  rewrite (removeNode_multi_eq g v c comp start rest Hidx Hc Hgt HF). rewrite HF.
  set (F := start :: rest) in *.
  set (nc0 := CNP.mkComponent (CNP.size comp - 1) F).
  set (g3 := cut v g (<[c := nc0]> (CNP.connectedComponents_ g))).
  assert (Hg3 : CSpec.graph_ok g3) by (by apply cut_graph_ok).
  assert (Hmem : ∀ x, x ∈ CNP.nodes comp →
            x < CNP.numNodes_ g ∧ (x ∉ CNP.removedNodes g)).
  { intros x Hx. by destruct (pinv_member_comp g ∅ c comp x Hp Hc Hx) as (? & ? & _). }
  assert (Hstart : start ∈ CNP.nodes comp ∧ start ≠ v) by (apply HFin; by left).
  destruct Hstart as [Hstart Hstartv].
  destruct (Hmem start Hstart) as [Hsn0 Hsl0].
  assert (Hsn : start < CNP.numNodes_ g3) by done.
  assert (Hsl : start ∉ CNP.removedNodes g3) by (simpl; set_solver).
  destruct (dfsFindComponent_spec g3 start Hg3 Hsn Hsl)
    as (acc & epochs & Hdfs & Hnda & Hacc & Hs).
  rewrite Hdfs. cbn [mbind result_bind].
  assert (HaccF : ∀ x, x ∈ acc → x ∈ F).
  { intros x Hx. apply HFin. apply Hacc in Hx. split.
    - apply Hcls. etransitivity; [apply Hcls, Hstart|].
      eapply cut_reach_old; [exact Hg | exact Hv | exact Hsn | exact Hx].
    - pose proof (reach_live g3 start x Hg3 Hsn Hsl Hx) as Hxl. simpl in Hxl. set_solver. }
  assert (Hle : length acc ≤ length F).
  { apply submseteq_length, NoDup_submseteq; done. }
  assert (Hsacc : start ∈ acc) by (apply Hacc; apply rtc_refl).
  assert (Hclass : ∀ x y, x ∈ acc →
            (y ∈ acc ↔ CSpec.reach (CNP.elide_node (CNP.currentAdjList_ g)
                                      (CNP.currentAdjList_ g) v) x y)).
  { intros x y Hx. apply Hacc in Hx. rewrite Hacc. split.
    - intros Hy. etransitivity; [|exact Hy]. by apply (reach_sym g3).
    - intros Hy. etransitivity; [exact Hx | exact Hy]. }
  assert (Hfull : CSpec.no_split g v → ∀ x, x ∈ F → x ∈ acc).
  { intros Hns x [Hxc Hxv]%HFin. apply Hacc. simpl.
    apply Hns; [done | done | by apply Hcls | by apply Hcls]. }
  change (CNP.size {| CNP.size := length acc; CNP.nodes := acc |}) with (length acc).
  change (CNP.nodes {| CNP.size := length acc; CNP.nodes := acc |}) with acc.
  destruct (decide (length acc < CNP.size comp - 1)) as [Hsplit|Hnosplit].
  - set (nc := CNP.mkComponent (length acc) acc).
    set (cp' := (CNP.connectedPairs_ g
                 - Z.of_nat ((CNP.size comp - 1) * (CNP.size comp - 1 + 1) / 2)
                 + CNP.pairs (length acc))%Z).
    set (P5 := list_to_set F ∖ list_to_set acc : gset nat).
    assert (Hp5 : CSpec.pinv
              (CNP.set_connectedPairs_ cp'
                 (CNP.set_dfs epochs (CNP.dfsCurrentEpoch_ g + 1)%Z
                    (cut v g (<[c := nc]> (CNP.connectedComponents_ g))))) P5).
    { apply (remove_replace g v c comp nc P5 cp' epochs (CNP.dfsCurrentEpoch_ g + 1)%Z
               (<[c := nc0]> (CNP.connectedComponents_ g)) Hp Hv Hc Hvc).
      - done.
      - done.
      - intros Hnil. simpl in Hnil. rewrite Hnil in Hsacc. by apply elem_of_nil in Hsacc.
      - intros x Hx. by apply HFin, HaccF.
      - exact Hclass.
      - intros x. unfold P5. rewrite elem_of_difference, !elem_of_list_to_set, HFin.
        simpl. tauto.
      - unfold cp'. rewrite pairs_triangle.
        by replace (S (CNP.size comp - 1)) with (CNP.size comp) by lia.
      - exact Hs. }
    match goal with |- context [foldlM _ _ (?g5, _)] =>
      assert (Hg5 : g5 = CNP.set_connectedPairs_ cp'
                (CNP.set_dfs epochs (CNP.dfsCurrentEpoch_ g + 1)%Z
                   (cut v g (<[c := nc]> (CNP.connectedComponents_ g)))))
    end.
    { assert (Hn2c1 : CNP.assign_all (Z.of_nat c) acc
                        (<[v := (-1)%Z]> (CNP.nodeToComponentIndex_ g))
                      = <[v := (-1)%Z]> (CNP.nodeToComponentIndex_ g)).
      { apply assign_all_id. intros x Hx. rewrite length_insert.
        destruct (HFin x) as [Hin _]. destruct (Hin (HaccF x Hx)) as [Hxc Hxv].
        destruct (pinv_member_comp g ∅ c comp x Hp Hc Hxc) as (Hxn & _ & _ & Hxi).
        rewrite (CSpec.s_n2c_len g (CSpec.g_static g Hg)). split; [done|].
        by rewrite list_lookup_total_insert_ne. }
      unfold g3, cp'. simpl. rewrite Hn2c1, list_insert_insert_eq. reflexivity. }
    rewrite Hg5.
    destruct (split_loop v (CNP.nodes comp) _ P5
                (CNP.assign_all true acc (replicate (CNP.numNodes_ g) false)) Hp5)
      as (g' & P' & vis' & Hfold & Hp' & Hsub & Hdone & Hn' & Hr' & Hcur' & Ho').
    + by rewrite assign_all_length, length_replicate.
    + intros x Hx Hxv. destruct (Hmem x Hx) as [Hxn _]. split; [done|].
      rewrite assign_all_lookup by (by rewrite length_replicate).
      destruct (decide (x ∈ acc)) as [Hin|Hnin].
      * split; [|done]. intros _. unfold P5. set_solver.
      * rewrite lookup_total_replicate_2 by done. split; [done|].
        intros HxP. exfalso. apply HxP. unfold P5. apply elem_of_difference.
        rewrite !elem_of_list_to_set. split; [by apply HFin | done].
    + rewrite Hfold. cbn [mbind result_bind].
      exists g', c, comp. split; [done|]. split; [done|]. split; [done|]. split.
      { assert (P' = ∅) as ->; [|done]. apply elem_of_equiv_empty_L. intros x HxP'.
        assert (HxP : x ∈ P5) by set_solver. unfold P5 in HxP.
        apply elem_of_difference in HxP as [HxF _].
        apply elem_of_list_to_set, HFin in HxF as [? ?]. by apply (Hdone x). }
      simpl in Hn', Hr', Hcur', Ho'. do 4 (split; [done|]).
      intros Hns. exfalso.
      assert (length F ≤ length acc)
        by (apply submseteq_length, NoDup_submseteq; [done | by apply Hfull]).
      lia.
  - eexists _, c, comp. split; [done|]. split; [done|]. split; [done|].
    assert (Hlen : length acc = CNP.size comp - 1) by lia.
    assert (HFacc : ∀ x, x ∈ F → x ∈ acc)
      by (apply nodup_full; [done | done | done | lia]).
    split.
    { apply (remove_replace g v c comp nc0 ∅ _ epochs (CNP.dfsCurrentEpoch_ g + 1)%Z
               (<[c := nc0]> (CNP.connectedComponents_ g)) Hp Hv Hc Hvc).
      - unfold nc0. cbn [CNP.size CNP.nodes]. lia.
      - done.
      - done.
      - intros x Hx. by apply HFin.
      - intros x y Hx. simpl in Hx |- *. rewrite <- (Hclass x y) by (by apply HFacc).
        split; [apply HFacc | apply HaccF].
      - intros x. split; [set_solver|]. intros (Hxc & Hxv & Hn). exfalso.
        apply Hn. simpl. by apply HFin.
      - simpl. replace (CNP.size comp) with (S (CNP.size comp - 1)) at 1 by lia.
        rewrite pairs_succ. lia.
      - exact Hs. }
    simpl. do 4 (split; [done|]). intros _. lia.
Qed.

(** ** CNP: add *)

(** *** The loop that restores the edges of the vertex *)

Lemma restore_fold v (n2c : list Z) (l : list nat) :
  ∀ (cur : list (gset nat)) (ci : Z),
  v < length cur → (∀ x, x ∈ l → x < length cur ∧ x ≠ v) →
  ∃ cur' ci',
    foldl (CNP.restore_edges v n2c) (cur, ci) l = (cur', ci') ∧
    length cur' = length cur ∧
    (∀ u, u < length cur →
       cur' !!! u =
       if decide (u = v)
       then cur !!! v ∪ list_to_set (filter (λ x, n2c !!! x ≠ (-1)%Z) l)
       else if decide (u ∈ l ∧ n2c !!! u ≠ (-1)%Z) then cur !!! u ∪ {[v]}
       else cur !!! u) ∧
    (ci ≠ (-1)%Z → ci' = ci) ∧
    (ci = (-1)%Z →
       (ci' = (-1)%Z ∧ ∀ x, x ∈ l → n2c !!! x = (-1)%Z) ∨
       (∃ x, x ∈ l ∧ n2c !!! x ≠ (-1)%Z ∧ ci' = n2c !!! x)).
Proof.
  induction l as [|x l IH]; intros cur ci Hv Hl.
  { exists cur, ci. split; [done|]. split; [done|]. split.
    - intros u Hu. destruct (decide (u = v)) as [->|Hne].
      + rewrite filter_nil. set_solver.
      + rewrite decide_False; [done|]. intros [[]%elem_of_nil _].
    - split; [done|]. intros ->. left. split; [done|]. by intros x []%elem_of_nil. }
  destruct (Hl x) as [Hx Hxv]; [by left|].
  assert (Hl' : ∀ y, y ∈ l → y < length cur ∧ y ≠ v) by (intros y Hy; apply Hl; by right).
  cbn [foldl]. unfold CNP.restore_edges at 2.
  destruct (decide (n2c !!! x = (-1)%Z)) as [Hdead|Halive].
  - rewrite bool_decide_eq_false_2 by (intros ?; done).
    destruct (IH cur ci Hv Hl') as (cur' & ci' & Hfold & Hlen & Hk & Hkeep & Hfirst).
    exists cur', ci'. split; [done|]. split; [done|]. split; [|split].
    + intros u Hu. rewrite Hk by done. rewrite filter_cons_False by (intros ?; done).
      destruct (decide (u = v)); [done|].
      destruct (decide (u ∈ l ∧ n2c !!! u ≠ (-1)%Z)) as [[? ?]|Hn].
      * rewrite decide_True; [done|]. split; [by right | done].
      * rewrite decide_False; [done|]. intros [[->|?]%elem_of_cons ?]; [done|]. by apply Hn.
    + done.
    + intros Hci. destruct (Hfirst Hci) as [[? Hall]|(y & Hy & ? & ?)].
      * left. split; [done|]. intros y [->|Hy]%elem_of_cons; [done | by apply Hall].
      * right. exists y. split; [by right | done].
  - rewrite bool_decide_eq_true_2 by done.
    set (cur1 := <[v := cur !!! v ∪ {[x]}]> cur).
    set (cur2 := <[x := cur1 !!! x ∪ {[v]}]> cur1).
    set (ci2 := if decide (ci = (-1)%Z) then n2c !!! x else ci).
    assert (Hlen2 : length cur2 = length cur) by (unfold cur2, cur1; by rewrite !length_insert).
    destruct (IH cur2 ci2) as (cur' & ci' & Hfold & Hlen & Hk & Hkeep & Hfirst).
    { by rewrite Hlen2. }
    { intros y Hy. rewrite Hlen2. by apply Hl'. }
    exists cur', ci'. split; [done|]. split; [lia|]. split; [|split].
    + intros u Hu. rewrite Hk by lia. rewrite filter_cons_True by done.
      assert (H2v : cur2 !!! v = cur !!! v ∪ {[x]}).
      { unfold cur2, cur1. rewrite list_lookup_total_insert_ne by done.
        by rewrite list_lookup_total_insert_eq. }
      assert (H2x : cur2 !!! x = cur !!! x ∪ {[v]}).
      { unfold cur2, cur1. rewrite list_lookup_total_insert_eq by (by rewrite length_insert).
        by rewrite list_lookup_total_insert_ne. }
      assert (H2o : u ≠ v → u ≠ x → cur2 !!! u = cur !!! u).
      { intros ? ?. unfold cur2, cur1. by rewrite !list_lookup_total_insert_ne. }
      destruct (decide (u = v)) as [->|Huv].
      { rewrite H2v. set_solver. }
      destruct (decide (u = x)) as [->|Hux].
      { rewrite H2x. rewrite (decide_True (P := x ∈ x :: l ∧ _)) by (split; [by left | done]).
        destruct (decide (x ∈ l ∧ n2c !!! x ≠ (-1)%Z)); set_solver. }
      rewrite H2o by done.
      destruct (decide (u ∈ l ∧ n2c !!! u ≠ (-1)%Z)) as [[? ?]|Hn].
      * rewrite decide_True; [done|]. split; [by right | done].
      * rewrite decide_False; [done|]. intros [[->|?]%elem_of_cons ?]; [done|]. by apply Hn.
    + intros Hci. rewrite Hkeep; unfold ci2; by rewrite decide_False.
    + intros Hci. right. unfold ci2 in *. rewrite decide_True in Hkeep, Hfirst by done.
      exists x. split; [by left|]. split; [done|]. by apply Hkeep.
Qed.

Lemma elided_unique (A B B' : list (gset nat)) (T : gset nat) :
  elided A B T → elided A B' T → B = B'.
Proof.
  intros [Hl Hk] [Hl' Hk']. apply list_eq. intros i.
  destruct (decide (i < length A)) as [Hlt|Hge].
  - rewrite (list_lookup_lookup_total_lt B i), (list_lookup_lookup_total_lt B' i) by lia.
    by rewrite Hk, Hk'.
  - by rewrite !lookup_ge_None_2 by lia.
Qed.

(** Under the invariant the mapping tells the removed vertices apart. *)
Lemma inv_mapping_removed g x :
  CSpec.inv g → x < CNP.numNodes_ g →
  CNP.nodeToComponentIndex_ g !!! x = (-1)%Z ↔ x ∈ CNP.removedNodes g.
Proof.
  intros Hp Hx. split.
  - intros Hm. destruct (decide (x ∈ CNP.removedNodes g)) as [|Hl]; [done|].
    destruct (CSpec.p_live g ∅ Hp x Hx Hl) as (c & ? & Hc & _); [set_solver | lia].
  - by apply (CSpec.p_removed g ∅ Hp).
Qed.

Lemma restore_spec g v :
  CSpec.inv g → v < CNP.numNodes_ g → v ∈ CNP.removedNodes g →
  ∃ cur' ci,
    foldl (CNP.restore_edges v (CNP.nodeToComponentIndex_ g))
      (CNP.currentAdjList_ g, (-1)%Z) (elements (CNP.originalAdjList_ g !!! v)) = (cur', ci) ∧
    CSpec.graph_ok (rejoin v cur' g) ∧
    CNP.currentAdjList_ g = CNP.elide_node cur' cur' v ∧
    ((ci = (-1)%Z ∧ cur' !!! v = ∅) ∨
     (∃ nb c comp, ci = Z.of_nat c ∧ CNP.connectedComponents_ g !! c = Some comp ∧
                   nb ∈ CNP.nodes comp ∧ nb ∈ cur' !!! v)).
Proof.
  intros Hp Hv Hrem.
  pose proof (CSpec.p_graph g ∅ Hp) as Hg.
  pose proof Hg as [[Hnodes [Hlo Hsym] Hirr Hn2c Hep Hle Hpos] [Hlc Hcur] Hremr].
  destruct (restore_fold v (CNP.nodeToComponentIndex_ g)
              (elements (CNP.originalAdjList_ g !!! v)) (CNP.currentAdjList_ g) (-1)%Z)
    as (cur' & ci & Hfold & Hlen & Hk & _ & Hfirst).
  { lia. }
  { intros x Hx%elem_of_elements. destruct (Hsym v x Hv Hx) as [Hxn _].
    split; [lia|]. intros ->. by apply (Hirr v). }
  assert (Hel : elided (CNP.originalAdjList_ g) cur' (CNP.removedNodes g ∖ {[v]})).
  { split; [lia|]. intros u Hu. rewrite Hk by lia. rewrite !Hcur by lia.
    destruct (decide (u = v)) as [->|Huv].
    - rewrite decide_True by done. rewrite decide_False by set_solver.
      apply set_eq. intros x.
      rewrite elem_of_union, elem_of_list_to_set, list_elem_of_filter, elem_of_elements,
        elem_of_difference, elem_of_difference, elem_of_singleton.
      split.
      + intros [[]%elem_of_empty | [Hx Hxo]]. destruct (Hsym v x Hv Hxo) as [Hxn _].
        split; [done|]. intros [Hxr _]. by apply Hx, (inv_mapping_removed g x Hp Hxn).
      + intros [Hxo Hxr]. right. destruct (Hsym v x Hv Hxo) as [Hxn _].
        split; [|done]. rewrite (inv_mapping_removed g x Hp Hxn).
        intros Hxr'. apply Hxr. split; [done|]. intros ->. by apply (Hirr v).
    - assert (Hun : u < CNP.numNodes_ g) by lia.
      destruct (decide (u ∈ CNP.removedNodes g)) as [Hur|Hur].
      + rewrite decide_False.
        * rewrite decide_True by set_solver. done.
        * intros [_ Hm]. by apply Hm, (inv_mapping_removed g u Hp Hun).
      + rewrite (decide_False (P := u ∈ CNP.removedNodes g ∖ {[v]})) by set_solver.
        destruct (decide (u ∈ elements (CNP.originalAdjList_ g !!! v) ∧
                          CNP.nodeToComponentIndex_ g !!! u ≠ (-1)%Z)) as [[Huo _]|Hn].
        * apply elem_of_elements in Huo. destruct (Hsym v u Hv Huo) as [_ Hvu].
          apply set_eq. intros x. destruct (decide (x = v)) as [->|]; set_solver.
        * assert (v ∉ CNP.originalAdjList_ g !!! u).
          { intros Hvu. apply Hn. destruct (Hsym u v Hun Hvu) as [_ Huv'].
            split; [by apply elem_of_elements|].
            by rewrite (inv_mapping_removed g u Hp Hun). }
          set_solver. }
  exists cur', ci. split; [done|].
  assert (HgN : CSpec.graph_ok (rejoin v cur' g)).
  { split; [split; simpl; done | done |]. simpl. intros x Hx. apply Hremr. set_solver. }
  split; [done|]. split.
  - apply (elided_unique (CNP.originalAdjList_ g) _ _ (CNP.removedNodes g)); [done|].
    assert (Hset : CNP.removedNodes g ∖ {[v]} ∪ {[v]} = CNP.removedNodes g).
    { apply set_eq. intros x. destruct (decide (x = v)) as [->|]; set_solver. }
    pose proof (elided_remove (CNP.numNodes_ g) (CNP.originalAdjList_ g) cur'
                  (CNP.removedNodes g ∖ {[v]}) v (conj Hlo Hsym) Hv Hel) as Hel'.
    by rewrite Hset in Hel'.
  - assert (Hkv : cur' !!! v = CNP.currentAdjList_ g !!! v ∪
                    list_to_set (filter (λ x, CNP.nodeToComponentIndex_ g !!! x ≠ (-1)%Z)
                                   (elements (CNP.originalAdjList_ g !!! v)))).
    { rewrite Hk by lia. by rewrite decide_True. }
    assert (Hcv : CNP.currentAdjList_ g !!! v = ∅).
    { rewrite Hcur by lia. by rewrite decide_True. }
    destruct Hfirst as [[-> Hall]|(nb & Hnb & Hal & ->)]; [done| |].
    + left. split; [done|]. rewrite Hkv, Hcv. apply set_eq. intros x.
      rewrite elem_of_union, elem_of_list_to_set, list_elem_of_filter. set_solver.
    + right. pose proof Hnb as Hnbo%elem_of_elements.
      destruct (Hsym v nb Hv Hnbo) as [Hnbn _].
      assert (Hnbl : nb ∉ CNP.removedNodes g).
      { intros Hr. by apply Hal, (inv_mapping_removed g nb Hp Hnbn). }
      destruct (CSpec.p_live g ∅ Hp nb Hnbn Hnbl) as (c & comp & Hc & Hcc & Hin);
        [set_solver|].
      exists nb, c, comp. split; [done|]. split; [done|]. split; [done|].
      rewrite Hkv. apply elem_of_union_r, elem_of_list_to_set, list_elem_of_filter. done.
Qed.

(** *** The old graph inside the new one *)

Lemma rejoin_reach_old g v cur' u w :
  CSpec.graph_ok (rejoin v cur' g) → v < CNP.numNodes_ g → u < CNP.numNodes_ g →
  CNP.currentAdjList_ g = CNP.elide_node cur' cur' v →
  CSpec.reach (CNP.currentAdjList_ g) u w → CSpec.reach cur' u w.
Proof.
  intros HgN Hv Hu Heq Hr. rewrite Heq in Hr.
  exact (cut_reach_old v (rejoin v cur' g) [] u w HgN Hv Hu Hr).
Qed.

Lemma rejoin_reach_other g v cur' u w :
  CSpec.graph_ok (rejoin v cur' g) → v < CNP.numNodes_ g → u < CNP.numNodes_ g →
  CNP.currentAdjList_ g = CNP.elide_node cur' cur' v →
  ¬ CSpec.reach cur' u v →
  CSpec.reach cur' u w ↔ CSpec.reach (CNP.currentAdjList_ g) u w.
Proof.
  intros HgN Hv Hu Heq Hnot. rewrite Heq. symmetry.
  exact (cut_reach_other v (rejoin v cur' g) [] u w HgN Hv Hu Hnot).
Qed.

(** *** Rebuilding the component structure around the class of [v] *)

Lemma add_rebuild g v cur' (N : list nat) nc comps' (n2c' : list Z) idxN cp' epochs epoch :
  CSpec.inv g → v < CNP.numNodes_ g → v ∈ CNP.removedNodes g →
  CSpec.graph_ok (rejoin v cur' g) →
  CNP.currentAdjList_ g = CNP.elide_node cur' cur' v →
  (∀ x, x ∈ N ↔ CSpec.reach cur' v x) →
  CNP.size nc = length (CNP.nodes nc) → NoDup (CNP.nodes nc) →
  (∀ x, x ∈ CNP.nodes nc ↔ x ∈ N) →
  length n2c' = CNP.numNodes_ g →
  comps' !! idxN = Some nc →
  (∀ x, x ∈ N → n2c' !!! x = Z.of_nat idxN) →
  (∀ co comp', CNP.connectedComponents_ g !! co = Some comp' →
     (∀ x, x ∈ CNP.nodes comp' → x ∉ N) →
     ∃ i, comps' !! i = Some comp' ∧ ∀ x, x ∈ CNP.nodes comp' → n2c' !!! x = Z.of_nat i) →
  (∀ i c', comps' !! i = Some c' →
     i = idxN ∨
     ∃ co, CNP.connectedComponents_ g !! co = Some c' ∧
           (∀ x, x ∈ CNP.nodes c' → x ∉ N) ∧
           ∀ x, x ∈ CNP.nodes c' → n2c' !!! x = Z.of_nat i) →
  (∀ x, x < CNP.numNodes_ g → x ∈ CNP.removedNodes g → x ≠ v → n2c' !!! x = (-1)%Z) →
  cp' = CSpec.comp_pairs comps' →
  length epochs = CNP.numNodes_ g →
  (∀ x, x < CNP.numNodes_ g → (epochs !!! x ≤ epoch)%Z) → (0 ≤ epoch)%Z →
  CSpec.inv
    (CNP.set_connectedPairs_ cp'
       (CNP.set_nodeToComponentIndex_ n2c'
          (CNP.set_connectedComponents_ comps'
             (CNP.set_dfs epochs epoch (rejoin v cur' g))))).
Proof.
  intros Hp Hv Hrem HgN Heq HN Hsz Hnd Hnc Hlen HidxN HnN Hkeep Hall Hdead -> Hel Hele Hepos.
  pose proof (CSpec.p_graph g ∅ Hp) as Hg.
  assert (HvN : v ∈ N) by (apply HN; apply rtc_refl).
  assert (Hvl : v ∉ CNP.removedNodes (rejoin v cur' g)) by (simpl; set_solver).
  assert (Hdich : ∀ co comp' x y, CNP.connectedComponents_ g !! co = Some comp' →
            x ∈ CNP.nodes comp' → y ∈ CNP.nodes comp' → x ∈ N → y ∈ N).
  { intros co comp' x y Hco Hx Hy HxN. apply HN. etransitivity; [by apply HN|].
    destruct (pinv_member_comp g ∅ co comp' x Hp Hco Hx) as (Hxn & _).
    apply (rejoin_reach_old g v cur' x y HgN Hv Hxn Heq).
    by apply (CSpec.p_class g ∅ Hp co comp' x y Hco Hx). }
  split.
  - destruct HgN as [[? ? ? ? ? ? ?] ? ?]. split; [by split | done | done].
  - intros x Hx. set_solver.
  - simpl. intros x Hxn Hx. apply Hdead; [done | set_solver | set_solver].
  - simpl. intros x Hxn Hx _. destruct (decide (x ∈ N)) as [HxN|HxN].
    + exists idxN, nc. split; [by apply HnN|]. split; [done | by apply Hnc].
    + assert (Hxv : x ≠ v) by (by intros ->).
      destruct (CSpec.p_live g ∅ Hp x Hxn) as (co & comp' & _ & Hco & Hxc);
        [set_solver | set_solver |].
      destruct (Hkeep co comp' Hco) as (i & Hi & Hidx).
      { intros y Hy HyN. apply HxN. by apply (Hdich co comp' y x). }
      exists i, comp'. split; [by apply Hidx|]. done.
  - simpl. intros i c' Hi. destruct (Hall i c' Hi) as [->|(co & Hco & Hdisj & Hidx)].
    + assert (c' = nc) as -> by congruence.
      split; [done|]. split; [done|]. split.
      { intros Hnil. apply Hnc in HvN. rewrite Hnil in HvN. by apply elem_of_nil in HvN. }
      intros x Hx%Hnc. pose proof Hx as Hxr%HN.
      split; [by apply (reach_range (rejoin v cur' g) v x HgN Hv)|].
      split; [by apply (reach_live (rejoin v cur' g) v x HgN Hv Hvl)|].
      split; [set_solver | by apply HnN].
    + destruct (CSpec.p_comp g ∅ Hp co c' Hco) as (? & ? & ? & Hmem).
      do 3 (split; [done|]). intros x Hx. destruct (Hmem x Hx) as (? & ? & _ & _).
      split; [done|]. split; [set_solver|]. split; [set_solver | by apply Hidx].
  - simpl. intros i c' u w Hi Hu.
    destruct (Hall i c' Hi) as [->|(co & Hco & Hdisj & Hidx)].
    + assert (c' = nc) as -> by congruence.
      rewrite Hnc, HN. apply Hnc, HN in Hu. split.
      * intros Hw. etransitivity; [|exact Hw].
        by apply (reach_sym (rejoin v cur' g) v u HgN Hv).
      * intros Hw. by etransitivity.
    + destruct (pinv_member_comp g ∅ co c' u Hp Hco Hu) as (Hun & _).
      rewrite (CSpec.p_class g ∅ Hp co c' u w Hco Hu). symmetry.
      apply (rejoin_reach_other g v cur' u w HgN Hv Hun Heq).
      intros Huv. apply (Hdisj u Hu), HN.
      by apply (reach_sym (rejoin v cur' g) u v HgN Hun).
  - done.
Qed.

(** *** The ordered set of component indices to merge *)

Lemma increasing_weaken lo lo' s : (lo' ≤ lo)%Z → increasing lo s → increasing lo' s.
Proof. destruct s as [|y s]; simpl; [done|]. intros ? [? ?]. split; [lia | done]. Qed.

Lemma increasing_above lo s x : increasing lo s → x ∈ s → (lo < x)%Z.
Proof.
  revert lo. induction s as [|y s IH]; intros lo Hs Hx; [by apply elem_of_nil in Hx|].
  destruct Hs as [Hlo Hs]. apply elem_of_cons in Hx as [->|Hx]; [done|].
  specialize (IH y Hs Hx). lia.
Qed.

Lemma set_insert_spec x s lo :
  increasing lo s → (lo < x)%Z →
  increasing lo (CNP.set_insert x s) ∧ ∀ y, y ∈ CNP.set_insert x s ↔ y = x ∨ y ∈ s.
Proof.
  revert lo. induction s as [|a s IH]; intros lo Hs Hx; simpl.
  { split; [done|]. intros y. rewrite list_elem_of_singleton. set_solver. }
  destruct Hs as [Hlo Hs].
  destruct (decide (x < a)%Z) as [Hlt|Hge].
  { split; [simpl; done|]. intros y. rewrite elem_of_cons. tauto. }
  destruct (decide (x = a)) as [->|Hne].
  { split; [simpl; done|]. intros y. rewrite elem_of_cons. tauto. }
  destruct (IH a Hs) as [Hinc Hel]; [lia|].
  split; [simpl; done|]. intros y. rewrite !elem_of_cons, Hel. tauto.
Qed.

Lemma merge_set_spec (n2c1 : list Z) (acc : list nat) :
  (∀ x, x ∈ acc → (-1 ≤ n2c1 !!! x)%Z) →
  ∀ s, increasing (-1) s →
  increasing (-1)
    (foldl (λ s node, if bool_decide (n2c1 !!! node ≠ (-1)%Z)
                      then CNP.set_insert (n2c1 !!! node) s else s) s acc) ∧
  ∀ y, y ∈ foldl (λ s node, if bool_decide (n2c1 !!! node ≠ (-1)%Z)
                            then CNP.set_insert (n2c1 !!! node) s else s) s acc
       ↔ y ∈ s ∨ ∃ x, x ∈ acc ∧ n2c1 !!! x = y ∧ y ≠ (-1)%Z.
Proof.
  induction acc as [|a acc IH]; intros Hacc s Hs; simpl.
  { split; [done|]. intros y. split; [by left|].
    intros [?|(x & []%elem_of_nil & _)]. done. }
  assert (Hacc' : ∀ x, x ∈ acc → (-1 ≤ n2c1 !!! x)%Z) by (intros x Hx; apply Hacc; by right).
  destruct (decide (n2c1 !!! a = (-1)%Z)) as [Hd|Hl].
  - rewrite bool_decide_eq_false_2 by (intros ?; done).
    destruct (IH Hacc' s Hs) as [Hinc Hel]. split; [done|]. intros y. rewrite Hel.
    split; [intros [?|(x & Hx & ? & ?)]; [by left | right; exists x; split; [by right|done]]|].
    intros [?|(x & [->|Hx]%elem_of_cons & Hxy & Hy)]; [by left | congruence |].
    right. by exists x.
  - rewrite bool_decide_eq_true_2 by done.
    destruct (set_insert_spec (n2c1 !!! a) s (-1) Hs) as [Hinc1 Hel1].
    { specialize (Hacc a). assert (-1 ≤ n2c1 !!! a)%Z by (apply Hacc; by left). lia. }
    destruct (IH Hacc' _ Hinc1) as [Hinc Hel]. split; [done|]. intros y.
    rewrite Hel, Hel1. split.
    + intros [[->|?]|(x & Hx & ? & ?)]; [|by left|].
      * right. exists a. split; [by left | done].
      * right. exists x. split; [by right | done].
    + intros [?|(x & [->|Hx]%elem_of_cons & Hxy & Hy)]; [by left; right | by left; left |].
      right. by exists x.
Qed.

(** *** The index mapping *)

Lemma cnt_cons m ms i :
  cnt (m :: ms) i = (if decide (m < Z.of_nat i)%Z then 1 else 0) + cnt ms i.
Proof.
  unfold cnt. destruct (decide (m < Z.of_nat i)%Z).
  - by rewrite filter_cons_True.
  - by rewrite filter_cons_False.
Qed.

Lemma cnt_none ms i : (∀ m, m ∈ ms → (Z.of_nat i ≤ m)%Z) → cnt ms i = 0.
Proof.
  induction ms as [|m ms IH]; intros Hms; [done|]. rewrite cnt_cons, IH.
  - rewrite decide_False; [done|]. assert (Z.of_nat i ≤ m)%Z by (apply Hms; by left). lia.
  - intros y Hy. apply Hms. by right.
Qed.

(** Between [lo] and [j] there is room for at most [j - lo - 1] entries. *)
Lemma cnt_bound ms :
  ∀ lo j, increasing lo ms → (lo < Z.of_nat j)%Z →
  (Z.of_nat (cnt ms j) ≤ Z.of_nat j - lo - 1)%Z.
Proof.
  induction ms as [|m ms IH]; intros lo j Hinc Hlo; [unfold cnt; simpl; lia|].
  destruct Hinc as [Hm Hinc]. rewrite cnt_cons.
  destruct (decide (m < Z.of_nat j)%Z) as [Hlt|Hge].
  - specialize (IH m j Hinc Hlt). lia.
  - rewrite cnt_none; [simpl; lia|].
    intros y Hy. pose proof (increasing_above m ms y Hinc Hy). lia.
Qed.

Lemma lookup_total_imap {A} `{!Inhabited A} (f : nat → A → A) (l : list A) (i : nat) :
  i < length l → imap f l !!! i = f i (l !!! i).
Proof.
  intros Hi. apply list_lookup_total_correct. rewrite list_lookup_imap.
  by rewrite (list_lookup_lookup_total_lt l i Hi).
Qed.

Lemma shift_fold ms :
  ∀ im : list Z,
  length (foldl CNP.shift_down im ms) = length im ∧
  ∀ i, i < length im →
    foldl CNP.shift_down im ms !!! i = (im !!! i - Z.of_nat (cnt ms i))%Z.
Proof.
  induction ms as [|m ms IH]; intros im; simpl.
  { split; [done|]. intros i _. unfold cnt. simpl. lia. }
  destruct (IH (CNP.shift_down im m)) as [Hlen Hk].
  assert (Hls : length (CNP.shift_down im m) = length im)
    by (unfold CNP.shift_down; by rewrite length_imap).
  rewrite Hls in Hlen, Hk.
  split; [done|]. intros i Hi. rewrite (Hk i Hi).
  unfold CNP.shift_down. rewrite lookup_total_imap by done. rewrite cnt_cons.
  destruct (decide (m + 1 ≤ Z.of_nat i)%Z), (decide (m < Z.of_nat i)%Z); lia.
Qed.

Lemma remap_fold (im : list Z) (l : list nat) :
  ∀ n2c : list Z, NoDup l → (∀ x, x ∈ l → x < length n2c) →
  length (foldl (CNP.remap im) n2c l) = length n2c ∧
  ∀ x, x < length n2c →
    foldl (CNP.remap im) n2c l !!! x
    = if decide (x ∈ l ∧ n2c !!! x ≠ (-1)%Z) then im !!! Z.to_nat (n2c !!! x)
      else n2c !!! x.
Proof.
  induction l as [|a l IH]; intros n2c Hnd Hl; cbn [foldl].
  { split; [done|]. intros x _. rewrite decide_False; [done|]. by intros [[]%elem_of_nil _]. }
  apply NoDup_cons in Hnd as [Ha Hnd].
  assert (Haa : a < length n2c) by (apply Hl; by left).
  assert (Hlenr : length (CNP.remap im n2c a) = length n2c).
  { unfold CNP.remap. destruct (bool_decide _); [by rewrite length_insert | done]. }
  destruct (IH (CNP.remap im n2c a) Hnd) as [Hlen Hk].
  { intros x Hx. rewrite Hlenr. apply Hl. by right. }
  rewrite Hlenr in Hlen, Hk. split; [done|]. intros x Hx. rewrite Hk by done.
  destruct (decide (x = a)) as [->|Hne].
  - rewrite (decide_False (P := a ∈ l ∧ _)) by (by intros [? _]).
    unfold CNP.remap. destruct (decide (n2c !!! a = (-1)%Z)) as [Hd|Hal].
    + rewrite bool_decide_eq_false_2 by (intros ?; done).
      rewrite decide_False; [done|]. by intros [_ ?].
    + rewrite bool_decide_eq_true_2 by done. rewrite list_lookup_total_insert_eq by done.
      rewrite decide_True; [done|]. split; [by left | done].
  - assert (Hsame : CNP.remap im n2c a !!! x = n2c !!! x).
    { unfold CNP.remap. destruct (bool_decide _); [|done].
      by rewrite list_lookup_total_insert_ne. }
    rewrite Hsame.
    destruct (decide (x ∈ l ∧ n2c !!! x ≠ (-1)%Z)) as [[? ?]|Hn].
    + rewrite decide_True; [done|]. split; [by right | done].
    + rewrite decide_False; [done|]. intros [[->|?]%elem_of_cons ?]; [done|]. by apply Hn.
Qed.

(** *** Erasing the merged components, largest index first *)

Lemma drop_fold (l : list CNP.Component) (ms : list Z) :
  ∀ lo, (-1 ≤ lo)%Z → increasing lo ms →
  (∀ m, m ∈ ms → (m < Z.of_nat (length l))%Z) →
  ∀ cp : Z,
  ∃ D,
    foldl CNP.drop_merged (cp, l) (reverse ms)
    = ((cp - CSpec.comp_pairs l + CSpec.comp_pairs D)%Z, D) ∧
    (∀ j, j < length l → Z.of_nat j ∉ ms → D !! (j - cnt ms j) = l !! j) ∧
    (∀ i x, D !! i = Some x →
       ∃ j, l !! j = Some x ∧ Z.of_nat j ∉ ms ∧ i = j - cnt ms j).
Proof.
  induction ms as [|m ms IH]; intros lo Hlo Hinc Hrange cp.
  { exists l. split; [simpl; f_equal; lia|]. split.
    - intros j _ _. unfold cnt. simpl. by rewrite Nat.sub_0_r.
    - intros i x Hi. exists i. split; [done|]. split; [apply not_elem_of_nil|].
      unfold cnt. simpl. lia. }
  destruct Hinc as [Hm Hinc].
  destruct (IH m) with (cp := cp) as (D' & Hfold & P1 & P2); [lia | done | |].
  { intros y Hy. apply Hrange. by right. }
  rewrite reverse_cons, foldl_app, Hfold. cbn [foldl CNP.drop_merged].
  set (mn := Z.to_nat m).
  assert (Hmn : Z.of_nat mn = m) by (unfold mn; lia).
  assert (Hmnl : mn < length l).
  { assert (m < Z.of_nat (length l))%Z by (apply Hrange; by left). lia. }
  assert (Hmn_notin : Z.of_nat mn ∉ ms).
  { rewrite Hmn. intros Hin. pose proof (increasing_above m ms m Hinc Hin). lia. }
  assert (Hcnt_low : ∀ j, j ≤ mn → cnt ms j = 0).
  { intros j Hj. apply cnt_none. intros y Hy.
    pose proof (increasing_above m ms y Hinc Hy). lia. }
  assert (Hcnt_high : ∀ j, mn < j → cnt ms j + mn + 1 ≤ j).
  { intros j Hj. pose proof (cnt_bound ms m j Hinc). lia. }
  destruct (lookup_lt_is_Some_2 l mn Hmnl) as [cm Hcm].
  assert (HD'mn : D' !! mn = Some cm).
  { rewrite <- Hcm, <- (P1 mn Hmnl Hmn_notin). by rewrite (Hcnt_low mn), Nat.sub_0_r. }
  exists (delete mn D'). split; [|split].
  - rewrite (list_lookup_total_correct _ _ _ HD'mn).
    rewrite (comp_pairs_delete D' mn cm HD'mn). f_equal. lia.
  - intros j Hj Hjn. rewrite not_elem_of_cons in Hjn. destruct Hjn as [Hjm Hjn].
    rewrite cnt_cons. specialize (P1 j Hj Hjn).
    destruct (decide (m < Z.of_nat j)%Z) as [Hlt|Hge].
    + specialize (Hcnt_high j). rewrite list_lookup_delete_ge by lia.
      rewrite <- P1. f_equal. lia.
    + assert (j < mn) by lia. rewrite (Hcnt_low j) in P1 |- * by lia.
      rewrite list_lookup_delete_lt by lia. by rewrite Nat.sub_0_r in P1 |- *.
  - intros i x Hi. apply delete_lookup_Some in Hi as (i' & Hi' & Hne & Hcase).
    destruct (P2 i' x Hi') as (j & Hj & Hjn & ->).
    assert (Hjm : j ≠ mn).
    { intros ->. rewrite (Hcnt_low mn) in Hne by lia. lia. }
    exists j. split; [done|]. split.
    + rewrite not_elem_of_cons. split; [lia | done].
    + rewrite cnt_cons. destruct (decide (m < Z.of_nat j)%Z) as [Hlt|Hge].
      * specialize (Hcnt_high j). lia.
      * assert (j < mn) by lia. rewrite (Hcnt_low j) in Hcase |- * by lia. lia.
Qed.

(** *** Merging the components around the added vertex *)

Lemma iota_lookup (L i : nat) :
  i < L → (Z.of_nat <$> seq 0 L) !!! i = Z.of_nat i.
Proof.
  intros Hi. apply list_lookup_total_correct.
  rewrite list_lookup_fmap, lookup_seq_lt by done. done.
Qed.

Lemma merge_components_inv g v cur' c comp nb acc epochs epoch :
  CSpec.inv g → v < CNP.numNodes_ g → v ∈ CNP.removedNodes g →
  CSpec.graph_ok (rejoin v cur' g) →
  CNP.currentAdjList_ g = CNP.elide_node cur' cur' v →
  CNP.connectedComponents_ g !! c = Some comp →
  nb ∈ CNP.nodes comp → nb ∈ acc →
  NoDup acc → (∀ x, x ∈ acc ↔ CSpec.reach cur' v x) →
  length epochs = CNP.numNodes_ g →
  (∀ x, x < CNP.numNodes_ g → (epochs !!! x ≤ epoch)%Z) → (0 ≤ epoch)%Z →
  CSpec.inv
    (CNP.merge_components c (CNP.mkComponent (length acc) acc)
       (CNP.set_dfs epochs epoch
          (CNP.set_nodeToComponentIndex_ (<[v := Z.of_nat c]> (CNP.nodeToComponentIndex_ g))
             (CNP.set_connectedComponents_
                (<[c := CNP.mkComponent (S (CNP.size comp)) (CNP.nodes comp ++ [v])]>
                   (CNP.connectedComponents_ g))
                (rejoin v cur' g))))).
Proof.
  intros Hp Hv Hrem HgN Heq Hc Hnbc Hnba Hnd Hacc Hel Hele Hepos.
  pose proof (CSpec.p_graph g ∅ Hp) as Hg.
  pose proof (CSpec.g_static g Hg) as Hst.
  pose proof (CSpec.s_n2c_len g Hst) as Hn2cl.
  assert (Hclt : c < length (CNP.connectedComponents_ g)) by (by eapply lookup_lt_Some).
  set (n2c1 := <[v := Z.of_nat c]> (CNP.nodeToComponentIndex_ g)).
  set (nc1 := CNP.mkComponent (S (CNP.size comp)) (CNP.nodes comp ++ [v])).
  set (comps1 := <[c := nc1]> (CNP.connectedComponents_ g)).
  set (nc2 := CNP.mkComponent (CNP.size comp) (CNP.nodes comp ++ [v])).
  set (comps2 := <[c := nc2]> (CNP.connectedComponents_ g)).
  set (nc := CNP.mkComponent (length acc) acc).
  set (g3 := CNP.set_dfs epochs epoch _).
  assert (Hvacc : v ∈ acc) by (apply Hacc; apply rtc_refl).
  assert (Hvl : v ∉ CNP.removedNodes (rejoin v cur' g)) by (simpl; set_solver).
  assert (Hacc_live : ∀ x, x ∈ acc → x < CNP.numNodes_ g ∧ (x ≠ v → x ∉ CNP.removedNodes g)).
  { intros x Hx%Hacc. split; [by apply (reach_range (rejoin v cur' g) v x HgN Hv)|].
    intros Hxv Hxr. apply (reach_live (rejoin v cur' g) v x HgN Hv Hvl Hx). simpl. set_solver. }
  assert (Hlen1 : length n2c1 = CNP.numNodes_ g) by (unfold n2c1; by rewrite length_insert).
  assert (Hn1v : n2c1 !!! v = Z.of_nat c).
  { unfold n2c1. rewrite list_lookup_total_insert_eq; [done | lia]. }
  assert (Hn1o : ∀ x, x ≠ v → n2c1 !!! x = CNP.nodeToComponentIndex_ g !!! x).
  { intros x Hx. unfold n2c1. by rewrite list_lookup_total_insert_ne. }
  assert (Hacc_idx : ∀ x, x ∈ acc →
            ∃ co, n2c1 !!! x = Z.of_nat co ∧ co < length (CNP.connectedComponents_ g)).
  { intros x Hx. destruct (decide (x = v)) as [->|Hxv]; [by exists c|].
    destruct (Hacc_live x Hx) as [Hxn Hxl].
    destruct (CSpec.p_live g ∅ Hp x Hxn (Hxl Hxv)) as (co & comp' & Hi & Hco & _);
      [set_solver|].
    exists co. rewrite Hn1o by done. split; [done | by eapply lookup_lt_Some]. }
  set (ms := foldl (λ s node, if bool_decide (n2c1 !!! node ≠ (-1)%Z)
                              then CNP.set_insert (n2c1 !!! node) s else s) [] acc).
  destruct (merge_set_spec n2c1 acc) with (s := @nil Z) as [Hinc Hms]; [|done|].
  { intros x Hx. destruct (Hacc_idx x Hx) as (co & -> & _). lia. }
  fold ms in Hinc, Hms.
  assert (Hms_in : ∀ co, Z.of_nat co ∈ ms ↔ ∃ x, x ∈ acc ∧ n2c1 !!! x = Z.of_nat co).
  { intros co. rewrite Hms. split.
    - intros [[]%elem_of_nil|(x & ? & ? & _)]. by exists x.
    - intros (x & ? & ?). right. exists x. split; [done|]. split; [done | lia]. }
  assert (Hms_range : ∀ m, m ∈ ms → (m < Z.of_nat (length comps2))%Z).
  { intros m [[]%elem_of_nil|(x & Hx & <- & _)]%Hms.
    destruct (Hacc_idx x Hx) as (co & -> & ?). unfold comps2. rewrite length_insert. lia. }
  assert (Hc_in : Z.of_nat c ∈ ms) by (apply Hms_in; by exists v).
  assert (Hcnt_le : ∀ j, cnt ms j ≤ j).
  { intros j. pose proof (cnt_bound ms (-1) j Hinc). lia. }
  destruct (drop_fold comps2 ms (-1)) with (cp := CNP.connectedPairs_ g)
    as (D & Hfold & P1 & P2); [lia | done | done |].
  assert (Hpairs2 : CSpec.comp_pairs comps2 = CNP.connectedPairs_ g).
  { unfold comps2. rewrite (comp_pairs_insert _ c comp nc2 Hc).
    rewrite (CSpec.p_pairs g ∅ Hp). simpl. lia. }
  assert (Halt : alter (λ c0, CNP.mkComponent (CNP.size c0 - 1) (CNP.nodes c0)) c comps1
                 = comps2).
  { unfold comps1, comps2.
    rewrite (alter_as_insert (λ c0, CNP.mkComponent (CNP.size c0 - 1) (CNP.nodes c0))
               _ c nc1) by (by rewrite list_lookup_insert_eq).
    rewrite list_insert_insert_eq. unfold nc1, nc2. cbn [CNP.size CNP.nodes].
    by rewrite Nat.sub_succ, Nat.sub_0_r. }
  set (im := foldl CNP.shift_down (Z.of_nat <$> seq 0 (length comps2)) ms).
  set (n2c2 := foldl (CNP.remap im) n2c1 (elements (CNP.originalNodesSet_ g))).
  set (n2c3 := CNP.assign_all (Z.of_nat (length (D ++ [nc])) - 1)%Z acc n2c2).
  set (cp' := (CNP.connectedPairs_ g - CSpec.comp_pairs comps2 + CSpec.comp_pairs D
               + CNP.pairs (length acc))%Z).
  assert (Hstate : CNP.merge_components c nc g3
            = CNP.set_connectedPairs_ cp'
                (CNP.set_nodeToComponentIndex_ n2c3
                   (CNP.set_connectedComponents_ (D ++ [nc])
                      (CNP.set_dfs epochs epoch (rejoin v cur' g))))).
  { unfold CNP.merge_components.
    change (CNP.nodeToComponentIndex_ g3) with n2c1.
    change (CNP.connectedComponents_ g3) with comps1.
    change (CNP.connectedPairs_ g3) with (CNP.connectedPairs_ g).
    change (CNP.originalNodesSet_ g3) with (CNP.originalNodesSet_ g).
    rewrite Halt. change (CNP.nodes nc) with acc. change (CNP.size nc) with (length acc).
    fold ms. fold im. rewrite Hfold. reflexivity. }
  rewrite Hstate.
  destruct (shift_fold ms (Z.of_nat <$> seq 0 (length comps2))) as [Hlim Him].
  fold im in Hlim, Him. rewrite length_fmap, length_seq in Hlim, Him.
  assert (Hlen2 : length comps2 = length (CNP.connectedComponents_ g))
    by (unfold comps2; by rewrite length_insert).
  destruct (remap_fold im (elements (CNP.originalNodesSet_ g)) n2c1) as [Hl2 Hk2].
  { apply NoDup_elements. }
  { intros x Hx%elem_of_elements. rewrite (CSpec.s_nodes g Hst) in Hx.
    apply elem_of_set_seq in Hx. lia. }
  fold n2c2 in Hl2, Hk2.
  assert (Hold : ∀ j comp', CNP.connectedComponents_ g !! j = Some comp' →
            Z.of_nat j ∉ ms → ∀ x, x ∈ CNP.nodes comp' →
            x ∉ acc ∧ n2c3 !!! x = Z.of_nat (j - cnt ms j)).
  { intros j comp' Hj Hjn x Hx.
    destruct (pinv_member_comp g ∅ j comp' x Hp Hj Hx) as (Hxn & Hxl & _ & Hxi).
    assert (Hxv : x ≠ v) by (by intros ->).
    assert (Hxa : x ∉ acc).
    { intros Hxa. apply Hjn, Hms_in. exists x. split; [done|]. by rewrite Hn1o. }
    split; [done|]. unfold n2c3. rewrite assign_all_lookup by lia.
    rewrite decide_False by done. rewrite Hk2 by lia. rewrite Hn1o by done. rewrite Hxi.
    rewrite decide_True.
    - rewrite Nat2Z.id. rewrite Him by (rewrite Hlen2; by eapply lookup_lt_Some).
      rewrite iota_lookup by (rewrite Hlen2; by eapply lookup_lt_Some).
      specialize (Hcnt_le j). lia.
    - split; [|lia]. apply elem_of_elements. rewrite (CSpec.s_nodes g Hst).
      apply elem_of_set_seq. lia. }
  apply (add_rebuild g v cur' acc nc (D ++ [nc]) n2c3 (length D) cp' epochs epoch
           Hp Hv Hrem HgN Heq Hacc).
  - done.
  - done.
  - done.
  - unfold n2c3. by rewrite assign_all_length, Hl2.
  - by rewrite list_lookup_middle.
  - intros x Hx. destruct (Hacc_live x Hx) as [Hxn _]. unfold n2c3.
    rewrite assign_all_lookup by lia. rewrite decide_True by done.
    rewrite length_app. simpl. lia.
  - intros co comp' Hco Hdisj.
    assert (Hne : co ≠ c).
    { intros ->. assert (comp' = comp) as -> by congruence. by apply (Hdisj nb). }
    assert (Hcon : Z.of_nat co ∉ ms).
    { intros (x & Hx & Hxi)%Hms_in. destruct (decide (x = v)) as [->|Hxv].
      - rewrite Hn1v in Hxi. lia.
      - destruct (Hacc_live x Hx) as [Hxn Hxl]. rewrite Hn1o in Hxi by done.
        destruct (CSpec.p_live g ∅ Hp x Hxn (Hxl Hxv)) as (co' & comp'' & Hi & Hco' & Hin);
          [set_solver|].
        assert (co' = co) as -> by lia. assert (comp'' = comp') as -> by congruence.
        by apply (Hdisj x). }
    exists (co - cnt ms co). split.
    + apply lookup_app_l_Some. rewrite P1; [|rewrite Hlen2; by eapply lookup_lt_Some|done].
      unfold comps2. by rewrite list_lookup_insert_ne.
    + intros x Hx. by apply (Hold co comp' Hco Hcon).
  - intros i c' Hi. apply lookup_app_Some in Hi as [Hi|[Hge Hi]].
    + right. destruct (P2 i c' Hi) as (j & Hj & Hjn & ->).
      assert (Hjc : j ≠ c) by (intros ->; done).
      unfold comps2 in Hj. rewrite list_lookup_insert_ne in Hj by done.
      exists j. split; [done|]. split; intros x Hx; by apply (Hold j c' Hj Hjn).
    + left. apply list_lookup_singleton_Some in Hi as [? _]. lia.
  - intros x Hxn Hxr Hxv.
    assert (Hxa : x ∉ acc).
    { intros Hxa. destruct (Hacc_live x Hxa) as [_ Hxl]. by apply Hxl. }
    unfold n2c3. rewrite assign_all_lookup by lia. rewrite decide_False by done.
    rewrite Hk2 by lia. rewrite Hn1o by done.
    rewrite (CSpec.p_removed g ∅ Hp x Hxn Hxr). rewrite decide_False; [done|].
    by intros [_ ?].
  - unfold cp'. rewrite comp_pairs_app, Hpairs2. simpl. lia.
  - done.
  - done.
  - done.
Qed.

(** *** addNode *)

Lemma addNode_isolated_eq g v cur' :
  foldl (CNP.restore_edges v (CNP.nodeToComponentIndex_ g))
    (CNP.currentAdjList_ g, (-1)%Z) (elements (CNP.originalAdjList_ g !!! v))
  = (cur', (-1)%Z) →
  CNP.addNode v g
  = Ok (CNP.set_nodeToComponentIndex_
          (<[v := (Z.of_nat (length (CNP.connectedComponents_ g
                                     ++ [CNP.mkComponent 1 [v]])) - 1)%Z]>
             (CNP.nodeToComponentIndex_ g))
          (CNP.set_connectedComponents_
             (CNP.connectedComponents_ g ++ [CNP.mkComponent 1 [v]]) (rejoin v cur' g))).
Proof.
  intros Hfold. unfold CNP.addNode. cbv zeta.
  change (CNP.nodeToComponentIndex_ (CNP.set_removedNodes _ g))
    with (CNP.nodeToComponentIndex_ g).
  change (CNP.currentAdjList_ (CNP.set_removedNodes _ g)) with (CNP.currentAdjList_ g).
  change (CNP.originalAdjList_ (CNP.set_removedNodes _ g)) with (CNP.originalAdjList_ g).
  rewrite Hfold. rewrite decide_False by (intros H; by apply H). reflexivity.
Qed.

Lemma addNode_joined_eq g v cur' c comp :
  foldl (CNP.restore_edges v (CNP.nodeToComponentIndex_ g))
    (CNP.currentAdjList_ g, (-1)%Z) (elements (CNP.originalAdjList_ g !!! v))
  = (cur', Z.of_nat c) →
  CNP.connectedComponents_ g !! c = Some comp →
  CNP.addNode v g
  = '(newComponent, g3) ←
      CNP.dfsFindComponent
        (CNP.set_nodeToComponentIndex_ (<[v := Z.of_nat c]> (CNP.nodeToComponentIndex_ g))
           (CNP.set_connectedComponents_
              (<[c := CNP.mkComponent (S (CNP.size comp)) (CNP.nodes comp ++ [v])]>
                 (CNP.connectedComponents_ g))
              (rejoin v cur' g))) v;
    if decide (CNP.size (CNP.connectedComponents_ g3 !!! c) < CNP.size newComponent) then
      Ok (CNP.merge_components c newComponent g3)
    else if decide (CNP.size newComponent = CNP.size (CNP.connectedComponents_ g3 !!! c)) then
      Ok (CNP.set_connectedPairs_
            (CNP.connectedPairs_ g3
             + (Z.of_nat (CNP.size (CNP.connectedComponents_ g3 !!! c)) - 1))%Z g3)
    else Ok g3.
Proof.
  intros Hfold Hc. unfold CNP.addNode. cbv zeta.
  change (CNP.nodeToComponentIndex_ (CNP.set_removedNodes _ g))
    with (CNP.nodeToComponentIndex_ g).
  change (CNP.currentAdjList_ (CNP.set_removedNodes _ g)) with (CNP.currentAdjList_ g).
  change (CNP.originalAdjList_ (CNP.set_removedNodes _ g)) with (CNP.originalAdjList_ g).
  rewrite Hfold. rewrite decide_True by lia. rewrite Nat2Z.id.
  change (CNP.connectedComponents_ (CNP.set_currentAdjList_ _ (CNP.set_removedNodes _ g)))
    with (CNP.connectedComponents_ g).
  rewrite (alter_as_insert (λ c0, CNP.mkComponent (S (CNP.size c0)) (CNP.nodes c0 ++ [v]))
             _ c comp Hc).
  reflexivity.
Qed.

Lemma merge_components_frame c nc g3 :
  CNP.numNodes_ (CNP.merge_components c nc g3) = CNP.numNodes_ g3 ∧
  CNP.removedNodes (CNP.merge_components c nc g3) = CNP.removedNodes g3 ∧
  CNP.currentAdjList_ (CNP.merge_components c nc g3) = CNP.currentAdjList_ g3 ∧
  CNP.originalAdjList_ (CNP.merge_components c nc g3) = CNP.originalAdjList_ g3 ∧
  CNP.rng_ (CNP.merge_components c nc g3) = CNP.rng_ g3 ∧
  CNP.nodeAge_ (CNP.merge_components c nc g3) = CNP.nodeAge_ g3 ∧
  CNP.numToRemove_ (CNP.merge_components c nc g3) = CNP.numToRemove_ g3.
Proof.
  unfold CNP.merge_components.
  destruct (foldl CNP.drop_merged _ _) as [cp comps3]. done.
Qed.

Lemma cnp_addNode_spec g v :
  CSpec.inv g → v < CNP.numNodes_ g → v ∈ CNP.removedNodes g →
  ∃ g', CNP.addNode v g = Ok g' ∧ CSpec.inv g' ∧
        CNP.numNodes_ g' = CNP.numNodes_ g ∧
        CNP.removedNodes g' = CNP.removedNodes g ∖ {[v]} ∧
        CNP.originalAdjList_ g' = CNP.originalAdjList_ g ∧
        CNP.currentAdjList_ g
        = CNP.elide_node (CNP.currentAdjList_ g') (CNP.currentAdjList_ g') v.
Proof.
  intros Hp Hv Hrem.
  pose proof (CSpec.p_graph g ∅ Hp) as Hg.
  pose proof (CSpec.g_static g Hg) as Hst.
  destruct (restore_spec g v Hp Hv Hrem) as (cur' & ci & Hfold & HgN & Heq & Hci).
  assert (Hvl : v ∉ CNP.removedNodes (rejoin v cur' g)) by (simpl; set_solver).
  assert (Hvold : ∀ co comp', CNP.connectedComponents_ g !! co = Some comp' →
            v ∉ CNP.nodes comp').
  { intros co comp' Hco Hin.
    by destruct (pinv_member_comp g ∅ co comp' v Hp Hco Hin) as (_ & ? & _). }
  destruct Hci as [[-> Hiso] | (nb & c & comp & -> & Hc & Hnbc & Hnbv)].
  - rewrite (addNode_isolated_eq g v cur' Hfold). eexists. split; [done|].
    split; [|done].
    set (nc := CNP.mkComponent 1 [v]).
    pose proof (add_rebuild g v cur' [v] nc (CNP.connectedComponents_ g ++ [nc])
             (<[v := (Z.of_nat (length (CNP.connectedComponents_ g ++ [nc])) - 1)%Z]>
                (CNP.nodeToComponentIndex_ g))
             (length (CNP.connectedComponents_ g)) (CNP.connectedPairs_ g)
             (CNP.dfsVisitEpoch_ g) (CNP.dfsCurrentEpoch_ g) Hp Hv Hrem HgN Heq) as Hrb.
    apply Hrb; clear Hrb.
    + intros x. rewrite list_elem_of_singleton. split; [intros ->; apply rtc_refl|].
      intros Hr. destruct (rtc_inv _ _ Hr) as [<-|(y & Hy & _)]; [done|].
      unfold CSpec.edge in Hy. rewrite Hiso in Hy. set_solver.
    + done.
    + apply NoDup_singleton.
    + done.
    + rewrite length_insert. apply Hst.
    + by rewrite list_lookup_middle.
    + intros x ->%list_elem_of_singleton.
      rewrite list_lookup_total_insert_eq by (rewrite (CSpec.s_n2c_len g Hst); done).
      rewrite length_app. simpl. lia.
    + intros co comp' Hco _. exists co. split; [by apply lookup_app_l_Some|].
      intros x Hx. destruct (pinv_member_comp g ∅ co comp' x Hp Hco Hx) as (_ & _ & _ & Hxi).
      rewrite list_lookup_total_insert_ne; [done|]. intros <-. by apply (Hvold co comp' Hco).
    + intros i c' Hi. apply lookup_app_Some in Hi as [Hi|[Hge Hi]].
      * right. exists i. split; [done|]. split.
        -- intros x Hx ->%list_elem_of_singleton. by apply (Hvold i c' Hi).
        -- intros x Hx. destruct (pinv_member_comp g ∅ i c' x Hp Hi Hx) as (_ & _ & _ & Hxi).
           rewrite list_lookup_total_insert_ne; [done|]. intros <-. by apply (Hvold i c' Hi).
      * left. apply list_lookup_singleton_Some in Hi as [? _]. lia.
    + intros x Hxn Hxr Hxv. rewrite list_lookup_total_insert_ne by done.
      by apply (CSpec.p_removed g ∅ Hp).
    + rewrite comp_pairs_app. simpl. rewrite (CSpec.p_pairs g ∅ Hp).
      unfold CNP.pairs. simpl. lia.
    + apply Hst.
    + apply Hst.
    + apply Hst.
  - set (n2c1 := <[v := Z.of_nat c]> (CNP.nodeToComponentIndex_ g)).
    set (nc1 := CNP.mkComponent (S (CNP.size comp)) (CNP.nodes comp ++ [v])).
    set (comps1 := <[c := nc1]> (CNP.connectedComponents_ g)).
    set (g2 := CNP.set_nodeToComponentIndex_ n2c1
                 (CNP.set_connectedComponents_ comps1 (rejoin v cur' g))).
    assert (Hg2 : CSpec.graph_ok g2).
    { destruct HgN as [[? ? ? ? ? ? ?] ? ?]. split; [|done|done].
      split; try done. simpl. unfold n2c1. rewrite length_insert. apply Hst. }
    destruct (dfsFindComponent_spec g2 v Hg2 Hv Hvl)
      as (acc & epochs & Hdfs & Hnda & Hacc & Hs).
    change (CNP.currentAdjList_ g2) with cur' in Hacc.
    rewrite (addNode_joined_eq g v cur' c comp Hfold Hc). fold n2c1 nc1 comps1 g2.
    rewrite Hdfs. cbn [mbind result_bind].
    set (g3 := CNP.set_dfs epochs (CNP.dfsCurrentEpoch_ g2 + 1)%Z g2).
    assert (Hclt : c < length (CNP.connectedComponents_ g)) by (by eapply lookup_lt_Some).
    assert (Hsz1 : CNP.size (CNP.connectedComponents_ g3 !!! c) = S (CNP.size comp)).
    { change (CNP.connectedComponents_ g3) with comps1. unfold comps1.
      by rewrite list_lookup_total_insert_eq. }
    rewrite !Hsz1.
    change (CNP.size {| CNP.size := length acc; CNP.nodes := acc |}) with (length acc).
    destruct (CSpec.p_comp g ∅ Hp c comp Hc) as (Hsz & Hndc & _ & Hmemc).
    assert (Hvacc : v ∈ acc) by (apply Hacc; apply rtc_refl).
    assert (Hnbacc : nb ∈ acc).
    { apply Hacc. apply rtc_once. done. }
    assert (Hcomp_acc : ∀ x, x ∈ CNP.nodes comp ++ [v] → x ∈ acc).
    { intros x [Hx| ->%list_elem_of_singleton]%elem_of_app; [|done].
      apply Hacc. etransitivity; [by apply Hacc|].
      destruct (Hmemc nb Hnbc) as (Hnbn & _).
      apply (rejoin_reach_old g v cur' nb x HgN Hv Hnbn Heq).
      by apply (CSpec.p_class g ∅ Hp c comp nb x Hc Hnbc). }
    assert (Hnd1 : NoDup (CNP.nodes comp ++ [v])).
    { apply NoDup_app. split; [done|]. split; [|apply NoDup_singleton].
      intros x Hx ->%list_elem_of_singleton. by apply (Hvold c comp Hc). }
    assert (Hge : S (CNP.size comp) ≤ length acc).
    { rewrite Hsz. replace (S (length (CNP.nodes comp)))
        with (length (CNP.nodes comp ++ [v])) by (rewrite length_app; simpl; lia).
      apply submseteq_length, NoDup_submseteq; done. }
    destruct Hs as [_ _ _ _ Hel Hele Hepos].
    change (length epochs = CNP.numNodes_ g) in Hel.
    change (∀ x, x < CNP.numNodes_ g → (epochs !!! x ≤ CNP.dfsCurrentEpoch_ g + 1)%Z) in Hele.
    change (0 ≤ CNP.dfsCurrentEpoch_ g + 1)%Z in Hepos.
    destruct (decide (S (CNP.size comp) < length acc)) as [Hmerge|Hsame].
    + eexists. split; [done|]. split.
      * apply (merge_components_inv g v cur' c comp nb acc epochs
                 (CNP.dfsCurrentEpoch_ g + 1)%Z Hp Hv Hrem HgN Heq Hc Hnbc Hnbacc Hnda Hacc
                 Hel Hele Hepos).
      * destruct (merge_components_frame c (CNP.mkComponent (length acc) acc) g3)
          as (-> & -> & -> & -> & _). done.
    + rewrite decide_True by lia. eexists. split; [done|]. split; [|done].
      assert (Hacc_comp : ∀ x, x ∈ acc → x ∈ CNP.nodes comp ++ [v]).
      { apply nodup_full; [done | done | done |]. rewrite length_app. simpl. lia. }
      pose proof (add_rebuild g v cur' acc nc1 comps1 n2c1 c
               (CNP.connectedPairs_ g + (Z.of_nat (S (CNP.size comp)) - 1))%Z epochs
               (CNP.dfsCurrentEpoch_ g + 1)%Z Hp Hv Hrem HgN Heq Hacc) as Hrb.
      apply Hrb; clear Hrb.
      * unfold nc1. cbn [CNP.size CNP.nodes]. rewrite length_app. simpl. lia.
      * done.
      * intros x. split; [apply Hcomp_acc | apply Hacc_comp].
      * unfold n2c1. rewrite length_insert. apply Hst.
      * unfold comps1. by rewrite list_lookup_insert_eq.
      * intros x [Hx| ->%list_elem_of_singleton]%Hacc_comp%elem_of_app.
        -- destruct (Hmemc x Hx) as (_ & _ & _ & Hxi). unfold n2c1.
           rewrite list_lookup_total_insert_ne; [done|]. intros <-. by apply (Hvold c comp Hc).
        -- unfold n2c1. rewrite list_lookup_total_insert_eq; [done|].
           by rewrite (CSpec.s_n2c_len g Hst).
      * intros co comp' Hco Hdisj.
        assert (Hne : co ≠ c).
        { intros ->. assert (comp' = comp) as -> by congruence. by apply (Hdisj nb). }
        exists co. split; [unfold comps1; by rewrite list_lookup_insert_ne|].
        intros x Hx. destruct (pinv_member_comp g ∅ co comp' x Hp Hco Hx) as (_ & _ & _ & Hxi).
        unfold n2c1. rewrite list_lookup_total_insert_ne; [done|].
        intros <-. by apply (Hvold co comp' Hco).
      * intros i c' Hi. unfold comps1 in Hi.
        apply list_lookup_insert_Some in Hi as [(<- & <- & _) | (Hneq & Hi)]; [by left|].
        right. exists i. split; [done|]. split.
        -- intros x Hx [Hxc| ->%list_elem_of_singleton]%Hacc_comp%elem_of_app.
           ++ by destruct (pinv_comp_unique g ∅ _ _ comp c' x Hp Hc Hxc Hi Hx).
           ++ by apply (Hvold i c' Hi).
        -- intros x Hx. destruct (pinv_member_comp g ∅ i c' x Hp Hi Hx) as (_ & _ & _ & Hxi).
           unfold n2c1. rewrite list_lookup_total_insert_ne; [done|].
           intros <-. by apply (Hvold i c' Hi).
      * intros x Hxn Hxr Hxv. unfold n2c1. rewrite list_lookup_total_insert_ne by done.
        by apply (CSpec.p_removed g ∅ Hp).
      * unfold comps1. rewrite (comp_pairs_insert _ c comp nc1 Hc).
        rewrite (CSpec.p_pairs g ∅ Hp). unfold nc1. cbn [CNP.size].
        rewrite pairs_succ. lia.
      * done.
      * done.
      * done.
Qed.

(** ** CNP: the invariant on every reachable state *)

Lemma build_static n adjList budget seeded cp0 :
  CSpec.valid_graph n adjList →
  CSpec.static_ok (CNP.build (set_seq 0 n) adjList budget seeded cp0) ∧
  CNP.numNodes_ (CNP.build (set_seq 0 n) adjList budget seeded cp0) = n.
Proof.
  intros [Hsym Hirr]. unfold CNP.build.
  assert (Hn : base.size (set_seq (C := gset nat) 0 n) = n) by apply size_set_seq.
  rewrite Hn. split; [|done]. split; simpl; try done.
  - by rewrite length_replicate.
  - by rewrite length_replicate.
  - intros v Hv. by rewrite lookup_total_replicate_2.
Qed.

Lemma inv_removed_range g v :
  CSpec.inv g → v ∈ CNP.removedNodes g → v < CNP.numNodes_ g.
Proof. intros Hp. apply (CSpec.g_removed g (CSpec.p_graph g ∅ Hp)). Qed.

Lemma cnp_reachable_inv g : CSpec.reachable g → CSpec.inv g.
Proof.
  induction 1 as [n adjList budget seeded cp0 S g Hvalid HS Hop
                 | S g g' _ IH HS Hop | v g g' _ IH Hv Hop | v g g' _ IH Hv Hlive Hop].
  - destruct (build_static n adjList budget seeded cp0 Hvalid) as [Hst Hn].
    destruct (updateGraphByRemovedNodes_static _ S Hst) as (g1 & Hg1 & Hinv & _).
    { intros v Hv. rewrite Hn. by apply HS. }
    congruence.
  - destruct (updateGraphByRemovedNodes_static g S) as (g1 & Hg1 & Hinv & _);
      [apply IH | done | congruence].
  - destruct (cnp_addNode_spec g v IH (inv_removed_range g v IH Hv) Hv)
      as (g1 & Hg1 & Hinv & _). congruence.
  - destruct (cnp_removeNode_spec g v IH Hv Hlive) as (g1 & c & comp & _ & _ & Hg1 & Hinv & _).
    congruence.
Qed.

(** *** The members of the components are the surviving vertices *)

Lemma inv_members g x :
  CSpec.inv g →
  x ∈ concat (CNP.nodes <$> CNP.connectedComponents_ g)
  ↔ x < CNP.numNodes_ g ∧ x ∉ CNP.removedNodes g.
Proof.
  intros Hp. rewrite elem_of_concat_lookup. split.
  - intros (i & l & Hl & Hx). apply list_lookup_fmap_Some in Hl as (comp & -> & Hc).
    by destruct (pinv_member_comp g ∅ i comp x Hp Hc Hx) as (? & ? & _).
  - intros [Hxn Hxl]. destruct (CSpec.p_live g ∅ Hp x Hxn Hxl) as (c & comp & _ & Hc & Hin);
      [set_solver|].
    exists c, (CNP.nodes comp). split; [|done]. by rewrite list_lookup_fmap, Hc.
Qed.

Lemma comp_sizes_length g :
  CSpec.inv g →
  CSpec.comp_sizes (CNP.connectedComponents_ g)
  = length (concat (CNP.nodes <$> CNP.connectedComponents_ g)).
Proof.
  intros Hp.
  assert (Hall : ∀ i comp, CNP.connectedComponents_ g !! i = Some comp →
            CNP.size comp = length (CNP.nodes comp)).
  { intros i comp Hc. by destruct (CSpec.p_comp g ∅ Hp i comp Hc) as (? & _). }
  induction (CNP.connectedComponents_ g) as [|a l IH]; [done|].
  simpl. rewrite length_app, (Hall 0 a eq_refl), IH; [done|].
  intros i comp Hc. by apply (Hall (S i)).
Qed.

Lemma inv_sizes_sum g :
  CSpec.inv g →
  CSpec.comp_sizes (CNP.connectedComponents_ g) + base.size (CNP.removedNodes g)
  = CNP.numNodes_ g.
Proof.
  intros Hp. rewrite (comp_sizes_length g Hp).
  set (L := concat (CNP.nodes <$> CNP.connectedComponents_ g)).
  assert (Hnd : NoDup L) by (by apply (pinv_members_nodup g ∅)).
  assert (Hset : list_to_set L = set_seq 0 (CNP.numNodes_ g) ∖ CNP.removedNodes g
                 :> gset nat).
  { apply set_eq. intros x. rewrite elem_of_list_to_set, elem_of_difference, elem_of_set_seq.
    unfold L. rewrite (inv_members g x Hp). split; intros [? ?]; split; (lia || done). }
  assert (Hsub : CNP.removedNodes g ⊆ set_seq 0 (CNP.numNodes_ g)).
  { intros x Hx. apply elem_of_set_seq. pose proof (inv_removed_range g x Hp Hx). lia. }
  rewrite <- (size_list_to_set (C := gset nat) L Hnd), Hset.
  rewrite size_difference by done. rewrite size_set_seq.
  pose proof (subseteq_size _ _ Hsub) as Hle. rewrite size_set_seq in Hle. lia.
Qed.


(** *** Small valid graphs *)

Lemma path3_valid : CSpec.valid_graph 3 Examples.path3.
Proof.
  split; [split; [done|]|].
  - intros u w Hu Hw. destruct u as [|[|[|u]]]; [| | |lia]; cbn in Hw.
    + apply elem_of_singleton in Hw as ->. split; [lia|]. cbn. set_solver.
    + apply elem_of_union in Hw as [Hw|Hw]; apply elem_of_singleton in Hw as ->;
        (split; [lia|]); cbn; set_solver.
    + apply elem_of_singleton in Hw as ->. split; [lia|]. cbn. set_solver.
  - intros u Hu. destruct u as [|[|[|u]]]; cbn in Hu; set_solver.
Qed.

Lemma edge2_valid : CSpec.valid_graph 2 Examples.edge2.
Proof.
  split; [split; [done|]|].
  - intros u w Hu Hw. destruct u as [|[|u]]; [| |lia]; cbn in Hw;
      apply elem_of_singleton in Hw as ->; (split; [lia|]); cbn; set_solver.
  - intros u Hu. destruct u as [|[|u]]; cbn in Hu; set_solver.
Qed.


Lemma cnp_state_reachable n adj S :
  CSpec.valid_graph n adj → (∀ v, v ∈ S → v < n) →
  CNP.updateGraphByRemovedNodes S (Examples.cnp_built n adj) = Ok (Examples.cnp_state n adj S) ∧
  CSpec.reachable (Examples.cnp_state n adj S).
Proof.
  intros Hvalid HS.
  destruct (build_static n adj 1 Examples.rng0 0 Hvalid) as [Hst Hn].
  destruct (updateGraphByRemovedNodes_static (Examples.cnp_built n adj) S Hst)
    as (g1 & Hg1 & _).
  { intros v Hv. unfold Examples.cnp_built. rewrite Hn. by apply HS. }
  assert (Heq : Examples.cnp_state n adj S = g1) by (unfold Examples.cnp_state; by rewrite Hg1).
  rewrite Heq. split; [done|].
  by apply (CSpec.reach_first n adj 1 Examples.rng0 0 S g1 Hvalid HS).
Qed.

Lemma cnp_state_facts n adj S :
  CSpec.valid_graph n adj → (∀ v, v ∈ S → v < n) →
  CNP.numNodes_ (Examples.cnp_state n adj S) = n ∧
  CNP.removedNodes (Examples.cnp_state n adj S) = S.
Proof.
  intros Hvalid HS.
  destruct (build_static n adj 1 Examples.rng0 0 Hvalid) as [Hst Hn].
  destruct (updateGraphByRemovedNodes_static (Examples.cnp_built n adj) S Hst)
    as (g1 & Hg1 & _ & Hn1 & Hr1 & _).
  { intros v Hv. unfold Examples.cnp_built. rewrite Hn. by apply HS. }
  assert (Heq : Examples.cnp_state n adj S = g1) by (unfold Examples.cnp_state; by rewrite Hg1).
  rewrite Heq. split; [|done]. rewrite Hn1. exact Hn.
Qed.

(** *** C1 *)




(** *** C4 *)

(** C4: when removing [v] does not split its component (the piece the search
    finds covers all the remaining members), remove(v) returns and
    connected_pairs decreases by exactly old_size - 1, where old_size is the
    size of the component of [v] before the removal. *)
Theorem cnp_remove_without_split_pairs g v :
  CSpec.reachable g → v < CNP.numNodes_ g → v ∉ CNP.removedNodes g →
  CSpec.no_split g v →
  ∃ g' c comp,
    CNP.nodeToComponentIndex_ g !!! v = Z.of_nat c ∧
    CNP.connectedComponents_ g !! c = Some comp ∧
    CNP.removeNode v g = Ok g' ∧
    CNP.connectedPairs_ g' = (CNP.connectedPairs_ g - (Z.of_nat (CNP.size comp) - 1))%Z.
Proof.
  intros Hr Hv Hl Hns.
  destruct (cnp_removeNode_spec g v (cnp_reachable_inv g Hr) Hv Hl)
    as (g' & c & comp & Hidx & Hc & Hrm & _ & _ & _ & _ & _ & Hcp).
  exists g', c, comp. split; [done|]. split; [done|]. split; [done|]. by apply Hcp.
Qed.

Lemma edge2_no_split : CSpec.no_split (Examples.cnp_state 2 Examples.edge2 ∅) 0.
Proof.
  assert (HS : ∀ v, v ∈ (∅ : gset nat) → v < 2) by (intros v []%elem_of_empty).
  destruct (cnp_state_reachable 2 Examples.edge2 ∅ edge2_valid HS) as [_ Hr].
  pose proof (CSpec.p_graph _ ∅ (cnp_reachable_inv _ Hr)) as Hg.
  destruct (cnp_state_facts 2 Examples.edge2 ∅ edge2_valid HS) as [Hn _].
  intros x y Hx Hy Hrx Hry.
  assert (Hxn : x < CNP.numNodes_ (Examples.cnp_state 2 Examples.edge2 ∅))
    by (apply (reach_range _ 0 x Hg); [lia | done]).
  assert (Hyn : y < CNP.numNodes_ (Examples.cnp_state 2 Examples.edge2 ∅))
    by (apply (reach_range _ 0 y Hg); [lia | done]).
  rewrite Hn in Hxn, Hyn.
  assert (x = 1) as -> by lia. assert (y = 1) as -> by lia. apply rtc_refl.
Qed.

Lemma cnp_remove_without_split_pairs_witness :
  CSpec.reachable (Examples.cnp_state 2 Examples.edge2 ∅) ∧
  0 < CNP.numNodes_ (Examples.cnp_state 2 Examples.edge2 ∅) ∧
  0 ∉ CNP.removedNodes (Examples.cnp_state 2 Examples.edge2 ∅) ∧
  CSpec.no_split (Examples.cnp_state 2 Examples.edge2 ∅) 0 ∧
  ∃ g' c comp,
    CNP.nodeToComponentIndex_ (Examples.cnp_state 2 Examples.edge2 ∅) !!! 0 = Z.of_nat c ∧
    CNP.connectedComponents_ (Examples.cnp_state 2 Examples.edge2 ∅) !! c = Some comp ∧
    CNP.removeNode 0 (Examples.cnp_state 2 Examples.edge2 ∅) = Ok g' ∧
    CNP.connectedPairs_ g'
    = (CNP.connectedPairs_ (Examples.cnp_state 2 Examples.edge2 ∅)
       - (Z.of_nat (CNP.size comp) - 1))%Z.
Proof.
  assert (Hr : CSpec.reachable (Examples.cnp_state 2 Examples.edge2 ∅)).
  { apply (CSpec.reach_first 2 Examples.edge2 1 Examples.rng0 0 ∅).
    - exact edge2_valid.
    - intros v []%elem_of_empty.
    - vm_compute. reflexivity. }
  assert (Hn : 0 < CNP.numNodes_ (Examples.cnp_state 2 Examples.edge2 ∅))
    by (vm_compute; lia).
  assert (Hl : 0 ∉ CNP.removedNodes (Examples.cnp_state 2 Examples.edge2 ∅)).
  { replace (CNP.removedNodes (Examples.cnp_state 2 Examples.edge2 ∅)) with (∅ : gset nat)
      by (vm_compute; reflexivity).
    apply not_elem_of_empty. }
  split; [exact Hr|]. split; [exact Hn|]. split; [exact Hl|].
  split; [exact edge2_no_split|].
  exact (cnp_remove_without_split_pairs (Examples.cnp_state 2 Examples.edge2 ∅) 0
           Hr Hn Hl edge2_no_split).
Defined.

(** ** Adding a vertex and removing it again *)

(** *** CNP: what the invariant determines *)

Lemma pairs_double k : (2 * CNP.pairs k = Z.of_nat k * (Z.of_nat k - 1))%Z.
Proof.
  induction k as [|k IH]; [done|]. rewrite pairs_succ. lia.
Qed.

Lemma zsum_app f l k : zsum f (l ++ k) = (zsum f l + zsum f k)%Z.
Proof. induction l as [|x l IH]; simpl; [lia|]. rewrite IH. lia. Qed.

Lemma zsum_ext f f' l : (∀ x, x ∈ l → f x = f' x) → zsum f l = zsum f' l.
Proof.
  induction l as [|x l IH]; intros Hf; simpl; [done|].
  rewrite (Hf x) by (by left). rewrite IH; [done|]. intros y Hy. apply Hf. by right.
Qed.

Lemma zsum_const c l : zsum (λ _, c) l = (Z.of_nat (length l) * c)%Z.
Proof. induction l as [|x l IH]; simpl; [lia|]. rewrite IH. lia. Qed.

Lemma zsum_perm f l k : l ≡ₚ k → zsum f l = zsum f k.
Proof. induction 1; simpl; lia. Qed.

Lemma class_size_member g c comp x :
  CSpec.inv g → CNP.connectedComponents_ g !! c = Some comp → x ∈ CNP.nodes comp →
  class_size g x = Z.of_nat (length (CNP.nodes comp)).
Proof.
  intros Hp Hc Hx. unfold class_size.
  destruct (pinv_member_comp g ∅ c comp x Hp Hc Hx) as (_ & _ & _ & ->).
  rewrite Nat2Z.id, (list_lookup_total_correct _ _ _ Hc).
  by destruct (CSpec.p_comp g ∅ Hp c comp Hc) as (-> & _).
Qed.

Lemma pairs_by_class g :
  CSpec.inv g →
  (2 * CNP.connectedPairs_ g
   = zsum (λ x, class_size g x - 1) (concat (CNP.nodes <$> CNP.connectedComponents_ g)))%Z.
Proof.
  intros Hp. rewrite (CSpec.p_pairs g ∅ Hp).
  assert (Hall : ∀ i comp, CNP.connectedComponents_ g !! i = Some comp →
            CNP.size comp = length (CNP.nodes comp) ∧
            ∀ x, x ∈ CNP.nodes comp → class_size g x = Z.of_nat (length (CNP.nodes comp))).
  { intros i comp Hc. split; [by destruct (CSpec.p_comp g ∅ Hp i comp Hc) as (? & _)|].
    intros x Hx. by apply (class_size_member g i comp x). }
  induction (CNP.connectedComponents_ g) as [|a l IH]; [done|].
  cbn [fmap list_fmap concat CSpec.comp_pairs foldr]. rewrite zsum_app.
  destruct (Hall 0 a eq_refl) as [Hsz Hcs].
  rewrite (zsum_ext _ (λ _, Z.of_nat (length (CNP.nodes a)) - 1)%Z)
    by (intros x Hx; by rewrite (Hcs x Hx)).
  rewrite zsum_const.
  change (foldr (λ c s, (CNP.pairs (CNP.size c) + s)%Z) 0%Z l) with (CSpec.comp_pairs l).
  change (mjoin (CNP.nodes <$> l)) with (concat (CNP.nodes <$> l)).
  rewrite <- IH by (intros i comp Hc; by apply (Hall (S i))).
  pose proof (pairs_double (CNP.size a)) as Hd. rewrite Hsz in Hd |- *. lia.
Qed.

(** Two vertices have the same component index exactly when they are
    connected. *)
Lemma inv_same_component g x y :
  CSpec.inv g → x < CNP.numNodes_ g → y < CNP.numNodes_ g →
  x ∉ CNP.removedNodes g → y ∉ CNP.removedNodes g →
  CNP.nodeToComponentIndex_ g !!! x = CNP.nodeToComponentIndex_ g !!! y
  ↔ CSpec.reach (CNP.currentAdjList_ g) x y.
Proof.
  intros Hp Hx Hy Hxl Hyl.
  destruct (CSpec.p_live g ∅ Hp x Hx Hxl) as (c & comp & Hxi & Hc & Hxc); [set_solver|].
  destruct (CSpec.p_live g ∅ Hp y Hy Hyl) as (c' & comp' & Hyi & Hc' & Hyc); [set_solver|].
  rewrite Hxi, Hyi. split.
  - intros Heq. assert (c' = c) as -> by lia. assert (comp' = comp) as -> by congruence.
    by apply (CSpec.p_class g ∅ Hp c comp x y Hc Hxc).
  - intros Hr. apply (CSpec.p_class g ∅ Hp c comp x y Hc Hxc) in Hr.
    by destruct (pinv_comp_unique g ∅ _ _ comp comp' y Hp Hc Hr Hc' Hyc) as [-> _].
Qed.

(** Two states that satisfy the invariant on the same graph agree on the
    objective and on the partition into components. *)
Lemma inv_determined g g' :
  CSpec.inv g → CSpec.inv g' →
  CNP.numNodes_ g' = CNP.numNodes_ g → CNP.removedNodes g' = CNP.removedNodes g →
  CNP.currentAdjList_ g' = CNP.currentAdjList_ g →
  CNP.connectedPairs_ g' = CNP.connectedPairs_ g ∧
  ∀ x y, x < CNP.numNodes_ g → y < CNP.numNodes_ g →
    x ∉ CNP.removedNodes g → y ∉ CNP.removedNodes g →
    (CNP.nodeToComponentIndex_ g' !!! x = CNP.nodeToComponentIndex_ g' !!! y
     ↔ CNP.nodeToComponentIndex_ g !!! x = CNP.nodeToComponentIndex_ g !!! y).
Proof.
  intros Hp Hp' Hn Hr Hcur. split.
  - pose proof (pairs_by_class g Hp) as H1. pose proof (pairs_by_class g' Hp') as H2.
    set (L := concat (CNP.nodes <$> CNP.connectedComponents_ g)) in *.
    set (L' := concat (CNP.nodes <$> CNP.connectedComponents_ g')) in *.
    assert (Hperm : L' ≡ₚ L).
    { apply NoDup_Permutation;
        [by apply (pinv_members_nodup g' ∅) | by apply (pinv_members_nodup g ∅) |].
      intros x. unfold L, L'. rewrite (inv_members g x Hp), (inv_members g' x Hp').
      by rewrite Hn, Hr. }
    assert (Hcs : ∀ x, x ∈ L → class_size g' x = class_size g x).
    { intros x Hx. unfold L in Hx. apply (inv_members g x Hp) in Hx as [Hxn Hxl].
      destruct (CSpec.p_live g ∅ Hp x Hxn Hxl) as (c & comp & _ & Hc & Hxc); [set_solver|].
      destruct (CSpec.p_live g' ∅ Hp' x) as (c' & comp' & _ & Hc' & Hxc');
        [by rewrite Hn | by rewrite Hr | set_solver |].
      rewrite (class_size_member g c comp x Hp Hc Hxc).
      rewrite (class_size_member g' c' comp' x Hp' Hc' Hxc'). f_equal.
      apply Permutation_length, NoDup_Permutation.
      - by destruct (CSpec.p_comp g' ∅ Hp' c' comp' Hc') as (_ & ? & _).
      - by destruct (CSpec.p_comp g ∅ Hp c comp Hc) as (_ & ? & _).
      - intros w. rewrite (CSpec.p_class g' ∅ Hp' c' comp' x w Hc' Hxc').
        rewrite (CSpec.p_class g ∅ Hp c comp x w Hc Hxc). by rewrite Hcur. }
    rewrite (zsum_perm _ L' L Hperm) in H2.
    rewrite (zsum_ext _ (λ x, class_size g x - 1)%Z) in H2
      by (intros x Hx; by rewrite (Hcs x Hx)).
    lia.
  - intros x y Hx Hy Hxl Hyl.
    rewrite (inv_same_component g x y Hp Hx Hy Hxl Hyl).
    rewrite (inv_same_component g' x y Hp') by (rewrite ?Hn, ?Hr; done).
    by rewrite Hcur.
Qed.

(** *** CNP: the fields neither operation touches *)






(** *** CNP: add then remove *)


(** *** DCNP: the invariant determines the tables *)

Lemma dcnp_cells_determined g g' v u :
  DSpec.inv g → DSpec.inv g' →
  DCNP.numNodes_ g' = DCNP.numNodes_ g → DCNP.kHops_ g' = DCNP.kHops_ g →
  DCNP.currentAdjList_ g' = DCNP.currentAdjList_ g →
  DCNP.removedNodes_ g' = DCNP.removedNodes_ g →
  v < DCNP.numNodes_ g → u < DCNP.numNodes_ g →
  DSpec.cell g' v u = DSpec.cell g v u.
Proof.
  intros [_ Hrows] [_ Hrows'] Hn HK Hadj Hrem Hv Hu.
  destruct (Hrows v Hv) as [Hbit Hball _].
  destruct (Hrows' v) as [Hbit' Hball' _]; [by rewrite Hn|].
  rewrite Hn in Hbit', Hball'. rewrite Hadj, Hrem, HK in Hball'.
  specialize (Hball u Hu). specialize (Hball' u Hu).
  destruct (Hbit u Hu) as [H0|H1], (Hbit' u Hu) as [H0'|H1']; try congruence.
  - apply Hball', Hball in H1'. congruence.
  - apply Hball, Hball' in H1. congruence.
Qed.

Lemma dcnp_tables_determined g g' :
  DSpec.inv g → DSpec.inv g' →
  DCNP.numNodes_ g' = DCNP.numNodes_ g → DCNP.kHops_ g' = DCNP.kHops_ g →
  DCNP.currentAdjList_ g' = DCNP.currentAdjList_ g →
  DCNP.removedNodes_ g' = DCNP.removedNodes_ g →
  DCNP.intree_ g' = DCNP.intree_ g ∧ DCNP.treeSize_ g' = DCNP.treeSize_ g.
Proof.
  intros Hi Hi' Hn HK Hadj Hrem.
  pose proof (λ v u, dcnp_cells_determined g g' v u Hi Hi' Hn HK Hadj Hrem) as Hcell.
  destruct Hi as [[_ _ Hlen Hts] Hrows]. destruct Hi' as [[_ _ Hlen' Hts'] Hrows'].
  set (n := DCNP.numNodes_ g) in *.
  split.
  - apply list_eq. intros i. destruct (decide (i < n * n)) as [Hlt|Hge].
    + assert (Hnpos : n ≠ 0) by lia.
      assert (Hv : i / n < n) by (apply Nat.Div0.div_lt_upper_bound; lia).
      assert (Hu : i mod n < n) by (by apply Nat.mod_upper_bound).
      specialize (Hcell (i / n) (i mod n) Hv Hu). unfold DSpec.cell, DCNP.treeIndex in Hcell.
      rewrite Hn in Hcell. fold n in Hcell.
      replace (i / n * n + i mod n) with i in Hcell
        by (rewrite (Nat.div_mod_eq i n) at 1; lia).
      rewrite (list_lookup_lookup_total_lt (DCNP.intree_ g') i) by (rewrite Hlen', Hn; done).
      rewrite (list_lookup_lookup_total_lt (DCNP.intree_ g) i) by (rewrite Hlen; done).
      f_equal. exact Hcell.
    + rewrite !lookup_ge_None_2; [done | rewrite Hlen; lia | rewrite Hlen', Hn; fold n; lia].
  - apply list_eq. intros v. destruct (decide (v < n)) as [Hlt|Hge].
    + rewrite (list_lookup_lookup_total_lt (DCNP.treeSize_ g') v) by (rewrite Hts', Hn; done).
      rewrite (list_lookup_lookup_total_lt (DCNP.treeSize_ g) v) by (rewrite Hts; done).
      f_equal. destruct (Hrows v Hlt) as [_ _ ->].
      destruct (Hrows' v) as [_ _ ->]; [by rewrite Hn|].
      f_equal. unfold DSpec.row_count. rewrite Hn. fold n. f_equal.
      apply filter_ext_in. intros u Hu%elem_of_seq.
      rewrite (Hcell v u) by (done || lia). done.
    + rewrite !lookup_ge_None_2; [done | rewrite Hts; lia | rewrite Hts', Hn; fold n; lia].
Qed.

Lemma dcnp_add_remove g v :
  DSpec.inv g → v < DCNP.numNodes_ g → v ∈ DCNP.removedNodes_ g →
  ∃ g1, DCNP.addNode v g = Ok g1 ∧ DCNP.removeNode v g1 = Ok g.
Proof.
  intros Hi Hv Hrem.
  destruct (addNode_spec g v Hi Hv) as (it1 & ts1 & Hadd & Hi1).
  set (g1 := DCNP.set_tables it1 ts1
               (DCNP.set_removedNodes_ (DCNP.removedNodes_ g ∖ {[v]}) g)) in *.
  destruct (removeNode_spec g1 v Hi1) as (it2 & ts2 & Hrm & Hi2).
  exists g1. split; [done|]. rewrite Hrm. f_equal.
  set (g2 := DCNP.set_tables it2 ts2
               (DCNP.set_removedNodes_ (DCNP.removedNodes_ g1 ∪ {[v]}) g1)) in *.
  assert (Hr : DCNP.removedNodes_ g ∖ {[v]} ∪ {[v]} = DCNP.removedNodes_ g).
  { apply set_eq. intros x. destruct (decide (x = v)) as [->|]; set_solver. }
  destruct (dcnp_tables_determined g g2 Hi Hi2) as [Hit Hts]; [done | done | done | exact Hr |].
  change (DCNP.intree_ g2) with it2 in Hit. change (DCNP.treeSize_ g2) with ts2 in Hts.
  unfold g2, g1. cbn [DCNP.removedNodes_ DCNP.set_tables DCNP.set_removedNodes_].
  rewrite Hit, Hts, Hr. by destruct g.
Qed.

(** *** C9 *)

Lemma dcnp_state_reachable n K adj S :
  adj_sym n adj →
  DCNP.build (set_seq 0 n) K adj 1 Examples.rng0 = Ok (Examples.dcnp_built n K adj) →
  DCNP.updateGraphByRemovedNodes S (Examples.dcnp_built n K adj)
  = Ok (Examples.dcnp_state n K adj S) →
  DSpec.reachable (Examples.dcnp_state n K adj S).
Proof.
  intros Hadj Hb Hu.
  apply (DSpec.reach_set_removed_all S (Examples.dcnp_built n K adj)); [|done].
  by apply (DSpec.reach_build n K adj 1 Examples.rng0).
Qed.




(** ** DCNP: the K-hop table on every reachable state *)

(** *** C3 *)

(** C3: in every state of the DCNP engine reached through build,
    set_removed_all, get_reduced_by, add and remove, the row of every removed
    vertex is all zero, intree is symmetric, and tree_size[v] is the number of
    vertices u other than v with intree[v][u] = 1; and in such a state each of
    the operations returns. *)
Theorem dcnp_table_properties_reachable g :
  DSpec.reachable g →
  DSpec.table_properties g ∧
  (∀ S, ∃ g', DCNP.updateGraphByRemovedNodes S g = Ok g') ∧
  (∀ S, (∀ v, v ∈ S → v < DCNP.numNodes_ g) →
        ∃ g', DCNP.getReducedGraphByRemovedNodes S g = Ok g') ∧
  (∀ v, v < DCNP.numNodes_ g → ∃ g', DCNP.addNode v g = Ok g') ∧
  (∀ v, ∃ g', DCNP.removeNode v g = Ok g').
Proof.
  intros Hr. pose proof (reachable_inv g Hr) as Hi.
  split; [by apply inv_table_properties|]. split; [|split; [|split]].
  - intros S. destruct (updateGraphByRemovedNodes_spec g S) as (g' & Hg' & _);
      [apply Hi | by exists g'].
  - intros S HS. destruct (getReducedGraphByRemovedNodes_spec g S) as (g' & Hg' & _);
      [apply Hi | done | by exists g'].
  - intros v Hv. destruct (addNode_spec g v Hi Hv) as (it & ts & Hg' & _). eauto.
  - intros v. destruct (removeNode_spec g v Hi) as (it & ts & Hg' & _). eauto.
Qed.

Lemma dcnp_table_properties_reachable_witness :
  DSpec.reachable (Examples.dcnp_state 3 2 Examples.path3 {[1]}) ∧
  (DSpec.table_properties (Examples.dcnp_state 3 2 Examples.path3 {[1]}) ∧
   (∀ S, ∃ g', DCNP.updateGraphByRemovedNodes S
                 (Examples.dcnp_state 3 2 Examples.path3 {[1]}) = Ok g') ∧
   (∀ S, (∀ v, v ∈ S → v < DCNP.numNodes_ (Examples.dcnp_state 3 2 Examples.path3 {[1]})) →
      ∃ g', DCNP.getReducedGraphByRemovedNodes S
              (Examples.dcnp_state 3 2 Examples.path3 {[1]}) = Ok g') ∧
   (∀ v, v < DCNP.numNodes_ (Examples.dcnp_state 3 2 Examples.path3 {[1]}) →
      ∃ g', DCNP.addNode v (Examples.dcnp_state 3 2 Examples.path3 {[1]}) = Ok g') ∧
   (∀ v, ∃ g', DCNP.removeNode v (Examples.dcnp_state 3 2 Examples.path3 {[1]}) = Ok g')).
Proof.
  assert (Hr : DSpec.reachable (Examples.dcnp_state 3 2 Examples.path3 {[1]})).
  { apply (DSpec.reach_set_removed_all {[1]} (Examples.dcnp_built 3 2 Examples.path3)).
    - apply (DSpec.reach_build 3 2 Examples.path3 1 Examples.rng0).
      + apply path3_valid.
      + vm_compute. reflexivity.
    - vm_compute. reflexivity. }
  split; [exact Hr|].
  exact (dcnp_table_properties_reachable (Examples.dcnp_state 3 2 Examples.path3 {[1]}) Hr).
Defined.

(** *** Operations that leave the removed set as it is *)

Lemma dcnp_state_eq g it ts R :
  DSpec.inv g →
  DSpec.inv (DCNP.set_tables it ts (DCNP.set_removedNodes_ R g)) →
  R = DCNP.removedNodes_ g →
  DCNP.set_tables it ts (DCNP.set_removedNodes_ R g) = g.
Proof.
  intros Hi Hi' ->.
  destruct (dcnp_tables_determined g _ Hi Hi') as [Hit Hts]; [done..|].
  cbn [DCNP.intree_ DCNP.treeSize_ DCNP.set_tables] in Hit, Hts.
  rewrite Hit, Hts. by destruct g.
Qed.

Lemma dcnp_remove_removed g v :
  DSpec.inv g → v ∈ DCNP.removedNodes_ g → DCNP.removeNode v g = Ok g.
Proof.
  intros Hi Hv. destruct (removeNode_spec g v Hi) as (it & ts & Hrm & Hi').
  rewrite Hrm. f_equal. apply dcnp_state_eq; [done | done | set_solver].
Qed.

Lemma dcnp_add_present g v :
  DSpec.inv g → v < DCNP.numNodes_ g → v ∉ DCNP.removedNodes_ g →
  DCNP.addNode v g = Ok g.
Proof.
  intros Hi Hn Hv. destruct (addNode_spec g v Hi Hn) as (it & ts & Hadd & Hi').
  rewrite Hadd. f_equal. apply dcnp_state_eq; [done | done | set_solver].
Qed.


(** In the CNP engine the loop of [addNode] re-inserts edges that are still
    there when the vertex is not removed. *)
Lemma restore_present g v :
  CSpec.inv g → v < CNP.numNodes_ g → v ∉ CNP.removedNodes g →
  ∃ ci,
    foldl (CNP.restore_edges v (CNP.nodeToComponentIndex_ g))
      (CNP.currentAdjList_ g, (-1)%Z) (elements (CNP.originalAdjList_ g !!! v))
    = (CNP.currentAdjList_ g, ci).
Proof.
  intros Hp Hv Hlive.
  pose proof (CSpec.p_graph g ∅ Hp) as Hg.
  pose proof Hg as [[Hnodes [Hlo Hsym] Hirr Hn2c Hep Hle Hpos] [Hlc Hcur] Hremr].
  destruct (restore_fold v (CNP.nodeToComponentIndex_ g)
              (elements (CNP.originalAdjList_ g !!! v)) (CNP.currentAdjList_ g) (-1)%Z)
    as (cur' & ci & Hfold & Hlen & Hk & _).
  { lia. }
  { intros x Hx%elem_of_elements. destruct (Hsym v x Hv Hx) as [Hxn _].
    split; [lia|]. intros ->. by apply (Hirr v). }
  exists ci. rewrite Hfold. f_equal. apply list_eq. intros u.
  destruct (decide (u < CNP.numNodes_ g)) as [Hu|Hu];
    [|by rewrite !lookup_ge_None_2 by lia].
  rewrite (list_lookup_lookup_total_lt cur' u), (list_lookup_lookup_total_lt _ u) by lia.
  f_equal. rewrite Hk by lia.
  assert (Hmem : ∀ x, x ∈ CNP.originalAdjList_ g !!! v →
            CNP.nodeToComponentIndex_ g !!! x ≠ (-1)%Z → x ∈ CNP.currentAdjList_ g !!! v).
  { intros x Hx Hal. destruct (Hsym v x Hv Hx) as [Hxn _].
    rewrite Hcur by lia. rewrite decide_False by done. apply elem_of_difference.
    split; [done|]. by rewrite <- (inv_mapping_removed g x Hp Hxn). }
  destruct (decide (u = v)) as [->|Huv].
  - apply set_eq. intros x.
    rewrite elem_of_union, elem_of_list_to_set, list_elem_of_filter, elem_of_elements.
    split; [intros [?|[? ?]]; [done | by apply Hmem] | by left].
  - destruct (decide (u ∈ elements (CNP.originalAdjList_ g !!! v) ∧
                      CNP.nodeToComponentIndex_ g !!! u ≠ (-1)%Z)) as [[Huo Hal]|Hn]; [|done].
    apply elem_of_elements in Huo. pose proof (Hmem u Huo Hal) as Huc.
    destruct (graph_cur_live g v u Hg Hv Huc) as (_ & _ & _ & Hback). set_solver.
Qed.

Lemma cnp_add_present_returns g v :
  CSpec.inv g → v < CNP.numNodes_ g → v ∉ CNP.removedNodes g →
  ∃ g', CNP.addNode v g = Ok g'.
Proof.
  intros Hp Hv Hlive.
  destruct (restore_present g v Hp Hv Hlive) as (ci & Hfold).
  pose proof (CSpec.p_graph g ∅ Hp) as Hg.
  unfold CNP.addNode. cbv zeta.
  change (CNP.nodeToComponentIndex_ (CNP.set_removedNodes _ g))
    with (CNP.nodeToComponentIndex_ g).
  change (CNP.currentAdjList_ (CNP.set_removedNodes _ g)) with (CNP.currentAdjList_ g).
  change (CNP.originalAdjList_ (CNP.set_removedNodes _ g)) with (CNP.originalAdjList_ g).
  rewrite Hfold.
  destruct (decide (ci ≠ (-1)%Z)); [|eauto].
  match goal with |- context [CNP.dfsFindComponent ?g2 v] =>
    destruct (dfsFindComponent_spec g2 v) as (acc & epochs & Hdfs & _)
  end.
  - assert (Hset : CNP.removedNodes g ∖ {[v]} = CNP.removedNodes g) by set_solver.
    destruct Hg as [[? ? ? ? ? ? ?] ? ?]. split; [split; simpl; try done| |].
    + rewrite length_insert. done.
    + simpl. by rewrite Hset.
    + simpl. rewrite Hset. done.
  - done.
  - simpl. set_solver.
  - rewrite Hdfs. cbn [mbind result_bind].
    destruct (decide (_ < _)); [eauto|]. destruct (decide (_ = _)); eauto.
Qed.

Lemma cnp_remove_removed_undefined g v :
  CSpec.inv g → v ∈ CNP.removedNodes g →
  CNP.removeNode v g = Throw undefined_behaviour.
Proof.
  intros Hp Hv. unfold CNP.removeNode.
  rewrite (CSpec.p_removed g ∅ Hp v (inv_removed_range g v Hp Hv) Hv).
  by rewrite decide_True by lia.
Qed.

(** *** C8 *)

(** C8 (as stated): remove(v) of an already removed vertex and add(v) of a
    vertex that is not removed are claimed to raise ContractViolation.  On
    the path 0 - 1 - 2 with vertex 1 removed, the DCNP engine's remove(1)
    returns normally with the state unchanged; and with no vertex removed the
    CNP engine's add(0) returns normally, after which the only stored
    component lists vertex 0 twice and has size 4 on a graph of 3 vertices. *)
Lemma contract_violation_not_raised :
  1 ∈ DCNP.removedNodes_ (Examples.dcnp_state 3 2 Examples.path3 {[1]}) ∧
  DCNP.removeNode 1 (Examples.dcnp_state 3 2 Examples.path3 {[1]})
  = Ok (Examples.dcnp_state 3 2 Examples.path3 {[1]}) ∧
  0 ∉ CNP.removedNodes (Examples.cnp_state 3 Examples.path3 ∅) ∧
  (CNP.connectedComponents_ <$> CNP.addNode 0 (Examples.cnp_state 3 Examples.path3 ∅))
  = Ok [CNP.mkComponent 4 [2; 1; 0; 0]].
Proof.
  split; [|split; [|split]].
  - replace (DCNP.removedNodes_ (Examples.dcnp_state 3 2 Examples.path3 {[1]}))
      with ({[1]} : gset nat) by (vm_compute; reflexivity).
    by apply elem_of_singleton.
  - vm_compute. reflexivity.
  - replace (CNP.removedNodes (Examples.cnp_state 3 Examples.path3 ∅))
      with (∅ : gset nat) by (vm_compute; reflexivity).
    apply not_elem_of_empty.
  - vm_compute. reflexivity.
Qed.

(** C8 (amended): neither engine checks the contract, and no
    ContractViolation is raised.  In a reachable state of the DCNP engine,
    remove(v) of an already removed vertex and add(v) of a vertex that is not
    removed return normally and leave the state unchanged.  In a reachable
    state of the CNP engine, add(v) of a vertex that is not removed returns
    normally, and remove(v) of an already removed vertex uses the mapping
    entry -1 as an index into the component list, which is undefined
    behaviour in the source. *)
Theorem contract_not_checked :
  (∀ g v, DSpec.reachable g → v ∈ DCNP.removedNodes_ g → DCNP.removeNode v g = Ok g) ∧
  (∀ g v, DSpec.reachable g → v < DCNP.numNodes_ g → v ∉ DCNP.removedNodes_ g →
          DCNP.addNode v g = Ok g) ∧
  (∀ g v, CSpec.reachable g → v < CNP.numNodes_ g → v ∉ CNP.removedNodes g →
          ∃ g', CNP.addNode v g = Ok g') ∧
  (∀ g v, CSpec.reachable g → v ∈ CNP.removedNodes g →
          CNP.removeNode v g = Throw undefined_behaviour).
Proof.
  split; [|split; [|split]].
  - intros g v Hr Hv. by apply dcnp_remove_removed; [apply reachable_inv|].
  - intros g v Hr Hn Hv. by apply dcnp_add_present; [apply reachable_inv| |].
  - intros g v Hr Hn Hv. by apply cnp_add_present_returns; [apply cnp_reachable_inv| |].
  - intros g v Hr Hv. by apply cnp_remove_removed_undefined; [apply cnp_reachable_inv|].
Qed.

Lemma contract_not_checked_witness :
  (DSpec.reachable (Examples.dcnp_state 3 2 Examples.path3 {[1]}) ∧
   1 ∈ DCNP.removedNodes_ (Examples.dcnp_state 3 2 Examples.path3 {[1]}) ∧
   DCNP.removeNode 1 (Examples.dcnp_state 3 2 Examples.path3 {[1]})
   = Ok (Examples.dcnp_state 3 2 Examples.path3 {[1]})) ∧
  (0 < DCNP.numNodes_ (Examples.dcnp_state 3 2 Examples.path3 {[1]}) ∧
   0 ∉ DCNP.removedNodes_ (Examples.dcnp_state 3 2 Examples.path3 {[1]}) ∧
   DCNP.addNode 0 (Examples.dcnp_state 3 2 Examples.path3 {[1]})
   = Ok (Examples.dcnp_state 3 2 Examples.path3 {[1]})) ∧
  (CSpec.reachable (Examples.cnp_state 3 Examples.path3 {[1]}) ∧
   0 < CNP.numNodes_ (Examples.cnp_state 3 Examples.path3 {[1]}) ∧
   0 ∉ CNP.removedNodes (Examples.cnp_state 3 Examples.path3 {[1]}) ∧
   ∃ g', CNP.addNode 0 (Examples.cnp_state 3 Examples.path3 {[1]}) = Ok g') ∧
  (1 ∈ CNP.removedNodes (Examples.cnp_state 3 Examples.path3 {[1]}) ∧
   CNP.removeNode 1 (Examples.cnp_state 3 Examples.path3 {[1]})
   = Throw undefined_behaviour).
Proof.
  destruct contract_not_checked as (Hd1 & Hd2 & Hc1 & Hc2).
  assert (Hrd : DSpec.reachable (Examples.dcnp_state 3 2 Examples.path3 {[1]})).
  { apply (DSpec.reach_set_removed_all {[1]} (Examples.dcnp_built 3 2 Examples.path3)).
    - apply (DSpec.reach_build 3 2 Examples.path3 1 Examples.rng0).
      + apply path3_valid.
      + vm_compute. reflexivity.
    - vm_compute. reflexivity. }
  assert (Hremd : DCNP.removedNodes_ (Examples.dcnp_state 3 2 Examples.path3 {[1]})
                  = {[1]}) by (vm_compute; reflexivity).
  assert (Hrc : CSpec.reachable (Examples.cnp_state 3 Examples.path3 {[1]})).
  { apply (CSpec.reach_first 3 Examples.path3 1 Examples.rng0 0 {[1]}).
    - exact path3_valid.
    - intros v ->%elem_of_singleton. lia.
    - vm_compute. reflexivity. }
  assert (Hremc : CNP.removedNodes (Examples.cnp_state 3 Examples.path3 {[1]}) = {[1]})
    by (vm_compute; reflexivity).
  assert (H1d : 1 ∈ DCNP.removedNodes_ (Examples.dcnp_state 3 2 Examples.path3 {[1]}))
    by (rewrite Hremd; by apply elem_of_singleton).
  assert (H0d : 0 ∉ DCNP.removedNodes_ (Examples.dcnp_state 3 2 Examples.path3 {[1]}))
    by (rewrite Hremd; intros ?%elem_of_singleton; lia).
  assert (Hnd : 0 < DCNP.numNodes_ (Examples.dcnp_state 3 2 Examples.path3 {[1]}))
    by (vm_compute; lia).
  assert (H1c : 1 ∈ CNP.removedNodes (Examples.cnp_state 3 Examples.path3 {[1]}))
    by (rewrite Hremc; by apply elem_of_singleton).
  assert (H0c : 0 ∉ CNP.removedNodes (Examples.cnp_state 3 Examples.path3 {[1]}))
    by (rewrite Hremc; intros ?%elem_of_singleton; lia).
  assert (Hnc : 0 < CNP.numNodes_ (Examples.cnp_state 3 Examples.path3 {[1]}))
    by (vm_compute; lia).
  split; [|split; [|split]].
  - split; [exact Hrd|]. split; [exact H1d|]. exact (Hd1 _ 1 Hrd H1d).
  - split; [exact Hnd|]. split; [exact H0d|]. exact (Hd2 _ 0 Hrd Hnd H0d).
  - split; [exact Hrc|]. split; [exact Hnc|]. split; [exact H0c|].
    exact (Hc1 _ 0 Hrc Hnc H0c).
  - split; [exact H1c|]. exact (Hc2 _ 1 Hrc H1c).
Defined.

(** *** findBestNodeToRemove *)







Lemma generateIndex_returns (k : Z) r :
  (0 < k)%Z → ∃ idx r', Rng.generateIndex k r = Ok (idx, r') ∧ (0 ≤ idx < k)%Z.
Proof.
  intros Hk. unfold Rng.generateIndex, Rng.generateInt.
  rewrite decide_False by lia. rewrite decide_False by lia.
  destruct (Rng.next r) as [x r'] eqn:Hn. eexists _, _. split; [done|].
  pose proof (Z.mod_pos_bound (Z.of_nat x) (k - 1 - 0 + 1)). lia.
Qed.


(** *** C2 *)




(** ** The local-search strategies, the seeds and the betweenness buffer *)

(** *** C5 *)

(** C5: the documented rule decrements tie_count when the history slot that
    is overwritten held max_in_history.  [performMove] overwrites the slot
    first and then compares the slot with [maxCost], so it compares the new,
    smaller value: whenever the slot held [maxCost] and is overwritten by a
    smaller objective, [numMaxCost] stays as it was.  On the star with leaf 1
    removed, history [10; 10; 10; 10; 10], maxCost 10 and numMaxCost 5, the
    move that swaps the centre for the leaf brings the objective to 0, writes
    0 into slot 0, and leaves numMaxCost at 5 although only four slots hold
    10. *)
Theorem dlas_tie_count_not_decremented :
  (∀ currentObjValue previousObjValue historyIndex historyCost maxCost numMaxCost,
     historyIndex < length historyCost →
     (currentObjValue < historyCost !!! historyIndex)%Z →
     (currentObjValue < previousObjValue)%Z →
     historyCost !!! historyIndex = maxCost →
     numMaxCost ≠ 0%Z →
     DLAS.update_history currentObjValue previousObjValue historyIndex historyCost
       maxCost numMaxCost
     = (<[historyIndex := currentObjValue]> historyCost, maxCost, numMaxCost)) ∧
  ((λ '(h, obj, historyCost, maxCost, numMaxCost),
      (elements (GraphWrapper.getRemovedNodes h), obj, historyCost, maxCost, numMaxCost,
       length (filter (λ c, c = maxCost) historyCost)))
   <$> DLAS.performMove (GraphWrapper.Cnp Examples.star_state) 10
         [10; 10; 10; 10; 10]%Z 10 5 0)
  = Ok ([0], 0%Z, [0; 10; 10; 10; 10]%Z, 10%Z, 5%Z, 4).
Proof.
  split.
  - intros cur prev idx hist maxCost num Hidx Hlt Hprev Hmax Hnum.
    unfold DLAS.update_history.
    rewrite decide_False by lia. rewrite decide_True by done. cbv zeta.
    rewrite list_lookup_total_insert_eq by done.
    rewrite (decide_False (P := cur = maxCost)) by lia.
    by rewrite (decide_False (P := num = 0%Z)).
  - vm_compute. reflexivity.
Qed.

Lemma dlas_tie_count_not_decremented_witness :
  0 < length [10; 10; 10; 10; 10]%Z ∧
  (0 < [10; 10; 10; 10; 10] !!! 0%nat)%Z ∧ (0 < 10)%Z ∧
  [10; 10; 10; 10; 10]%Z !!! 0 = 10%Z ∧ 5%Z ≠ 0%Z ∧
  DLAS.update_history 0 10 0 [10; 10; 10; 10; 10]%Z 10 5
  = (<[0 := 0%Z]> [10; 10; 10; 10; 10]%Z, 10%Z, 5%Z).
Proof.
  destruct dlas_tie_count_not_decremented as [Hgen _].
  assert (H1 : 0 < length [10; 10; 10; 10; 10]%Z) by (simpl; lia).
  assert (H2 : (0 < [10; 10; 10; 10; 10] !!! 0%nat)%Z) by (simpl; lia).
  assert (H3 : (0 < 10)%Z) by lia.
  assert (H4 : [10; 10; 10; 10; 10]%Z !!! 0 = 10%Z) by reflexivity.
  assert (H5 : 5%Z ≠ 0%Z) by lia.
  split; [exact H1|]. split; [exact H2|]. split; [exact H3|]. split; [exact H4|].
  split; [exact H5|].
  exact (Hgen 0%Z 10%Z 0 [10; 10; 10; 10; 10]%Z 10%Z 5%Z H1 H2 H3 H4 H5).
Defined.

(** *** C7 *)

(** C7: the result of [calculateBetweennessCentrality] is accumulated in a
    [static] vector that is resized but never cleared, so it is not a
    function of the engine state: on the path 0 - 1 - 2 with K = 2 and no
    vertex removed, the first call returns [0; 2; 0] and a second call on the
    unchanged engine returns [0; 4; 0]; the same buffer serves every engine
    and every clone. *)
Theorem betweenness_accumulates_across_calls :
  (map Qred <$> Betweenness.calculateBetweennessCentrality
                  (Examples.dcnp_state 3 2 Examples.path3 ∅) [])
  = Ok [0%Q; 2%Q; 0%Q] ∧
  (map Qred <$> (first ← Betweenness.calculateBetweennessCentrality
                           (Examples.dcnp_state 3 2 Examples.path3 ∅) [];
                 Betweenness.calculateBetweennessCentrality
                   (Examples.dcnp_state 3 2 Examples.path3 ∅) first))
  = Ok [0%Q; 4%Q; 0%Q].
Proof. split; vm_compute; reflexivity. Qed.

(** *** C6 *)





(** ** The moves of CBNS and CHNS *)

(** *** States that differ only in the generator and the ages *)

Lemma same_structure_refl g : same_structure g g.
Proof. by repeat split. Qed.

Lemma same_structure_rng r g : same_structure g (CNP.set_rng_ r g).
Proof. by repeat split. Qed.

Lemma same_structure_age v age g : same_structure g (CNP.setNodeAge v age g).
Proof. by repeat split. Qed.

Lemma same_structure_trans g1 g2 g3 :
  same_structure g1 g2 → same_structure g2 g3 → same_structure g1 g3.
Proof.
  intros (?&?&?&?&?&?&?&?&?&?) (?&?&?&?&?&?&?&?&?&?).
  repeat split; congruence.
Qed.

Lemma same_structure_inv g g' : same_structure g g' → CSpec.inv g → CSpec.inv g'.
Proof.
  intros (Hn & Hns & Hcur & Horig & Hn2c & Hcomps & Hcp & Hep & He & Hrem) Hp.
  destruct Hp as [[[Hnodes Hsym Hirr Hlen Hel Hle Hpos] Hc Hr] Hpend Hdead Hlive Hcomp
                  Hclass Hpairs].
  split; [split; [split| |]|..]; rewrite ?Hn, ?Hns, ?Hcur, ?Horig, ?Hn2c, ?Hcomps, ?Hcp,
    ?Hep, ?He, ?Hrem; done.
Qed.

(** *** The selection routines return members *)

Lemma min_step_fold {A} (key : A → Z) (l : list A) :
  ∀ best cands,
  let r := foldl (CNPSelect.min_step key) (best, cands) l in
  (∀ x, x ∈ r.2 → x ∈ cands ∨ x ∈ l) ∧ (cands ≠ [] → r.2 ≠ []).
Proof.
  induction l as [|a l IH]; intros best cands; cbn [foldl].
  { split; [by left | done]. }
  unfold CNPSelect.min_step at 2 4.
  destruct (decide (key a < best)%Z).
  - destruct (IH (key a) [a]) as [H1 H2]. split.
    + intros x Hx. right. destruct (H1 x Hx) as [->%list_elem_of_singleton|?];
        [by left | by right].
    + intros _. by apply H2.
  - destruct (decide (key a = best)).
    + destruct (IH best (cands ++ [a])) as [H1 H2]. split.
      * intros x Hx. destruct (H1 x Hx) as [[?| ->%list_elem_of_singleton]%elem_of_app|?];
          [by left | right; by left | right; by right].
      * intros _. apply H2. by destruct cands.
    + destruct (IH best cands) as [H1 H2]. split; [|done].
      intros x Hx. destruct (H1 x Hx) as [?|?]; [by left | right; by right].
Qed.

Lemma pick_candidate_spec l g x g' :
  CNPSelect.pick_candidate l g = Ok (x, g') → x ∈ l ∧ same_structure g g'.
Proof.
  unfold CNPSelect.pick_candidate. destruct (decide (length l = 1)) as [H1|H1].
  - intros [= <- <-]. split; [|apply same_structure_refl].
    destruct l as [|a [|b l]]; try done. by left.
  - destruct (decide (0 < Z.of_nat (length l))%Z) as [Hpos|Hz].
    + destruct (generateIndex_returns (Z.of_nat (length l)) (CNP.rng_ g) Hpos)
        as (idx & r & Hgen & Hrange).
      rewrite Hgen. cbn [mbind result_bind]. intros [= <- <-].
      split; [|apply same_structure_rng].
      apply list_elem_of_lookup_2 with (Z.to_nat idx).
      apply list_lookup_lookup_total_lt. lia.
    + unfold Rng.generateIndex. by rewrite decide_True by lia.
Qed.

Lemma pick_candidate_returns l g :
  l ≠ [] → ∃ x g', CNPSelect.pick_candidate l g = Ok (x, g').
Proof.
  intros Hl. unfold CNPSelect.pick_candidate.
  destruct (decide (length l = 1)); [eauto|].
  destruct (generateIndex_returns (Z.of_nat (length l)) (CNP.rng_ g))
    as (idx & r & Hgen & _); [destruct l; [done | simpl; lia]|].
  rewrite Hgen. cbn [mbind result_bind]. eauto.
Qed.

(** The component behind an index that a selection routine accepted. *)
Lemma accepted_component g ci :
  CSpec.inv g → (0 ≤ ci)%Z →
  CNP.size (CNP.connectedComponents_ g !!! Z.to_nat ci) ≠ 0 →
  CNP.connectedComponents_ g !! Z.to_nat ci
  = Some (CNP.connectedComponents_ g !!! Z.to_nat ci) ∧
  CNP.size (CNP.connectedComponents_ g !!! Z.to_nat ci)
  = length (CNP.nodes (CNP.connectedComponents_ g !!! Z.to_nat ci)).
Proof.
  intros Hp Hci Hsz.
  destruct (CNP.connectedComponents_ g !! Z.to_nat ci) as [comp|] eqn:Hc.
  - rewrite (list_lookup_total_correct _ _ _ Hc). split; [done|].
    by destruct (CSpec.p_comp g ∅ Hp _ comp Hc) as (? & _).
  - exfalso. apply Hsz. by rewrite list_lookup_total_alt, Hc.
Qed.

Lemma member_live g c comp i :
  CSpec.inv g → CNP.connectedComponents_ g !! c = Some comp →
  i < length (CNP.nodes comp) →
  CNP.nodes comp !!! i < CNP.numNodes_ g ∧ CNP.nodes comp !!! i ∉ CNP.removedNodes g.
Proof.
  intros Hp Hc Hi.
  assert (Hin : CNP.nodes comp !!! i ∈ CNP.nodes comp).
  { apply list_elem_of_lookup_2 with i. by apply list_lookup_lookup_total_lt. }
  by destruct (pinv_member_comp g ∅ c comp _ Hp Hc Hin) as (? & ? & _).
Qed.

Lemma ageSelect_spec g ci x g' :
  CSpec.inv g →
  CNPSelect.ageSelectNodeFromComponent ci g = Ok (x, g') →
  x < CNP.numNodes_ g ∧ x ∉ CNP.removedNodes g ∧ same_structure g g'.
Proof.
  intros Hp. unfold CNPSelect.ageSelectNodeFromComponent.
  destruct (decide (ci < 0)%Z); [done|].
  destruct (decide (CNP.size _ = 0)) as [|Hsz]; [done|]. cbv zeta.
  destruct (accepted_component g ci Hp) as [Hc Hlen]; [lia | done |].
  set (comp := CNP.connectedComponents_ g !!! Z.to_nat ci) in *.
  pose proof (min_step_fold (λ node, CNP.nodeAge_ g !!! node)
                ((λ i, CNP.nodes comp !!! i) <$> seq 1 (CNP.size comp - 1))
                (CNP.nodeAge_ g !!! (CNP.nodes comp !!! 0)) [CNP.nodes comp !!! 0])
    as [Hsub _].
  destruct (foldl _ _ _) as [best cands]. cbn [snd] in Hsub.
  intros Hpick. apply pick_candidate_spec in Hpick as [Hx Hs].
  split; [|split; [|done]].
  - destruct (Hsub x Hx) as [->%list_elem_of_singleton|Hin].
    + apply (member_live g _ comp 0 Hp Hc). lia.
    + apply list_elem_of_fmap in Hin as (i & -> & Hi%elem_of_seq).
      apply (member_live g _ comp i Hp Hc). lia.
  - destruct (Hsub x Hx) as [->%list_elem_of_singleton|Hin].
    + apply (member_live g _ comp 0 Hp Hc). lia.
    + apply list_elem_of_fmap in Hin as (i & -> & Hi%elem_of_seq).
      apply (member_live g _ comp i Hp Hc). lia.
Qed.

Lemma impactSelect_spec g ci x g' :
  CSpec.inv g →
  CNPSelect.impactSelectNodeFromComponent ci g = Ok (x, g') →
  x < CNP.numNodes_ g ∧ x ∉ CNP.removedNodes g ∧ same_structure g g'.
Proof.
  intros Hp. unfold CNPSelect.impactSelectNodeFromComponent.
  destruct (decide (ci < 0)%Z); [done|].
  destruct (decide (CNP.size _ = 0)) as [|Hsz]; [done|]. cbv zeta.
  destruct (accepted_component g ci Hp) as [Hc Hlen]; [lia | done |].
  set (comp := CNP.connectedComponents_ g !!! Z.to_nat ci) in *.
  destruct (CNPSelect.tarjanInComponent _ _ _ _ _ _) as [t|]; [|done].
  cbn [mbind result_bind].
  pose proof (min_step_fold (CNPSelect.currentImpact t) (seq 1 (CNP.size comp))
                DCNP.INT_MAX []) as [Hsub _].
  destruct (foldl _ _ _) as [best cands]. cbn [snd] in Hsub.
  intros Hpick. apply pick_candidate_spec in Hpick as [Hx Hs].
  apply list_elem_of_fmap in Hx as (i & -> & Hi).
  destruct (Hsub i Hi) as [[]%elem_of_nil|Hin%elem_of_seq].
  split; [|split; [|done]]; apply (member_live g _ comp (i - 1) Hp Hc); lia.
Qed.

Lemma greedySelect_spec g :
  CNP.removedNodes g ≠ ∅ →
  ∃ w g', CNPSelect.greedySelectNodeToAdd g = Ok (w, g') ∧
          w ∈ CNP.removedNodes g ∧ same_structure g g'.
Proof.
  intros Hne. unfold CNPSelect.greedySelectNodeToAdd.
  destruct (elements (CNP.removedNodes g)) as [|firstNode rest] eqn:Hel.
  { apply elements_empty_inv in Hel. exfalso. apply Hne. by apply leibniz_equiv. }
  pose proof (min_step_fold (CNPSelect.calculateConnectionGain g) rest
                (CNPSelect.calculateConnectionGain g firstNode) [firstNode])
    as [Hsub Hnonempty].
  destruct (foldl _ _ _) as [best cands]. cbn [snd] in Hsub, Hnonempty.
  destruct (pick_candidate_returns cands g) as (w & g' & Hpick); [by apply Hnonempty|].
  exists w, g'. split; [done|]. apply pick_candidate_spec in Hpick as [Hw Hs].
  split; [|done]. apply elem_of_elements. rewrite Hel.
  destruct (Hsub w Hw) as [->%list_elem_of_singleton|?]; [by left | by right].
Qed.

Lemma selectRemovedLargerComponent_frame g ci g1 :
  CNPSelect.selectRemovedLargerComponent g = Ok (ci, g1) → same_structure g g1.
Proof.
  unfold CNPSelect.selectRemovedLargerComponent. cbv zeta.
  destruct (CNPSelect.largeComponents _) as [|a [|b l]].
  - destruct (CNPSelect.fallback_largest _) as [fi fs].
    destruct (decide (fs = 0)); [done|]. intros [= <- <-]. apply same_structure_refl.
  - destruct (Rng.generateBool _ _) as [b r]. intros [= <- <-]. apply same_structure_rng.
  - destruct (Rng.generateIndex _ _) as [[idx r]|]; [|done].
    cbn [mbind result_bind]. intros [= <- <-]. apply same_structure_rng.
Qed.

Lemma selectRemovedComponent_frame g ci g1 :
  CNPSelect.selectRemovedComponent g = Ok (ci, g1) → same_structure g g1.
Proof.
  unfold CNPSelect.selectRemovedComponent. cbv zeta.
  destruct (decide (50 < length (CNP.connectedComponents_ g)));
    [apply selectRemovedLargerComponent_frame|].
  destruct (CNPSelect.size_range _ _) as [minSize maxSize].
  destruct (Rng.generateIndex 3 (CNP.rng_ g)) as [[r3 r]|]; [|done].
  cbn [mbind result_bind].
  destruct (filter _ _) as [|a l].
  - destruct (CNPSelect.fallback_largest _) as [fi fs].
    destruct (decide (fs = 0)); [done|]. intros [= <- <-]. apply same_structure_rng.
  - destruct (Rng.generateIndex _ _) as [[idx r']|]; [|done].
    cbn [mbind result_bind]. intros [= <- <-]. by repeat split.
Qed.

(** *** Removing the selected vertex and adding one back *)

Lemma swap_back_spec g x steps :
  CSpec.inv g → x < CNP.numNodes_ g → x ∉ CNP.removedNodes g →
  ∃ g3 w g5 g6,
    GraphWrapper.removeNode x (GraphWrapper.Cnp g) = Ok (GraphWrapper.Cnp g3) ∧
    CNP.removedNodes g3 = CNP.removedNodes g ∪ {[x]} ∧
    GraphWrapper.greedySelectNodeToAdd
      (GraphWrapper.setNodeAge x steps (GraphWrapper.Cnp g3))
    = Ok (Z.of_nat w, GraphWrapper.Cnp g5) ∧
    GraphWrapper.addNode w (GraphWrapper.Cnp g5) = Ok (GraphWrapper.Cnp g6) ∧
    w ∈ CNP.removedNodes g ∪ {[x]} ∧
    CSpec.inv g6 ∧
    CNP.numNodes_ g6 = CNP.numNodes_ g ∧
    CNP.removedNodes g6 = (CNP.removedNodes g ∪ {[x]}) ∖ {[w]} ∧
    base.size (CNP.removedNodes g6) = base.size (CNP.removedNodes g).
Proof.
  intros Hp Hx Hlive.
  destruct (cnp_removeNode_spec g x Hp Hx Hlive)
    as (g3 & c & comp & _ & _ & Hrm & Hp3 & Hn3 & Hr3 & _).
  set (g4 := CNP.setNodeAge x steps g3).
  assert (Hp4 : CSpec.inv g4)
    by exact (same_structure_inv g3 g4 (same_structure_age x steps g3) Hp3).
  destruct (greedySelect_spec g4) as (w & g5 & Hgreedy & Hw & Hs5).
  { change (CNP.removedNodes g4) with (CNP.removedNodes g3). rewrite Hr3. set_solver. }
  change (CNP.removedNodes g4) with (CNP.removedNodes g3) in Hw.
  assert (Hs35 : same_structure g3 g5)
    by exact (same_structure_trans g3 g4 g5 (same_structure_age x steps g3) Hs5).
  pose proof (same_structure_inv g3 g5 Hs35 Hp3) as Hp5.
  destruct Hs35 as (Hn5 & _ & _ & _ & _ & _ & _ & _ & _ & Hr5).
  destruct (cnp_addNode_spec g5 w Hp5) as (g6 & Hadd & Hp6 & Hn6 & Hr6 & _).
  { apply (inv_removed_range g5 w Hp5). by rewrite Hr5. }
  { by rewrite Hr5. }
  exists g3, w, g5, g6. split; [by simpl; rewrite Hrm|]. split; [done|].
  split; [by simpl; fold g4; rewrite Hgreedy|]. split; [by simpl; rewrite Hadd|].
  assert (Hrem6 : CNP.removedNodes g6 = (CNP.removedNodes g ∪ {[x]}) ∖ {[w]})
    by (by rewrite Hr6, Hr5, Hr3).
  split; [by rewrite <- Hr3|]. split; [done|]. split; [by rewrite Hn6, Hn5, Hn3|].
  split; [done|]. rewrite Hrem6.
  rewrite size_difference by (apply singleton_subseteq_l; by rewrite <- Hr3).
  rewrite size_union by set_solver. rewrite !size_singleton. lia.
Qed.

(** *** One move *)

(** *** What the selection routines raise *)

Lemma generateIndex_raises k r e :
  Rng.generateIndex k r = Throw e → e = invalid_argument.
Proof.
  unfold Rng.generateIndex, Rng.generateInt.
  destruct (decide (k ≤ 0)%Z); [by intros [= <-]|].
  destruct (decide (0 > k - 1)%Z); [by intros [= <-]|]. by destruct (Rng.next r).
Qed.

Lemma pick_candidate_raises l g e :
  CNPSelect.pick_candidate l g = Throw e → e = invalid_argument.
Proof.
  unfold CNPSelect.pick_candidate. destruct (decide (length l = 1)); [done|].
  destruct (Rng.generateIndex _ _) as [[idx r]|e'] eqn:Hgen; [done|].
  cbn [mbind result_bind]. intros [= <-]. by apply generateIndex_raises in Hgen.
Qed.

Lemma selectRemovedLargerComponent_raises g e :
  CNPSelect.selectRemovedLargerComponent g = Throw e → e ≠ out_of_fuel.
Proof.
  unfold CNPSelect.selectRemovedLargerComponent. cbv zeta.
  destruct (CNPSelect.largeComponents _) as [|a [|b l]].
  - destruct (CNPSelect.fallback_largest _) as [fi fs].
    destruct (decide (fs = 0)); [by intros [= <-]|done].
  - by destruct (Rng.generateBool _ _) as [b r].
  - destruct (Rng.generateIndex _ _) as [[idx r]|e'] eqn:Hgen; [done|].
    cbn [mbind result_bind]. intros [= <-]. by apply generateIndex_raises in Hgen as ->.
Qed.

Lemma selectRemovedComponent_raises g e :
  CNPSelect.selectRemovedComponent g = Throw e → e ≠ out_of_fuel.
Proof.
  unfold CNPSelect.selectRemovedComponent. cbv zeta.
  destruct (decide (50 < length (CNP.connectedComponents_ g)));
    [apply selectRemovedLargerComponent_raises|].
  destruct (CNPSelect.size_range _ _) as [minSize maxSize].
  destruct (Rng.generateIndex 3 (CNP.rng_ g)) as [[r3 r]|e'] eqn:Hgen;
    [|cbn [mbind result_bind]; intros [= <-]; by apply generateIndex_raises in Hgen as ->].
  cbn [mbind result_bind].
  destruct (filter _ _) as [|a l].
  - destruct (CNPSelect.fallback_largest _) as [fi fs].
    destruct (decide (fs = 0)); [by intros [= <-]|done].
  - destruct (Rng.generateIndex (Z.of_nat (length (a :: l))) _)
      as [[idx r']|e'] eqn:Hgen'; cbn [mbind result_bind]; [done|].
    intros [= <-]. by apply generateIndex_raises in Hgen' as ->.
Qed.

Lemma ageSelect_raises ci g e :
  CNPSelect.ageSelectNodeFromComponent ci g = Throw e → e ≠ out_of_fuel.
Proof.
  unfold CNPSelect.ageSelectNodeFromComponent.
  destruct (decide (ci < 0)%Z); [by intros [= <-]|].
  destruct (decide (CNP.size _ = 0)); [by intros [= <-]|]. cbv zeta.
  destruct (foldl _ _ _) as [best cands]. by intros ->%pick_candidate_raises.
Qed.

(** *** One move of the component-based neighbourhood search *)

Lemma cbns_move_spec g steps :
  CSpec.inv g →
  (∀ h obj, CBNS.performMove (GraphWrapper.Cnp g) steps = Ok (h, obj) →
     ∃ g', h = GraphWrapper.Cnp g' ∧ obj = CNP.getObjectiveValue g' ∧ CSpec.inv g' ∧
           CNP.numNodes_ g' = CNP.numNodes_ g ∧
           base.size (CNP.removedNodes g') = base.size (CNP.removedNodes g)) ∧
  (∀ ci g1 x g2,
     CNPSelect.selectRemovedComponent g = Ok (ci, g1) →
     CNPSelect.ageSelectNodeFromComponent ci g1 = Ok (x, g2) →
     ∃ h obj, CBNS.performMove (GraphWrapper.Cnp g) steps = Ok (h, obj)) ∧
  (∀ e, CBNS.performMove (GraphWrapper.Cnp g) steps = Throw e → e ≠ out_of_fuel).
Proof.
  intros Hp.
  assert (Hmain : ∀ ci g1 x g2,
            CNPSelect.selectRemovedComponent g = Ok (ci, g1) →
            CNPSelect.ageSelectNodeFromComponent ci g1 = Ok (x, g2) →
            ∃ g', CBNS.performMove (GraphWrapper.Cnp g) steps
                  = Ok (GraphWrapper.Cnp g', CNP.getObjectiveValue g') ∧
                  CSpec.inv g' ∧ CNP.numNodes_ g' = CNP.numNodes_ g ∧
                  base.size (CNP.removedNodes g') = base.size (CNP.removedNodes g)).
  { intros ci g1 x g2 Hsel Hage.
    pose proof (selectRemovedComponent_frame g ci g1 Hsel) as Hs1.
    pose proof (same_structure_inv g g1 Hs1 Hp) as Hp1.
    destruct (ageSelect_spec g1 ci x g2 Hp1 Hage) as (Hx & Hxl & Hs2).
    pose proof (same_structure_inv g1 g2 Hs2 Hp1) as Hp2.
    destruct (same_structure_trans g g1 g2 Hs1 Hs2) as (Hn2 & _ & _ & _ & _ & _ & _ & _ & _ & Hr2).
    destruct Hs1 as (Hn1 & _ & _ & _ & _ & _ & _ & _ & _ & Hr1).
    destruct (swap_back_spec g2 x steps Hp2)
      as (g3 & w & g5 & g6 & Hrm & _ & Hgr & Hadd & _ & Hp6 & Hn6 & _ & Hsz6).
    { rewrite Hn2, <- Hn1. done. }
    { rewrite Hr2, <- Hr1. done. }
    exists (CNP.setNodeAge w steps g6). split; [|split; [|split]].
    - unfold CBNS.performMove.
      cbn [GraphWrapper.selectRemovedComponent]. unfold GraphWrapper.lift_cnp.
      rewrite Hsel. cbn [mbind result_bind GraphWrapper.ageSelectNodeFromComponent].
      unfold GraphWrapper.lift_cnp.
      rewrite Hage. cbn [mbind result_bind].
      rewrite Hrm. cbn [mbind result_bind]. rewrite Hgr. cbn [mbind result_bind].
      rewrite decide_True by (unfold INVALID_NODE; lia).
      rewrite Nat2Z.id, Hadd. done.
    - by apply (same_structure_inv g6), Hp6; apply same_structure_age.
    - change (CNP.numNodes_ (CNP.setNodeAge w steps g6)) with (CNP.numNodes_ g6).
      by rewrite Hn6, Hn2.
    - change (CNP.removedNodes (CNP.setNodeAge w steps g6)) with (CNP.removedNodes g6).
      by rewrite Hsz6, Hr2. }
  assert (Hcase : ∀ r, CBNS.performMove (GraphWrapper.Cnp g) steps = r →
            (∃ g', r = Ok (GraphWrapper.Cnp g', CNP.getObjectiveValue g') ∧
                   CSpec.inv g' ∧ CNP.numNodes_ g' = CNP.numNodes_ g ∧
                   base.size (CNP.removedNodes g') = base.size (CNP.removedNodes g)) ∨
            (∃ e, r = Throw e ∧ e ≠ out_of_fuel)).
  { intros r Hmove.
    destruct (CNPSelect.selectRemovedComponent g) as [[ci g1]|e] eqn:Hsel.
    - destruct (CNPSelect.ageSelectNodeFromComponent ci g1) as [[x g2]|e] eqn:Hage.
      + left. destruct (Hmain ci g1 x g2 eq_refl Hage) as (g' & Heq & Hrest).
        rewrite Heq in Hmove. subst r. by exists g'.
      + right. exists e. split; [|by apply (ageSelect_raises ci g1)].
        unfold CBNS.performMove in Hmove.
        cbn [GraphWrapper.selectRemovedComponent] in Hmove.
        unfold GraphWrapper.lift_cnp in Hmove.
        rewrite Hsel in Hmove.
        cbn [mbind result_bind GraphWrapper.ageSelectNodeFromComponent] in Hmove.
        unfold GraphWrapper.lift_cnp in Hmove.
        by rewrite Hage in Hmove.
    - right. exists e. split; [|by apply (selectRemovedComponent_raises g)].
      unfold CBNS.performMove in Hmove.
      cbn [GraphWrapper.selectRemovedComponent] in Hmove.
      unfold GraphWrapper.lift_cnp in Hmove.
      by rewrite Hsel in Hmove. }
  split; [|split].
  - intros h obj Hmove.
    destruct (Hcase _ Hmove) as [(g' & [= -> ->] & Hrest)|(e & ? & _)]; [|done].
    by exists g'.
  - intros ci g1 x g2 Hsel Hage. destruct (Hmain ci g1 x g2 Hsel Hage) as (g' & Heq & _).
    eauto.
  - intros e Hmove. by destruct (Hcase _ Hmove) as [(g' & ? & _)|(e' & [= ->] & ?)].
Qed.

(** *** The articulation-point search returns

    Every recursive call of [tarjanInComponent] stamps an index whose [dfn_]
    entry was still zero, so the depth of the recursion is bounded by the
    number of zero entries. *)

Lemma zeros_insert d k x :
  d !! k = Some 0%Z → x ≠ 0%Z → zeros (<[k := x]> d) + 1 = zeros d.
Proof.
  revert k. induction d as [|a d IH]; intros [|k] Hk Hx; try done.
  - injection Hk as ->. unfold zeros.
    change (<[0 := x]> (0%Z :: d)) with (x :: d).
    rewrite filter_cons_False by done. rewrite filter_cons_True by done. simpl. lia.
  - simpl in Hk. specialize (IH k Hk Hx). unfold zeros in *.
    change (<[S k := x]> (a :: d)) with (a :: <[k := x]> d).
    rewrite !filter_cons. destruct (decide (a = 0%Z)); simpl; lia.
Qed.

Lemma unstamped_lookup (d : list Z) k : d !!! k = 0%Z → d !! k = Some 0%Z.
Proof.
  rewrite list_lookup_total_alt. destruct (d !! k) as [x|]; simpl; [by intros ->|done].
Qed.

Lemma tarjan_after_child_stamps nodeIdx neighborIdx t :
  CNPSelect.dfn_ (CNPSelect.tarjan_after_child nodeIdx neighborIdx t) = CNPSelect.dfn_ t ∧
  CNPSelect.timeStamp_ (CNPSelect.tarjan_after_child nodeIdx neighborIdx t)
  = CNPSelect.timeStamp_ t.
Proof.
  unfold CNPSelect.tarjan_after_child. cbv zeta.
  repeat (destruct (decide _)); done.
Qed.

Lemma tarjan_returns g ci nodeToIdx fuel : ∀ nodeIdx t,
  (0 ≤ CNPSelect.timeStamp_ t)%Z →
  CNPSelect.dfn_ t !!! nodeIdx = 0%Z →
  zeros (CNPSelect.dfn_ t) ≤ fuel →
  ∃ t', CNPSelect.tarjanInComponent fuel g ci nodeToIdx nodeIdx t = Ok t' ∧
        (0 ≤ CNPSelect.timeStamp_ t')%Z ∧
        zeros (CNPSelect.dfn_ t') < zeros (CNPSelect.dfn_ t).
Proof.
  induction fuel as [|fuel IH]; intros nodeIdx t Hts Hz Hf.
  - apply unstamped_lookup in Hz.
    pose proof (zeros_insert (CNPSelect.dfn_ t) nodeIdx 1%Z Hz). lia.
  - cbn [CNPSelect.tarjanInComponent]. cbv zeta.
    apply unstamped_lookup in Hz.
    pose proof (zeros_insert (CNPSelect.dfn_ t) nodeIdx (CNPSelect.timeStamp_ t + 1)%Z Hz)
      as Hins.
    set (t0 := CNPSelect.mkTarjan _ _ _ _ _ _ _ _).
    assert (Hts0 : (0 ≤ CNPSelect.timeStamp_ t0)%Z) by (simpl; lia).
    assert (Hz0 : zeros (CNPSelect.dfn_ t0) ≤ fuel) by (simpl; lia).
    assert (Hlt : zeros (CNPSelect.dfn_ t0) < zeros (CNPSelect.dfn_ t)) by (simpl; lia).
    clearbody t0. clear Hins Hz.
    generalize (elements (CNP.currentAdjList_ g
       !!! (CNP.nodes (CNP.connectedComponents_ g !!! Z.to_nat ci) !!! (nodeIdx - 1)))).
    intros l. revert t0 Hts0 Hz0 Hlt.
    induction l as [|neighbor l IHl]; intros t0 Hts0 Hz0 Hlt.
    + exists t0. done.
    + cbn [foldlM].
      destruct (negb (CNP.isNodeRemoved g neighbor)
                && bool_decide (CNP.nodeToComponentIndex_ g !!! neighbor = ci)).
      * destruct (decide (CNPSelect.dfn_ t0 !!! Z.to_nat (nodeToIdx !!! neighbor + 1) = 0%Z))
          as [Hun|Hst].
        -- destruct (IH _ t0 Hts0 Hun Hz0) as (t1 & -> & Hts1 & Hz1).
           cbn [mbind result_bind].
           destruct (tarjan_after_child_stamps nodeIdx
                       (Z.to_nat (nodeToIdx !!! neighbor + 1)) t1) as [Hd Ht].
           apply IHl; rewrite ?Hd, ?Ht; [done | lia | lia].
        -- cbn [mbind result_bind]. by apply IHl.
      * cbn [mbind result_bind]. by apply IHl.
Qed.

Lemma zeros_replicate n : zeros (replicate n 0%Z) = n.
Proof.
  unfold zeros. induction n as [|n IH]; [done|].
  cbn [replicate]. rewrite filter_cons_True by done. simpl. by rewrite IH.
Qed.

Lemma impactSelect_raises ci g e :
  CNPSelect.impactSelectNodeFromComponent ci g = Throw e → e ≠ out_of_fuel.
Proof.
  unfold CNPSelect.impactSelectNodeFromComponent.
  destruct (decide (ci < 0)%Z); [by intros [= <-]|].
  destruct (decide (CNP.size _ = 0)) as [|Hsz]; [by intros [= <-]|]. cbv zeta.
  set (sz := CNP.size (CNP.connectedComponents_ g !!! Z.to_nat ci)) in *.
  set (t0 := CNPSelect.mkTarjan _ _ _ _ _ _ _ _).
  destruct (tarjan_returns g ci
              (foldl (λ m i, <[CNP.nodes (CNP.connectedComponents_ g !!! Z.to_nat ci) !!! i
                               := Z.of_nat i]> m)
                 (replicate (CNP.numNodes_ g) (-1)%Z) (seq 0 sz))
              (S sz) CNPSelect.nodeRoot_ t0) as (t & -> & _).
  - done.
  - unfold t0. cbn [CNPSelect.dfn_]. apply lookup_total_replicate_2.
    unfold CNPSelect.nodeRoot_. lia.
  - unfold t0. cbn [CNPSelect.dfn_]. rewrite zeros_replicate. lia.
  - cbn [mbind result_bind]. destruct (foldl _ _ _) as [best cands].
    by intros ->%pick_candidate_raises.
Qed.

(** *** One move of the component-based hybrid neighbourhood search *)

Lemma chns_move_spec theta rng g steps :
  CSpec.inv g →
  (∀ h obj r, CHNS.performMove theta rng (GraphWrapper.Cnp g) steps = Ok (h, obj, r) →
     ∃ g', h = GraphWrapper.Cnp g' ∧ obj = CNP.getObjectiveValue g' ∧ CSpec.inv g' ∧
           CNP.numNodes_ g' = CNP.numNodes_ g ∧
           base.size (CNP.removedNodes g') = base.size (CNP.removedNodes g)) ∧
  (∀ ci g1 x g2,
     CNPSelect.selectRemovedComponent g = Ok (ci, g1) →
     (if negb (Qle_bool theta (Rng.generateProbability rng).1)
      then CNPSelect.impactSelectNodeFromComponent ci g1
      else CNPSelect.ageSelectNodeFromComponent ci g1) = Ok (x, g2) →
     ∃ h obj r, CHNS.performMove theta rng (GraphWrapper.Cnp g) steps = Ok (h, obj, r)) ∧
  (∀ e, CHNS.performMove theta rng (GraphWrapper.Cnp g) steps = Throw e → e ≠ out_of_fuel).
Proof.
  intros Hp.
  assert (Hwrap : ∀ ci g1,
            (if negb (Qle_bool theta (Rng.generateProbability rng).1)
             then GraphWrapper.impactSelectNodeFromComponent ci (GraphWrapper.Cnp g1)
             else GraphWrapper.ageSelectNodeFromComponent ci (GraphWrapper.Cnp g1))
            = GraphWrapper.lift_cnp
                (if negb (Qle_bool theta (Rng.generateProbability rng).1)
                 then CNPSelect.impactSelectNodeFromComponent ci g1
                 else CNPSelect.ageSelectNodeFromComponent ci g1)).
  { intros ci g1. by destruct (negb _). }
  assert (Hmain : ∀ ci g1 x g2,
            CNPSelect.selectRemovedComponent g = Ok (ci, g1) →
            (if negb (Qle_bool theta (Rng.generateProbability rng).1)
             then CNPSelect.impactSelectNodeFromComponent ci g1
             else CNPSelect.ageSelectNodeFromComponent ci g1) = Ok (x, g2) →
            ∃ g', CHNS.performMove theta rng (GraphWrapper.Cnp g) steps
                  = Ok (GraphWrapper.Cnp g', CNP.getObjectiveValue g',
                        (Rng.generateProbability rng).2) ∧
                  CSpec.inv g' ∧ CNP.numNodes_ g' = CNP.numNodes_ g ∧
                  base.size (CNP.removedNodes g') = base.size (CNP.removedNodes g)).
  { intros ci g1 x g2 Hsel Hnode.
    pose proof (selectRemovedComponent_frame g ci g1 Hsel) as Hs1.
    pose proof (same_structure_inv g g1 Hs1 Hp) as Hp1.
    assert (Hspec : x < CNP.numNodes_ g1 ∧ x ∉ CNP.removedNodes g1 ∧ same_structure g1 g2).
    { destruct (negb _); [by apply (impactSelect_spec g1 ci) | by apply (ageSelect_spec g1 ci)]. }
    destruct Hspec as (Hx & Hxl & Hs2).
    pose proof (same_structure_inv g1 g2 Hs2 Hp1) as Hp2.
    destruct (same_structure_trans g g1 g2 Hs1 Hs2) as (Hn2 & _ & _ & _ & _ & _ & _ & _ & _ & Hr2).
    destruct Hs1 as (Hn1 & _ & _ & _ & _ & _ & _ & _ & _ & Hr1).
    destruct (swap_back_spec g2 x steps Hp2)
      as (g3 & w & g5 & g6 & Hrm & _ & Hgr & Hadd & _ & Hp6 & Hn6 & _ & Hsz6).
    { rewrite Hn2, <- Hn1. done. }
    { rewrite Hr2, <- Hr1. done. }
    exists (CNP.setNodeAge w steps g6). split; [|split; [|split]].
    - unfold CHNS.performMove.
      cbn [GraphWrapper.selectRemovedComponent]. unfold GraphWrapper.lift_cnp at 1.
      rewrite Hsel. cbn [mbind result_bind].
      destruct (Rng.generateProbability rng) as [p rng'] eqn:Hprob.
      cbn [fst snd] in *. rewrite Hwrap, Hnode. unfold GraphWrapper.lift_cnp.
      cbn [mbind result_bind].
      rewrite Hrm. cbn [mbind result_bind]. rewrite Hgr. cbn [mbind result_bind].
      rewrite decide_True by (unfold INVALID_NODE; lia).
      rewrite Nat2Z.id, Hadd. done.
    - by apply (same_structure_inv g6), Hp6; apply same_structure_age.
    - change (CNP.numNodes_ (CNP.setNodeAge w steps g6)) with (CNP.numNodes_ g6).
      by rewrite Hn6, Hn2.
    - change (CNP.removedNodes (CNP.setNodeAge w steps g6)) with (CNP.removedNodes g6).
      by rewrite Hsz6, Hr2. }
  assert (Hcase : ∀ r, CHNS.performMove theta rng (GraphWrapper.Cnp g) steps = r →
            (∃ g' rng', r = Ok (GraphWrapper.Cnp g', CNP.getObjectiveValue g', rng') ∧
                   CSpec.inv g' ∧ CNP.numNodes_ g' = CNP.numNodes_ g ∧
                   base.size (CNP.removedNodes g') = base.size (CNP.removedNodes g)) ∨
            (∃ e, r = Throw e ∧ e ≠ out_of_fuel)).
  { intros r Hmove.
    destruct (CNPSelect.selectRemovedComponent g) as [[ci g1]|e] eqn:Hsel.
    - destruct (if negb (Qle_bool theta (Rng.generateProbability rng).1)
                then CNPSelect.impactSelectNodeFromComponent ci g1
                else CNPSelect.ageSelectNodeFromComponent ci g1) as [[x g2]|e] eqn:Hnode.
      + left. destruct (Hmain ci g1 x g2 eq_refl Hnode) as (g' & Heq & Hrest).
        rewrite Heq in Hmove. subst r. by exists g', (Rng.generateProbability rng).2.
      + right. exists e. split.
        * unfold CHNS.performMove in Hmove.
          cbn [GraphWrapper.selectRemovedComponent] in Hmove.
          unfold GraphWrapper.lift_cnp at 1 in Hmove.
          rewrite Hsel in Hmove. cbn [mbind result_bind] in Hmove.
          destruct (Rng.generateProbability rng) as [p rng'] eqn:Hprob.
          cbn [fst snd] in *. rewrite Hwrap, Hnode in Hmove.
          unfold GraphWrapper.lift_cnp in Hmove. by cbn [mbind result_bind] in Hmove.
        * destruct (negb _);
            [by apply (impactSelect_raises ci g1) | by apply (ageSelect_raises ci g1)].
    - right. exists e. split; [|by apply (selectRemovedComponent_raises g)].
      unfold CHNS.performMove in Hmove.
      cbn [GraphWrapper.selectRemovedComponent] in Hmove.
      unfold GraphWrapper.lift_cnp at 1 in Hmove.
      by rewrite Hsel in Hmove. }
  split; [|split].
  - intros h obj r Hmove.
    destruct (Hcase _ Hmove) as [(g' & rng' & [= -> -> ->] & Hrest)|(e & ? & _)]; [|done].
    by exists g'.
  - intros ci g1 x g2 Hsel Hnode. destruct (Hmain ci g1 x g2 Hsel Hnode) as (g' & Heq & _).
    eauto.
  - intros e Hmove. by destruct (Hcase _ Hmove) as [(g' & ? & ? & _)|(e' & [= ->] & ?)].
Qed.

(** *** The search loops *)

Lemma comp_pairs_nonneg comps : (0 ≤ CSpec.comp_pairs comps)%Z.
Proof.
  induction comps as [|c comps IH]; simpl; [done|]. unfold CNP.pairs. lia.
Qed.

Lemma inv_objective_nonneg g : CSpec.inv g → (0 ≤ CNP.getObjectiveValue g)%Z.
Proof.
  intros Hp. unfold CNP.getObjectiveValue. rewrite (CSpec.p_pairs g ∅ Hp).
  apply comp_pairs_nonneg.
Qed.

Lemma cbns_loop_spec maxIdle k fuel : ∀ g best bestObj idle steps,
  CSpec.inv g → base.size (CNP.removedNodes g) = k → base.size best = k →
  (0 ≤ bestObj)%Z → (0 ≤ idle)%Z →
  (∀ h res,
     CBNS.search_loop fuel maxIdle (GraphWrapper.Cnp g) best bestObj idle steps = Ok (h, res) →
     base.size (solution res) = k ∧ base.size (GraphWrapper.getRemovedNodes h) = k) ∧
  (Z.to_nat (bestObj * maxIdle + maxIdle - idle) ≤ fuel →
   CBNS.search_loop fuel maxIdle (GraphWrapper.Cnp g) best bestObj idle steps
   ≠ Throw out_of_fuel).
Proof.
  induction fuel as [|fuel IH]; intros g best bestObj idle steps Hp Hk Hb Hobj Hidle;
    cbn [CBNS.search_loop]; destruct (decide (idle < maxIdle)%Z) as [Hlt|Hge];
    try (split; [by intros h res [= <- <-] | done]).
  - split; [done|]. intros Hf. nia.
  - cbv zeta. destruct (cbns_move_spec g (steps + 1) Hp) as (Hok & _ & Hthrow).
    destruct (CBNS.performMove (GraphWrapper.Cnp g) (steps + 1)) as [[h cur]|e];
      cbn [mbind result_bind]; [|split; [done|]; intros _ [= ->]; by apply (Hthrow _ eq_refl)].
    destruct (Hok h cur eq_refl) as (g' & -> & -> & Hp' & _ & Hsz).
    pose proof (inv_objective_nonneg g' Hp') as Hcur.
    destruct (decide (CNP.getObjectiveValue g' < bestObj)%Z) as [Himp|Hno].
    + destruct (IH g' (CNP.removedNodes g') (CNP.getObjectiveValue g') 0%Z (steps + 1)%Z)
        as [H1 H2]; [done | lia | lia | done | done |].
      split; [exact H1|]. intros Hf. apply H2. nia.
    + destruct (IH g' best bestObj (idle + 1)%Z (steps + 1)%Z)
        as [H1 H2]; [done | lia | done | done | lia |].
      split; [exact H1|]. intros Hf. apply H2. nia.
Qed.

Lemma chns_loop_spec maxIdle theta k fuel : ∀ rng g best bestObj idle steps,
  CSpec.inv g → base.size (CNP.removedNodes g) = k → base.size best = k →
  (0 ≤ bestObj)%Z → (0 ≤ idle)%Z →
  (∀ h res,
     CHNS.search_loop fuel maxIdle theta rng (GraphWrapper.Cnp g) best bestObj idle steps
     = Ok (h, res) →
     base.size (solution res) = k ∧ base.size (GraphWrapper.getRemovedNodes h) = k) ∧
  (Z.to_nat (bestObj * maxIdle + maxIdle - idle) ≤ fuel →
   CHNS.search_loop fuel maxIdle theta rng (GraphWrapper.Cnp g) best bestObj idle steps
   ≠ Throw out_of_fuel).
Proof.
  induction fuel as [|fuel IH]; intros rng g best bestObj idle steps Hp Hk Hb Hobj Hidle;
    cbn [CHNS.search_loop]; destruct (decide (idle < maxIdle)%Z) as [Hlt|Hge];
    try (split; [by intros h res [= <- <-] | done]).
  - split; [done|]. intros Hf. nia.
  - cbv zeta. destruct (chns_move_spec theta rng g (steps + 1) Hp) as (Hok & _ & Hthrow).
    destruct (CHNS.performMove theta rng (GraphWrapper.Cnp g) (steps + 1))
      as [[[h cur] rng']|e];
      cbn [mbind result_bind]; [|split; [done|]; intros _ [= ->]; by apply (Hthrow _ eq_refl)].
    destruct (Hok h cur rng' eq_refl) as (g' & -> & -> & Hp' & _ & Hsz).
    pose proof (inv_objective_nonneg g' Hp') as Hcur.
    destruct (decide (CNP.getObjectiveValue g' < bestObj)%Z) as [Himp|Hno].
    + destruct (IH rng' g' (CNP.removedNodes g') (CNP.getObjectiveValue g') 0%Z (steps + 1)%Z)
        as [H1 H2]; [done | lia | lia | done | done |].
      split; [exact H1|]. intros Hf. apply H2. nia.
    + destruct (IH rng' g' best bestObj (idle + 1)%Z (steps + 1)%Z)
        as [H1 H2]; [done | lia | done | done | lia |].
      split; [exact H1|]. intros Hf. apply H2. nia.
Qed.

(** *** The strategies on a depth-bounded handle *)

Lemma moves_need_components d steps theta rng :
  CBNS.performMove (GraphWrapper.Dcnp d) steps = Throw runtime_error ∧
  CHNS.performMove theta rng (GraphWrapper.Dcnp d) steps = Throw runtime_error.
Proof. done. Qed.

(** C10: take a CNP handle that satisfies the engine invariant and whose
    removed set has [k] vertices.  A CBNS or CHNS move that returns leaves a
    handle whose removed set has [k] vertices.  Removing any present vertex
    [x] succeeds and leaves the removed set [removed ∪ {x}], which is not
    empty; the greedy add-back selection then returns a vertex [w] of that
    set, re-adding [w] succeeds and the removed set has [k] vertices again.
    Hence a move returns as soon as its two selection steps return, and it
    never runs out of fuel.  The solution returned by [execute] of either
    strategy has [k] vertices, and with [(objective + 1) * maxIdleSteps] units
    of fuel the search loop of either strategy ends: [execute] returns or
    raises an exception of the code.  On a DCNP handle the component selection
    raises [runtime_error], so no move is completed there. *)
Theorem moves_preserve_removed_size g k :
  CSpec.inv g → base.size (CNP.removedNodes g) = k →
  (∀ steps h obj,
     CBNS.performMove (GraphWrapper.Cnp g) steps = Ok (h, obj) →
     base.size (GraphWrapper.getRemovedNodes h) = k) ∧
  (∀ theta rng steps h obj r,
     CHNS.performMove theta rng (GraphWrapper.Cnp g) steps = Ok (h, obj, r) →
     base.size (GraphWrapper.getRemovedNodes h) = k) ∧
  (∀ x steps, x < CNP.numNodes_ g → x ∉ CNP.removedNodes g →
     ∃ g3 w g5 g6,
       GraphWrapper.removeNode x (GraphWrapper.Cnp g) = Ok (GraphWrapper.Cnp g3) ∧
       CNP.removedNodes g3 = CNP.removedNodes g ∪ {[x]} ∧
       CNP.removedNodes g3 ≠ ∅ ∧
       GraphWrapper.greedySelectNodeToAdd
         (GraphWrapper.setNodeAge x steps (GraphWrapper.Cnp g3))
       = Ok (Z.of_nat w, GraphWrapper.Cnp g5) ∧
       Z.of_nat w ≠ INVALID_NODE ∧ w ∈ CNP.removedNodes g3 ∧
       GraphWrapper.addNode w (GraphWrapper.Cnp g5) = Ok (GraphWrapper.Cnp g6) ∧
       base.size (CNP.removedNodes g6) = k) ∧
  (∀ steps ci g1 x g2,
     CNPSelect.selectRemovedComponent g = Ok (ci, g1) →
     CNPSelect.ageSelectNodeFromComponent ci g1 = Ok (x, g2) →
     ∃ h obj, CBNS.performMove (GraphWrapper.Cnp g) steps = Ok (h, obj)) ∧
  (∀ theta rng steps ci g1 x g2,
     CNPSelect.selectRemovedComponent g = Ok (ci, g1) →
     (if negb (Qle_bool theta (Rng.generateProbability rng).1)
      then CNPSelect.impactSelectNodeFromComponent ci g1
      else CNPSelect.ageSelectNodeFromComponent ci g1) = Ok (x, g2) →
     ∃ h obj r, CHNS.performMove theta rng (GraphWrapper.Cnp g) steps = Ok (h, obj, r)) ∧
  (∀ steps, CBNS.performMove (GraphWrapper.Cnp g) steps ≠ Throw out_of_fuel) ∧
  (∀ theta rng steps,
     CHNS.performMove theta rng (GraphWrapper.Cnp g) steps ≠ Throw out_of_fuel) ∧
  (∀ fuel maxIdleSteps h res,
     CBNS.execute fuel maxIdleSteps (GraphWrapper.Cnp g) = Ok (h, res) →
     base.size (solution res) = k) ∧
  (∀ fuel maxIdleSteps theta rng h res,
     CHNS.execute fuel maxIdleSteps theta rng (GraphWrapper.Cnp g) = Ok (h, res) →
     base.size (solution res) = k) ∧
  (∀ fuel maxIdleSteps,
     Z.to_nat ((CNP.getObjectiveValue g + 1) * maxIdleSteps) ≤ fuel →
     CBNS.execute fuel maxIdleSteps (GraphWrapper.Cnp g) ≠ Throw out_of_fuel ∧
     ∀ theta rng,
       CHNS.execute fuel maxIdleSteps theta rng (GraphWrapper.Cnp g) ≠ Throw out_of_fuel) ∧
  (∀ d steps theta rng,
     CBNS.performMove (GraphWrapper.Dcnp d) steps = Throw runtime_error ∧
     CHNS.performMove theta rng (GraphWrapper.Dcnp d) steps = Throw runtime_error).
Proof.
  intros Hp Hk.
  pose proof (inv_objective_nonneg g Hp) as Hobj.
  repeat apply conj.
  - intros steps h obj Hmove.
    destruct (cbns_move_spec g steps Hp) as (Hok & _).
    destruct (Hok h obj Hmove) as (g' & -> & _ & _ & _ & Hsz). simpl. lia.
  - intros theta rng steps h obj r Hmove.
    destruct (chns_move_spec theta rng g steps Hp) as (Hok & _).
    destruct (Hok h obj r Hmove) as (g' & -> & _ & _ & _ & Hsz). simpl. lia.
  - intros x steps Hx Hlive.
    destruct (swap_back_spec g x steps Hp Hx Hlive)
      as (g3 & w & g5 & g6 & Hrm & Hr3 & Hgr & Hadd & Hw & _ & _ & _ & Hsz).
    exists g3, w, g5, g6. repeat apply conj; try done.
    + rewrite Hr3. set_solver.
    + unfold INVALID_NODE. lia.
    + by rewrite Hr3.
    + lia.
  - intros steps. by destruct (cbns_move_spec g steps Hp) as (_ & Hret & _).
  - intros theta rng steps. by destruct (chns_move_spec theta rng g steps Hp) as (_ & Hret & _).
  - intros steps Hmove. by destruct (cbns_move_spec g steps Hp) as (_ & _ & Hthrow);
      apply (Hthrow _ Hmove).
  - intros theta rng steps Hmove.
    by destruct (chns_move_spec theta rng g steps Hp) as (_ & _ & Hthrow);
      apply (Hthrow _ Hmove).
  - intros fuel maxIdle h res Hex. unfold CBNS.execute in Hex.
    destruct (cbns_loop_spec maxIdle k fuel g (CNP.removedNodes g)
                (CNP.getObjectiveValue g) 0 0 Hp Hk Hk Hobj) as [Hok _]; [done|].
    by destruct (Hok h res Hex).
  - intros fuel maxIdle theta rng h res Hex. unfold CHNS.execute in Hex.
    destruct (chns_loop_spec maxIdle theta k fuel rng g (CNP.removedNodes g)
                (CNP.getObjectiveValue g) 0 0 Hp Hk Hk Hobj) as [Hok _]; [done|].
    by destruct (Hok h res Hex).
  - intros fuel maxIdle Hf.
    assert (Hf' : Z.to_nat (CNP.getObjectiveValue g * maxIdle + maxIdle - 0) ≤ fuel)
      by (replace (CNP.getObjectiveValue g * maxIdle + maxIdle - 0)%Z
            with ((CNP.getObjectiveValue g + 1) * maxIdle)%Z by lia; exact Hf).
    split; [|intros theta rng].
    + destruct (cbns_loop_spec maxIdle k fuel g (CNP.removedNodes g)
                  (CNP.getObjectiveValue g) 0 0 Hp Hk Hk Hobj) as [_ Hfuel]; [done|].
      by apply Hfuel.
    + destruct (chns_loop_spec maxIdle theta k fuel rng g (CNP.removedNodes g)
                  (CNP.getObjectiveValue g) 0 0 Hp Hk Hk Hobj) as [_ Hfuel]; [done|].
      by apply Hfuel.
  - intros d steps theta rng. apply moves_need_components.
Qed.

Lemma moves_preserve_removed_size_witness :
  CSpec.inv (Examples.cnp_state 3 Examples.path3 {[0]}) ∧
  base.size (CNP.removedNodes (Examples.cnp_state 3 Examples.path3 {[0]})) = 1 ∧
  ∃ h res,
    CBNS.execute 6 3 (GraphWrapper.Cnp (Examples.cnp_state 3 Examples.path3 {[0]}))
    = Ok (h, res) ∧
    base.size (solution res) = 1.
Proof.
  assert (Hp : CSpec.inv (Examples.cnp_state 3 Examples.path3 {[0]})).
  { apply cnp_reachable_inv.
    apply (CSpec.reach_first 3 Examples.path3 1 Examples.rng0 0 {[0]}).
    - exact path3_valid.
    - intros v ->%elem_of_singleton. lia.
    - vm_compute. reflexivity. }
  assert (Hk : base.size (CNP.removedNodes (Examples.cnp_state 3 Examples.path3 {[0]})) = 1)
    by (vm_compute; reflexivity).
  assert (Hret : ∃ h res,
            CBNS.execute 6 3 (GraphWrapper.Cnp (Examples.cnp_state 3 Examples.path3 {[0]}))
            = Ok (h, res)).
  { vm_compute. eexists _, _. reflexivity. }
  destruct Hret as (h & res & Hret).
  destruct (moves_preserve_removed_size (Examples.cnp_state 3 Examples.path3 {[0]}) 1 Hp Hk)
    as (_ & _ & _ & _ & _ & _ & _ & Hsol & _).
  split; [exact Hp|]. split; [exact Hk|].
  exists h, res. split; [exact Hret|]. exact (Hsol 6 3%Z h res Hret).
Defined.

(** * Further properties of the code *)

(** ** Counting pairs *)

Lemma upairs_spec n u v : (u, v) ∈ upairs n ↔ u < v ∧ v < n.
Proof.
  induction n as [|n IH]; simpl; [split; [by intros ?%elem_of_nil | lia]|].
  rewrite elem_of_app, IH, list_elem_of_fmap. split.
  - intros [[? ?]|(w & [= -> ->] & Hw%elem_of_seq)]; lia.
  - intros [Huv Hv]. destruct (decide (v = n)) as [->|]; [right | left; lia].
    exists u. split; [done|]. apply elem_of_seq. lia.
Qed.


(** Double counting for a symmetric relation: the rows of its table sum to
    twice the number of unordered pairs. *)
Lemma double_count (R : nat → nat → Prop) `{∀ u v, Decision (R u v)} n :
  (∀ u v, u < n → v < n → R u v → R v u) →
  sum_list_with (λ v, length (filter (λ u, u ≠ v ∧ R v u) (seq 0 n))) (seq 0 n)
  = 2 * length (filter (λ p, R p.1 p.2) (upairs n)).
Proof.
  induction n as [|n IH]; intros Hsym; [done|].
  rewrite seq_S. simpl. rewrite sum_list_with_app, filter_app, length_app. simpl.
  rewrite filter_app, length_app.
  assert (Hrow : ∀ v, v ∈ seq 0 n →
            length (filter (λ u, u ≠ v ∧ R v u) (seq 0 n ++ [n]))
            = length (filter (λ u, u ≠ v ∧ R v u) (seq 0 n))
              + (if decide (R v n) then 1 else 0)).
  { intros v Hv%elem_of_seq. rewrite filter_app, length_app. f_equal.
    rewrite filter_cons, filter_nil.
    destruct (decide (R v n)), (decide (n ≠ v ∧ R v n)) as [|Hn]; simpl; try done.
    - exfalso. apply Hn. split; [lia | done].
    - naive_solver. }
  assert (Hsum : ∀ l, (∀ v, v ∈ l → v ∈ seq 0 n) →
            sum_list_with (λ v, length (filter (λ u, u ≠ v ∧ R v u) (seq 0 n ++ [n]))) l
            = sum_list_with (λ v, length (filter (λ u, u ≠ v ∧ R v u) (seq 0 n))) l
              + length (filter (λ v, R v n) l)).
  { induction l as [|v l IHl]; intros Hl; [done|]. simpl.
    rewrite Hrow by (apply Hl; by left). rewrite IHl by (intros w Hw; apply Hl; by right).
    rewrite filter_cons. destruct (decide (R v n)); simpl; lia. }
  rewrite Hsum by done. rewrite IH by (intros u v Hu Hv; apply Hsym; lia).
  assert (Hlast : filter (λ u, u ≠ n ∧ R n u) [n] = []).
  { rewrite filter_cons, filter_nil. destruct (decide (n ≠ n ∧ R n n)); naive_solver. }
  rewrite Hlast. simpl.
  assert (Hcol : length (filter (λ u, u ≠ n ∧ R n u) (seq 0 n))
                 = length (filter (λ v, R v n) (seq 0 n))).
  { f_equal. apply filter_ext_in. intros u Hu%elem_of_seq. split.
    - intros [_ Hr]. apply Hsym; [lia | lia | done].
    - intros Hr. split; [lia|]. apply Hsym; [lia | lia | done]. }
  assert (Hpairs : length (filter (λ p, R p.1 p.2) ((λ u, (u, n)) <$> seq 0 n))
                   = length (filter (λ v, R v n) (seq 0 n))).
  { generalize (seq 0 n). intros l. induction l as [|u l IHl]; [done|].
    rewrite fmap_cons, !filter_cons. simpl.
    destruct (decide (R u n)); simpl; by rewrite IHl. }
  rewrite Hcol, Hpairs. lia.
Qed.

(** ** The DCNP engine: what the table and the objective mean *)

Lemma path3_dcnp_reachable S :
  DCNP.updateGraphByRemovedNodes S (Examples.dcnp_built 3 2 Examples.path3)
  = Ok (Examples.dcnp_state 3 2 Examples.path3 S) →
  DSpec.reachable (Examples.dcnp_state 3 2 Examples.path3 S).
Proof.
  intros Hu. apply (dcnp_state_reachable 3 2 Examples.path3 S); [|by vm_compute|done].
  apply path3_valid.
Qed.

(** In every reachable state of the DCNP engine the table built by
    [bfsKTree] marks exactly the K-hop balls of the current graph:
    [intree[v][u]] is 1 when some walk of at most [K] edges through vertices
    that are not removed leads from [v] to [u], and 0 otherwise. *)
Theorem dcnp_table_marks_khop_balls g v u :
  DSpec.reachable g → v < DCNP.numNodes_ g → u < DCNP.numNodes_ g →
  (DSpec.cell g v u = 1%Z
   ↔ within (DCNP.currentAdjList_ g) (DCNP.removedNodes_ g) (DCNP.kHops_ g) v u) ∧
  (DSpec.cell g v u = 0%Z
   ↔ ¬ within (DCNP.currentAdjList_ g) (DCNP.removedNodes_ g) (DCNP.kHops_ g) v u).
Proof.
  intros Hr Hv Hu. destruct (reachable_inv g Hr) as [_ Hrows].
  destruct (Hrows v Hv) as [Hbit Hball _].
  split; [by apply Hball|]. rewrite <- (Hball u Hu).
  destruct (Hbit u Hu) as [H0|H1]; [rewrite H0 | rewrite H1]; split; done.
Qed.

Lemma dcnp_table_marks_khop_balls_witness :
  DSpec.reachable (Examples.dcnp_state 3 2 Examples.path3 ∅) ∧
  (DSpec.cell (Examples.dcnp_state 3 2 Examples.path3 ∅) 0 2 = 1%Z
   ↔ within (DCNP.currentAdjList_ (Examples.dcnp_state 3 2 Examples.path3 ∅))
       (DCNP.removedNodes_ (Examples.dcnp_state 3 2 Examples.path3 ∅))
       (DCNP.kHops_ (Examples.dcnp_state 3 2 Examples.path3 ∅)) 0 2).
Proof.
  assert (Hr : DSpec.reachable (Examples.dcnp_state 3 2 Examples.path3 ∅))
    by (apply path3_dcnp_reachable; vm_compute; reflexivity).
  assert (H0 : 0 < DCNP.numNodes_ (Examples.dcnp_state 3 2 Examples.path3 ∅))
    by (vm_compute; lia).
  assert (H2 : 2 < DCNP.numNodes_ (Examples.dcnp_state 3 2 Examples.path3 ∅))
    by (vm_compute; lia).
  split; [exact Hr|].
  exact (proj1 (dcnp_table_marks_khop_balls
                  (Examples.dcnp_state 3 2 Examples.path3 ∅) 0 2 Hr H0 H2)).
Defined.

Lemma row_count_removed g v :
  DSpec.inv g → v < DCNP.numNodes_ g → v ∈ DCNP.removedNodes_ g → DSpec.row_count g v = 0.
Proof.
  intros Hi Hv Hrem. unfold DSpec.row_count. rewrite filter_none; [done|].
  intros u Hu%elem_of_seq [_ Hc].
  rewrite (DSpec.removed_row_zero g (inv_table_properties g Hi) v u) in Hc by (done || lia).
  done.
Qed.

Lemma tree_size_fold g l a :
  DSpec.inv g → (∀ i, i ∈ l → i < DCNP.numNodes_ g) →
  foldl (λ sum i, if negb (DCNP.isNodeRemoved g i)
                  then (sum + DCNP.treeSize_ g !!! i)%Z else sum) a l
  = (a + Z.of_nat (sum_list_with (DSpec.row_count g) l))%Z.
Proof.
  intros Hi. revert a. induction l as [|i l IH]; intros a Hl; [simpl; lia|].
  cbn [foldl sum_list_with]. rewrite IH by (intros j Hj; apply Hl; by right).
  assert (Hin : i < DCNP.numNodes_ g) by (apply Hl; by left).
  unfold DCNP.isNodeRemoved. destruct (bool_decide_reflect (i ∈ DCNP.removedNodes_ g)); simpl.
  - rewrite (row_count_removed g i) by done. lia.
  - rewrite (DSpec.tree_size_counts g (inv_table_properties g Hi) i Hin). lia.
Qed.

Lemma dcnp_objective_count g :
  DSpec.inv g →
  DCNP.getObjectiveValue g
  = Z.of_nat (length (filter (dcnp_marked g) (upairs (DCNP.numNodes_ g)))).
Proof.
  intros Hi. unfold DCNP.getObjectiveValue, DCNP.calculateKhopTreeSize. cbv zeta.
  rewrite (tree_size_fold g _ 0%Z Hi) by (intros i Hin%elem_of_seq; lia).
  unfold DSpec.row_count.
  rewrite (double_count (λ v u, DSpec.cell g v u = 1%Z)).
  - change (λ p : nat * nat, DSpec.cell g p.1 p.2 = 1%Z) with (dcnp_marked g).
    rewrite Z.add_0_l, Nat2Z.inj_mul, Z.mul_comm. by rewrite Z.quot_mul.
  - intros u v Hu Hv Hc.
    by rewrite <- (DSpec.intree_symmetric g (inv_table_properties g Hi) u v Hu Hv).
Qed.







(** The table kept up to date by [addNode] and [removeNode] is the one a
    rebuild from scratch computes: in every reachable state of the DCNP
    engine, [updateGraphByRemovedNodes] called with the current removed set
    returns the state unchanged. *)
Theorem dcnp_rebuild_is_identity g :
  DSpec.reachable g → DCNP.updateGraphByRemovedNodes (DCNP.removedNodes_ g) g = Ok g.
Proof.
  intros Hr. pose proof (reachable_inv g Hr) as Hi.
  destruct Hi as [[Hadj Horig Hlen Hts] Hrows].
  assert (Hi : DSpec.inv g) by (by split; [split|]).
  unfold DCNP.updateGraphByRemovedNodes.
  assert (Hsame : DCNP.set_removedNodes_ (DCNP.removedNodes_ g)
                    (DCNP.set_currentAdjList_ (DCNP.originalAdjList_ g) g) = g)
    by (rewrite Horig; by destruct g).
  rewrite Hsame.
  destruct (buildTree_spec g) as (intree & treeSize & Hbuild & Hinv); [by split|].
  rewrite Hbuild. f_equal.
  destruct (dcnp_tables_determined g _ Hi Hinv) as [Hit Hts']; [done..|].
  cbn [DCNP.intree_ DCNP.treeSize_ DCNP.set_tables] in Hit, Hts'.
  rewrite Hit, Hts'. by destruct g.
Qed.

Lemma dcnp_rebuild_is_identity_witness :
  DSpec.reachable (Examples.dcnp_state 3 2 Examples.path3 {[1]}) ∧
  DCNP.updateGraphByRemovedNodes
    (DCNP.removedNodes_ (Examples.dcnp_state 3 2 Examples.path3 {[1]}))
    (Examples.dcnp_state 3 2 Examples.path3 {[1]})
  = Ok (Examples.dcnp_state 3 2 Examples.path3 {[1]}).
Proof.
  assert (Hr : DSpec.reachable (Examples.dcnp_state 3 2 Examples.path3 {[1]}))
    by (apply path3_dcnp_reachable; vm_compute; reflexivity).
  split; [exact Hr|].
  exact (dcnp_rebuild_is_identity (Examples.dcnp_state 3 2 Examples.path3 {[1]}) Hr).
Defined.

(** ** The CNP engine: what the components and the objective mean *)

Lemma path3_cnp_reachable S :
  (∀ v, v ∈ S → v < 3) → CSpec.reachable (Examples.cnp_state 3 Examples.path3 S).
Proof. intros HS. by destruct (cnp_state_reachable 3 Examples.path3 S path3_valid HS). Qed.

(** In every reachable state of the CNP engine the current adjacency is the
    input graph with the removed vertices and their edges erased, and two
    surviving vertices carry the same component index exactly when a path of
    the current adjacency joins them. *)
Theorem cnp_components_are_connectivity_classes g :
  CSpec.reachable g →
  elided (CNP.originalAdjList_ g) (CNP.currentAdjList_ g) (CNP.removedNodes g) ∧
  ∀ x y, x < CNP.numNodes_ g → y < CNP.numNodes_ g →
    x ∉ CNP.removedNodes g → y ∉ CNP.removedNodes g →
    (CNP.nodeToComponentIndex_ g !!! x = CNP.nodeToComponentIndex_ g !!! y
     ↔ CSpec.reach (CNP.currentAdjList_ g) x y).
Proof.
  intros Hr. pose proof (cnp_reachable_inv g Hr) as Hp. split.
  - apply (CSpec.g_cur g (CSpec.p_graph g ∅ Hp)).
  - intros x y. by apply inv_same_component.
Qed.

Lemma cnp_components_are_connectivity_classes_witness :
  CSpec.reachable (Examples.cnp_state 3 Examples.path3 {[1]}) ∧
  elided (CNP.originalAdjList_ (Examples.cnp_state 3 Examples.path3 {[1]}))
    (CNP.currentAdjList_ (Examples.cnp_state 3 Examples.path3 {[1]}))
    (CNP.removedNodes (Examples.cnp_state 3 Examples.path3 {[1]})).
Proof.
  assert (Hr : CSpec.reachable (Examples.cnp_state 3 Examples.path3 {[1]})).
  { apply (CSpec.reach_first 3 Examples.path3 1 Examples.rng0 0 {[1]}).
    - exact path3_valid.
    - intros v ->%elem_of_singleton. lia.
    - vm_compute. reflexivity. }
  split; [exact Hr|].
  exact (proj1 (cnp_components_are_connectivity_classes
                  (Examples.cnp_state 3 Examples.path3 {[1]}) Hr)).
Defined.

(** *** The objective counts the joined pairs *)







(** *** Monotonicity and recomputation *)






(** The component structure kept up to date by [addNode] and [removeNode]
    agrees with a recomputation from scratch: in every reachable state of the
    CNP engine, [updateGraphByRemovedNodes] called with the current removed
    set returns a state with the same removed set, the same current
    adjacency, the same objective and the same partition of the surviving
    vertices into components. *)
Theorem cnp_rebuild_agrees g :
  CSpec.reachable g →
  ∃ g', CNP.updateGraphByRemovedNodes (CNP.removedNodes g) g = Ok g' ∧
        CNP.removedNodes g' = CNP.removedNodes g ∧
        CNP.currentAdjList_ g' = CNP.currentAdjList_ g ∧
        CNP.getObjectiveValue g' = CNP.getObjectiveValue g ∧
        ∀ x y, x < CNP.numNodes_ g → y < CNP.numNodes_ g →
          x ∉ CNP.removedNodes g → y ∉ CNP.removedNodes g →
          (CNP.nodeToComponentIndex_ g' !!! x = CNP.nodeToComponentIndex_ g' !!! y
           ↔ CNP.nodeToComponentIndex_ g !!! x = CNP.nodeToComponentIndex_ g !!! y).
Proof.
  intros Hr. pose proof (cnp_reachable_inv g Hr) as Hp.
  pose proof (CSpec.p_graph g ∅ Hp) as Hg.
  destruct (updateGraphByRemovedNodes_static g (CNP.removedNodes g) (CSpec.g_static g Hg))
    as (g' & Hup & Hp' & Hn & Hrem & Horig); [apply (CSpec.g_removed g Hg)|].
  assert (Hcur : CNP.currentAdjList_ g' = CNP.currentAdjList_ g).
  { pose proof (CSpec.g_cur g' (CSpec.p_graph g' ∅ Hp')) as He'. rewrite Horig, Hrem in He'.
    exact (elided_unique _ _ _ _ He' (CSpec.g_cur g Hg)). }
  destruct (inv_determined g g' Hp Hp' Hn Hrem Hcur) as [Hobj Hpart].
  exists g'. split; [done|]. split; [done|]. split; [done|]. split; [exact Hobj | exact Hpart].
Qed.

Lemma cnp_rebuild_agrees_witness :
  CSpec.reachable (Examples.cnp_state 3 Examples.path3 {[1]}) ∧
  ∃ g', CNP.updateGraphByRemovedNodes
          (CNP.removedNodes (Examples.cnp_state 3 Examples.path3 {[1]}))
          (Examples.cnp_state 3 Examples.path3 {[1]}) = Ok g' ∧
        CNP.getObjectiveValue g'
        = CNP.getObjectiveValue (Examples.cnp_state 3 Examples.path3 {[1]}).
Proof.
  assert (Hr : CSpec.reachable (Examples.cnp_state 3 Examples.path3 {[1]})).
  { apply (CSpec.reach_first 3 Examples.path3 1 Examples.rng0 0 {[1]}).
    - exact path3_valid.
    - intros v ->%elem_of_singleton. lia.
    - vm_compute. reflexivity. }
  split; [exact Hr|].
  destruct (cnp_rebuild_agrees (Examples.cnp_state 3 Examples.path3 {[1]}) Hr)
    as (g' & Hup & _ & _ & Hobj & _).
  exists g'. split; [exact Hup | exact Hobj].
Defined.

(** *** The depth-first search *)

(** In a reachable state of the CNP engine, [dfsFindComponent] started at a
    surviving vertex returns, with every vertex listed once, exactly the
    vertices that a path of the current adjacency joins to the start, and
    [size] is their number; it changes nothing but the epoch stamps.  Started
    at a removed vertex it returns the empty component. *)
Theorem dfs_finds_connected_class g start :
  CSpec.reachable g → start < CNP.numNodes_ g →
  (start ∉ CNP.removedNodes g →
   ∃ acc epochs,
     CNP.dfsFindComponent g start
     = Ok (CNP.mkComponent (length acc) acc,
           CNP.set_dfs epochs (CNP.dfsCurrentEpoch_ g + 1)%Z g) ∧
     NoDup acc ∧ ∀ x, x ∈ acc ↔ CSpec.reach (CNP.currentAdjList_ g) start x) ∧
  (start ∈ CNP.removedNodes g →
   ∃ g', CNP.dfsFindComponent g start = Ok (CNP.mkComponent 0 [], g')).
Proof.
  intros Hr Hs. pose proof (cnp_reachable_inv g Hr) as Hp.
  pose proof (CSpec.p_graph g ∅ Hp) as Hg. split; intros Hmem.
  - destruct (dfsFindComponent_spec g start Hg Hs Hmem) as (acc & epochs & Hdfs & Hnd & Hacc & _).
    by exists acc, epochs.
  - destruct (CSpec.g_static g Hg) as [_ _ _ _ Hlen _ Hpos].
    unfold CNP.dfsFindComponent. cbv zeta.
    rewrite decide_False by lia. rewrite decide_False by lia.
    unfold CNP.dfs_fuel. cbn [CNP.dfs_loop].
    rewrite (bool_decide_eq_true_2 (start ∈ CNP.removedNodes g)) by done.
    rewrite orb_true_r.
    destruct (CNP.numNodes_ g + _); cbn [CNP.dfs_loop mbind result_bind]; eauto.
Qed.

Lemma dfs_finds_connected_class_witness :
  CSpec.reachable (Examples.cnp_state 3 Examples.path3 ∅) ∧
  ∃ acc epochs,
    CNP.dfsFindComponent (Examples.cnp_state 3 Examples.path3 ∅) 0
    = Ok (CNP.mkComponent (length acc) acc,
          CNP.set_dfs epochs
            (CNP.dfsCurrentEpoch_ (Examples.cnp_state 3 Examples.path3 ∅) + 1)%Z
            (Examples.cnp_state 3 Examples.path3 ∅)) ∧
    NoDup acc.
Proof.
  assert (Hr : CSpec.reachable (Examples.cnp_state 3 Examples.path3 ∅)).
  { apply (CSpec.reach_first 3 Examples.path3 1 Examples.rng0 0 ∅).
    - exact path3_valid.
    - intros v []%elem_of_empty.
    - vm_compute. reflexivity. }
  assert (H0 : 0 < CNP.numNodes_ (Examples.cnp_state 3 Examples.path3 ∅))
    by (vm_compute; lia).
  assert (Hl : 0 ∉ CNP.removedNodes (Examples.cnp_state 3 Examples.path3 ∅)).
  { replace (CNP.removedNodes (Examples.cnp_state 3 Examples.path3 ∅)) with (∅ : gset nat)
      by (vm_compute; reflexivity).
    apply not_elem_of_empty. }
  split; [exact Hr|].
  destruct (proj1 (dfs_finds_connected_class (Examples.cnp_state 3 Examples.path3 ∅) 0 Hr H0) Hl)
    as (acc & epochs & Hdfs & Hnd & _).
  exists acc, epochs. split; [exact Hdfs | exact Hnd].
Defined.

(** ** The selection routines of the CNP engine *)

(** The candidate loop keeps exactly the minimisers seen so far. *)
Lemma min_step_fold_min {A} (key : A → Z) (l : list A) :
  ∀ best cands,
  (∀ x, x ∈ cands → key x = best) →
  let r := foldl (CNPSelect.min_step key) (best, cands) l in
  (∀ x, x ∈ r.2 → key x = r.1) ∧ (r.1 ≤ best)%Z ∧ (∀ y, y ∈ l → (r.1 ≤ key y)%Z).
Proof.
  induction l as [|a l IH]; intros best cands Hc; cbn [foldl].
  { split; [done|]. split; [simpl; lia|]. by intros y ?%elem_of_nil. }
  destruct (CNPSelect.min_step key (best, cands) a) as [best' cands'] eqn:Hs.
  assert (Hstep : (∀ x, x ∈ cands' → key x = best') ∧ (best' ≤ best)%Z ∧ (best' ≤ key a)%Z).
  { unfold CNPSelect.min_step in Hs.
    destruct (decide (key a < best)%Z); [|destruct (decide (key a = best))];
      injection Hs as <- <-.
    - split; [by intros x ->%list_elem_of_singleton | lia].
    - split; [|lia].
      intros x [?| ->%list_elem_of_singleton]%elem_of_app; [by apply Hc | done].
    - split; [done | lia]. }
  destruct Hstep as (Hc' & Hle & Hlea).
  destruct (IH best' cands' Hc') as (H1 & H2 & H3).
  split; [done|]. split; [lia|].
  intros y [->|Hy]%elem_of_cons; [lia | by apply H3].
Qed.

(** [greedySelectNodeToAdd] raises [runtime_error] when no vertex is removed;
    otherwise it returns a removed vertex whose connection gain is the least
    among the removed vertices, and changes nothing but the generator. *)
Theorem greedy_add_selects_least_gain g :
  (CNP.removedNodes g = ∅ → CNPSelect.greedySelectNodeToAdd g = Throw runtime_error) ∧
  (CNP.removedNodes g ≠ ∅ →
   ∃ w g', CNPSelect.greedySelectNodeToAdd g = Ok (w, g') ∧
           w ∈ CNP.removedNodes g ∧
           (∀ y, y ∈ CNP.removedNodes g →
              (CNPSelect.calculateConnectionGain g w ≤ CNPSelect.calculateConnectionGain g y)%Z) ∧
           same_structure g g').
Proof.
  unfold CNPSelect.greedySelectNodeToAdd. split.
  - intros ->. by rewrite elements_empty.
  - intros Hne.
    destruct (elements (CNP.removedNodes g)) as [|firstNode rest] eqn:Hel.
    { apply elements_empty_inv in Hel. exfalso. apply Hne. by apply leibniz_equiv. }
    pose proof (min_step_fold (CNPSelect.calculateConnectionGain g) rest
                  (CNPSelect.calculateConnectionGain g firstNode) [firstNode])
      as [Hsub Hnonempty].
    pose proof (min_step_fold_min (CNPSelect.calculateConnectionGain g) rest
                  (CNPSelect.calculateConnectionGain g firstNode) [firstNode])
      as (Hkey & Hfirst & Hrest); [by intros x ->%list_elem_of_singleton|].
    destruct (foldl _ _ _) as [best cands]. cbn [fst snd] in *.
    destruct (pick_candidate_returns cands g) as (w & g' & Hpick); [by apply Hnonempty|].
    exists w, g'. split; [done|]. apply pick_candidate_spec in Hpick as [Hw Hs].
    split; [|split; [|done]].
    + apply elem_of_elements. rewrite Hel.
      destruct (Hsub w Hw) as [->%list_elem_of_singleton|?]; [by left | by right].
    + intros y Hy%elem_of_elements. rewrite Hel in Hy. rewrite (Hkey w Hw).
      apply elem_of_cons in Hy as [->|Hy]; [done | by apply Hrest].
Qed.

Lemma greedy_add_selects_least_gain_witness :
  CNP.removedNodes Examples.star_state ≠ ∅ ∧
  ∃ w g', CNPSelect.greedySelectNodeToAdd Examples.star_state = Ok (w, g') ∧
          w ∈ CNP.removedNodes Examples.star_state.
Proof.
  assert (Hne : CNP.removedNodes Examples.star_state ≠ ∅).
  { replace (CNP.removedNodes Examples.star_state) with ({[1]} : gset nat)
      by (vm_compute; reflexivity).
    intros Hs. apply (not_elem_of_empty (C := gset nat) 1). rewrite <- Hs.
    by apply elem_of_singleton. }
  split; [exact Hne|].
  destruct (proj2 (greedy_add_selects_least_gain Examples.star_state) Hne)
    as (w & g' & Hsel & Hw & _).
  exists w, g'. split; [exact Hsel | exact Hw].
Defined.

Lemma ageSelect_least g ci comp :
  CSpec.inv g → (0 ≤ ci)%Z →
  CNP.connectedComponents_ g !! Z.to_nat ci = Some comp →
  ∃ x g', CNPSelect.ageSelectNodeFromComponent ci g = Ok (x, g') ∧
          x ∈ CNP.nodes comp ∧
          (∀ y, y ∈ CNP.nodes comp → (CNP.nodeAge_ g !!! x ≤ CNP.nodeAge_ g !!! y)%Z) ∧
          same_structure g g'.
Proof.
  intros Hp Hci Hc.
  destruct (CSpec.p_comp g ∅ Hp _ comp Hc) as (Hsz & _ & Hne & _).
  assert (Hpos : 0 < length (CNP.nodes comp)) by (destruct (CNP.nodes comp); [done | simpl; lia]).
  unfold CNPSelect.ageSelectNodeFromComponent.
  rewrite decide_False by lia. rewrite (list_lookup_total_correct _ _ _ Hc).
  rewrite decide_False by lia. cbv zeta.
  set (key := λ node : nat, CNP.nodeAge_ g !!! node).
  set (rest := (λ i, CNP.nodes comp !!! i) <$> seq 1 (CNP.size comp - 1)).
  pose proof (min_step_fold key rest (key (CNP.nodes comp !!! 0)) [CNP.nodes comp !!! 0])
    as [Hsub Hnonempty].
  pose proof (min_step_fold_min key rest (key (CNP.nodes comp !!! 0)) [CNP.nodes comp !!! 0])
    as (Hkey & Hfirst & Hrest); [by intros x ->%list_elem_of_singleton|].
  destruct (foldl _ _ _) as [best cands]. cbn [fst snd] in *.
  destruct (pick_candidate_returns cands g) as (x & g' & Hpick); [by apply Hnonempty|].
  exists x, g'. split; [done|]. apply pick_candidate_spec in Hpick as [Hx Hs].
  assert (Hall : ∀ y, y ∈ CNP.nodes comp → y = CNP.nodes comp !!! 0 ∨ y ∈ rest).
  { intros y (i & Hi)%list_elem_of_lookup_1.
    pose proof (lookup_lt_Some _ _ _ Hi) as Hlt.
    rewrite <- (list_lookup_total_correct _ _ _ Hi).
    destruct i as [|i]; [by left|]. right. apply list_elem_of_fmap. exists (S i).
    split; [done|]. apply elem_of_seq. lia. }
  split; [|split; [|done]].
  - destruct (Hsub x Hx) as [->%list_elem_of_singleton|Hin].
    + apply list_elem_of_lookup_2 with 0. apply list_lookup_lookup_total_lt. lia.
    + apply list_elem_of_fmap in Hin as (i & -> & Hi%elem_of_seq).
      apply list_elem_of_lookup_2 with i. apply list_lookup_lookup_total_lt. lia.
  - intros y Hy. fold (key x). fold (key y). rewrite (Hkey x Hx).
    destruct (Hall y Hy) as [->|Hin]; [done | by apply Hrest].
Qed.

(** In a reachable state of the CNP engine, [ageSelectNodeFromComponent]
    called with the index of a stored component returns a member of that
    component whose age is the least among its members, and changes nothing
    but the generator. *)
Theorem age_select_returns_least_age g ci comp :
  CSpec.reachable g → (0 ≤ ci)%Z →
  CNP.connectedComponents_ g !! Z.to_nat ci = Some comp →
  ∃ x g', CNPSelect.ageSelectNodeFromComponent ci g = Ok (x, g') ∧
          x ∈ CNP.nodes comp ∧
          (∀ y, y ∈ CNP.nodes comp → (CNP.nodeAge_ g !!! x ≤ CNP.nodeAge_ g !!! y)%Z) ∧
          same_structure g g'.
Proof. intros Hr. apply ageSelect_least. by apply cnp_reachable_inv. Qed.

Lemma age_select_returns_least_age_witness :
  CSpec.reachable (Examples.cnp_state 3 Examples.path3 ∅) ∧
  ∃ x g', CNPSelect.ageSelectNodeFromComponent 0
            (Examples.cnp_state 3 Examples.path3 ∅) = Ok (x, g') ∧
          x ∈ [2; 1; 0].
Proof.
  assert (Hr : CSpec.reachable (Examples.cnp_state 3 Examples.path3 ∅)).
  { apply (CSpec.reach_first 3 Examples.path3 1 Examples.rng0 0 ∅).
    - exact path3_valid.
    - intros v []%elem_of_empty.
    - vm_compute. reflexivity. }
  assert (Hc : CNP.connectedComponents_ (Examples.cnp_state 3 Examples.path3 ∅)
               !! Z.to_nat 0 = Some (CNP.mkComponent 3 [2; 1; 0]))
    by (vm_compute; reflexivity).
  split; [exact Hr|].
  destruct (age_select_returns_least_age (Examples.cnp_state 3 Examples.path3 ∅) 0
              (CNP.mkComponent 3 [2; 1; 0]) Hr (Z.le_refl 0) Hc)
    as (x & g' & Hsel & Hx & _).
  exists x, g'. split; [exact Hsel | exact Hx].
Defined.

(** *** The component selection *)

Lemma fallback_fold (comps : list CNP.Component) (l : list nat) :
  ∀ idx sz fi fs,
  foldl (λ '(idx, sz) i,
           if decide (sz < CNP.size (comps !!! i)) then (i, CNP.size (comps !!! i))
           else (idx, sz)) (idx, sz) l = (fi, fs) →
  (∀ i, i ∈ l → i < length comps) → (sz ≠ 0 → idx < length comps) →
  (fs ≠ 0 → fi < length comps) ∧ sz ≤ fs ∧ ∀ i, i ∈ l → CNP.size (comps !!! i) ≤ fs.
Proof.
  induction l as [|a l IH]; intros idx sz fi fs Hf Hl Hidx; cbn [foldl] in Hf.
  { injection Hf as <- <-. split; [done|]. split; [done|]. by intros i ?%elem_of_nil. }
  destruct (decide (sz < CNP.size (comps !!! a))) as [Hlt|Hge].
  - destruct (IH _ _ _ _ Hf) as (H1 & H2 & H3);
      [intros i Hi; apply Hl; by right | intros _; apply Hl; by left |].
    split; [done|]. split; [lia|]. intros i [->|Hi]%elem_of_cons; [lia | by apply H3].
  - destruct (IH _ _ _ _ Hf) as (H1 & H2 & H3); [intros i Hi; apply Hl; by right | done |].
    split; [done|]. split; [done|]. intros i [->|Hi]%elem_of_cons; [lia | by apply H3].
Qed.

Lemma fallback_largest_spec (comps : list CNP.Component) fi fs :
  CNPSelect.fallback_largest comps = (fi, fs) →
  (fs ≠ 0 → fi < length comps) ∧ ∀ i, i < length comps → CNP.size (comps !!! i) ≤ fs.
Proof.
  intros Hf. destruct (fallback_fold comps (seq 0 (length comps)) 0 0 fi fs Hf)
    as (H1 & _ & H3); [intros i ?%elem_of_seq; lia | done |].
  split; [done|]. intros i Hi. apply H3, elem_of_seq. lia.
Qed.

Lemma larger_step_keeps avg (comps : list CNP.Component) st a :
  a < length comps →
  (∀ c, c ∈ CNPSelect.largeComponents st → (0 ≤ c)%Z ∧ Z.to_nat c < length comps) →
  (CNPSelect.largeComponents st ≠ [] → 0 < CNPSelect.totalNodesInBigComponents st) →
  CNPSelect.secondMaxIndex st < length comps → CNPSelect.maxIndex st < length comps →
  (∀ c, c ∈ CNPSelect.largeComponents (CNPSelect.larger_step avg comps st a) →
        (0 ≤ c)%Z ∧ Z.to_nat c < length comps) ∧
  (CNPSelect.largeComponents (CNPSelect.larger_step avg comps st a) ≠ [] →
   0 < CNPSelect.totalNodesInBigComponents (CNPSelect.larger_step avg comps st a)) ∧
  CNPSelect.secondMaxIndex (CNPSelect.larger_step avg comps st a) < length comps ∧
  CNPSelect.maxIndex (CNPSelect.larger_step avg comps st a) < length comps.
Proof.
  intros Ha Hlarge Htot Hsec Hmax.
  assert (Hnew : ∀ c, c ∈ CNPSelect.largeComponents st ++ [Z.of_nat a] →
            (0 ≤ c)%Z ∧ Z.to_nat c < length comps).
  { intros c [Hc| ->%list_elem_of_singleton]%elem_of_app; [by apply Hlarge | lia]. }
  unfold CNPSelect.larger_step. cbv zeta.
  destruct (decide (avg < CNP.size (comps !!! a))) as [Hbig|]; [|done].
  destruct (decide (CNPSelect.maxSize st < CNP.size (comps !!! a)));
    [|destruct (decide (CNPSelect.secondMaxSize st < CNP.size (comps !!! a)))];
    cbn [CNPSelect.largeComponents CNPSelect.totalNodesInBigComponents
         CNPSelect.secondMaxIndex CNPSelect.maxIndex];
    (split; [exact Hnew|]); (split; [intros _; lia|]); (split; [done || lia | done || lia]).
Qed.

Lemma larger_fold avg (comps : list CNP.Component) (l : list nat) :
  ∀ st,
  (∀ i, i ∈ l → i < length comps) →
  (∀ c, c ∈ CNPSelect.largeComponents st → (0 ≤ c)%Z ∧ Z.to_nat c < length comps) →
  (CNPSelect.largeComponents st ≠ [] → 0 < CNPSelect.totalNodesInBigComponents st) →
  CNPSelect.secondMaxIndex st < length comps → CNPSelect.maxIndex st < length comps →
  (∀ c, c ∈ CNPSelect.largeComponents (foldl (CNPSelect.larger_step avg comps) st l) →
        (0 ≤ c)%Z ∧ Z.to_nat c < length comps) ∧
  (CNPSelect.largeComponents (foldl (CNPSelect.larger_step avg comps) st l) ≠ [] →
   0 < CNPSelect.totalNodesInBigComponents (foldl (CNPSelect.larger_step avg comps) st l)) ∧
  CNPSelect.secondMaxIndex (foldl (CNPSelect.larger_step avg comps) st l) < length comps.
Proof.
  induction l as [|a l IH]; intros st Hl Hlarge Htot Hsec Hmax; cbn [foldl]; [done|].
  destruct (larger_step_keeps avg comps st a) as (H1 & H2 & H3 & H4); try done.
  { apply Hl. by left. }
  apply IH; try done. intros i Hi. apply Hl. by right.
Qed.

Lemma roulette_member index large :
  ∀ sizes sum last,
  CNPSelect.roulette index sum large sizes last ∈ large ∨
  CNPSelect.roulette index sum large sizes last = last.
Proof.
  induction large as [|c large IH]; intros sizes sum last; [by right|].
  destruct sizes as [|s sizes]; [by right|]. cbn [CNPSelect.roulette]. cbv zeta.
  destruct (decide (index < sum + Z.of_nat s)%Z); [left; by left|].
  destruct (IH sizes (sum + Z.of_nat s)%Z last) as [Hin|Heq]; [left; by right | by right].
Qed.

Lemma last_member {A} (l : list A) d : l ≠ [] → List.last l d ∈ l.
Proof.
  induction l as [|a [|b l] IH]; intros Hne; [done | by left |].
  right. by apply IH.
Qed.

Lemma inv_component_size g i :
  CSpec.inv g → i < length (CNP.connectedComponents_ g) →
  0 < CNP.size (CNP.connectedComponents_ g !!! i).
Proof.
  intros Hp Hi. destruct (lookup_lt_is_Some_2 _ _ Hi) as [comp Hc].
  rewrite (list_lookup_total_correct _ _ _ Hc).
  destruct (CSpec.p_comp g ∅ Hp i comp Hc) as (Hsz & _ & Hne & _).
  rewrite Hsz. destruct (CNP.nodes comp); [done | simpl; lia].
Qed.

Lemma fallback_returns g fi fs :
  CSpec.inv g → CNP.connectedComponents_ g ≠ [] →
  CNPSelect.fallback_largest (CNP.connectedComponents_ g) = (fi, fs) →
  fs ≠ 0 ∧ fi < length (CNP.connectedComponents_ g).
Proof.
  intros Hp Hne Hf. destruct (fallback_largest_spec _ fi fs Hf) as [Hidx Hmax].
  assert (H0 : 0 < length (CNP.connectedComponents_ g))
    by (destruct (CNP.connectedComponents_ g); [done | simpl; lia]).
  pose proof (inv_component_size g 0 Hp H0). pose proof (Hmax 0 H0).
  assert (fs ≠ 0) by lia. split; [done | by apply Hidx].
Qed.

Lemma selectRemovedLargerComponent_valid g :
  CSpec.inv g → CNP.connectedComponents_ g ≠ [] →
  ∃ ci g', CNPSelect.selectRemovedLargerComponent g = Ok (ci, g') ∧
           (0 ≤ ci)%Z ∧ Z.to_nat ci < length (CNP.connectedComponents_ g).
Proof.
  intros Hp Hne.
  assert (H0 : 0 < length (CNP.connectedComponents_ g))
    by (destruct (CNP.connectedComponents_ g); [done | simpl; lia]).
  unfold CNPSelect.selectRemovedLargerComponent. cbv zeta.
  set (avg := Nat.max 2 _).
  set (st := foldl (CNPSelect.larger_step avg (CNP.connectedComponents_ g)) _ _).
  pose proof (larger_fold avg (CNP.connectedComponents_ g)
                (seq 0 (length (CNP.connectedComponents_ g)))
                (CNPSelect.mkLarger [] [] 0 0 0 0 0)) as Hfold.
  fold st in Hfold.
  destruct Hfold as (Hlarge & Htot & Hsec); try done.
  { intros i ?%elem_of_seq. lia. }
  { by intros c ?%elem_of_nil. }
  destruct (CNPSelect.largeComponents st) as [|a [|b l]] eqn:Hl.
  - destruct (CNPSelect.fallback_largest _) as [fi fs] eqn:Hf.
    destruct (fallback_returns g fi fs Hp Hne Hf) as [Hfs Hfi].
    rewrite decide_False by done. eexists _, _. split; [done|]. lia.
  - destruct (Rng.generateBool _ _) as [b r]. eexists _, _. split; [done|].
    destruct b; [lia|]. apply Hlarge. by left.
  - destruct (generateIndex_returns
                (Z.of_nat (CNPSelect.totalNodesInBigComponents st)) (CNP.rng_ g))
      as (idx & r & Hgen & _).
    { assert (0 < CNPSelect.totalNodesInBigComponents st) by (by apply Htot). lia. }
    rewrite Hgen. cbn [mbind result_bind]. eexists _, _. split; [done|]. apply Hlarge.
    destruct (roulette_member idx (a :: b :: l) (CNPSelect.componentSizes st)
                0%Z (List.last (a :: b :: l) 0%Z)) as [Hin| ->]; [done|].
    by apply last_member.
Qed.

Lemma selectRemovedComponent_valid g :
  CSpec.inv g → CNP.connectedComponents_ g ≠ [] →
  ∃ ci g', CNPSelect.selectRemovedComponent g = Ok (ci, g') ∧
           (0 ≤ ci)%Z ∧ Z.to_nat ci < length (CNP.connectedComponents_ g).
Proof.
  intros Hp Hne. unfold CNPSelect.selectRemovedComponent. cbv zeta.
  destruct (decide (50 < length (CNP.connectedComponents_ g)));
    [by apply selectRemovedLargerComponent_valid|].
  destruct (CNPSelect.size_range _ _) as [minSize maxSize].
  destruct (generateIndex_returns 3 (CNP.rng_ g)) as (r3 & r & Hgen & _); [lia|].
  rewrite Hgen. cbn [mbind result_bind].
  destruct (filter _ _) as [|a l] eqn:Hfl.
  - destruct (CNPSelect.fallback_largest _) as [fi fs] eqn:Hf.
    destruct (fallback_returns g fi fs Hp Hne Hf) as [Hfs Hfi].
    rewrite decide_False by done. eexists _, _. split; [done|]. lia.
  - destruct (generateIndex_returns (Z.of_nat (length (a :: l)))
                (CNP.rng_ (CNP.set_rng_ r g))) as (idx & r' & Hgen' & Hidx);
      [simpl; lia|].
    rewrite Hgen'. cbn [mbind result_bind]. eexists _, _. split; [done|].
    split; [lia|]. rewrite Nat2Z.id.
    assert (Hin : (a :: l) !!! Z.to_nat idx ∈ a :: l).
    { apply list_elem_of_lookup_2 with (Z.to_nat idx).
      apply list_lookup_lookup_total_lt. lia. }
    generalize dependent ((a :: l) !!! Z.to_nat idx). intros x Hin.
    rewrite <- Hfl in Hin. apply list_elem_of_filter in Hin as [_ Hin%elem_of_seq]. lia.
Qed.

Lemma inv_components_empty g :
  CSpec.inv g →
  CNP.connectedComponents_ g = [] ↔ base.size (CNP.removedNodes g) = CNP.numNodes_ g.
Proof.
  intros Hp. pose proof (inv_sizes_sum g Hp) as Hsum. split.
  - intros Hc. rewrite Hc in Hsum. simpl in Hsum. lia.
  - intros Hall. destruct (CNP.connectedComponents_ g) as [|c l] eqn:Hc; [done|].
    assert (H0 : 0 < length (CNP.connectedComponents_ g)) by (rewrite Hc; simpl; lia).
    pose proof (inv_component_size g 0 Hp H0) as Hpos. rewrite Hc in Hpos.
    simpl in Hsum, Hpos. lia.
Qed.

(** In a reachable state of the CNP engine [selectRemovedComponent] raises
    [runtime_error] when every vertex is removed; otherwise it returns the
    index of a stored component, which has at least one member, and changes
    nothing but the generator. *)
Theorem select_removed_component_valid g :
  CSpec.reachable g →
  (base.size (CNP.removedNodes g) = CNP.numNodes_ g →
   CNPSelect.selectRemovedComponent g = Throw runtime_error) ∧
  (base.size (CNP.removedNodes g) < CNP.numNodes_ g →
   ∃ ci g' comp,
     CNPSelect.selectRemovedComponent g = Ok (ci, g') ∧ (0 ≤ ci)%Z ∧
     CNP.connectedComponents_ g !! Z.to_nat ci = Some comp ∧ CNP.nodes comp ≠ [] ∧
     same_structure g g').
Proof.
  intros Hr. pose proof (cnp_reachable_inv g Hr) as Hp. split.
  - intros Hall%(inv_components_empty g Hp).
    unfold CNPSelect.selectRemovedComponent. rewrite Hall. cbv zeta.
    rewrite decide_False by (simpl; lia).
    destruct (CNPSelect.size_range _ _) as [minSize maxSize].
    destruct (generateIndex_returns 3 (CNP.rng_ g)) as (r3 & r & Hgen & _); [lia|].
    rewrite Hgen. done.
  - intros Hsome.
    assert (Hne : CNP.connectedComponents_ g ≠ []).
    { intros Hc%(inv_components_empty g Hp). lia. }
    destruct (selectRemovedComponent_valid g Hp Hne) as (ci & g' & Hsel & Hci & Hlt).
    destruct (lookup_lt_is_Some_2 _ _ Hlt) as [comp Hc].
    exists ci, g', comp. split; [done|]. split; [done|]. split; [done|].
    split; [by destruct (CSpec.p_comp g ∅ Hp _ comp Hc) as (_ & _ & ? & _)|].
    by apply (selectRemovedComponent_frame g ci).
Qed.

Lemma select_removed_component_valid_witness :
  CSpec.reachable (Examples.cnp_state 3 Examples.path3 {[1]}) ∧
  base.size (CNP.removedNodes (Examples.cnp_state 3 Examples.path3 {[1]}))
  < CNP.numNodes_ (Examples.cnp_state 3 Examples.path3 {[1]}) ∧
  ∃ ci g' comp,
    CNPSelect.selectRemovedComponent (Examples.cnp_state 3 Examples.path3 {[1]}) = Ok (ci, g') ∧
    CNP.connectedComponents_ (Examples.cnp_state 3 Examples.path3 {[1]}) !! Z.to_nat ci
    = Some comp.
Proof.
  assert (Hr : CSpec.reachable (Examples.cnp_state 3 Examples.path3 {[1]})).
  { apply (CSpec.reach_first 3 Examples.path3 1 Examples.rng0 0 {[1]}).
    - exact path3_valid.
    - intros v ->%elem_of_singleton. lia.
    - vm_compute. reflexivity. }
  assert (Hlt : base.size (CNP.removedNodes (Examples.cnp_state 3 Examples.path3 {[1]}))
                < CNP.numNodes_ (Examples.cnp_state 3 Examples.path3 {[1]}))
    by (vm_compute; lia).
  split; [exact Hr|]. split; [exact Hlt|].
  destruct (proj2 (select_removed_component_valid
                     (Examples.cnp_state 3 Examples.path3 {[1]}) Hr) Hlt)
    as (ci & g' & comp & Hsel & _ & Hc & _).
  exists ci, g', comp. split; [exact Hsel | exact Hc].
Defined.

(** ** The local searches on a CNP handle *)

Lemma removeNode_result g x g3 :
  CSpec.inv g → x < CNP.numNodes_ g → x ∉ CNP.removedNodes g →
  CNP.removeNode x g = Ok g3 →
  CSpec.inv g3 ∧ CNP.numNodes_ g3 = CNP.numNodes_ g ∧
  CNP.originalAdjList_ g3 = CNP.originalAdjList_ g ∧
  CNP.removedNodes g3 = CNP.removedNodes g ∪ {[x]}.
Proof.
  intros Hp Hx Hl Hrm.
  destruct (cnp_removeNode_spec g x Hp Hx Hl)
    as (g' & c & comp & _ & _ & Hrm' & Hp' & Hn & Hrem & _ & Horig & _).
  rewrite Hrm in Hrm'. by injection Hrm' as <-.
Qed.

Lemma addNode_result g w g6 :
  CSpec.inv g → w ∈ CNP.removedNodes g →
  CNP.addNode w g = Ok g6 →
  CSpec.inv g6 ∧ CNP.numNodes_ g6 = CNP.numNodes_ g ∧
  CNP.originalAdjList_ g6 = CNP.originalAdjList_ g ∧
  CNP.removedNodes g6 = CNP.removedNodes g ∖ {[w]}.
Proof.
  intros Hp Hw Hadd.
  destruct (cnp_addNode_spec g w Hp (inv_removed_range g w Hp Hw) Hw)
    as (g' & Hadd' & Hp' & Hn & Hrem & Horig & _).
  rewrite Hadd in Hadd'. by injection Hadd' as <-.
Qed.

(** Removing a surviving vertex and adding back the vertex that the greedy
    selection names. *)
Lemma swap_back_full g x g3 :
  CSpec.inv g → x < CNP.numNodes_ g → x ∉ CNP.removedNodes g →
  CNP.removeNode x g = Ok g3 →
  ∀ g4, same_structure g3 g4 →
  ∃ w g5 g6,
    CNPSelect.greedySelectNodeToAdd g4 = Ok (w, g5) ∧ CNP.addNode w g5 = Ok g6 ∧
    CSpec.inv g6 ∧ CNP.numNodes_ g6 = CNP.numNodes_ g ∧
    CNP.originalAdjList_ g6 = CNP.originalAdjList_ g ∧
    base.size (CNP.removedNodes g6) = base.size (CNP.removedNodes g).
Proof.
  intros Hp Hx Hl Hrm g4 Hs34.
  destruct (removeNode_result g x g3 Hp Hx Hl Hrm) as (Hp3 & Hn3 & Ho3 & Hr3).
  pose proof (same_structure_inv g3 g4 Hs34 Hp3) as Hp4.
  destruct (greedySelect_spec g4) as (w & g5 & Hgr & Hw & Hs45).
  { destruct Hs34 as (_ & _ & _ & _ & _ & _ & _ & _ & _ & ->). rewrite Hr3. set_solver. }
  pose proof (same_structure_inv g4 g5 Hs45 Hp4) as Hp5.
  destruct (same_structure_trans g3 g4 g5 Hs34 Hs45)
    as (Hn5 & _ & _ & Ho5 & _ & _ & _ & _ & _ & Hr5).
  assert (Hw5 : w ∈ CNP.removedNodes g5).
  { rewrite Hr5. by destruct Hs34 as (_ & _ & _ & _ & _ & _ & _ & _ & _ & <-). }
  destruct (cnp_addNode_spec g5 w Hp5 (inv_removed_range g5 w Hp5 Hw5) Hw5)
    as (g6 & Hadd & Hp6 & Hn6 & Hr6 & Ho6 & _).
  exists w, g5, g6. split; [done|]. split; [done|]. split; [done|].
  split; [by rewrite Hn6, Hn5, Hn3|]. split; [by rewrite Ho6, Ho5, Ho3|].
  rewrite Hr6, Hr5, Hr3.
  rewrite size_difference by (apply singleton_subseteq_l; by rewrite <- Hr3, <- Hr5).
  rewrite size_union by set_solver. rewrite !size_singleton. lia.
Qed.

Lemma inv_some_component g :
  CSpec.inv g → base.size (CNP.removedNodes g) < CNP.numNodes_ g →
  CNP.connectedComponents_ g ≠ [].
Proof. intros Hp Hlt Hc%(inv_components_empty g Hp). lia. Qed.

(** The first half of a move: a component and one of its members. *)
Lemma pick_by_age g :
  CSpec.inv g → base.size (CNP.removedNodes g) < CNP.numNodes_ g →
  ∃ ci g1 x g2,
    CNPSelect.selectRemovedComponent g = Ok (ci, g1) ∧
    CNPSelect.ageSelectNodeFromComponent ci g1 = Ok (x, g2) ∧
    same_structure g g2 ∧ x < CNP.numNodes_ g ∧ x ∉ CNP.removedNodes g.
Proof.
  intros Hp Hlt.
  destruct (selectRemovedComponent_valid g Hp (inv_some_component g Hp Hlt))
    as (ci & g1 & Hsel & Hci & Hidx).
  pose proof (selectRemovedComponent_frame g ci g1 Hsel) as Hs1.
  pose proof (same_structure_inv g g1 Hs1 Hp) as Hp1.
  destruct (lookup_lt_is_Some_2 _ _ Hidx) as [comp Hc].
  assert (Hc1 : CNP.connectedComponents_ g1 !! Z.to_nat ci = Some comp).
  { by destruct Hs1 as (_ & _ & _ & _ & _ & -> & _). }
  destruct (ageSelect_least g1 ci comp Hp1 Hci Hc1) as (x & g2 & Hage & Hx & _ & Hs2).
  exists ci, g1, x, g2. split; [done|]. split; [done|].
  split; [by apply (same_structure_trans g g1 g2)|].
  by destruct (pinv_member_comp g ∅ _ comp x Hp Hc Hx) as (? & ? & _).
Qed.

Lemma cbns_move_total g steps :
  CSpec.inv g → base.size (CNP.removedNodes g) < CNP.numNodes_ g →
  ∃ g', CBNS.performMove (GraphWrapper.Cnp g) steps
        = Ok (GraphWrapper.Cnp g', CNP.getObjectiveValue g') ∧
        CSpec.inv g' ∧ CNP.numNodes_ g' = CNP.numNodes_ g ∧
        CNP.originalAdjList_ g' = CNP.originalAdjList_ g ∧
        base.size (CNP.removedNodes g') = base.size (CNP.removedNodes g).
Proof.
  intros Hp Hlt.
  destruct (pick_by_age g Hp Hlt) as (ci & g1 & x & g2 & Hsel & Hage & Hs2 & Hx & Hxl).
  pose proof (same_structure_inv g g2 Hs2 Hp) as Hp2.
  destruct Hs2 as (Hn2 & _ & _ & Ho2 & _ & _ & _ & _ & _ & Hr2).
  destruct (cnp_removeNode_spec g2 x Hp2) as (g3 & _ & _ & _ & _ & Hrm & _);
    [by rewrite Hn2 | by rewrite Hr2 |].
  destruct (swap_back_full g2 x g3 Hp2) with (g4 := CNP.setNodeAge x steps g3)
    as (w & g5 & g6 & Hgr & Hadd & Hp6 & Hn6 & Ho6 & Hsz6);
    [by rewrite Hn2 | by rewrite Hr2 | done | apply same_structure_age |].
  exists (CNP.setNodeAge w steps g6). split; [|split; [|split; [|split]]].
  - unfold CBNS.performMove.
    cbn [GraphWrapper.selectRemovedComponent]. unfold GraphWrapper.lift_cnp.
    rewrite Hsel. cbn [mbind result_bind GraphWrapper.ageSelectNodeFromComponent].
    unfold GraphWrapper.lift_cnp.
    rewrite Hage. cbn [mbind result_bind GraphWrapper.removeNode].
    rewrite Hrm. cbn [fmap result_fmap mbind result_bind GraphWrapper.setNodeAge
                      GraphWrapper.greedySelectNodeToAdd].
    unfold GraphWrapper.lift_cnp. rewrite Hgr. cbn [mbind result_bind fmap result_fmap].
    rewrite decide_True by (unfold INVALID_NODE; lia).
    rewrite Nat2Z.id. cbn [GraphWrapper.addNode]. rewrite Hadd. done.
  - exact (same_structure_inv g6 _ (same_structure_age w steps g6) Hp6).
  - change (CNP.numNodes_ (CNP.setNodeAge w steps g6)) with (CNP.numNodes_ g6).
    by rewrite Hn6, Hn2.
  - change (CNP.originalAdjList_ (CNP.setNodeAge w steps g6)) with (CNP.originalAdjList_ g6).
    by rewrite Ho6, Ho2.
  - change (CNP.removedNodes (CNP.setNodeAge w steps g6)) with (CNP.removedNodes g6).
    by rewrite Hsz6, Hr2.
Qed.

(** *** The reported value is the value of the reported solution *)

Lemma scored_here g : CSpec.inv g → scored g (CNP.removedNodes g) (CNP.getObjectiveValue g).
Proof. intros Hp. by exists g. Qed.

Lemma scored_evaluates g0 S v :
  CSpec.inv g0 → scored g0 S v →
  ∃ ge, CNP.updateGraphByRemovedNodes S g0 = Ok ge ∧ CNP.getObjectiveValue ge = v.
Proof.
  intros Hp0 (gb & Hpb & Hnb & Hob & <- & <-).
  pose proof (CSpec.p_graph g0 ∅ Hp0) as Hg0. pose proof (CSpec.p_graph gb ∅ Hpb) as Hgb.
  destruct (updateGraphByRemovedNodes_static g0 (CNP.removedNodes gb) (CSpec.g_static g0 Hg0))
    as (ge & Hup & Hpe & Hne & Hre & Hoe).
  { intros v Hv. rewrite <- Hnb. by apply (CSpec.g_removed gb Hgb). }
  exists ge. split; [done|].
  assert (Hcur : CNP.currentAdjList_ ge = CNP.currentAdjList_ gb).
  { pose proof (CSpec.g_cur ge (CSpec.p_graph ge ∅ Hpe)) as He.
    pose proof (CSpec.g_cur gb Hgb) as Heb. rewrite Hoe, Hre in He. rewrite Hob in Heb.
    exact (elided_unique _ _ _ _ He Heb). }
  by destruct (inv_determined gb ge Hpb Hpe) as [Hobj _]; [congruence | done | done |].
Qed.

Lemma cbns_loop_total maxIdle g0 k fuel : ∀ g best bestObj idle steps,
  CSpec.inv g → CNP.numNodes_ g = CNP.numNodes_ g0 →
  CNP.originalAdjList_ g = CNP.originalAdjList_ g0 →
  base.size (CNP.removedNodes g) = k → k < CNP.numNodes_ g0 →
  scored g0 best bestObj → base.size best = k → (0 ≤ idle)%Z →
  Z.to_nat (bestObj * maxIdle + maxIdle - idle) ≤ fuel →
  ∃ h res,
    CBNS.search_loop fuel maxIdle (GraphWrapper.Cnp g) best bestObj idle steps = Ok (h, res) ∧
    scored g0 (solution res) (objValue res) ∧ base.size (solution res) = k ∧
    (objValue res ≤ bestObj)%Z.
Proof.
  induction fuel as [|fuel IH];
    intros g best bestObj idle steps Hp Hn Ho Hk Hlt Hbest Hbk Hidle Hfuel;
    cbn [CBNS.search_loop]; destruct (decide (idle < maxIdle)%Z) as [Hrun|Hstop];
    try (eexists _, _; split; [done|]; cbn [solution objValue]; split; [done|];
         split; [done | lia]).
  - assert (0 ≤ bestObj)%Z
      by (destruct Hbest as (gb & Hpb & _ & _ & _ & <-); by apply inv_objective_nonneg).
    nia.
  - assert (Hnonneg : (0 ≤ bestObj)%Z)
      by (destruct Hbest as (gb & Hpb & _ & _ & _ & <-); by apply inv_objective_nonneg).
    cbv zeta.
    destruct (cbns_move_total g (steps + 1) Hp) as (g' & -> & Hp' & Hn' & Ho' & Hsz'); [lia|].
    cbn [mbind result_bind].
    pose proof (inv_objective_nonneg g' Hp') as Hcur.
    destruct (decide (CNP.getObjectiveValue g' < bestObj)%Z) as [Himp|Hno].
    + destruct (IH g' (CNP.removedNodes g') (CNP.getObjectiveValue g') 0%Z (steps + 1)%Z)
        as (h & res & Hloop & Hres & Hsize & Hle); try done; try lia; try congruence.
      { exists g'. split; [done|]. split; [congruence|]. split; [congruence|]. done. }
      { nia. }
      exists h, res. split; [done|]. split; [done|]. split; [done | lia].
    + destruct (IH g' best bestObj (idle + 1)%Z (steps + 1)%Z)
        as (h & res & Hloop & Hres & Hsize & Hle); try done; try lia; try congruence.
      by exists h, res.
Qed.

(** On a reachable CNP engine with at least one surviving vertex, [execute] of
    the component-based neighbourhood search returns once it is given
    [(objective + 1) * maxIdleSteps] units of fuel.  The solution it reports
    has as many vertices as the removed set it started from, the objective it
    reports is not above the initial objective, and it is the objective of the
    reported solution: [updateGraphByRemovedNodes] on that solution gives an
    engine with this objective. *)
Theorem cbns_execute_returns g fuel maxIdleSteps :
  CSpec.reachable g → base.size (CNP.removedNodes g) < CNP.numNodes_ g →
  Z.to_nat ((CNP.getObjectiveValue g + 1) * maxIdleSteps) ≤ fuel →
  ∃ h res,
    CBNS.execute fuel maxIdleSteps (GraphWrapper.Cnp g) = Ok (h, res) ∧
    base.size (solution res) = base.size (CNP.removedNodes g) ∧
    (objValue res ≤ CNP.getObjectiveValue g)%Z ∧
    ∃ ge, CNP.updateGraphByRemovedNodes (solution res) g = Ok ge ∧
          CNP.getObjectiveValue ge = objValue res.
Proof.
  intros Hr Hlt Hfuel. pose proof (cnp_reachable_inv g Hr) as Hp.
  unfold CBNS.execute. cbn [GraphWrapper.getRemovedNodes GraphWrapper.getObjectiveValue].
  destruct (cbns_loop_total maxIdleSteps g (base.size (CNP.removedNodes g)) fuel g
              (CNP.removedNodes g) (CNP.getObjectiveValue g) 0 0)
    as (h & res & Hloop & Hres & Hsize & Hle); try done.
  { by apply scored_here. }
  { replace (CNP.getObjectiveValue g * maxIdleSteps + maxIdleSteps - 0)%Z
      with ((CNP.getObjectiveValue g + 1) * maxIdleSteps)%Z by lia. done. }
  exists h, res. split; [done|]. split; [done|]. split; [done|].
  by apply scored_evaluates.
Qed.

Lemma cbns_execute_returns_witness :
  CSpec.reachable (Examples.cnp_state 3 Examples.path3 {[0]}) ∧
  ∃ h res,
    CBNS.execute 6 3 (GraphWrapper.Cnp (Examples.cnp_state 3 Examples.path3 {[0]}))
    = Ok (h, res) ∧
    (objValue res ≤ CNP.getObjectiveValue (Examples.cnp_state 3 Examples.path3 {[0%nat]}))%Z.
Proof.
  assert (Hr : CSpec.reachable (Examples.cnp_state 3 Examples.path3 {[0]})).
  { apply (CSpec.reach_first 3 Examples.path3 1 Examples.rng0 0 {[0]}).
    - exact path3_valid.
    - intros v ->%elem_of_singleton. lia.
    - vm_compute. reflexivity. }
  assert (Hlt : base.size (CNP.removedNodes (Examples.cnp_state 3 Examples.path3 {[0]}))
                < CNP.numNodes_ (Examples.cnp_state 3 Examples.path3 {[0]}))
    by (vm_compute; lia).
  assert (Hfuel : Z.to_nat ((CNP.getObjectiveValue
                               (Examples.cnp_state 3 Examples.path3 {[0%nat]}) + 1) * 3) ≤ 6)
    by (vm_compute; lia).
  split; [exact Hr|].
  destruct (cbns_execute_returns (Examples.cnp_state 3 Examples.path3 {[0]}) 6 3 Hr Hlt Hfuel)
    as (h & res & Hex & _ & Hle & _).
  exists h, res. split; [exact Hex | exact Hle].
Defined.

Lemma chns_move_result theta rng g steps h obj r :
  CSpec.inv g →
  CHNS.performMove theta rng (GraphWrapper.Cnp g) steps = Ok (h, obj, r) →
  ∃ g', h = GraphWrapper.Cnp g' ∧ obj = CNP.getObjectiveValue g' ∧
        CSpec.inv g' ∧ CNP.numNodes_ g' = CNP.numNodes_ g ∧
        CNP.originalAdjList_ g' = CNP.originalAdjList_ g ∧
        base.size (CNP.removedNodes g') = base.size (CNP.removedNodes g).
Proof.
  intros Hp Hmove. unfold CHNS.performMove in Hmove.
  cbn [GraphWrapper.selectRemovedComponent] in Hmove.
  unfold GraphWrapper.lift_cnp at 1 in Hmove.
  destruct (CNPSelect.selectRemovedComponent g) as [[ci g1]|] eqn:Hsel; [|done].
  cbn [mbind result_bind] in Hmove.
  destruct (Rng.generateProbability rng) as [p rng'].
  pose proof (selectRemovedComponent_frame g ci g1 Hsel) as Hs1.
  pose proof (same_structure_inv g g1 Hs1 Hp) as Hp1.
  assert (Hnode : ∃ x g2,
            (if negb (Qle_bool theta p)
             then GraphWrapper.impactSelectNodeFromComponent ci (GraphWrapper.Cnp g1)
             else GraphWrapper.ageSelectNodeFromComponent ci (GraphWrapper.Cnp g1))
            = Ok (x, GraphWrapper.Cnp g2) ∧
            x < CNP.numNodes_ g1 ∧ x ∉ CNP.removedNodes g1 ∧ same_structure g1 g2).
  { destruct (negb (Qle_bool theta p)).
    - cbn [GraphWrapper.impactSelectNodeFromComponent] in *. unfold GraphWrapper.lift_cnp in *.
      destruct (CNPSelect.impactSelectNodeFromComponent ci g1) as [[x g2]|] eqn:Hsel2; [|done].
      exists x, g2. split; [done|]. by apply (impactSelect_spec g1 ci).
    - cbn [GraphWrapper.ageSelectNodeFromComponent] in *. unfold GraphWrapper.lift_cnp in *.
      destruct (CNPSelect.ageSelectNodeFromComponent ci g1) as [[x g2]|] eqn:Hsel2; [|done].
      exists x, g2. split; [done|]. by apply (ageSelect_spec g1 ci). }
  destruct Hnode as (x & g2 & Hnode & Hx & Hxl & Hs12).
  rewrite Hnode in Hmove. cbn [mbind result_bind GraphWrapper.removeNode] in Hmove.
  pose proof (same_structure_trans g g1 g2 Hs1 Hs12) as Hs2.
  pose proof (same_structure_inv g g2 Hs2 Hp) as Hp2.
  destruct Hs12 as (Hn12 & _ & _ & _ & _ & _ & _ & _ & _ & Hr12).
  destruct Hs2 as (Hn2 & _ & _ & Ho2 & _ & _ & _ & _ & _ & Hr2).
  destruct (cnp_removeNode_spec g2 x Hp2) as (g3 & _ & _ & _ & _ & Hrm & _);
    [by rewrite Hn12 | by rewrite Hr12 |].
  destruct (swap_back_full g2 x g3 Hp2) with (g4 := CNP.setNodeAge x steps g3)
    as (w & g5 & g6 & Hgr & Hadd & Hp6 & Hn6 & Ho6 & Hsz6);
    [by rewrite Hn12 | by rewrite Hr12 | done | apply same_structure_age |].
  rewrite Hrm in Hmove.
  cbn [fmap result_fmap mbind result_bind GraphWrapper.setNodeAge
       GraphWrapper.greedySelectNodeToAdd] in Hmove.
  unfold GraphWrapper.lift_cnp in Hmove. rewrite Hgr in Hmove.
  cbn [mbind result_bind fmap result_fmap] in Hmove.
  rewrite decide_True in Hmove by (unfold INVALID_NODE; lia).
  rewrite Nat2Z.id in Hmove. cbn [GraphWrapper.addNode] in Hmove. rewrite Hadd in Hmove.
  cbn [fmap result_fmap mbind result_bind GraphWrapper.setNodeAge
       GraphWrapper.getObjectiveValue] in Hmove.
  injection Hmove as <- <- <-.
  exists (CNP.setNodeAge w steps g6). split; [done|]. split; [done|].
  split; [exact (same_structure_inv g6 _ (same_structure_age w steps g6) Hp6)|].
  change (CNP.numNodes_ (CNP.setNodeAge w steps g6)) with (CNP.numNodes_ g6).
  change (CNP.originalAdjList_ (CNP.setNodeAge w steps g6)) with (CNP.originalAdjList_ g6).
  change (CNP.removedNodes (CNP.setNodeAge w steps g6)) with (CNP.removedNodes g6).
  split; [by rewrite Hn6, Hn2|]. split; [by rewrite Ho6, Ho2|]. by rewrite Hsz6, Hr2.
Qed.

Lemma chns_loop_result maxIdle theta g0 k fuel : ∀ rng g best bestObj idle steps h res,
  CSpec.inv g → CNP.numNodes_ g = CNP.numNodes_ g0 →
  CNP.originalAdjList_ g = CNP.originalAdjList_ g0 →
  base.size (CNP.removedNodes g) = k →
  scored g0 best bestObj → base.size best = k →
  CHNS.search_loop fuel maxIdle theta rng (GraphWrapper.Cnp g) best bestObj idle steps
  = Ok (h, res) →
  scored g0 (solution res) (objValue res) ∧ base.size (solution res) = k ∧
  (objValue res ≤ bestObj)%Z.
Proof.
  induction fuel as [|fuel IH];
    intros rng g best bestObj idle steps h res Hp Hn Ho Hk Hbest Hbk;
    cbn [CHNS.search_loop]; destruct (decide (idle < maxIdle)%Z) as [Hrun|Hstop];
    try (intros [= <- <-]; cbn [solution objValue]; split; [done|]; split; [done | lia]);
    [done|].
  cbv zeta.
  destruct (CHNS.performMove theta rng (GraphWrapper.Cnp g) (steps + 1))
    as [[[h' cur] rng']|] eqn:Hmove; [|done].
  destruct (chns_move_result theta rng g _ h' cur rng' Hp Hmove)
    as (g' & -> & -> & Hp' & Hn' & Ho' & Hsz').
  cbn [mbind result_bind].
  destruct (decide (CNP.getObjectiveValue g' < bestObj)%Z) as [Himp|Hno]; intros Hloop.
  - destruct (IH rng' g' (CNP.removedNodes g') (CNP.getObjectiveValue g') 0%Z (steps + 1)%Z
                h res Hp') as (Hres & Hsize & Hle);
      [congruence | congruence | congruence | | congruence | exact Hloop |].
    { exists g'. split; [done|]. split; [congruence|]. split; [congruence|]. done. }
    split; [done|]. split; [done | lia].
  - by destruct (IH rng' g' best bestObj (idle + 1)%Z (steps + 1)%Z h res Hp')
      as (Hres & Hsize & Hle); [congruence | congruence | congruence | | | exact Hloop |].
Qed.

(** On a reachable CNP engine, whatever [execute] of the component-based
    hybrid neighbourhood search returns is sound: the reported solution has
    as many vertices as the removed set it started from, the reported
    objective is not above the initial objective, and it is the objective of
    the reported solution ([updateGraphByRemovedNodes] on that solution gives
    an engine with this objective). *)
Theorem chns_execute_result g fuel maxIdleSteps theta rng h res :
  CSpec.reachable g →
  CHNS.execute fuel maxIdleSteps theta rng (GraphWrapper.Cnp g) = Ok (h, res) →
  base.size (solution res) = base.size (CNP.removedNodes g) ∧
  (objValue res ≤ CNP.getObjectiveValue g)%Z ∧
  ∃ ge, CNP.updateGraphByRemovedNodes (solution res) g = Ok ge ∧
        CNP.getObjectiveValue ge = objValue res.
Proof.
  intros Hr Hex. pose proof (cnp_reachable_inv g Hr) as Hp.
  unfold CHNS.execute in Hex.
  cbn [GraphWrapper.getRemovedNodes GraphWrapper.getObjectiveValue] in Hex.
  destruct (chns_loop_result maxIdleSteps theta g (base.size (CNP.removedNodes g)) fuel rng g
              (CNP.removedNodes g) (CNP.getObjectiveValue g) 0 0 h res)
    as (Hres & Hsize & Hle); try done.
  { by apply scored_here. }
  split; [done|]. split; [done|]. by apply scored_evaluates.
Qed.

Lemma chns_execute_result_witness :
  CSpec.reachable (Examples.cnp_state 3 Examples.path3 {[0]}) ∧
  ∃ h res,
    CHNS.execute 6 3 (3 # 10) Examples.rng0
      (GraphWrapper.Cnp (Examples.cnp_state 3 Examples.path3 {[0]})) = Ok (h, res) ∧
    base.size (solution res)
    = base.size (CNP.removedNodes (Examples.cnp_state 3 Examples.path3 {[0]})).
Proof.
  assert (Hr : CSpec.reachable (Examples.cnp_state 3 Examples.path3 {[0]})).
  { apply (CSpec.reach_first 3 Examples.path3 1 Examples.rng0 0 {[0]}).
    - exact path3_valid.
    - intros v ->%elem_of_singleton. lia.
    - vm_compute. reflexivity. }
  assert (Hret : ∃ h res,
            CHNS.execute 6 3 (3 # 10) Examples.rng0
              (GraphWrapper.Cnp (Examples.cnp_state 3 Examples.path3 {[0]})) = Ok (h, res)).
  { vm_compute. eexists _, _. reflexivity. }
  destruct Hret as (h & res & Hret).
  split; [exact Hr|]. exists h, res. split; [exact Hret|].
  exact (proj1 (chns_execute_result (Examples.cnp_state 3 Examples.path3 {[0]})
                  6 3 (3 # 10) Examples.rng0 h res Hr Hret)).
Defined.

(** *** The diversified late acceptance search *)

Lemma randomSelect_member g ci comp :
  CSpec.inv g → (0 ≤ ci)%Z →
  CNP.connectedComponents_ g !! Z.to_nat ci = Some comp →
  ∃ x g', CNPSelect.randomSelectNodeFromComponent ci g = Ok (x, g') ∧
          x ∈ CNP.nodes comp ∧ same_structure g g'.
Proof.
  intros Hp Hci Hc. destruct (CSpec.p_comp g ∅ Hp _ comp Hc) as (Hsz & _ & Hne & _).
  assert (Hpos : 0 < length (CNP.nodes comp)) by (destruct (CNP.nodes comp); [done | simpl; lia]).
  unfold CNPSelect.randomSelectNodeFromComponent.
  rewrite decide_False by lia. rewrite (list_lookup_total_correct _ _ _ Hc). cbv zeta.
  rewrite bool_decide_eq_false_2 by done.
  destruct (generateIndex_returns (Z.of_nat (CNP.size comp)) (CNP.rng_ g))
    as (idx & r & Hgen & Hidx); [lia|].
  rewrite Hgen. cbn [mbind result_bind]. eexists _, _. split; [done|].
  split; [|apply same_structure_rng].
  apply list_elem_of_lookup_2 with (Z.to_nat idx). apply list_lookup_lookup_total_lt. lia.
Qed.

Lemma pick_at_random g :
  CSpec.inv g → base.size (CNP.removedNodes g) < CNP.numNodes_ g →
  ∃ ci g1 x g2,
    CNPSelect.selectRemovedComponent g = Ok (ci, g1) ∧
    CNPSelect.randomSelectNodeFromComponent ci g1 = Ok (x, g2) ∧
    same_structure g g2 ∧ x < CNP.numNodes_ g ∧ x ∉ CNP.removedNodes g.
Proof.
  intros Hp Hlt.
  destruct (selectRemovedComponent_valid g Hp (inv_some_component g Hp Hlt))
    as (ci & g1 & Hsel & Hci & Hidx).
  pose proof (selectRemovedComponent_frame g ci g1 Hsel) as Hs1.
  pose proof (same_structure_inv g g1 Hs1 Hp) as Hp1.
  destruct (lookup_lt_is_Some_2 _ _ Hidx) as [comp Hc].
  assert (Hc1 : CNP.connectedComponents_ g1 !! Z.to_nat ci = Some comp).
  { by destruct Hs1 as (_ & _ & _ & _ & _ & -> & _). }
  destruct (randomSelect_member g1 ci comp Hp1 Hci Hc1) as (x & g2 & Hrnd & Hx & Hs2).
  exists ci, g1, x, g2. split; [done|]. split; [done|].
  split; [by apply (same_structure_trans g g1 g2)|].
  by destruct (pinv_member_comp g ∅ _ comp x Hp Hc Hx) as (? & ? & _).
Qed.

(** Going back to an earlier removed set gives back its objective. *)
Lemma rollback_spec g g5 :
  CSpec.inv g → CSpec.inv g5 → CNP.numNodes_ g5 = CNP.numNodes_ g →
  CNP.originalAdjList_ g5 = CNP.originalAdjList_ g →
  ∃ g', CNP.updateGraphByRemovedNodes (CNP.removedNodes g) g5 = Ok g' ∧
        CSpec.inv g' ∧ CNP.numNodes_ g' = CNP.numNodes_ g ∧
        CNP.originalAdjList_ g' = CNP.originalAdjList_ g ∧
        CNP.removedNodes g' = CNP.removedNodes g ∧
        CNP.getObjectiveValue g' = CNP.getObjectiveValue g.
Proof.
  intros Hp Hp5 Hn5 Ho5.
  pose proof (CSpec.p_graph g ∅ Hp) as Hg. pose proof (CSpec.p_graph g5 ∅ Hp5) as Hg5.
  destruct (updateGraphByRemovedNodes_static g5 (CNP.removedNodes g) (CSpec.g_static g5 Hg5))
    as (g' & Hup & Hp' & Hn' & Hr' & Ho').
  { intros v Hv. rewrite Hn5. by apply (CSpec.g_removed g Hg). }
  exists g'. split; [done|]. split; [done|]. split; [congruence|]. split; [congruence|].
  split; [done|].
  assert (Hcur : CNP.currentAdjList_ g' = CNP.currentAdjList_ g).
  { pose proof (CSpec.g_cur g' (CSpec.p_graph g' ∅ Hp')) as He.
    rewrite Ho', Ho5, Hr' in He. exact (elided_unique _ _ _ _ He (CSpec.g_cur g Hg)). }
  by destruct (inv_determined g g' Hp Hp') as [Hobj _]; [congruence | done | done |].
Qed.

Lemma update_history_length cur prev idx historyCost maxCost numMaxCost :
  length (DLAS.update_history cur prev idx historyCost maxCost numMaxCost).1.1
  = length historyCost.
Proof.
  unfold DLAS.update_history. cbv zeta.
  repeat (destruct (decide _)); cbn [fst]; by rewrite ?length_insert.
Qed.

Lemma dlas_move_total g historyCost maxCost numMaxCost steps :
  CSpec.inv g → base.size (CNP.removedNodes g) < CNP.numNodes_ g →
  ∃ g' cur' historyCost' maxCost' numMaxCost',
    DLAS.performMove (GraphWrapper.Cnp g) (CNP.getObjectiveValue g)
      historyCost maxCost numMaxCost steps
    = Ok (GraphWrapper.Cnp g', cur', historyCost', maxCost', numMaxCost') ∧
    cur' = CNP.getObjectiveValue g' ∧
    CSpec.inv g' ∧ CNP.numNodes_ g' = CNP.numNodes_ g ∧
    CNP.originalAdjList_ g' = CNP.originalAdjList_ g ∧
    base.size (CNP.removedNodes g') = base.size (CNP.removedNodes g) ∧
    length historyCost' = length historyCost ∧
    ((cur' = CNP.getObjectiveValue g ∨ cur' < maxCost)%Z ∨
     (CNP.removedNodes g' = CNP.removedNodes g ∧ cur' = CNP.getObjectiveValue g)).
Proof.
  intros Hp Hlt.
  destruct (pick_at_random g Hp Hlt) as (ci & g1 & x & g2 & Hsel & Hrnd & Hs2 & Hx & Hxl).
  pose proof (same_structure_inv g g2 Hs2 Hp) as Hp2.
  destruct Hs2 as (Hn2 & _ & _ & Ho2 & _ & _ & _ & _ & _ & Hr2).
  destruct (cnp_removeNode_spec g2 x Hp2) as (g3 & _ & _ & _ & _ & Hrm & _);
    [by rewrite Hn2 | by rewrite Hr2 |].
  destruct (swap_back_full g2 x g3 Hp2) with (g4 := g3)
    as (w & g5 & g6 & Hgr & Hadd & Hp6 & Hn6 & Ho6 & Hsz6);
    [by rewrite Hn2 | by rewrite Hr2 | done | apply same_structure_refl |].
  set (g7 := CNP.setNodeAge w steps g6).
  assert (Hp7 : CSpec.inv g7)
    by exact (same_structure_inv g6 _ (same_structure_age w steps g6) Hp6).
  unfold DLAS.performMove. cbv zeta.
  cbn [GraphWrapper.selectRemovedComponent]. unfold GraphWrapper.lift_cnp.
  rewrite Hsel. cbn [mbind result_bind GraphWrapper.randomSelectNodeFromComponent].
  unfold GraphWrapper.lift_cnp.
  rewrite Hrnd. cbn [mbind result_bind GraphWrapper.removeNode].
  rewrite Hrm. cbn [fmap result_fmap mbind result_bind GraphWrapper.greedySelectNodeToAdd].
  rewrite Hgr. cbn [mbind result_bind fmap result_fmap].
  rewrite decide_True by (unfold INVALID_NODE; lia).
  rewrite Nat2Z.id. cbn [GraphWrapper.addNode]. rewrite Hadd.
  cbn [fmap result_fmap mbind result_bind GraphWrapper.setNodeAge
       GraphWrapper.getObjectiveValue GraphWrapper.getRemovedNodes]. fold g7.
  destruct (decide (CNP.getObjectiveValue g7 = CNP.getObjectiveValue g
                    ∨ CNP.getObjectiveValue g7 < maxCost)%Z) as [Hacc|Hrej].
  - cbn [mbind result_bind].
    destruct (DLAS.update_history _ _ _ _ _ _) as [[hc mc] nmc] eqn:Hu.
    assert (Hlen : length hc = length historyCost).
    { match type of Hu with
      | DLAS.update_history ?a ?b ?c _ _ _ = _ =>
        pose proof (update_history_length a b c historyCost maxCost numMaxCost) as Hlen
      end.
      by rewrite Hu in Hlen. }
    exists g7, (CNP.getObjectiveValue g7), hc, mc, nmc. split; [done|]. split; [done|].
    split; [done|]. split; [by rewrite <- Hn2, <- Hn6|].
    split; [by rewrite <- Ho2, <- Ho6|]. split; [by rewrite <- Hr2, <- Hsz6|].
    split; [done|]. by left.
  - destruct (rollback_spec g g7 Hp Hp7) as (g' & Hup & Hp' & Hn' & Ho' & Hr' & Hobj');
      [by rewrite <- Hn2, <- Hn6 | by rewrite <- Ho2, <- Ho6 |].
    cbn [GraphWrapper.updateGraphByRemovedNodes]. rewrite Hup.
    cbn [fmap result_fmap mbind result_bind].
    destruct (DLAS.update_history _ _ _ _ _ _) as [[hc mc] nmc] eqn:Hu.
    assert (Hlen : length hc = length historyCost).
    { match type of Hu with
      | DLAS.update_history ?a ?b ?c _ _ _ = _ =>
        pose proof (update_history_length a b c historyCost maxCost numMaxCost) as Hlen
      end.
      by rewrite Hu in Hlen. }
    exists g', (CNP.getObjectiveValue g), hc, mc, nmc. split; [done|]. split; [done|].
    split; [done|]. split; [done|]. split; [done|]. split; [by rewrite Hr'|].
    split; [done|]. by right.
Qed.



Lemma dlas_loop_total maxIdle g0 k fuel : ∀ g historyCost maxCost numMaxCost best bestObj idle steps,
  CSpec.inv g → CNP.numNodes_ g = CNP.numNodes_ g0 →
  CNP.originalAdjList_ g = CNP.originalAdjList_ g0 →
  base.size (CNP.removedNodes g) = k → k < CNP.numNodes_ g0 →
  scored g0 best bestObj → base.size best = k → (0 ≤ idle)%Z →
  Z.to_nat (bestObj * maxIdle + maxIdle - idle) ≤ fuel →
  ∃ h res,
    DLASSearch.search_loop fuel maxIdle (GraphWrapper.Cnp g) (CNP.getObjectiveValue g)
      historyCost maxCost numMaxCost best bestObj idle steps = Ok (h, res) ∧
    scored g0 (solution res) (objValue res) ∧ base.size (solution res) = k ∧
    (objValue res ≤ bestObj)%Z.
Proof.
  induction fuel as [|fuel IH];
    intros g hc mc nmc best bestObj idle steps Hp Hn Ho Hk Hlt Hbest Hbk Hidle Hfuel;
    cbn [DLASSearch.search_loop]; destruct (decide (idle < maxIdle)%Z) as [Hrun|Hstop];
    try (eexists _, _; split; [done|]; cbn [solution objValue]; split; [done|];
         split; [done | lia]).
  - assert (0 ≤ bestObj)%Z
      by (destruct Hbest as (gb & Hpb & _ & _ & _ & <-); by apply inv_objective_nonneg).
    nia.
  - assert (Hnonneg : (0 ≤ bestObj)%Z)
      by (destruct Hbest as (gb & Hpb & _ & _ & _ & <-); by apply inv_objective_nonneg).
    cbv zeta.
    destruct (dlas_move_total g hc mc nmc (steps + 1) Hp)
      as (g' & cur' & hc' & mc' & nmc' & -> & -> & Hp' & Hn' & Ho' & Hsz' & _); [lia|].
    cbn [mbind result_bind].
    pose proof (inv_objective_nonneg g' Hp') as Hcur.
    destruct (decide (CNP.getObjectiveValue g' < bestObj)%Z) as [Himp|Hno].
    + destruct (IH g' hc' mc' nmc' (CNP.removedNodes g') (CNP.getObjectiveValue g') 0%Z
                  (steps + 1)%Z)
        as (h & res & Hloop & Hres & Hsize & Hle); try done; try lia; try congruence.
      { exists g'. split; [done|]. split; [congruence|]. split; [congruence|]. done. }
      { nia. }
      exists h, res. split; [done|]. split; [done|]. split; [done | lia].
    + destruct (IH g' hc' mc' nmc' best bestObj (idle + 1)%Z (steps + 1)%Z)
        as (h & res & Hloop & Hres & Hsize & Hle); try done; try lia; try congruence.
      by exists h, res.
Qed.

(** On a reachable CNP engine with at least one surviving vertex, [execute] of
    the diversified late acceptance search with a history of positive length
    returns once it is given [(objective + 1) * maxIdleSteps] units of fuel.
    The solution it reports has as many vertices as the removed set it started
    from, the objective it reports is not above the initial objective, and it
    is the objective of the reported solution. *)
Theorem dlas_execute_returns g fuel maxIdleSteps historyLength :
  CSpec.reachable g → base.size (CNP.removedNodes g) < CNP.numNodes_ g →
  0 < historyLength →
  Z.to_nat ((CNP.getObjectiveValue g + 1) * maxIdleSteps) ≤ fuel →
  ∃ h res,
    DLASSearch.execute fuel maxIdleSteps historyLength (GraphWrapper.Cnp g) = Ok (h, res) ∧
    base.size (solution res) = base.size (CNP.removedNodes g) ∧
    (objValue res ≤ CNP.getObjectiveValue g)%Z ∧
    ∃ ge, CNP.updateGraphByRemovedNodes (solution res) g = Ok ge ∧
          CNP.getObjectiveValue ge = objValue res.
Proof.
  intros Hr Hlt _ Hfuel. pose proof (cnp_reachable_inv g Hr) as Hp.
  unfold DLASSearch.execute. cbv zeta.
  cbn [GraphWrapper.getRemovedNodes GraphWrapper.getObjectiveValue].
  destruct (dlas_loop_total maxIdleSteps g (base.size (CNP.removedNodes g)) fuel g
              (replicate historyLength (CNP.getObjectiveValue g)) (CNP.getObjectiveValue g)
              (Z.of_nat historyLength)
              (CNP.removedNodes g) (CNP.getObjectiveValue g) 0 0)
    as (h & res & Hloop & Hres & Hsize & Hle); try done.
  { by apply scored_here. }
  { replace (CNP.getObjectiveValue g * maxIdleSteps + maxIdleSteps - 0)%Z
      with ((CNP.getObjectiveValue g + 1) * maxIdleSteps)%Z by lia. done. }
  exists h, res. split; [done|]. split; [done|]. split; [done|].
  by apply scored_evaluates.
Qed.

Lemma dlas_execute_returns_witness :
  CSpec.reachable (Examples.cnp_state 3 Examples.path3 {[0]}) ∧
  ∃ h res,
    DLASSearch.execute 6 3 5 (GraphWrapper.Cnp (Examples.cnp_state 3 Examples.path3 {[0]}))
    = Ok (h, res) ∧
    base.size (solution res)
    = base.size (CNP.removedNodes (Examples.cnp_state 3 Examples.path3 {[0]})).
Proof.
  assert (Hr : CSpec.reachable (Examples.cnp_state 3 Examples.path3 {[0]})).
  { apply (CSpec.reach_first 3 Examples.path3 1 Examples.rng0 0 {[0]}).
    - exact path3_valid.
    - intros v ->%elem_of_singleton. lia.
    - vm_compute. reflexivity. }
  assert (Hlt : base.size (CNP.removedNodes (Examples.cnp_state 3 Examples.path3 {[0]}))
                < CNP.numNodes_ (Examples.cnp_state 3 Examples.path3 {[0]}))
    by (vm_compute; lia).
  assert (Hh : 0 < 5) by lia.
  assert (Hfuel : Z.to_nat ((CNP.getObjectiveValue
                               (Examples.cnp_state 3 Examples.path3 {[0%nat]}) + 1) * 3) ≤ 6)
    by (vm_compute; lia).
  split; [exact Hr|].
  destruct (dlas_execute_returns (Examples.cnp_state 3 Examples.path3 {[0]}) 6 3 5
              Hr Hlt Hh Hfuel) as (h & res & Hex & Hsz & _).
  exists h, res. split; [exact Hex | exact Hsz].
Defined.

(** ** ProblemData: from a list of edges to an engine *)

Lemma addNode_fold (l : list nat) pd :
  ProblemData.adjList_ (foldl (λ pd v, ProblemData.addNode v pd) pd l)
  = ProblemData.adjList_ pd ∧
  ProblemData.nodesSet_ (foldl (λ pd v, ProblemData.addNode v pd) pd l)
  = ProblemData.nodesSet_ pd ∪ list_to_set l.
Proof.
  revert pd. induction l as [|v l IH]; intros pd; simpl; [split; [done | set_solver]|].
  destruct (IH (ProblemData.addNode v pd)) as [-> ->]. simpl. split; [done | set_solver].
Qed.

Lemma addEdge_spec u v pd :
  u < length (ProblemData.adjList_ pd) → v < length (ProblemData.adjList_ pd) →
  ∃ pd', ProblemData.addEdge u v pd = Ok pd' ∧
         ProblemData.nodesSet_ pd' = ProblemData.nodesSet_ pd ∧
         length (ProblemData.adjList_ pd') = length (ProblemData.adjList_ pd) ∧
         ∀ x y, y ∈ ProblemData.adjList_ pd' !!! x
                ↔ y ∈ ProblemData.adjList_ pd !!! x ∨ (x = u ∧ y = v) ∨ (x = v ∧ y = u).
Proof.
  intros Hu Hv. unfold ProblemData.addEdge. rewrite decide_True by done. cbv zeta.
  eexists. split; [done|]. cbn [ProblemData.nodesSet_ ProblemData.adjList_].
  split; [done|]. split; [by rewrite !length_insert|].
  intros x y. destruct (decide (x = v)) as [->|Hxv].
  - rewrite list_lookup_total_insert_eq by (by rewrite length_insert).
    destruct (decide (v = u)) as [->|Hvu].
    + rewrite list_lookup_total_insert_eq by done. set_solver.
    + rewrite list_lookup_total_insert_ne by done. set_solver.
  - rewrite list_lookup_total_insert_ne by done.
    destruct (decide (x = u)) as [->|Hxu].
    + rewrite list_lookup_total_insert_eq by done. set_solver.
    + rewrite list_lookup_total_insert_ne by done. set_solver.
Qed.

Lemma addEdge_fold n (edges : list (nat * nat)) :
  ∀ pd, length (ProblemData.adjList_ pd) = n →
  (∀ e, e ∈ edges → e.1 < n ∧ e.2 < n) →
  ∃ pd', foldlM (λ pd e, ProblemData.addEdge e.1 e.2 pd) edges pd = Ok pd' ∧
         ProblemData.nodesSet_ pd' = ProblemData.nodesSet_ pd ∧
         length (ProblemData.adjList_ pd') = n ∧
         ∀ x y, y ∈ ProblemData.adjList_ pd' !!! x
                ↔ y ∈ ProblemData.adjList_ pd !!! x ∨ (x, y) ∈ edges ∨ (y, x) ∈ edges.
Proof.
  induction edges as [|[u v] edges IH]; intros pd Hlen Hin; cbn [foldlM].
  { exists pd. split; [done|]. split; [done|]. split; [done|]. intros x y. set_solver. }
  destruct (Hin (u, v)) as [Hu Hv]; [by left|]. simpl in Hu, Hv. cbn [fst snd].
  destruct (addEdge_spec u v pd) as (pd1 & -> & Hns1 & Hlen1 & Hadj1); [lia | lia |].
  cbn [mbind result_bind fst snd].
  destruct (IH pd1) as (pd' & -> & Hns' & Hlen' & Hadj'); [lia | |].
  { intros e He. apply Hin. by right. }
  exists pd'. split; [done|]. split; [congruence|]. split; [done|].
  intros x y. rewrite Hadj', Hadj1, !elem_of_cons. naive_solver.
Qed.

Lemma of_edges_spec n (edges : list (nat * nat)) :
  (∀ e, e ∈ edges → e.1 < n ∧ e.2 < n ∧ e.1 ≠ e.2) →
  ∃ pd, ProblemData.of_edges n edges = Ok pd ∧
        ProblemData.nodesSet_ pd = set_seq 0 n ∧
        CSpec.valid_graph n (ProblemData.adjList_ pd) ∧
        ∀ x y, y ∈ ProblemData.adjList_ pd !!! x ↔ (x, y) ∈ edges ∨ (y, x) ∈ edges.
Proof.
  intros Hedges. unfold ProblemData.of_edges.
  destruct (addNode_fold (seq 0 n) (ProblemData.make n)) as [Hadj0 Hns0].
  destruct (addEdge_fold n edges
              (foldl (λ pd v, ProblemData.addNode v pd) (ProblemData.make n) (seq 0 n)))
    as (pd & Hfold & Hns & Hlen & Hadj).
  { rewrite Hadj0. simpl. by rewrite length_replicate. }
  { intros e He. destruct (Hedges e He) as (? & ? & _). done. }
  assert (Hchar : ∀ x y, y ∈ ProblemData.adjList_ pd !!! x ↔ (x, y) ∈ edges ∨ (y, x) ∈ edges).
  { intros x y. rewrite Hadj, Hadj0. simpl.
    assert (Hempty : replicate n (∅ : gset nat) !!! x = ∅).
    { rewrite list_lookup_total_alt. destruct (replicate n ∅ !! x) as [s|] eqn:Hs; [|done].
      by apply lookup_replicate in Hs as [-> _]. }
    rewrite Hempty. set_solver. }
  exists pd. split; [done|]. split.
  { rewrite Hns, Hns0. simpl. rewrite list_to_set_seq. set_solver. }
  split; [|done]. split; [split; [done|]|].
  - intros u w Hu [He|He]%Hchar; destruct (Hedges _ He) as (? & ? & _); simpl in *;
      (split; [done|]); apply Hchar; [by right | by left].
  - intros u [He|He]%Hchar; by destruct (Hedges _ He) as (_ & _ & ?).
Qed.

(** [ProblemData(n)] followed by [addNode] for the vertices [0 .. n-1] and
    [addEdge] for a list of edges between distinct vertices below [n] yields
    the vertex set [{0, .., n-1}] and an adjacency list in which [y] is a
    neighbour of [x] exactly when [(x, y)] or [(y, x)] is in the list; this
    adjacency is symmetric and has no self-loop. *)
Theorem problem_data_holds_the_edges n (edges : list (nat * nat)) :
  (∀ e, e ∈ edges → e.1 < n ∧ e.2 < n ∧ e.1 ≠ e.2) →
  ∃ pd, ProblemData.of_edges n edges = Ok pd ∧
        ProblemData.nodesSet_ pd = set_seq 0 n ∧
        length (ProblemData.adjList_ pd) = n ∧
        (∀ x y, y ∈ ProblemData.adjList_ pd !!! x ↔ (x, y) ∈ edges ∨ (y, x) ∈ edges) ∧
        (∀ x y, y ∈ ProblemData.adjList_ pd !!! x → x ∈ ProblemData.adjList_ pd !!! y) ∧
        (∀ x, x ∉ ProblemData.adjList_ pd !!! x).
Proof.
  intros Hedges. destruct (of_edges_spec n edges Hedges) as (pd & Hpd & Hns & Hvalid & Hchar).
  exists pd. split; [done|]. split; [done|].
  destruct Hvalid as [[Hlen Hsym] Hirr]. split; [done|]. split; [done|]. split; [|done].
  intros x y Hy. apply Hchar. apply Hchar in Hy. tauto.
Qed.

Lemma problem_data_holds_the_edges_witness :
  ∃ pd, ProblemData.of_edges 3 [(0, 1); (1, 2)] = Ok pd ∧
        ProblemData.adjList_ pd = Examples.path3.
Proof.
  assert (Hedges : ∀ e, e ∈ [(0, 1); (1, 2)] → e.1 < 3 ∧ e.2 < 3 ∧ e.1 ≠ e.2).
  { intros e [->|[->|[]%elem_of_nil]%elem_of_cons]%elem_of_cons; simpl; lia. }
  destruct (problem_data_holds_the_edges 3 [(0, 1); (1, 2)] Hedges) as (pd & Hpd & _).
  exists pd. split; [exact Hpd|].
  assert (Heq : ProblemData.of_edges 3 [(0, 1); (1, 2)]
                = Ok (ProblemData.mk 3 (set_seq 0 3) Examples.path3))
    by (vm_compute; reflexivity).
  rewrite Heq in Hpd. injection Hpd as <-. reflexivity.
Defined.

(** [createOriginalGraph] raises [runtime_error] for a problem type other
    than "CNP" and "DCNP" and when [numToRemove] exceeds the number of
    vertices.  On the data of a list of edges between distinct vertices below
    [n] it returns, for "CNP", an engine from which every
    [updateGraphByRemovedNodes] with a set of vertices below [n] leads to a
    reachable state with that removed set, and for "DCNP" an engine in a
    reachable state. *)
Theorem create_original_graph_checks n (edges : list (nat * nat)) pd
    problemType numToRemove seeded cp0 hop_distance :
  (∀ e, e ∈ edges → e.1 < n ∧ e.2 < n ∧ e.1 ≠ e.2) →
  ProblemData.of_edges n edges = Ok pd →
  (problemType ≠ "CNP" → problemType ≠ "DCNP" →
   ProblemData.createOriginalGraph problemType numToRemove seeded cp0 hop_distance pd
   = Throw runtime_error) ∧
  ((Z.of_nat n < numToRemove)%Z →
   ProblemData.createOriginalGraph "CNP" numToRemove seeded cp0 hop_distance pd
   = Throw runtime_error ∧
   ProblemData.createOriginalGraph "DCNP" numToRemove seeded cp0 hop_distance pd
   = Throw runtime_error) ∧
  ((numToRemove ≤ Z.of_nat n)%Z →
   (∃ g0, ProblemData.createOriginalGraph "CNP" numToRemove seeded cp0 hop_distance pd
          = Ok (GraphWrapper.Cnp g0) ∧
          ∀ S, (∀ v, v ∈ S → v < n) →
               ∃ g, CNP.updateGraphByRemovedNodes S g0 = Ok g ∧ CSpec.reachable g ∧
                    CNP.removedNodes g = S) ∧
   (∃ d0, ProblemData.createOriginalGraph "DCNP" numToRemove seeded cp0 hop_distance pd
          = Ok (GraphWrapper.Dcnp d0) ∧ DSpec.reachable d0)).
Proof.
  intros Hedges Hpd.
  destruct (of_edges_spec n edges Hedges) as (pd' & Hpd' & Hns & Hvalid & _).
  rewrite Hpd in Hpd'. injection Hpd' as <-.
  assert (Hsize : base.size (ProblemData.nodesSet_ pd) = n) by (by rewrite Hns, size_set_seq).
  unfold ProblemData.createOriginalGraph. rewrite Hsize, Hns. split; [|split].
  - intros H1 H2. by rewrite !decide_False by done.
  - intros Hbig. split.
    + rewrite decide_True by done. by rewrite decide_True by lia.
    + rewrite decide_False by done. rewrite decide_True by done. by rewrite decide_True by lia.
  - intros Hsmall. split.
    + rewrite decide_True by done. rewrite decide_False by lia. eexists. split; [done|].
      intros S HS.
      destruct (build_static n (ProblemData.adjList_ pd) numToRemove seeded cp0 Hvalid)
        as [Hstatic Hn].
      destruct (updateGraphByRemovedNodes_static _ S Hstatic) as (g & Hup & _ & _ & Hrem & _).
      { intros v Hv. rewrite Hn. by apply HS. }
      exists g. split; [done|]. split; [|done].
      by apply (CSpec.reach_first n (ProblemData.adjList_ pd) numToRemove seeded cp0 S).
    + rewrite decide_False by done. rewrite decide_True by done. rewrite decide_False by lia.
      destruct Hvalid as [Hsym _].
      destruct (DCNP.build (set_seq 0 n) hop_distance (ProblemData.adjList_ pd)
                  numToRemove seeded) as [d0|e] eqn:Hb.
      * exists d0. split; [done|].
        by apply (DSpec.reach_build n hop_distance (ProblemData.adjList_ pd) numToRemove seeded).
      * exfalso. unfold DCNP.build in Hb. cbv zeta in Hb.
        edestruct buildTree_spec as (intree & treeSize & Hbuild & _); [|rewrite Hbuild in Hb; done].
        rewrite size_set_seq. split; simpl; [done | done | by rewrite length_replicate
                                             | by rewrite length_replicate].
Qed.

Lemma create_original_graph_checks_witness :
  ∃ g0, ProblemData.createOriginalGraph "CNP" 1 Examples.rng0 0 2
          (ProblemData.mk 3 (set_seq 0 3) Examples.path3) = Ok (GraphWrapper.Cnp g0) ∧
        ∃ g, CNP.updateGraphByRemovedNodes {[1]} g0 = Ok g ∧ CSpec.reachable g.
Proof.
  assert (Hedges : ∀ e, e ∈ [(0, 1); (1, 2)] → e.1 < 3 ∧ e.2 < 3 ∧ e.1 ≠ e.2).
  { intros e [->|[->|[]%elem_of_nil]%elem_of_cons]%elem_of_cons; simpl; lia. }
  assert (Hpd : ProblemData.of_edges 3 [(0, 1); (1, 2)]
                = Ok (ProblemData.mk 3 (set_seq 0 3) Examples.path3))
    by (vm_compute; reflexivity).
  assert (Hk : (1 ≤ Z.of_nat 3)%Z) by lia.
  destruct (create_original_graph_checks 3 [(0, 1); (1, 2)]
              (ProblemData.mk 3 (set_seq 0 3) Examples.path3) "CNP" 1 Examples.rng0 0 2
              Hedges Hpd) as (_ & _ & Hok).
  destruct (Hok Hk) as [(g0 & Hg0 & Hall) _].
  exists g0. split; [exact Hg0|].
  destruct (Hall {[1]}) as (g & Hup & Hr & _).
  { intros v ->%elem_of_singleton. lia. }
  exists g. split; [exact Hup | exact Hr].
Defined.

(** ** Random feasible solutions *)

Lemma swap_perm {A} `{!Inhabited A} (l : list A) i z :
  i < length l → (l !!! i) :: <[i := z]> l ≡ₚ z :: l.
Proof.
  revert i. induction l as [|a l IH]; intros [|i] Hi; simpl in *; try lia.
  - apply perm_swap.
  - change ((a :: l) !!! S i) with (l !!! i).
    rewrite perm_swap. rewrite (IH i) by lia. apply perm_swap.
Qed.

(** [availableNodes[i] = availableNodes.back(); availableNodes.pop_back()]
    takes the entry at [i] out of the vector. *)
Lemma swap_remove_perm (l : list nat) d i :
  i < length l → l ≡ₚ (l !!! i) :: take (length l - 1) (<[i := List.last l d]> l).
Proof.
  induction l as [|z l0 _] using rev_ind; intros Hi; [simpl in Hi; lia|].
  rewrite List.last_last, length_app. simpl.
  replace (length l0 + 1 - 1) with (length l0) by lia.
  rewrite length_app in Hi. simpl in Hi.
  destruct (decide (i < length l0)) as [Hlt|Hge].
  - rewrite insert_app_l by done. rewrite lookup_total_app_l by done.
    rewrite take_app_length' by (by rewrite length_insert).
    rewrite (swap_perm l0 i z Hlt). by rewrite Permutation_app_comm.
  - assert (i = length l0) as -> by lia.
    rewrite list_lookup_total_middle by done.
    rewrite insert_app_r_alt by lia. rewrite Nat.sub_diag. simpl.
    rewrite take_app_length. by rewrite Permutation_app_comm.
Qed.

Lemma random_solution_spec count : ∀ available sol rng,
  NoDup available → (∀ x, x ∈ available → x ∉ sol) →
  ∃ sol' rng',
    Seeding.random_solution count available sol rng = Ok (sol', rng') ∧
    base.size sol' = base.size sol + Nat.min count (length available) ∧
    sol ⊆ sol' ∧ ∀ x, x ∈ sol' → x ∈ sol ∨ x ∈ available.
Proof.
  induction count as [|count IH]; intros available sol rng Hnd Hdisj.
  { exists sol, rng. destruct available; (split; [done|]); (split; [simpl; lia|]);
      (split; [done|]); by left. }
  destruct available as [|a rest] eqn:Ha.
  { exists sol, rng. split; [done|]. split; [simpl; lia|]. split; [done|]. by left. }
  rewrite <- Ha in *. assert (Hlen : 0 < length available) by (rewrite Ha; simpl; lia).
  assert (Hstep : Seeding.random_solution (S count) available sol rng
                  = '(randomIndex, rng') ←
                      Rng.generateIndex (Z.of_nat (length available)) rng;
                    Seeding.random_solution count
                      (take (length (<[Z.to_nat randomIndex := List.last available 0]> available) - 1)
                         (<[Z.to_nat randomIndex := List.last available 0]> available))
                      (sol ∪ {[available !!! Z.to_nat randomIndex]}) rng')
    by (by rewrite Ha).
  rewrite Hstep. clear Hstep.
  destruct (generateIndex_returns (Z.of_nat (length available)) rng)
    as (idx & rng1 & Hgen & Hidx); [lia|].
  rewrite Hgen. cbn [mbind result_bind]. rewrite length_insert.
  set (i := Z.to_nat idx). set (node := available !!! i).
  set (rest' := take (length available - 1) (<[i := List.last available 0]> available)).
  assert (Hperm : available ≡ₚ node :: rest') by (apply swap_remove_perm; lia).
  assert (Hnd' : NoDup (node :: rest')) by (by rewrite <- Hperm).
  apply NoDup_cons in Hnd' as [Hnode Hrest].
  assert (Hlen' : length available = S (length rest')) by (by rewrite Hperm).
  destruct (IH rest' (sol ∪ {[node]}) rng1 Hrest) as (sol' & rng' & Hrun & Hsize & Hsub & Hin).
  { intros x Hx [Hs| ->%elem_of_singleton]%elem_of_union; [|done].
    apply (Hdisj x); [|done]. rewrite Hperm. by right. }
  exists sol', rng'. split; [done|]. split; [|split].
  - rewrite Hsize, size_union, size_singleton.
    + rewrite Hlen'. lia.
    + apply disjoint_singleton_r. apply Hdisj. rewrite Hperm. by left.
  - set_solver.
  - intros x Hx. destruct (Hin x Hx) as [[?| ->%elem_of_singleton]%elem_of_union|Hr].
    + by left.
    + right. rewrite Hperm. by left.
    + right. rewrite Hperm. by right.
Qed.

(** [getRandomFeasibleGraph] on an engine in a reachable state returns an
    engine in a reachable state whose removed set consists of
    [min(numToRemove, number of vertices)] distinct vertices of the graph (a
    negative [numToRemove] counts as 0); the engine it was called on keeps its
    state except for the generator. *)
Theorem random_feasible_graph_size :
  (∀ g, CSpec.reachable g →
     ∃ g' rng',
       Seeding.getRandomFeasibleGraph (GraphWrapper.Cnp g)
       = Ok (GraphWrapper.Cnp g', GraphWrapper.Cnp (CNP.set_rng_ rng' g)) ∧
       CSpec.reachable g' ∧
       base.size (CNP.removedNodes g')
       = Nat.min (Z.to_nat (CNP.numToRemove_ g)) (CNP.numNodes_ g) ∧
       ∀ v, v ∈ CNP.removedNodes g' → v < CNP.numNodes_ g) ∧
  (∀ d, DSpec.reachable d →
     ∃ d' rng',
       Seeding.getRandomFeasibleGraph (GraphWrapper.Dcnp d)
       = Ok (GraphWrapper.Dcnp d', GraphWrapper.Dcnp (DCNP.set_rng_ rng' d)) ∧
       DSpec.reachable d' ∧
       base.size (DCNP.removedNodes_ d')
       = Nat.min (Z.to_nat (DCNP.numToRemove_ d)) (base.size (DCNP.originalNodesSet_ d)) ∧
       DCNP.removedNodes_ d' ⊆ DCNP.originalNodesSet_ d).
Proof.
  split.
  - intros g Hr. pose proof (cnp_reachable_inv g Hr) as Hp.
    pose proof (CSpec.g_static g (CSpec.p_graph g ∅ Hp)) as Hst.
    destruct (random_solution_spec (Z.to_nat (CNP.numToRemove_ g))
                (elements (CNP.originalNodesSet_ g)) ∅ (CNP.rng_ g))
      as (sol & rng' & Hsol & Hsize & _ & Hin); [apply NoDup_elements | set_solver |].
    assert (Hrange : ∀ v, v ∈ sol → v < CNP.numNodes_ g).
    { intros v Hv. destruct (Hin v Hv) as [?|Hel]; [set_solver|].
      apply elem_of_elements in Hel. rewrite (CSpec.s_nodes g Hst) in Hel.
      apply elem_of_set_seq in Hel. lia. }
    destruct (updateGraphByRemovedNodes_static g sol Hst Hrange)
      as (g' & Hup & _ & _ & Hrem & _).
    exists g', rng'. cbn [Seeding.getRandomFeasibleGraph]. rewrite Hsol.
    cbn [mbind result_bind]. rewrite Hup. split; [done|].
    split; [by apply (CSpec.reach_set_removed_all sol g g')|].
    rewrite Hrem. split; [|done]. rewrite Hsize, size_empty.
    change (length (elements (CNP.originalNodesSet_ g)))
      with (base.size (CNP.originalNodesSet_ g)).
    by rewrite (CSpec.s_nodes g Hst), size_set_seq.
  - intros d Hr. destruct (reachable_inv d Hr) as [Hwf _].
    destruct (random_solution_spec (Z.to_nat (DCNP.numToRemove_ d))
                (elements (DCNP.originalNodesSet_ d)) ∅ (DCNP.rng_ d))
      as (sol & rng' & Hsol & Hsize & _ & Hin); [apply NoDup_elements | set_solver |].
    destruct (updateGraphByRemovedNodes_spec d sol Hwf) as (d' & Hup & _ & Hrem & _).
    exists d', rng'. cbn [Seeding.getRandomFeasibleGraph]. rewrite Hsol.
    cbn [mbind result_bind]. rewrite Hup. split; [done|].
    split; [by apply (DSpec.reach_set_removed_all sol d d')|].
    rewrite Hrem. split.
    + by rewrite Hsize, size_empty.
    + intros v Hv. destruct (Hin v Hv) as [?|Hel]; [set_solver|]. by apply elem_of_elements.
Qed.

Lemma random_feasible_graph_size_witness :
  CSpec.reachable (Examples.cnp_state 3 Examples.path3 ∅) ∧
  ∃ g' rng',
    Seeding.getRandomFeasibleGraph
      (GraphWrapper.Cnp (Examples.cnp_state 3 Examples.path3 ∅))
    = Ok (GraphWrapper.Cnp g',
          GraphWrapper.Cnp (CNP.set_rng_ rng' (Examples.cnp_state 3 Examples.path3 ∅))) ∧
    base.size (CNP.removedNodes g') = 1.
Proof.
  assert (Hr : CSpec.reachable (Examples.cnp_state 3 Examples.path3 ∅)).
  { apply (CSpec.reach_first 3 Examples.path3 1 Examples.rng0 0 ∅).
    - exact path3_valid.
    - intros v []%elem_of_empty.
    - vm_compute. reflexivity. }
  split; [exact Hr|].
  destruct (proj1 random_feasible_graph_size (Examples.cnp_state 3 Examples.path3 ∅) Hr)
    as (g' & rng' & Hrun & _ & Hsize & _).
  exists g', rng'. split; [exact Hrun|]. rewrite Hsize. vm_compute. reflexivity.
Defined.

(** ** The DCNP engine: choosing the vertex to add back *)

Lemma upairs_length n : 2 * length (upairs n) = n * (n - 1).
Proof.
  induction n as [|n IH]; [done|]. simpl. rewrite length_app, length_fmap, length_seq.
  destruct n; simpl in *; lia.
Qed.

Lemma dcnp_objective_bounds g :
  DSpec.inv g →
  (0 ≤ DCNP.getObjectiveValue g)%Z ∧
  (2 * DCNP.getObjectiveValue g ≤ Z.of_nat (DCNP.numNodes_ g) * Z.of_nat (DCNP.numNodes_ g))%Z.
Proof.
  intros Hi. rewrite (dcnp_objective_count g Hi). split; [lia|].
  pose proof (length_filter (dcnp_marked g) (upairs (DCNP.numNodes_ g))) as Hle.
  pose proof (upairs_length (DCNP.numNodes_ g)) as Hlen. nia.
Qed.

Lemma best_add_step_spec g m b L node :
  DSpec.inv g → node < DCNP.numNodes_ g → node ∈ DCNP.removedNodes_ g →
  DCNP.best_add_step (DCNP.calculateKhopTreeSize g) (g, m, b, L) node
  = Ok (let '(m', b', L') := tally_add g (m, b, L) node in (g, m', b', L')).
Proof.
  intros Hi Hn Hr. unfold DCNP.best_add_step.
  destruct (dcnp_add_remove g node Hi Hn Hr) as (g1 & Hadd & Hrm).
  rewrite Hadd. cbn [mbind result_bind]. cbv zeta.
  unfold tally_add, deterioration, DCNP.getObjectiveValue. rewrite Hadd.
  destruct (decide (_ < m)%Z); [by rewrite Hrm|].
  destruct (decide (_ = m)); by rewrite Hrm.
Qed.

Lemma best_add_fold g l :
  DSpec.inv g → (∀ i, i ∈ l → i < DCNP.numNodes_ g ∧ i ∈ DCNP.removedNodes_ g) →
  ∀ m b L,
  foldlM (DCNP.best_add_step (DCNP.calculateKhopTreeSize g)) l (g, m, b, L)
  = Ok (let '(m', b', L') := foldl (tally_add g) (m, b, L) l in (g, m', b', L')).
Proof.
  intros Hi. induction l as [|x l IH]; intros Hl m b L; [done|].
  cbn [foldlM]. destruct (Hl x) as [Hx Hxr]; [by left|].
  rewrite best_add_step_spec by done. cbn [mbind result_bind foldl].
  destruct (tally_add g (m, b, L) x) as [[m' b'] L'].
  apply IH. intros i Hin. apply Hl. by right.
Qed.

(** Once a first candidate is in, the list holds the minimisers met so far
    and [bestNode] is the first of them. *)
Lemma tally_add_fold g l :
  ∀ m b L w,
  head L = Some w → b = Z.of_nat w → (∀ x, x ∈ L → deterioration g x = m) →
  ∃ m' b' L' w',
    foldl (tally_add g) (m, b, L) l = (m', b', L') ∧
    head L' = Some w' ∧ b' = Z.of_nat w' ∧
    (∀ x, x ∈ L' → deterioration g x = m' ∧ (x ∈ L ∨ x ∈ l)) ∧
    (m' ≤ m)%Z ∧ ∀ y, y ∈ l → (m' ≤ deterioration g y)%Z.
Proof.
  induction l as [|a l IH]; intros m b L w Hhd Hb HL; cbn [foldl].
  { exists m, b, L, w. split; [done|]. split; [done|]. split; [done|].
    split; [intros x Hx; split; [by apply HL | by left]|]. split; [lia|].
    by intros y ?%elem_of_nil. }
  unfold tally_add at 2.
  destruct (decide (deterioration g a < m)%Z) as [Hlt|Hge].
  - destruct (IH (deterioration g a) (Z.of_nat a) [a] a) as (m' & b' & L' & w' & -> & H1 & H2 & H3 & H4 & H5);
      [done | done | by intros x ->%list_elem_of_singleton |].
    exists m', b', L', w'. split; [done|]. split; [done|]. split; [done|]. split; [|split; [lia|]].
    + intros x Hx. destruct (H3 x Hx) as [? [->%list_elem_of_singleton|?]];
        (split; [done|]); right; [by left | by right].
    + intros y [->|Hy]%elem_of_cons; [done | by apply H5].
  - destruct (decide (deterioration g a = m)) as [Heq|Hne].
    + destruct (IH m b (L ++ [a]) w) as (m' & b' & L' & w' & -> & H1 & H2 & H3 & H4 & H5).
      { destruct L; [done | done]. }
      { done. }
      { intros x [?| ->%list_elem_of_singleton]%elem_of_app; [by apply HL | done]. }
      exists m', b', L', w'. split; [done|]. split; [done|]. split; [done|].
      split; [|split; [done|]].
      * intros x Hx. destruct (H3 x Hx) as [? [[?| ->%list_elem_of_singleton]%elem_of_app|?]];
          (split; [done|]); [by left | right; by left | right; by right].
      * intros y [->|Hy]%elem_of_cons; [lia | by apply H5].
    + destruct (IH m b L w Hhd Hb HL) as (m' & b' & L' & w' & -> & H1 & H2 & H3 & H4 & H5).
      exists m', b', L', w'. split; [done|]. split; [done|]. split; [done|].
      split; [|split; [done|]].
      * intros x Hx. destruct (H3 x Hx) as [? [?|?]]; (split; [done|]);
          [by left | right; by right].
      * intros y [->|Hy]%elem_of_cons; [lia | by apply H5].
Qed.

Lemma deterioration_bound g w :
  DSpec.inv g → w < DCNP.numNodes_ g →
  (2 * deterioration g w ≤ Z.of_nat (DCNP.numNodes_ g) * Z.of_nat (DCNP.numNodes_ g))%Z.
Proof.
  intros Hi Hw. unfold deterioration.
  destruct (addNode_spec g w Hi Hw) as (it & ts & -> & Hi1).
  destruct (dcnp_objective_bounds _ Hi1) as [_ Hup].
  destruct (dcnp_objective_bounds g Hi) as [Hlo _].
  cbn [DCNP.numNodes_ DCNP.set_tables DCNP.set_removedNodes_] in Hup. lia.
Qed.

(** [findBestNodeToAdd] in a reachable state of the DCNP engine whose removed
    vertices are below [numNodes], with [numNodes² < 2³¹]: it returns and
    leaves the engine as it was except for the generator; with no removed
    vertex the result is [INVALID_NODE], otherwise it is a removed vertex
    whose tentative addition increases the objective least. *)
Theorem dcnp_find_best_to_add g :
  DSpec.reachable g → (∀ v, v ∈ DCNP.removedNodes_ g → v < DCNP.numNodes_ g) →
  (Z.of_nat (DCNP.numNodes_ g) * Z.of_nat (DCNP.numNodes_ g) < 2 ^ 31)%Z →
  ∃ r g',
    DCNP.findBestNodeToAdd g = Ok (r, g') ∧
    (g' = g ∨ ∃ rng', g' = DCNP.set_rng_ rng' g) ∧
    (DCNP.removedNodes_ g = ∅ → r = INVALID_NODE) ∧
    (DCNP.removedNodes_ g ≠ ∅ →
     ∃ w, r = Z.of_nat w ∧ w ∈ DCNP.removedNodes_ g ∧
          ∀ y, y ∈ DCNP.removedNodes_ g → (deterioration g w ≤ deterioration g y)%Z).
Proof.
  intros Hr Hrange Hsmall. pose proof (reachable_inv g Hr) as Hi.
  unfold DCNP.findBestNodeToAdd. cbv zeta.
  rewrite (best_add_fold g _ Hi)
    by (intros i Hin%elem_of_elements; split; [by apply Hrange | done]).
  destruct (elements (DCNP.removedNodes_ g)) as [|first rest] eqn:Hel.
  { apply elements_empty_inv in Hel. apply leibniz_equiv in Hel.
    cbn [foldl mbind result_bind]. unfold DCNP.pick_best. rewrite decide_False by (simpl; lia).
    exists INVALID_NODE, g. split; [done|]. split; [by left|]. split; [done|]. by intros ?. }
  assert (Hmem : ∀ x, x ∈ first :: rest ↔ x ∈ DCNP.removedNodes_ g)
    by (intros x; by rewrite <- Hel, elem_of_elements).
  assert (Hfirst : first ∈ DCNP.removedNodes_ g) by (apply Hmem; by left).
  cbn [foldl]. unfold tally_add at 2.
  rewrite decide_True.
  2:{ pose proof (deterioration_bound g first Hi (Hrange first Hfirst)).
      unfold DCNP.INT_MAX. lia. }
  destruct (tally_add_fold g rest (deterioration g first) (Z.of_nat first) [first] first)
    as (m' & b' & L' & w' & -> & Hhd & Hb & HL & Hle & Hmin);
    [done | done | by intros x ->%list_elem_of_singleton |].
  cbn [mbind result_bind]. unfold DCNP.pick_best.
  assert (Hgood : ∀ x, x ∈ L' →
            x ∈ DCNP.removedNodes_ g ∧
            ∀ y, y ∈ DCNP.removedNodes_ g → (deterioration g x ≤ deterioration g y)%Z).
  { intros x Hx. destruct (HL x Hx) as [Hdx Hin]. split.
    - apply Hmem. destruct Hin as [->%list_elem_of_singleton|?]; [by left | by right].
    - intros y [->|Hy]%Hmem%elem_of_cons; rewrite Hdx; [done | by apply Hmin]. }
  destruct (decide (1 < length L')) as [Hmany|Hfew].
  - destruct (generateIndex_returns (Z.of_nat (length L')) (DCNP.rng_ g))
      as (idx & rng' & Hgen & Hidx); [lia|].
    rewrite Hgen. cbn [mbind result_bind]. eexists _, _. split; [done|].
    split; [right; by exists rng'|]. split.
    + intros Hempty. rewrite Hempty in Hfirst. set_solver.
    + intros _. exists (L' !!! Z.to_nat idx). split; [done|]. apply Hgood.
      apply list_elem_of_lookup_2 with (Z.to_nat idx). apply list_lookup_lookup_total_lt. lia.
  - exists b', g. split; [done|]. split; [by left|]. split.
    + intros Hempty. rewrite Hempty in Hfirst. set_solver.
    + intros _. exists w'. split; [done|]. apply Hgood.
      destruct L' as [|x L']; [done|]. injection Hhd as ->. by left.
Qed.

Lemma dcnp_find_best_to_add_witness :
  DSpec.reachable (Examples.dcnp_state 3 2 Examples.path3 {[1]}) ∧
  ∃ r g',
    DCNP.findBestNodeToAdd (Examples.dcnp_state 3 2 Examples.path3 {[1]}) = Ok (r, g') ∧
    ∃ w, r = Z.of_nat w ∧ w ∈ DCNP.removedNodes_ (Examples.dcnp_state 3 2 Examples.path3 {[1]}).
Proof.
  assert (Hr : DSpec.reachable (Examples.dcnp_state 3 2 Examples.path3 {[1]}))
    by (apply path3_dcnp_reachable; vm_compute; reflexivity).
  assert (Hrem : DCNP.removedNodes_ (Examples.dcnp_state 3 2 Examples.path3 {[1]})
                 = ({[1]} : gset nat)) by (vm_compute; reflexivity).
  assert (Hrange : ∀ v, v ∈ DCNP.removedNodes_ (Examples.dcnp_state 3 2 Examples.path3 {[1]}) →
                        v < DCNP.numNodes_ (Examples.dcnp_state 3 2 Examples.path3 {[1]})).
  { intros v. rewrite Hrem. intros ->%elem_of_singleton. vm_compute. lia. }
  assert (Hsmall : (Z.of_nat (DCNP.numNodes_ (Examples.dcnp_state 3 2 Examples.path3 {[1%nat]}))
                    * Z.of_nat (DCNP.numNodes_ (Examples.dcnp_state 3 2 Examples.path3 {[1%nat]}))
                    < 2 ^ 31)%Z) by (vm_compute; reflexivity).
  assert (Hne : DCNP.removedNodes_ (Examples.dcnp_state 3 2 Examples.path3 {[1]}) ≠ ∅).
  { rewrite Hrem. intros Hs. apply (not_elem_of_empty (C := gset nat) 1). rewrite <- Hs.
    by apply elem_of_singleton. }
  split; [exact Hr|].
  destruct (dcnp_find_best_to_add (Examples.dcnp_state 3 2 Examples.path3 {[1]})
              Hr Hrange Hsmall) as (r & g' & Hfind & _ & _ & Hsome).
  destruct (Hsome Hne) as (w & Hw & Hin & _).
  exists r, g'. split; [exact Hfind|]. exists w. split; [exact Hw | exact Hin].
Defined.

(** ** The DCNP engine: deleting vertices from the graph *)

Lemma walk_elided_in (A B : list (gset nat)) (S : gset nat) n d v u :
  adj_sym n A → elided A B S → v < n →
  walk A S d v u → walk B ∅ d v u.
Proof.
  intros Hadj [Hlen HB] Hv. induction 1 as [v ?|d v u w Hw IH Hedge Hwl].
  - constructor. set_solver.
  - apply walk_S with u; [by apply IH | | set_solver].
    pose proof (walk_in_range n A S d v u Hadj Hv Hw) as Hu.
    destruct (walk_endpoints _ _ _ _ _ Hw) as [_ Hul].
    destruct Hadj as [HlenA _].
    rewrite HB by lia. rewrite decide_False by done. set_solver.
Qed.

Lemma walk_elided_out (A B : list (gset nat)) (S : gset nat) d v u :
  elided A B S → v ∉ S → walk B ∅ d v u → walk A S d v u.
Proof.
  intros [Hlen HB] Hv. induction 1 as [v ?|d v u w Hw IH Hedge Hwl]; [by constructor|].
  specialize (IH Hv). destruct (walk_endpoints _ _ _ _ _ IH) as [_ Hul].
  destruct (decide (u < length A)) as [Hu|Hu].
  - rewrite HB in Hedge by done. rewrite decide_False in Hedge by done.
    apply walk_S with u; [done | set_solver | set_solver].
  - rewrite list_lookup_total_alt, (lookup_ge_None_2 B u) in Hedge by lia. set_solver.
Qed.

Lemma walk_elided_stuck (A B : list (gset nat)) (S : gset nat) d v u :
  elided A B S → v ∈ S → walk B ∅ d v u → u = v.
Proof.
  intros [Hlen HB] Hv. induction 1 as [v ?|d v u w Hw IH Hedge Hwl]; [done|].
  specialize (IH Hv). subst u.
  destruct (decide (v < length A)) as [Hu|Hu].
  - rewrite HB in Hedge by done. rewrite decide_True in Hedge by done. set_solver.
  - rewrite list_lookup_total_alt, (lookup_ge_None_2 B v) in Hedge by lia. set_solver.
Qed.

Lemma within_elided (A B : list (gset nat)) (S : gset nat) n K v u :
  adj_sym n A → elided A B S → v < n → v ≠ u →
  within B ∅ K v u ↔ within A S K v u.
Proof.
  intros Hadj Hel Hv Hne. split; intros (d & Hd & Hw); exists d; (split; [done|]).
  - destruct (decide (v ∈ S)) as [Hin|Hout].
    + by apply (walk_elided_stuck A B S) in Hw.
    + by apply (walk_elided_out A B S).
  - by apply (walk_elided_in A B S n).
Qed.

Lemma reduce_fold_nodes cur (l : list nat) :
  ∀ ns B, (foldl (DCNP.reduce_step cur) (ns, B) l).1 = ns ∖ list_to_set l.
Proof.
  induction l as [|x l IH]; intros ns B; simpl; [set_solver|].
  rewrite IH. set_solver.
Qed.

Lemma getReduced_full (g : DCNP.DCNP_Graph) S :
  DSpec.wf g → (∀ v, v ∈ S → v < DCNP.numNodes_ g) →
  ∃ g', DCNP.getReducedGraphByRemovedNodes S g = Ok g' ∧ DSpec.inv g' ∧
        DCNP.removedNodes_ g' = ∅ ∧ DCNP.numNodes_ g' = DCNP.numNodes_ g ∧
        DCNP.kHops_ g' = DCNP.kHops_ g ∧
        DCNP.numToRemove_ g' = (DCNP.numToRemove_ g - Z.of_nat (base.size S))%Z ∧
        DCNP.originalNodesSet_ g' = DCNP.originalNodesSet_ g ∖ S ∧
        elided (DCNP.currentAdjList_ g) (DCNP.currentAdjList_ g') S.
Proof.
  intros [Hadj Horig Hlen Hts] HS. unfold DCNP.getReducedGraphByRemovedNodes.
  pose proof (reduce_step_fold (DCNP.currentAdjList_ g) (elements S)
                (DCNP.originalNodesSet_ g) (DCNP.originalAdjList_ g)) as Hsnd.
  pose proof (reduce_fold_nodes (DCNP.currentAdjList_ g) (elements S)
                (DCNP.originalNodesSet_ g) (DCNP.originalAdjList_ g)) as Hfst.
  destruct (foldl _ _ (elements S)) as [ns orig] eqn:Hfold. simpl in Hsnd, Hfst.
  assert (Hel' : elided (DCNP.currentAdjList_ g) orig (∅ ∪ list_to_set (elements S))).
  { rewrite Hsnd, Horig. eapply elide_fold_spec; [done| |apply elided_init].
    intros x Hx%elem_of_elements. by apply HS. }
  assert (Hel : elided (DCNP.currentAdjList_ g) orig S).
  { by rewrite list_to_set_elements_L, (left_id_L ∅ (∪)) in Hel'. }
  edestruct buildTree_spec as (intree & treeSize & Hbuild & Hinv); [|rewrite Hbuild].
  - split; simpl; [|done..]. by eapply elided_sym.
  - eexists. split; [done|]. split; [done|]. simpl. split; [done|]. split; [done|].
    split; [done|]. split; [done|]. split; [|done].
    rewrite Hfst, list_to_set_elements_L. done.
Qed.

(** [getReducedGraphByRemovedNodes(S)] on a reachable DCNP engine, for
    vertices [S] below [numNodes]: it returns an engine with an empty removed
    set, [numToRemove] lowered by [|S|], the vertices of [S] taken out of the
    vertex set and left without edges, and the same objective as
    [updateGraphByRemovedNodes(S)]: deleting vertices from the graph and
    marking them as removed give the same number of K-hop pairs. *)
Theorem dcnp_reduce_matches_update g S :
  DSpec.reachable g → (∀ v, v ∈ S → v < DCNP.numNodes_ g) →
  ∃ g_reduced g_updated,
    DCNP.getReducedGraphByRemovedNodes S g = Ok g_reduced ∧
    DCNP.updateGraphByRemovedNodes S g = Ok g_updated ∧
    DCNP.removedNodes_ g_reduced = ∅ ∧
    DCNP.numToRemove_ g_reduced = (DCNP.numToRemove_ g - Z.of_nat (base.size S))%Z ∧
    DCNP.originalNodesSet_ g_reduced = DCNP.originalNodesSet_ g ∖ S ∧
    (∀ v, v ∈ S → DCNP.currentAdjList_ g_reduced !!! v = ∅) ∧
    DCNP.getObjectiveValue g_reduced = DCNP.getObjectiveValue g_updated.
Proof.
  intros Hr HS. destruct (reachable_inv g Hr) as [Hwf _].
  destruct (getReduced_full g S Hwf HS) as (gr & Hred & Hir & Hrr & Hnr & Hkr & Hnum & Hns & Hel).
  pose proof Hwf as [Hadj Horig _ _].
  unfold DCNP.updateGraphByRemovedNodes.
  edestruct (buildTree_spec
               (DCNP.set_removedNodes_ S (DCNP.set_currentAdjList_ (DCNP.originalAdjList_ g) g)))
    as (intree & treeSize & Hbuild & Hiu).
  { destruct Hwf. split; simpl; [by rewrite Horig | done | done | done]. }
  rewrite Hbuild. eexists gr, _. split; [done|]. split; [done|]. split; [done|].
  split; [done|]. split; [done|]. split.
  { intros v Hv. destruct Hel as [_ HB]. destruct Hadj as [HlenA _].
    rewrite HB by (rewrite HlenA; by apply HS). by rewrite decide_True. }
  rewrite (dcnp_objective_count gr Hir), (dcnp_objective_count _ Hiu).
  cbn [DCNP.numNodes_ DCNP.set_tables DCNP.set_removedNodes_ DCNP.set_currentAdjList_].
  rewrite Hnr. do 2 f_equal. apply filter_ext_in. intros [u v] [Huv Hv]%upairs_spec.
  unfold dcnp_marked. cbn [fst snd].
  destruct Hir as [_ Hrowsr]. destruct Hiu as [_ Hrowsu].
  destruct (Hrowsr u) as [_ Hballr _]; [lia|].
  destruct (Hrowsu u) as [_ Hballu _]; [simpl; lia|].
  rewrite Hballr by lia. rewrite Hballu by (simpl; lia).
  cbn [DCNP.currentAdjList_ DCNP.removedNodes_ DCNP.kHops_ DCNP.set_tables
       DCNP.set_removedNodes_ DCNP.set_currentAdjList_].
  rewrite Hrr, Hkr, Horig.
  apply (within_elided _ _ S (DCNP.numNodes_ g)); [done | done | lia | lia].
Qed.

Lemma dcnp_reduce_matches_update_witness :
  DSpec.reachable (Examples.dcnp_state 3 2 Examples.path3 ∅) ∧
  ∃ g_reduced g_updated,
    DCNP.getReducedGraphByRemovedNodes {[1]} (Examples.dcnp_state 3 2 Examples.path3 ∅)
    = Ok g_reduced ∧
    DCNP.updateGraphByRemovedNodes {[1]} (Examples.dcnp_state 3 2 Examples.path3 ∅)
    = Ok g_updated ∧
    DCNP.getObjectiveValue g_reduced = DCNP.getObjectiveValue g_updated.
Proof.
  assert (Hr : DSpec.reachable (Examples.dcnp_state 3 2 Examples.path3 ∅))
    by (apply path3_dcnp_reachable; vm_compute; reflexivity).
  assert (HS : ∀ v, v ∈ ({[1]} : gset nat) →
                    v < DCNP.numNodes_ (Examples.dcnp_state 3 2 Examples.path3 ∅)).
  { intros v ->%elem_of_singleton. vm_compute. lia. }
  split; [exact Hr|].
  destruct (dcnp_reduce_matches_update (Examples.dcnp_state 3 2 Examples.path3 ∅) {[1]} Hr HS)
    as (gr & gu & Hred & Hup & _ & _ & _ & _ & Hobj).
  exists gr, gu. split; [exact Hred|]. split; [exact Hup | exact Hobj].
Defined.

(** ** The CNP engine: the gain of putting a vertex back *)













Section Gain.
Context (g g' : CNP.CNP_Graph) (v : nat).
Hypothesis Hp : CSpec.inv g.
Hypothesis Hp' : CSpec.inv g'.
Hypothesis Hv : v < CNP.numNodes_ g.
Hypothesis Hvr : v ∈ CNP.removedNodes g.
Hypothesis Hn : CNP.numNodes_ g' = CNP.numNodes_ g.
Hypothesis Hrem : CNP.removedNodes g' = CNP.removedNodes g ∖ {[v]}.
Hypothesis Horig : CNP.originalAdjList_ g' = CNP.originalAdjList_ g.










End Gain.



(** ** Drawing a vertex to remove *)

Lemma randomSelectNodeToRemove_returns g :
  CSpec.inv g → base.size (CNP.removedNodes g) < CNP.numNodes_ g →
  ∃ x g', CNPSelect.randomSelectNodeToRemove g = Ok (x, g') ∧
          x < CNP.numNodes_ g ∧ x ∉ CNP.removedNodes g ∧ same_structure g g'.
Proof.
  intros Hp Hlt. unfold CNPSelect.randomSelectNodeToRemove.
  pose proof (inv_some_component g Hp Hlt) as Hne.
  destruct (generateIndex_returns (Z.of_nat (length (CNP.connectedComponents_ g)))
              (CNP.rng_ g)) as (ci & r & Hgen & Hci).
  { destruct (CNP.connectedComponents_ g); [done | simpl; lia]. }
  rewrite Hgen. cbn [mbind result_bind].
  assert (Hc : Z.to_nat ci < length (CNP.connectedComponents_ g)) by lia.
  apply list_lookup_lookup_total_lt in Hc.
  destruct (CSpec.p_comp g ∅ Hp _ _ Hc) as (Hsz & _ & Hnil & Hmem).
  assert (Hpos : 0 < length (CNP.nodes (CNP.connectedComponents_ g !!! Z.to_nat ci))).
  { destruct (CNP.nodes (CNP.connectedComponents_ g !!! Z.to_nat ci));
      [by destruct Hnil | simpl; lia]. }
  rewrite (bool_decide_eq_false_2 (CNP.size _ = 0)) by lia.
  rewrite bool_decide_eq_false_2 by done. cbn [orb].
  destruct (generateIndex_returns
              (Z.of_nat (CNP.size (CNP.connectedComponents_ g !!! Z.to_nat ci))) r)
    as (idx & r' & Hgen' & Hidx); [lia|].
  rewrite Hgen'. cbn [mbind result_bind]. eexists _, _. split; [done|].
  assert (Hin : CNP.nodes (CNP.connectedComponents_ g !!! Z.to_nat ci) !!! Z.to_nat idx
                ∈ CNP.nodes (CNP.connectedComponents_ g !!! Z.to_nat ci)).
  { apply list_elem_of_lookup_2 with (Z.to_nat idx). apply list_lookup_lookup_total_lt. lia. }
  destruct (Hmem _ Hin) as (Hn & Hl & _ & _).
  split; [done|]. split; [done|]. apply same_structure_rng.
Qed.

(** [CNP_Graph::randomSelectNodeToRemove] in a reachable state: when every
    vertex is removed it raises [invalid_argument] (from [generateIndex(0)]);
    otherwise it returns a surviving vertex and changes nothing but the
    generator. *)
Theorem cnp_random_select_to_remove g :
  CSpec.reachable g →
  (base.size (CNP.removedNodes g) = CNP.numNodes_ g →
   CNPSelect.randomSelectNodeToRemove g = Throw invalid_argument) ∧
  (base.size (CNP.removedNodes g) < CNP.numNodes_ g →
   ∃ x g', CNPSelect.randomSelectNodeToRemove g = Ok (x, g') ∧
           x < CNP.numNodes_ g ∧ x ∉ CNP.removedNodes g ∧ same_structure g g').
Proof.
  intros Hr. pose proof (cnp_reachable_inv g Hr) as Hp. split.
  - intros Hall%(inv_components_empty g Hp).
    unfold CNPSelect.randomSelectNodeToRemove. rewrite Hall. done.
  - by apply randomSelectNodeToRemove_returns.
Qed.

Lemma cnp_random_select_to_remove_witness :
  CSpec.reachable (Examples.cnp_state 3 Examples.path3 {[1]}) ∧
  ∃ x g', CNPSelect.randomSelectNodeToRemove (Examples.cnp_state 3 Examples.path3 {[1]})
          = Ok (x, g') ∧
          x < CNP.numNodes_ (Examples.cnp_state 3 Examples.path3 {[1]}).
Proof.
  assert (Hr : CSpec.reachable (Examples.cnp_state 3 Examples.path3 {[1]})).
  { apply path3_cnp_reachable. intros v ->%elem_of_singleton. lia. }
  assert (Hlt : base.size (CNP.removedNodes (Examples.cnp_state 3 Examples.path3 {[1]}))
                < CNP.numNodes_ (Examples.cnp_state 3 Examples.path3 {[1]})).
  { vm_compute. lia. }
  split; [exact Hr|].
  destruct (proj2 (cnp_random_select_to_remove
                     (Examples.cnp_state 3 Examples.path3 {[1]}) Hr) Hlt)
    as (x & g' & Hsel & Hx & _).
  exists x, g'. split; [exact Hsel | exact Hx].
Defined.

(** [DCNP_Graph::randomSelectNodeToRemove]: with no vertex at all it raises
    [invalid_argument]; when every vertex is removed its [while] loop never
    ends, whatever the generator delivers; and a vertex it returns is below
    [numNodes] and not removed, the removed set and the objective being left
    as they were. *)
Theorem dcnp_random_select_to_remove g :
  (DCNP.numNodes_ g = 0 →
   ∀ fuel, Seeding.dcnp_randomSelectNodeToRemove fuel g = Throw invalid_argument) ∧
  (0 < DCNP.numNodes_ g → (∀ v, v < DCNP.numNodes_ g → v ∈ DCNP.removedNodes_ g) →
   ∀ fuel, Seeding.dcnp_randomSelectNodeToRemove fuel g = Throw out_of_fuel) ∧
  (∀ fuel v g', Seeding.dcnp_randomSelectNodeToRemove fuel g = Ok (v, g') →
     v < DCNP.numNodes_ g ∧ v ∉ DCNP.removedNodes_ g ∧
     DCNP.removedNodes_ g' = DCNP.removedNodes_ g ∧
     DCNP.getObjectiveValue g' = DCNP.getObjectiveValue g).
Proof.
  split; [|split].
  - intros Hn [|fuel]; simpl; unfold Rng.generateIndex; rewrite Hn;
      by rewrite decide_True by lia.
  - intros Hn Hall fuel. revert g Hn Hall.
    induction fuel as [|fuel IH]; intros g Hn Hall;
      destruct (generateIndex_returns (Z.of_nat (DCNP.numNodes_ g)) (DCNP.rng_ g))
        as (idx & r & Hgen & Hidx); try lia;
      simpl; rewrite Hgen; cbn [mbind result_bind];
      unfold DCNP.isNodeRemoved; rewrite bool_decide_eq_true_2 by (apply Hall; lia);
      [done|].
    by apply IH.
  - intros fuel. revert g. induction fuel as [|fuel IH]; intros g v g' Hsel;
      simpl in Hsel;
      destruct (Rng.generateIndex (Z.of_nat (DCNP.numNodes_ g)) (DCNP.rng_ g))
        as [[idx r]|e] eqn:Hgen; try done; cbn [mbind result_bind] in Hsel;
      (assert (Hidx : (0 ≤ idx < Z.of_nat (DCNP.numNodes_ g))%Z);
       [destruct (decide (0 < DCNP.numNodes_ g)) as [Hpos|Hz];
        [destruct (generateIndex_returns (Z.of_nat (DCNP.numNodes_ g)) (DCNP.rng_ g))
           as (idx' & r' & Hgen' & Hidx'); [lia|]; rewrite Hgen in Hgen';
         injection Hgen' as -> ->; done
        |unfold Rng.generateIndex in Hgen; by rewrite decide_True in Hgen by lia]|]);
      unfold DCNP.isNodeRemoved in Hsel; case_bool_decide as Hrem; try done.
    + injection Hsel as <- <-. split; [lia|]. by split.
    + destruct (IH _ v g' Hsel) as (H1 & H2 & H3 & H4). by repeat split.
    + injection Hsel as <- <-. split; [lia|]. by split.
Qed.

Lemma dcnp_random_select_to_remove_witness :
  Seeding.dcnp_randomSelectNodeToRemove 5
    (Examples.dcnp_state 3 2 Examples.path3 {[0; 1; 2]}) = Throw out_of_fuel.
Proof.
  assert (Hn : 0 < DCNP.numNodes_ (Examples.dcnp_state 3 2 Examples.path3 {[0; 1; 2]}))
    by (vm_compute; lia).
  assert (Hall : ∀ v, v < DCNP.numNodes_ (Examples.dcnp_state 3 2 Examples.path3 {[0; 1; 2]}) →
                      v ∈ DCNP.removedNodes_ (Examples.dcnp_state 3 2 Examples.path3 {[0; 1; 2]})).
  { replace (DCNP.removedNodes_ (Examples.dcnp_state 3 2 Examples.path3 {[0; 1; 2]}))
      with ({[0; 1; 2]} : gset nat) by (vm_compute; reflexivity).
    replace (DCNP.numNodes_ (Examples.dcnp_state 3 2 Examples.path3 {[0; 1; 2]}))
      with 3 by (vm_compute; reflexivity).
    intros v Hv. destruct v as [|[|[|v]]]; [set_solver | set_solver | set_solver | lia]. }
  exact (proj1 (proj2 (dcnp_random_select_to_remove
                         (Examples.dcnp_state 3 2 Examples.path3 {[0; 1; 2]}))) Hn Hall 5).
Defined.

(** ** The perturbation loop of [generateNonDuplicateSolution] *)

Lemma removed_size_lt g w :
  CSpec.inv g → w < CNP.numNodes_ g → w ∉ CNP.removedNodes g →
  base.size (CNP.removedNodes g) < CNP.numNodes_ g.
Proof.
  intros Hp Hw Hwl.
  assert (Hsub : CNP.removedNodes g ⊆ set_seq 0 (CNP.numNodes_ g) ∖ {[w]}).
  { intros x Hx. pose proof (inv_removed_range g x Hp Hx).
    apply elem_of_difference. split; [apply elem_of_set_seq; lia | set_solver]. }
  apply subseteq_size in Hsub.
  rewrite size_difference in Hsub by (apply singleton_subseteq_l, elem_of_set_seq; lia).
  rewrite size_set_seq, size_singleton in Hsub. lia.
Qed.

Lemma retry_cnp population fuel left : ∀ g,
  CSpec.inv g → CNP.removedNodes g ≠ ∅ →
  ∃ g', Seeding.retry left fuel population (GraphWrapper.Cnp g) = Ok (GraphWrapper.Cnp g') ∧
        CSpec.inv g' ∧ CNP.numNodes_ g' = CNP.numNodes_ g ∧
        base.size (CNP.removedNodes g') = base.size (CNP.removedNodes g) ∧
        (CNP.removedNodes g ∉ population → g' = g).
Proof.
  induction left as [|left IH]; intros g Hp Hne.
  { exists g. split; [done|]. split; [done|]. split; [done|]. by split. }
  cbn [Seeding.retry]. unfold Seeding.isDuplicate.
  cbn [GraphWrapper.getRemovedNodes]. case_bool_decide as Hdup.
  2:{ exists g. split; [done|]. split; [done|]. split; [done|]. by split. }
  cbn [GraphWrapper.isDCNP GraphWrapper.greedySelectNodeToAdd].
  destruct (greedySelect_spec g Hne) as (w & g1 & Hsel & Hw & Hs1).
  rewrite Hsel. cbn [mbind result_bind].
  rewrite decide_False by lia. rewrite Nat2Z.id. cbn [GraphWrapper.addNode].
  pose proof (same_structure_inv g g1 Hs1 Hp) as Hp1.
  destruct Hs1 as (Hn1 & _ & _ & _ & _ & _ & _ & _ & _ & Hr1).
  assert (Hwn : w < CNP.numNodes_ g1) by (rewrite Hn1; by apply inv_removed_range).
  destruct (cnp_addNode_spec g1 w Hp1 Hwn) as (g2 & Hadd & Hp2 & Hn2 & Hr2 & _);
    [by rewrite Hr1|].
  rewrite Hadd. cbn [fmap result_fmap mbind result_bind Seeding.randomSelectNodeToRemove].
  destruct (randomSelectNodeToRemove_returns g2 Hp2) as (x & g3 & Hrs & Hx & Hxl & Hs3).
  { apply (removed_size_lt g2 w Hp2); [lia | rewrite Hr2; set_solver]. }
  unfold GraphWrapper.lift_cnp. rewrite Hrs. cbn [mbind result_bind GraphWrapper.removeNode].
  pose proof (same_structure_inv g2 g3 Hs3 Hp2) as Hp3.
  destruct Hs3 as (Hn3 & _ & _ & _ & _ & _ & _ & _ & _ & Hr3).
  destruct (cnp_removeNode_spec g3 x Hp3) as (g4 & _ & _ & _ & _ & Hrm & Hp4 & Hn4 & Hr4 & _);
    [by rewrite Hn3 | by rewrite Hr3 |].
  rewrite Hrm. cbn [fmap result_fmap mbind result_bind].
  destruct (IH g4 Hp4) as (g' & Hretry & Hp' & Hn' & Hsz' & _).
  { rewrite Hr4. set_solver. }
  exists g'. split; [done|]. split; [done|]. split; [lia|]. split; [|done].
  rewrite Hsz', Hr4, Hr3, Hr2, Hr1.
  rewrite size_union by set_solver.
  rewrite size_difference by (by apply singleton_subseteq_l).
  rewrite !size_singleton.
  assert (1 ≤ base.size (CNP.removedNodes g)); [|lia].
  rewrite <- (size_singleton (C := gset nat) w). apply subseteq_size.
  by apply singleton_subseteq_l.
Qed.

(** The loop of [Population::generateNonDuplicateSolution] that perturbs a
    duplicate solution, on a reachable CNP engine.  With a removed vertex it
    returns (for at most [left] rounds of greedy add and random remove), the
    removed set keeps its size, and a solution that is not in the population
    is handed back untouched.  With an empty removed set that is already in
    the population it raises [runtime_error], because there is no vertex to
    add back. *)
Theorem retry_keeps_solution_size population fuel left g :
  CSpec.reachable g →
  (CNP.removedNodes g ≠ ∅ →
   ∃ g', Seeding.retry left fuel population (GraphWrapper.Cnp g) = Ok (GraphWrapper.Cnp g') ∧
         base.size (CNP.removedNodes g') = base.size (CNP.removedNodes g) ∧
         (CNP.removedNodes g ∉ population → g' = g)) ∧
  (CNP.removedNodes g = ∅ → ∅ ∈ population → 0 < left →
   Seeding.retry left fuel population (GraphWrapper.Cnp g) = Throw runtime_error).
Proof.
  intros Hr. pose proof (cnp_reachable_inv g Hr) as Hp. split.
  - intros Hne. destruct (retry_cnp population fuel left g Hp Hne)
      as (g' & Hretry & _ & _ & Hsz & Hsame).
    by exists g'.
  - intros Hempty Hin Hleft. destruct left as [|left]; [lia|].
    cbn [Seeding.retry]. unfold Seeding.isDuplicate.
    cbn [GraphWrapper.getRemovedNodes]. rewrite Hempty.
    rewrite bool_decide_eq_true_2 by done.
    cbn [GraphWrapper.isDCNP GraphWrapper.greedySelectNodeToAdd].
    unfold CNPSelect.greedySelectNodeToAdd. rewrite Hempty, elements_empty. done.
Qed.

Lemma retry_keeps_solution_size_witness :
  CSpec.reachable (Examples.cnp_state 3 Examples.path3 {[1]}) ∧
  ∃ g', Seeding.retry 10 5 [{[1]}] (GraphWrapper.Cnp (Examples.cnp_state 3 Examples.path3 {[1]}))
        = Ok (GraphWrapper.Cnp g') ∧
        base.size (CNP.removedNodes g')
        = base.size (CNP.removedNodes (Examples.cnp_state 3 Examples.path3 {[1]})).
Proof.
  assert (Hr : CSpec.reachable (Examples.cnp_state 3 Examples.path3 {[1]})).
  { apply path3_cnp_reachable. intros v ->%elem_of_singleton. lia. }
  assert (Hne : CNP.removedNodes (Examples.cnp_state 3 Examples.path3 {[1]}) ≠ ∅).
  { replace (CNP.removedNodes (Examples.cnp_state 3 Examples.path3 {[1]}))
      with ({[1]} : gset nat) by (vm_compute; reflexivity).
    intros Hs. apply (not_elem_of_empty (C := gset nat) 1). rewrite <- Hs.
    by apply elem_of_singleton. }
  split; [exact Hr|].
  destruct (proj1 (retry_keeps_solution_size [{[1]}] 5 10
                     (Examples.cnp_state 3 Examples.path3 {[1]}) Hr) Hne)
    as (g' & Hretry & Hsz & _).
  exists g'. split; [exact Hretry | exact Hsz].
Defined.

(** ** The double backbone based crossover *)

Lemma keep_first_step F s r x :
  ∃ s' r', DBX.keep_first F (s, r) x = (s', r') ∧ s' ⊆ s ∪ {[x]}.
Proof.
  unfold DBX.keep_first. case_bool_decide; [eexists _, _; split; [done|]; set_solver|].
  destruct (Rng.generateProbability r) as [p r'].
  destruct (negb _); eexists _, _; (split; [done|]); set_solver.
Qed.

Lemma keep_second_step s r x :
  ∃ s' r', DBX.keep_second (s, r) x = (s', r') ∧ s' ⊆ s ∪ {[x]}.
Proof.
  unfold DBX.keep_second. case_bool_decide; [eexists _, _; split; [done|]; set_solver|].
  destruct (Rng.generateProbability r) as [p r'].
  destruct (negb _); eexists _, _; (split; [done|]); set_solver.
Qed.

Lemma keep_first_fold F (l : list nat) : ∀ s r,
  (foldl (DBX.keep_first F) (s, r) l).1 ⊆ s ∪ list_to_set l.
Proof.
  induction l as [|x l IH]; intros s r; [simpl; set_solver|]. cbn [foldl].
  destruct (keep_first_step F s r x) as (s' & r' & -> & Hs).
  etrans; [apply IH|]. set_solver.
Qed.

Lemma keep_second_fold (l : list nat) : ∀ s r,
  (foldl DBX.keep_second (s, r) l).1 ⊆ s ∪ list_to_set l.
Proof.
  induction l as [|x l IH]; intros s r; [simpl; set_solver|]. cbn [foldl].
  destruct (keep_second_step s r x) as (s' & r' & -> & Hs).
  etrans; [apply IH|]. set_solver.
Qed.

Lemma remove_more_spec g0 count : ∀ g,
  CSpec.inv g → CNP.numNodes_ g = CNP.numNodes_ g0 →
  CNP.originalAdjList_ g = CNP.originalAdjList_ g0 →
  base.size (CNP.removedNodes g) + count ≤ CNP.numNodes_ g0 →
  ∃ g', DBX.remove_more count (GraphWrapper.Cnp g) = Ok (GraphWrapper.Cnp g') ∧
        CSpec.inv g' ∧ CNP.numNodes_ g' = CNP.numNodes_ g0 ∧
        CNP.originalAdjList_ g' = CNP.originalAdjList_ g0 ∧
        base.size (CNP.removedNodes g') = base.size (CNP.removedNodes g) + count.
Proof.
  induction count as [|count IH]; intros g Hp Hn Ho Hsz.
  { exists g. split; [done|]. split; [done|]. split; [done|]. split; [done | lia]. }
  destruct (pick_at_random g Hp) as (ci & g1 & x & g2 & Hsel & Hrs & Hs2 & Hx & Hxl); [lia|].
  pose proof (same_structure_inv g g2 Hs2 Hp) as Hp2.
  destruct Hs2 as (Hn2 & _ & _ & Ho2 & _ & _ & _ & _ & _ & Hr2).
  destruct (cnp_removeNode_spec g2 x Hp2) as (g3 & _ & _ & _ & _ & Hrm & Hp3 & Hn3 & Hr3 & _ & Ho3 & _);
    [by rewrite Hn2 | by rewrite Hr2 |].
  assert (Hsz3 : base.size (CNP.removedNodes g3) = S (base.size (CNP.removedNodes g))).
  { rewrite Hr3, Hr2, size_union by set_solver. rewrite size_singleton. lia. }
  destruct (IH g3 Hp3) as (g' & Hloop & Hp' & Hn' & Ho' & Hsz'); [lia | congruence | lia |].
  exists g'. split; [|split; [done|]; split; [done|]; split; [done | lia]].
  cbn [DBX.remove_more GraphWrapper.selectRemovedComponent]. unfold GraphWrapper.lift_cnp.
  rewrite Hsel. cbn [mbind result_bind GraphWrapper.randomSelectNodeFromComponent].
  unfold GraphWrapper.lift_cnp. rewrite Hrs. cbn [mbind result_bind GraphWrapper.removeNode].
  rewrite Hrm. cbn [fmap result_fmap mbind result_bind]. done.
Qed.

Lemma add_back_spec g0 count : ∀ g,
  CSpec.inv g → CNP.numNodes_ g = CNP.numNodes_ g0 →
  CNP.originalAdjList_ g = CNP.originalAdjList_ g0 →
  count ≤ base.size (CNP.removedNodes g) →
  ∃ g', DBX.add_back count (GraphWrapper.Cnp g) = Ok (GraphWrapper.Cnp g') ∧
        CSpec.inv g' ∧ CNP.numNodes_ g' = CNP.numNodes_ g0 ∧
        CNP.originalAdjList_ g' = CNP.originalAdjList_ g0 ∧
        base.size (CNP.removedNodes g') = base.size (CNP.removedNodes g) - count.
Proof.
  induction count as [|count IH]; intros g Hp Hn Ho Hsz.
  { exists g. split; [done|]. split; [done|]. split; [done|]. split; [done | lia]. }
  assert (Hne : CNP.removedNodes g ≠ ∅).
  { intros He. rewrite He, size_empty in Hsz. lia. }
  destruct (greedySelect_spec g Hne) as (w & g1 & Hsel & Hw & Hs1).
  pose proof (same_structure_inv g g1 Hs1 Hp) as Hp1.
  destruct Hs1 as (Hn1 & _ & _ & Ho1 & _ & _ & _ & _ & _ & Hr1).
  assert (Hwn : w < CNP.numNodes_ g1) by (rewrite Hn1; by apply inv_removed_range).
  destruct (cnp_addNode_spec g1 w Hp1 Hwn) as (g2 & Hadd & Hp2 & Hn2 & Hr2 & Ho2 & _);
    [by rewrite Hr1|].
  assert (Hsz2 : S (base.size (CNP.removedNodes g2)) = base.size (CNP.removedNodes g)).
  { rewrite Hr2, Hr1, size_difference by (by apply singleton_subseteq_l).
    rewrite size_singleton. lia. }
  destruct (IH g2 Hp2) as (g' & Hloop & Hp' & Hn' & Ho' & Hsz'); [lia | congruence | lia |].
  exists g'. split; [|split; [done|]; split; [done|]; split; [done | lia]].
  cbn [DBX.add_back GraphWrapper.greedySelectNodeToAdd].
  rewrite Hsel. cbn [mbind result_bind].
  rewrite decide_False by lia. rewrite Nat2Z.id. cbn [GraphWrapper.addNode].
  rewrite Hadd. cbn [fmap result_fmap mbind result_bind]. done.
Qed.

(** [doubleBackboneBasedCrossover] on a reachable CNP engine, with parents
    whose vertices are below [numNodes]: it returns, whatever the seeded
    generator delivers; the offspring has exactly as many removed vertices
    as the first parent, all of them vertices of the graph, and its objective
    is the one [updateGraphByRemovedNodes] computes for its removed set. *)
Theorem crossover_offspring_has_parent_size g MSolution FSolution seeded :
  CSpec.reachable g →
  (∀ v, v ∈ MSolution → v < CNP.numNodes_ g) →
  (∀ v, v ∈ FSolution → v < CNP.numNodes_ g) →
  ∃ g', DBX.doubleBackboneBasedCrossover (GraphWrapper.Cnp g) MSolution FSolution seeded
        = Ok (GraphWrapper.Cnp g') ∧
        base.size (CNP.removedNodes g') = base.size MSolution ∧
        (∀ v, v ∈ CNP.removedNodes g' → v < CNP.numNodes_ g) ∧
        ∃ ge, CNP.updateGraphByRemovedNodes (CNP.removedNodes g') g = Ok ge ∧
              CNP.getObjectiveValue ge = CNP.getObjectiveValue g'.
Proof.
  intros Hr HM HF. pose proof (cnp_reachable_inv g Hr) as Hp.
  unfold DBX.doubleBackboneBasedCrossover.
  pose proof (keep_first_fold FSolution (elements MSolution) ∅ seeded) as H1.
  destruct (foldl (DBX.keep_first FSolution) _ _) as [kept rng1]. cbn [fst] in H1.
  pose proof (keep_second_fold (elements FSolution) kept rng1) as H2.
  destruct (foldl DBX.keep_second _ _) as [nodesToRemove rng2]. cbn [fst] in H2.
  rewrite list_to_set_elements_L in H1, H2.
  assert (HS : ∀ v, v ∈ nodesToRemove → v < CNP.numNodes_ g).
  { intros v Hv. assert (v ∈ MSolution ∨ v ∈ FSolution) as [?|?] by set_solver;
      [by apply HM | by apply HF]. }
  assert (HMsz : base.size MSolution ≤ CNP.numNodes_ g).
  { rewrite <- (size_set_seq (C := gset nat) 0 (CNP.numNodes_ g)). apply subseteq_size.
    intros v Hv. apply elem_of_set_seq. pose proof (HM v Hv). lia. }
  destruct (updateGraphByRemovedNodes_static g nodesToRemove
              (CSpec.g_static g (CSpec.p_graph g ∅ Hp)) HS)
    as (g1 & Hup & Hp1 & Hn1 & Hr1 & Ho1).
  cbn [GraphWrapper.updateGraphByRemovedNodes]. rewrite Hup.
  cbn [fmap result_fmap mbind result_bind].
  assert (Hfinish : ∀ g', CSpec.inv g' → CNP.numNodes_ g' = CNP.numNodes_ g →
            CNP.originalAdjList_ g' = CNP.originalAdjList_ g →
            (∀ v, v ∈ CNP.removedNodes g' → v < CNP.numNodes_ g) ∧
            ∃ ge, CNP.updateGraphByRemovedNodes (CNP.removedNodes g') g = Ok ge ∧
                  CNP.getObjectiveValue ge = CNP.getObjectiveValue g').
  { intros g' Hp' Hn' Ho'. split.
    - intros v Hv. rewrite <- Hn'. by apply inv_removed_range.
    - apply scored_evaluates; [done|]. exists g'. split; [done|]. split; [done|]. by split. }
  destruct (decide (Z.of_nat (base.size nodesToRemove) < Z.of_nat (base.size MSolution))%Z)
    as [Hless|Hge].
  - destruct (remove_more_spec g
                (Z.to_nat (Z.of_nat (base.size MSolution) - Z.of_nat (base.size nodesToRemove)))
                g1 Hp1 Hn1 Ho1) as (g' & Hloop & Hp' & Hn' & Ho' & Hsz'); [rewrite Hr1; lia|].
    exists g'. split; [done|]. split; [rewrite Hsz', Hr1; lia|]. by apply Hfinish.
  - destruct (decide (Z.of_nat (base.size nodesToRemove) > Z.of_nat (base.size MSolution))%Z)
      as [Hmore|Heq].
    + destruct (add_back_spec g
                  (Z.to_nat (Z.of_nat (base.size nodesToRemove) - Z.of_nat (base.size MSolution)))
                  g1 Hp1 Hn1 Ho1) as (g' & Hloop & Hp' & Hn' & Ho' & Hsz'); [rewrite Hr1; lia|].
      exists g'. split; [done|]. split; [rewrite Hsz', Hr1; lia|]. by apply Hfinish.
    + exists g1. split; [done|]. split; [rewrite Hr1; lia|]. by apply Hfinish.
Qed.

Lemma crossover_offspring_has_parent_size_witness :
  CSpec.reachable (Examples.cnp_state 3 Examples.path3 ∅) ∧
  ∃ g', DBX.doubleBackboneBasedCrossover
          (GraphWrapper.Cnp (Examples.cnp_state 3 Examples.path3 ∅)) {[0]} {[2]} Examples.rng0
        = Ok (GraphWrapper.Cnp g') ∧
        base.size (CNP.removedNodes g') = base.size ({[0]} : gset nat).
Proof.
  assert (Hr : CSpec.reachable (Examples.cnp_state 3 Examples.path3 ∅)).
  { apply path3_cnp_reachable. intros v []%elem_of_empty. }
  assert (HM : ∀ v, v ∈ ({[0]} : gset nat) →
                    v < CNP.numNodes_ (Examples.cnp_state 3 Examples.path3 ∅)).
  { intros v ->%elem_of_singleton. vm_compute. lia. }
  assert (HF : ∀ v, v ∈ ({[2]} : gset nat) →
                    v < CNP.numNodes_ (Examples.cnp_state 3 Examples.path3 ∅)).
  { intros v ->%elem_of_singleton. vm_compute. lia. }
  split; [exact Hr|].
  destruct (crossover_offspring_has_parent_size
              (Examples.cnp_state 3 Examples.path3 ∅) {[0]} {[2]} Examples.rng0 Hr HM HF)
    as (g' & Hx & Hsz & _).
  exists g'. split; [exact Hx | exact Hsz].
Defined.

